(** * The write path of the storage engine and its concurrent task limiter

    A shallow embedding of [util/concurrent_task_limiter_impl.cc] and of the
    write path of [DBImpl] (WriteImpl, WriteImplWALOnly, MergeBatch,
    WriteToWAL, ConcurrentWriteToWAL, the status checks, PreprocessWrite,
    GetMaxTotalWalSize and DelayWrite), with the properties the
    specification states about them; then of the WAL leader of
    PipelinedWriteImpl, of UnorderedWriteMemtable,
    ThrottleLowPriWritesIfNeeded and GetWalPreallocateBlockSize, and of the
    memtable switch (WriteRecoverableState,
    SelectColumnFamiliesForAtomicFlush, AssignAtomicFlushSeq,
    MaybeFlushStatsCF, NotifyOnMemTableSealed, SwitchMemtable, SwitchWAL and
    HandleWriteBufferFull), with properties read off the code. *)

From Stdlib Require Import String ZArith List Bool Lia.
Import ListNotations.
Open Scope Z_scope.

(** ** Machine integers *)

(** [int32_t], two's complement. *)
Definition INT32_MAX : Z := 2147483647.
Definition INT32_MIN : Z := -2147483648.
Definition wrap32 (z : Z) : Z := (z + 2147483648) mod 4294967296 - 2147483648.

(** [uint64_t] and [size_t] (64 bits). *)
Definition wrap64 (z : Z) : Z := z mod 18446744073709551616.

(** ** Lists updated by index *)

Fixpoint update_nth {A} (n : nat) (f : A -> A) (l : list A) : list A :=
  match l, n with
  | [], _ => []
  | x :: r, O => f x :: r
  | x :: r, S k => x :: update_nth k f r
  end.

Fixpoint remove_nth {A} (n : nat) (l : list A) : list A :=
  match l, n with
  | [], _ => []
  | _ :: r, O => r
  | x :: r, S k => x :: remove_nth k r
  end.

(** * The concurrent task limiter *)

Module TaskLimiter.

(** The limiter object: a name, the cap and the count of outstanding tasks
    (two [std::atomic<int32_t>]). *)
Record ConcurrentTaskLimiterImpl := mkLimiter {
  name_ : string;
  max_outstanding_tasks_ : Z;
  outstanding_tasks_ : Z
}.

(** A token refers back to its limiter, here by the limiter's name. *)
Record TaskLimiterToken := mkToken { limiter_ : string }.

Definition NewConcurrentTaskLimiter (name : string) (limit : Z)
  : ConcurrentTaskLimiterImpl :=
  {| name_ := name; max_outstanding_tasks_ := limit; outstanding_tasks_ := 0 |}.

Definition GetName (l : ConcurrentTaskLimiterImpl) : string := name_ l.

Definition SetMaxOutstandingTask (limit : Z) (l : ConcurrentTaskLimiterImpl)
  : ConcurrentTaskLimiterImpl :=
  {| name_ := name_ l; max_outstanding_tasks_ := limit;
     outstanding_tasks_ := outstanding_tasks_ l |}.

Definition ResetMaxOutstandingTask (l : ConcurrentTaskLimiterImpl)
  : ConcurrentTaskLimiterImpl :=
  {| name_ := name_ l; max_outstanding_tasks_ := -1;
     outstanding_tasks_ := outstanding_tasks_ l |}.

Definition GetOutstandingTask (l : ConcurrentTaskLimiterImpl) : Z :=
  outstanding_tasks_ l.

Definition store_outstanding (v : Z) (l : ConcurrentTaskLimiterImpl)
  : ConcurrentTaskLimiterImpl :=
  {| name_ := name_ l; max_outstanding_tasks_ := max_outstanding_tasks_ l;
     outstanding_tasks_ := v |}.

(** The test of the [while] in GetToken:
    [force || limit < 0 || tasks < limit]. *)
Definition loop_test (force : bool) (limit tasks : Z) : bool :=
  force || (limit <? 0) || (tasks <? limit).

(** *** GetToken, one atomic access at a time

    The control points of a call of GetToken.  Between two steps of one
    thread, other threads may run. *)
Inductive frame :=
| AtEntry (force : bool)
| LimitLoaded (force : bool) (limit : Z)
| AtLoop (force : bool) (limit tasks : Z).

(** What a step leaves: the next control point, or the value returned. *)
Inductive progress :=
| Continue (f : frame)
| Returned (tok : option TaskLimiterToken).

(** [compare_exchange_weak(tasks, tasks + 1)]: it succeeds only when the
    counter still holds [tasks] (and the weak form may fail spuriously); on
    failure it loads the counter into [tasks]. *)
Definition GetToken_step (spurious : bool) (l : ConcurrentTaskLimiterImpl)
    (f : frame) : ConcurrentTaskLimiterImpl * progress :=
  match f with
  | AtEntry force => (l, Continue (LimitLoaded force (max_outstanding_tasks_ l)))
  | LimitLoaded force limit =>
      (l, Continue (AtLoop force limit (outstanding_tasks_ l)))
  | AtLoop force limit tasks =>
      if loop_test force limit tasks then
        if (outstanding_tasks_ l =? tasks) && negb spurious then
          (store_outstanding (wrap32 (tasks + 1)) l,
           Returned (Some (mkToken (name_ l))))
        else (l, Continue (AtLoop force limit (outstanding_tasks_ l)))
      else (l, Returned None)
  end.

(** A call of GetToken run by one thread while no other thread touches the
    limiter: the two loads, then the loop, whose first compare-exchange
    ends the call. *)
Definition resume (l : ConcurrentTaskLimiterImpl) (p : progress)
  : ConcurrentTaskLimiterImpl * progress :=
  match p with
  | Continue f => GetToken_step false l f
  | Returned r => (l, Returned r)
  end.

Definition GetToken (force : bool) (l : ConcurrentTaskLimiterImpl)
  : option TaskLimiterToken * ConcurrentTaskLimiterImpl :=
  let '(l1, p1) := GetToken_step false l (AtEntry force) in
  let '(l2, p2) := resume l1 p1 in
  let '(l3, p3) := resume l2 p2 in
  match p3 with
  | Returned r => (r, l3)
  | Continue _ => (None, l3)
  end.

(** [~TaskLimiterToken]: the atomic decrement, and whether the assertion
    [outstanding_tasks_ >= 0] after it holds. *)
Definition TaskLimiterToken_dtor (l : ConcurrentTaskLimiterImpl)
  : ConcurrentTaskLimiterImpl * bool :=
  let l' := store_outstanding (wrap32 (outstanding_tasks_ l - 1)) l in
  (l', 0 <=? outstanding_tasks_ l').

(** [~ConcurrentTaskLimiterImpl]: whether its assertion
    [outstanding_tasks_ == 0] holds. *)
Definition ConcurrentTaskLimiterImpl_dtor (l : ConcurrentTaskLimiterImpl)
  : bool :=
  outstanding_tasks_ l =? 0.

(** *** Threads sharing one limiter *)

(** A client thread: the call of GetToken it is in, if any, and the tokens
    it owns (each [std::unique_ptr] is destroyed once). *)
Record thread := mkThread {
  call : option frame;
  held : list TaskLimiterToken
}.

Record system := mkSystem {
  lim : ConcurrentTaskLimiterImpl;
  threads : list thread
}.

Inductive action :=
| Call (force : bool)        (* enter GetToken *)
| Step (spurious : bool)     (* next atomic access of the call in progress *)
| Drop (k : nat)             (* destroy the k-th token the thread owns *)
| SetMax (limit : Z)
| ResetMax.

Definition live_tokens (s : system) : nat :=
  list_sum (map (fun t => length (held t)) (threads s)).

(** One action of thread [tid].  An action that is not enabled (no such
    thread, a call already in progress, no call in progress, no such token)
    leaves the system as it is; [None] is a failed assertion. *)
Definition sys_step (s : system) (tid : nat) (a : action) : option system :=
  match a with
  | SetMax limit => Some (mkSystem (SetMaxOutstandingTask limit (lim s)) (threads s))
  | ResetMax => Some (mkSystem (ResetMaxOutstandingTask (lim s)) (threads s))
  | Call force =>
      match nth_error (threads s) tid with
      | Some (mkThread None h) =>
          Some (mkSystem (lim s)
                  (update_nth tid (fun _ => mkThread (Some (AtEntry force)) h)
                     (threads s)))
      | _ => Some s
      end
  | Step spurious =>
      match nth_error (threads s) tid with
      | Some (mkThread (Some f) h) =>
          let '(l', p) := GetToken_step spurious (lim s) f in
          let t' := match p with
                    | Returned (Some tok) => mkThread None (tok :: h)
                    | Returned None => mkThread None h
                    | Continue f' => mkThread (Some f') h
                    end in
          Some (mkSystem l' (update_nth tid (fun _ => t') (threads s)))
      | _ => Some s
      end
  | Drop k =>
      match nth_error (threads s) tid with
      | Some (mkThread c h) =>
          match nth_error h k with
          | Some _ =>
              let '(l', asserted) := TaskLimiterToken_dtor (lim s) in
              if asserted then
                Some (mkSystem l'
                        (update_nth tid (fun _ => mkThread c (remove_nth k h))
                           (threads s)))
              else None
          | None => Some s
          end
      | None => Some s
      end
  end.

Fixpoint run (s : system) (sched : list (nat * action)) : option system :=
  match sched with
  | [] => Some s
  | (tid, a) :: rest =>
      match sys_step s tid a with
      | Some s' => run s' rest
      | None => None
      end
  end.

(** The limiter as constructed, with [n] client threads that own nothing. *)
Definition init (name : string) (limit : Z) (n : nat) : system :=
  mkSystem (NewConcurrentTaskLimiter name limit) (repeat (mkThread None []) n).

(** The invariant of the system: the counter is the number of tokens owned
    by the threads. *)
Definition counts_live (s : system) : Prop :=
  outstanding_tasks_ (lim s) = Z.of_nat (live_tokens s).

End TaskLimiter.

(** * The write path of DBImpl *)

(** ** Statuses *)

(** Modelled from the spec: the status type ([Status], [IOStatus]) is
    declared in headers that are not among the sources.  Section 7 of the
    specification names the kinds used by the write path; a status carries
    its kind, a sub-kind (the fenced I/O error) and a message. *)
Inductive Code :=
| kOk | kCorruption | kNotSupported | kInvalidArgument | kIOError
| kIncomplete | kShutdownInProgress | kBusy.

Inductive SubCode := kNone | kIOFenced.

Record Status := mkStatus {
  code : Code;
  subcode : SubCode;
  state_ : string
}.

Definition IOStatus := Status.

Definition OK : Status := mkStatus kOk kNone "".
Definition Corruption (msg : string) : Status := mkStatus kCorruption kNone msg.
Definition NotSupported (msg : string) : Status := mkStatus kNotSupported kNone msg.
Definition InvalidArgument (msg : string) : Status :=
  mkStatus kInvalidArgument kNone msg.
Definition Incomplete (msg : string) : Status := mkStatus kIncomplete kNone msg.
Definition IOError (msg : string) : Status := mkStatus kIOError kNone msg.
Definition IOFenced (msg : string) : Status := mkStatus kIOError kIOFenced msg.
Definition Busy (msg : string) : Status := mkStatus kBusy kNone msg.

Definition ok (s : Status) : bool :=
  match code s with kOk => true | _ => false end.
Definition IsBusy (s : Status) : bool :=
  match code s with kBusy => true | _ => false end.
Definition IsIncomplete (s : Status) : bool :=
  match code s with kIncomplete => true | _ => false end.
Definition IsNotSupported (s : Status) : bool :=
  match code s with kNotSupported => true | _ => false end.
Definition IsIOFenced (s : Status) : bool :=
  match code s, subcode s with kIOError, kIOFenced => true | _, _ => false end.

(** Modelled from the spec: the text of a status (Status::ToString) is not
    among the sources; here the name of the kind followed by the message. *)
Definition ToString (s : Status) : string :=
  match code s with
  | kOk => "OK"
  | kCorruption => "Corruption: " ++ state_ s
  | kNotSupported => "Not implemented: " ++ state_ s
  | kInvalidArgument => "Invalid argument: " ++ state_ s
  | kIOError => "IO error: " ++ state_ s
  | kIncomplete => "Result incomplete: " ++ state_ s
  | kShutdownInProgress => "Shutdown in progress: " ++ state_ s
  | kBusy => "Resource busy: " ++ state_ s
  end%string.

Inductive BackgroundErrorReason := kWriteCallback | kMemTable.

(** ** Options *)

(** The write options the write path reads (section 6 of the
    specification). *)
Record WriteOptions := mkWriteOptions {
  sync : bool;
  disableWAL : bool;
  ignore_missing_column_families : bool;
  no_slowdown : bool;
  low_pri : bool;
  memtable_insert_hint_per_batch : bool
}.

(** The fields of [DBImpl] that are fixed while a write runs:
    [immutable_db_options_], [mutable_db_options_] and the members set when
    the database is opened. *)
Record DBOptions := mkDBOptions {
  enable_pipelined_write : bool;
  unordered_write : bool;
  allow_concurrent_memtable_write : bool;
  paranoid_checks : bool;
  use_fsync : bool;
  allow_2pc : bool;
  max_total_wal_size : Z;
  two_write_queues_ : bool;
  seq_per_batch_ : bool;
  batch_per_txn_ : bool;
  manual_wal_flush_ : bool;
  single_column_family_mode_ : bool;
  tracer_ : bool
}.

(** The two writer queues. *)
Inductive WriteThread := write_thread_ | nonmem_write_thread_.

Inductive AssignOrder := kDontAssignOrder | kDoAssignOrder.
Inductive PublishLastSeq := kDontPublishLastSeq | kDoPublishLastSeq.

(** [SequenceNumber] is [uint64_t]; this constant is declared with the
    file format, a header that is not among the sources: the largest
    56-bit number.  A writer carries it until a sequence is assigned. *)
Definition kMaxSequenceNumber : Z := 72057594037927935.

(** ** What a write does to the outside

    Every call that leaves the modelled functions (the log writer, the
    queue, the memtables, the error handler, the callbacks, the clock and
    the condition variables) is recorded, in program order; the call of a
    pre-release callback is recorded with the place of its writer in the
    group, its arguments and the status it returned. *)
Inductive Event :=
| EvTracerWrite
| EvLowPriRequest
| EvJoinBatchGroup (q : WriteThread)
| EvEnterAsBatchGroupLeader (q : WriteThread)
| EvExitAsBatchGroupLeader (q : WriteThread) (status : Status)
| EvExitAsBatchGroupFollower
| EvLaunchParallelMemTableWriters
| EvPipelinedWriteImpl
| EvWaitForPendingWrites
| EvSwitchWAL
| EvHandleWriteBufferFull
| EvTrimMemtableHistory
| EvScheduleFlushes
| EvBeginWriteStall
| EvEndWriteStall
| EvMutexLock
| EvMutexUnlock
| EvSleepForMicroseconds (micros : Z)
| EvBgCvWait
| EvLogSyncCvWait
| EvAddRecord (log_entry : string)
| EvFileSync (log_number : Z)
| EvDirFsync
| EvPreReleaseCallback (writer : nat) (seq : Z) (is_mem_disabled : bool)
                       (log_number : Z) (index : Z) (total : Z)
                       (returned : Status)
| EvInsertIntoGroup (sequence : Z)
| EvInsertInto (sequence : Z)
| EvSetBGError (s : Status) (reason : BackgroundErrorReason)
| EvMarkLogsSynced
| EvMarkLogsNotSynced
| EvFlushWAL
| EvSyncWAL
| EvSwitchCvNotifyAll.

(** A call either returns, or waits for ever on something the outside
    never delivers. *)
Inductive Outcome (A : Type) :=
| Done (a : A)
| Blocked.
Arguments Done {A} a.
Arguments Blocked {A}.

(** ** Write batches *)

(** The operations of [WriteBatch] and [WriteBatchInternal] the write path
    calls; their code is not among the sources, so the write path is
    modelled over any implementation of them.  [Append dst src wal_only]
    is the destination after the append, [SetSequence b s] the batch after
    its header is stamped, [Contents] the bytes handed to the log writer,
    [new_batch] a default-constructed batch. *)
Class WriteBatchInternal (WriteBatch : Type) := {
  Count : WriteBatch -> Z;
  HasMerge : WriteBatch -> bool;
  HasCommit : WriteBatch -> bool;
  HasRollback : WriteBatch -> bool;
  WalTerminationPoint_is_cleared : WriteBatch -> bool;
  IsLatestPersistentState : WriteBatch -> bool;
  Append : WriteBatch -> WriteBatch -> bool -> WriteBatch;
  SetSequence : WriteBatch -> Z -> WriteBatch;
  Contents : WriteBatch -> string;
  Clear : WriteBatch -> WriteBatch;
  new_batch : WriteBatch
}.

(** ** Version set, logs and the outside *)

(** Modelled from the spec: the sequence counters live in the version set,
    whose code is not among the sources (section 4.3): allocate is a
    fetch-and-add that returns the prior value, publish stores. *)
Record VersionSet := mkVersionSet {
  last_sequence_ : Z;
  last_allocated_sequence_ : Z;
  last_published_sequence_ : Z
}.

Definition LastSequence (v : VersionSet) : Z := last_sequence_ v.

Definition SetLastSequence (s : Z) (v : VersionSet) : VersionSet :=
  mkVersionSet s (last_allocated_sequence_ v) (last_published_sequence_ v).

Definition FetchAddLastAllocatedSequence (n : Z) (v : VersionSet)
  : Z * VersionSet :=
  (last_allocated_sequence_ v,
   mkVersionSet (last_sequence_ v) (wrap64 (last_allocated_sequence_ v + n))
                (last_published_sequence_ v)).

(** An entry of [logs_]. *)
Record LogWriterNumber := mkLogWriterNumber {
  number : Z;
  getting_synced : bool
}.

(** An entry of [alive_log_files_]. *)
Record LogFileNumberSize := mkLogFileNumberSize {
  lf_number : Z;
  size : Z;
  getting_flushed : bool
}.

Definition AddSize (n : Z) (f : LogFileNumberSize) : LogFileNumberSize :=
  mkLogFileNumberSize (lf_number f) (wrap64 (size f + n)) (getting_flushed f).

Fixpoint update_back {A} (f : A -> A) (l : list A) : list A :=
  match l with
  | [] => []
  | [x] => [f x]
  | x :: r => x :: update_back f r
  end.

(** What the error handler and the write controller show at one moment. *)
Record Snapshot := mkSnapshot {
  IsStopped : bool;        (* write_controller_.IsStopped() *)
  GetBGError : Status;     (* error_handler_.GetBGError() *)
  IsDBStopped : bool       (* error_handler_.IsDBStopped() *)
}.

(** The answers of the outside to one write: the code behind them (log
    writer, file system, memtables, writer queue, write controller, error
    handler, clock) is not among the sources. *)
Record Env := mkEnv {
  (* the write controller and the error handler when the write starts *)
  NeedSpeedupCompaction : bool;
  at_entry : Snapshot;
  NeedsDelay : bool;
  (* the steps of PreprocessWrite *)
  SwitchWAL : Status;
  ShouldFlush : bool;
  HandleWriteBufferFull : Status;
  trim_history_scheduler_Empty : bool;
  TrimMemtableHistory : Status;
  flush_scheduler_Empty : bool;
  ScheduleFlushes : Status;
  parallel_sync_finishes : bool;
  (* DelayWrite: the stop watch, the delay asked by the controller, what
     NeedsDelay() and NowMicros() give at each test of the sleep loop, and
     what the thread finds each time it holds the mutex again: after the
     sleep, then after each return of bg_cv_.Wait() *)
  start_time : Z;
  GetDelay : Z -> Z;
  ticks : list (bool * Z);
  after_sleep : Snapshot;
  wakeups : list Snapshot;
  (* the log *)
  AddRecord : string -> IOStatus;
  FileSync : Z -> IOStatus;
  DirFsync : IOStatus;
  MarkLogsSynced : Status;
  FlushWAL : Status;
  SyncWAL : Status;
  (* the writer queue and the memtables *)
  EnterAsBatchGroupLeader : Z;
  InsertIntoGroup : Status;
  InsertInto : Status;
  CompleteParallelMemTableWriter : bool;
  PipelinedWriteImpl : Status
}.

(** ** Writers and the state of the database *)

Section WritePath.
Context {WriteBatch : Type} {WBI : WriteBatchInternal WriteBatch}.

(** A pre-release callback: Callback(seq, is_mem_disabled, log_number,
    index, total). *)
Definition PreReleaseCallback : Type := Z -> bool -> Z -> Z -> Z -> Status.

(** A pre-commit callback: what Callback(db) returns, and whether it
    lets the write be batched with others. *)
Record WriteCallback := mkWriteCallback {
  Callback : Status;
  AllowWriteBatching : bool
}.

(** Modelled from the spec: the writer record and its predicates are
    declared in the write-thread header, which is not among the sources
    (section 3, Writer, and section 7: a pre-commit callback that returns
    non-OK sets the writer's callback status, and such a writer consumes no
    sequence).  A writer is created with an OK status and
    [kMaxSequenceNumber] as its sequence. *)
Record Writer := mkWriter {
  batch : WriteBatch;
  disable_wal : bool;
  disable_memtable : bool;
  batch_cnt : Z;
  pre_release_callback : option PreReleaseCallback;
  callback : option WriteCallback;
  callback_status : Status;
  status : Status;
  sequence : Z;
  log_used : Z;
  log_ref : Z
}.

Definition new_Writer (write_options : WriteOptions) (b : WriteBatch)
    (cb : option WriteCallback) (ref : Z) (dis_memtable : bool) (cnt : Z)
    (prc : option PreReleaseCallback) : Writer :=
  mkWriter b (disableWAL write_options) dis_memtable cnt prc cb OK OK
           kMaxSequenceNumber 0 ref.

Definition set_batch (v : WriteBatch) (x : Writer) : Writer :=
  mkWriter v (disable_wal x) (disable_memtable x) (batch_cnt x) (pre_release_callback x) (callback x) (callback_status x) (status x) (sequence x) (log_used x) (log_ref x).

Definition set_callback_status (v : Status) (x : Writer) : Writer :=
  mkWriter (batch x) (disable_wal x) (disable_memtable x) (batch_cnt x) (pre_release_callback x) (callback x) v (status x) (sequence x) (log_used x) (log_ref x).

Definition set_status (v : Status) (x : Writer) : Writer :=
  mkWriter (batch x) (disable_wal x) (disable_memtable x) (batch_cnt x) (pre_release_callback x) (callback x) (callback_status x) v (sequence x) (log_used x) (log_ref x).

Definition set_sequence (v : Z) (x : Writer) : Writer :=
  mkWriter (batch x) (disable_wal x) (disable_memtable x) (batch_cnt x) (pre_release_callback x) (callback x) (callback_status x) (status x) v (log_used x) (log_ref x).

Definition set_log_used (v : Z) (x : Writer) : Writer :=
  mkWriter (batch x) (disable_wal x) (disable_memtable x) (batch_cnt x) (pre_release_callback x) (callback x) (callback_status x) (status x) (sequence x) v (log_ref x).

(** CheckCallback runs the pre-commit callback, if any, and keeps its
    status. *)
Definition CheckCallback (w : Writer) : Writer * bool :=
  let w' := match callback w with
            | Some cb => set_callback_status (Callback cb) w
            | None => w
            end in
  (w', ok (callback_status w')).

Definition CallbackFailed (w : Writer) : bool :=
  match callback w with
  | Some _ => negb (ok (callback_status w))
  | None => false
  end.

Definition ShouldWriteToMemtable (w : Writer) : bool :=
  ok (status w) && negb (CallbackFailed w) && negb (disable_memtable w).

Definition FinalStatus (w : Writer) : Status :=
  if negb (ok (status w)) then status w
  else if negb (ok (callback_status w)) then callback_status w
  else status w.

(** The members of [DBImpl] the write path reads and writes. *)
Record DBImpl := mkDB {
  versions_ : VersionSet;
  logfile_number_ : Z;
  total_log_size_ : Z;
  log_empty_ : bool;
  log_dir_synced_ : bool;
  logs_ : list LogWriterNumber;
  alive_log_files_ : list LogFileNumberSize;
  tmp_batch_ : WriteBatch;
  cached_recoverable_state_ : WriteBatch;
  cached_recoverable_state_empty_ : bool;
  has_unpersisted_data_ : bool;
  pending_memtable_writes_ : Z;
  last_batch_group_size_ : Z;
  max_total_in_memory_state_ : Z
}.

Definition set_versions_ (v : VersionSet) (x : DBImpl) : DBImpl :=
  mkDB v (logfile_number_ x) (total_log_size_ x) (log_empty_ x) (log_dir_synced_ x) (logs_ x) (alive_log_files_ x) (tmp_batch_ x) (cached_recoverable_state_ x) (cached_recoverable_state_empty_ x) (has_unpersisted_data_ x) (pending_memtable_writes_ x) (last_batch_group_size_ x) (max_total_in_memory_state_ x).

Definition set_total_log_size_ (v : Z) (x : DBImpl) : DBImpl :=
  mkDB (versions_ x) (logfile_number_ x) v (log_empty_ x) (log_dir_synced_ x) (logs_ x) (alive_log_files_ x) (tmp_batch_ x) (cached_recoverable_state_ x) (cached_recoverable_state_empty_ x) (has_unpersisted_data_ x) (pending_memtable_writes_ x) (last_batch_group_size_ x) (max_total_in_memory_state_ x).

Definition set_log_empty_ (v : bool) (x : DBImpl) : DBImpl :=
  mkDB (versions_ x) (logfile_number_ x) (total_log_size_ x) v (log_dir_synced_ x) (logs_ x) (alive_log_files_ x) (tmp_batch_ x) (cached_recoverable_state_ x) (cached_recoverable_state_empty_ x) (has_unpersisted_data_ x) (pending_memtable_writes_ x) (last_batch_group_size_ x) (max_total_in_memory_state_ x).

Definition set_logs_ (v : list LogWriterNumber) (x : DBImpl) : DBImpl :=
  mkDB (versions_ x) (logfile_number_ x) (total_log_size_ x) (log_empty_ x) (log_dir_synced_ x) v (alive_log_files_ x) (tmp_batch_ x) (cached_recoverable_state_ x) (cached_recoverable_state_empty_ x) (has_unpersisted_data_ x) (pending_memtable_writes_ x) (last_batch_group_size_ x) (max_total_in_memory_state_ x).

Definition set_alive_log_files_ (v : list LogFileNumberSize) (x : DBImpl) : DBImpl :=
  mkDB (versions_ x) (logfile_number_ x) (total_log_size_ x) (log_empty_ x) (log_dir_synced_ x) (logs_ x) v (tmp_batch_ x) (cached_recoverable_state_ x) (cached_recoverable_state_empty_ x) (has_unpersisted_data_ x) (pending_memtable_writes_ x) (last_batch_group_size_ x) (max_total_in_memory_state_ x).

Definition set_tmp_batch_ (v : WriteBatch) (x : DBImpl) : DBImpl :=
  mkDB (versions_ x) (logfile_number_ x) (total_log_size_ x) (log_empty_ x) (log_dir_synced_ x) (logs_ x) (alive_log_files_ x) v (cached_recoverable_state_ x) (cached_recoverable_state_empty_ x) (has_unpersisted_data_ x) (pending_memtable_writes_ x) (last_batch_group_size_ x) (max_total_in_memory_state_ x).

Definition set_cached_recoverable_state_ (v : WriteBatch) (x : DBImpl) : DBImpl :=
  mkDB (versions_ x) (logfile_number_ x) (total_log_size_ x) (log_empty_ x) (log_dir_synced_ x) (logs_ x) (alive_log_files_ x) (tmp_batch_ x) v (cached_recoverable_state_empty_ x) (has_unpersisted_data_ x) (pending_memtable_writes_ x) (last_batch_group_size_ x) (max_total_in_memory_state_ x).

Definition set_cached_recoverable_state_empty_ (v : bool) (x : DBImpl) : DBImpl :=
  mkDB (versions_ x) (logfile_number_ x) (total_log_size_ x) (log_empty_ x) (log_dir_synced_ x) (logs_ x) (alive_log_files_ x) (tmp_batch_ x) (cached_recoverable_state_ x) v (has_unpersisted_data_ x) (pending_memtable_writes_ x) (last_batch_group_size_ x) (max_total_in_memory_state_ x).

Definition set_has_unpersisted_data_ (v : bool) (x : DBImpl) : DBImpl :=
  mkDB (versions_ x) (logfile_number_ x) (total_log_size_ x) (log_empty_ x) (log_dir_synced_ x) (logs_ x) (alive_log_files_ x) (tmp_batch_ x) (cached_recoverable_state_ x) (cached_recoverable_state_empty_ x) v (pending_memtable_writes_ x) (last_batch_group_size_ x) (max_total_in_memory_state_ x).

Definition set_pending_memtable_writes_ (v : Z) (x : DBImpl) : DBImpl :=
  mkDB (versions_ x) (logfile_number_ x) (total_log_size_ x) (log_empty_ x) (log_dir_synced_ x) (logs_ x) (alive_log_files_ x) (tmp_batch_ x) (cached_recoverable_state_ x) (cached_recoverable_state_empty_ x) (has_unpersisted_data_ x) v (last_batch_group_size_ x) (max_total_in_memory_state_ x).

Definition set_last_batch_group_size_ (v : Z) (x : DBImpl) : DBImpl :=
  mkDB (versions_ x) (logfile_number_ x) (total_log_size_ x) (log_empty_ x) (log_dir_synced_ x) (logs_ x) (alive_log_files_ x) (tmp_batch_ x) (cached_recoverable_state_ x) (cached_recoverable_state_empty_ x) (has_unpersisted_data_ x) (pending_memtable_writes_ x) v (max_total_in_memory_state_ x).

Variable opts : DBOptions.
Variable env : Env.

(** ** The status checks *)

Definition WriteStatusCheckOnLocked (st : Status) : list Event :=
  if paranoid_checks opts && negb (ok st) && negb (IsBusy st)
     && negb (IsIncomplete st)
  then [EvSetBGError st kWriteCallback] else [].

Definition WriteStatusCheck (st : Status) : list Event :=
  if paranoid_checks opts && negb (ok st) && negb (IsBusy st)
     && negb (IsIncomplete st)
  then [EvSetBGError st kWriteCallback] else [].

Definition IOStatusCheck (io_status : IOStatus) : list Event :=
  if (paranoid_checks opts && negb (ok io_status) && negb (IsBusy io_status)
      && negb (IsIncomplete io_status))
     || IsIOFenced io_status
  then [EvSetBGError io_status kWriteCallback] else [].

Definition MemTableInsertStatusCheck (st : Status) : list Event :=
  if negb (ok st) then [EvSetBGError st kMemTable] else [].

(** ** Preprocessing *)

Definition GetMaxTotalWalSize (db : DBImpl) : Z :=
  if max_total_wal_size opts =? 0
  then wrap64 (4 * max_total_in_memory_state_ db)
  else max_total_wal_size opts.

Definition kDelayInterval : Z := 1000.

(** The sleep loop of DelayWrite: whether it was left, whether it slept,
    and the sleeps.  Each element of [obs] is what NeedsDelay() and
    NowMicros() give at one test; when the outside has no more to give,
    the thread is still in the loop. *)
Fixpoint sleep_loop (stall_end : Z) (obs : list (bool * Z))
  : bool * bool * list Event :=
  match obs with
  | [] => (false, false, [])
  | (needs_delay, now) :: rest =>
      if needs_delay then
        if stall_end <=? now then (true, false, [])
        else
          let '(over, _, ev) := sleep_loop stall_end rest in
          (over, true, EvSleepForMicroseconds kDelayInterval :: ev)
      else (true, false, [])
  end.

Inductive WaitExit :=
| WaitReturned (s : Status)   (* a return from inside the loop *)
| WaitBlocked                 (* bg_cv_.Wait() never returns *)
| WaitOver (cur : Snapshot).  (* the test of the loop failed at [cur] *)

(** The loop on the background condition variable: [cur] is what the
    thread finds at the test, [later] what it finds after each return of
    bg_cv_.Wait(). *)
Fixpoint bg_wait_loop (no_slow : bool) (cur : Snapshot)
    (later : list Snapshot) {struct later} : WaitExit * bool * list Event :=
  if ok (GetBGError cur) && IsStopped cur then
    if no_slow then (WaitReturned (Incomplete "Write stall"), false, [])
    else
      match later with
      | [] => (WaitBlocked, true, [EvBeginWriteStall; EvBgCvWait])
      | nxt :: rest =>
          let '(x, _, ev) := bg_wait_loop no_slow nxt rest in
          (x, true, EvBeginWriteStall :: EvBgCvWait :: EvEndWriteStall :: ev)
      end
  else (WaitOver cur, false, []).

Record DelayResult := mkDelayResult {
  dw_outcome : Outcome Status;
  delayed : bool;
  dw_events : list Event
}.

(** DelayWrite from the wait loop on: [was_delayed] and [before] are the
    flag and the events of the sleeping part. *)
Definition delay_tail (write_options : WriteOptions) (cur : Snapshot)
    (was_delayed : bool) (before : list Event) : DelayResult :=
  let '(x, d, ev) := bg_wait_loop (no_slowdown write_options) cur (wakeups env) in
  match x with
  | WaitReturned s => mkDelayResult (Done s) (was_delayed || d) (before ++ ev)
  | WaitBlocked => mkDelayResult Blocked (was_delayed || d) (before ++ ev)
  | WaitOver last =>
      let s := OK in
      let s := if IsStopped last
               then Incomplete (ToString (GetBGError last)) else s in
      let s := if IsDBStopped last then GetBGError last else s in
      mkDelayResult (Done s) (was_delayed || d) (before ++ ev)
  end.

Definition DelayWrite (num_bytes : Z) (write_options : WriteOptions)
  : DelayResult :=
  let delay := GetDelay env num_bytes in
  if 0 <? delay then
    if no_slowdown write_options then
      mkDelayResult (Done (Incomplete "Write stall")) false []
    else
      let stall_end := wrap64 (start_time env + delay) in
      let '(over, slept, ev) := sleep_loop stall_end (ticks env) in
      if over then
        delay_tail write_options (after_sleep env) slept
          (EvBeginWriteStall :: EvMutexUnlock :: ev
           ++ [EvMutexLock; EvEndWriteStall])
      else
        mkDelayResult Blocked slept (EvBeginWriteStall :: EvMutexUnlock :: ev)
  else delay_tail write_options (at_entry env) false [].

(** The stall as section 4.5 of the specification describes it.  The
    thread sleeps while the controller still needs a delay and the deadline
    has not come; it waits on the background condition variable while no
    background error is set and the controller is stopped.  [stall_rounds]
    are the waits over the states the thread finds one after the other:
    when it must wait in the last of them too, that wait does not return. *)
Fixpoint take_while {A} (p : A -> bool) (l : list A) : list A :=
  match l with
  | [] => []
  | x :: r => if p x then x :: take_while p r else []
  end.

Definition still_delayed (stall_end : Z) (o : bool * Z) : bool :=
  fst o && (snd o <? stall_end).

Definition must_wait (s : Snapshot) : bool :=
  ok (GetBGError s) && IsStopped s.

Definition stall_rounds (found : list Snapshot) : list Event :=
  let m := length (take_while must_wait found) in
  if (m <? length found)%nat then
    concat (repeat [EvBeginWriteStall; EvBgCvWait; EvEndWriteStall] m)
  else
    concat (repeat [EvBeginWriteStall; EvBgCvWait; EvEndWriteStall] (pred m))
    ++ [EvBeginWriteStall; EvBgCvWait].

(** The result of PreprocessWrite: the status (or the thread blocked), the
    flag [*need_log_sync] on return, the database and the events. *)
Record PreprocessResult := mkPreprocessResult {
  pp_outcome : Outcome Status;
  pp_need_log_sync : bool;
  pp_db : DBImpl;
  pp_events : list Event
}.

Definition mark_getting_synced (l : LogWriterNumber) : LogWriterNumber :=
  mkLogWriterNumber (number l) true.

Definition PreprocessWrite (write_options : WriteOptions)
    (need_log_sync : bool) (db : DBImpl) : PreprocessResult :=
  let st := if IsDBStopped (at_entry env) then GetBGError (at_entry env)
            else OK in
  let '(st, ev1) :=
    if ok st && negb (single_column_family_mode_ opts)
       && (GetMaxTotalWalSize db <? total_log_size_ db)
    then (SwitchWAL env, [EvWaitForPendingWrites; EvSwitchWAL])
    else (st, []) in
  let '(st, ev2) :=
    if ok st && ShouldFlush env
    then (HandleWriteBufferFull env,
          [EvWaitForPendingWrites; EvHandleWriteBufferFull])
    else (st, []) in
  let '(st, ev3) :=
    if ok st && negb (trim_history_scheduler_Empty env)
    then (TrimMemtableHistory env, [EvTrimMemtableHistory])
    else (st, []) in
  let '(st, ev4) :=
    if ok st && negb (flush_scheduler_Empty env)
    then (ScheduleFlushes env, [EvWaitForPendingWrites; EvScheduleFlushes])
    else (st, []) in
  let before := ev1 ++ ev2 ++ ev3 ++ ev4 in
  let dw :=
    if ok st && (IsStopped (at_entry env) || NeedsDelay env)
    then DelayWrite (last_batch_group_size_ db) write_options
    else mkDelayResult (Done st) false [] in
  match dw_outcome dw with
  | Blocked => mkPreprocessResult Blocked need_log_sync db (before ++ dw_events dw)
  | Done st =>
      if ok st && need_log_sync then
        match logs_ db with
        | front :: _ =>
            if getting_synced front && negb (parallel_sync_finishes env) then
              mkPreprocessResult Blocked need_log_sync db
                (before ++ dw_events dw ++ [EvLogSyncCvWait])
            else
              mkPreprocessResult (Done st) true
                (set_logs_ (map mark_getting_synced (logs_ db)) db)
                (before ++ dw_events dw
                 ++ if getting_synced front then [EvLogSyncCvWait] else [])
        | [] => mkPreprocessResult (Done st) true db (before ++ dw_events dw)
        end
      else mkPreprocessResult (Done st) false db (before ++ dw_events dw)
  end.

(** The test of PreprocessWrite before it switches the WAL. *)
Definition switch_test (db : DBImpl) : bool :=
  ok (if IsDBStopped (at_entry env) then GetBGError (at_entry env) else OK)
  && negb (single_column_family_mode_ opts)
  && (GetMaxTotalWalSize db <? total_log_size_ db).

Definition ThrottleLowPriWritesIfNeeded (write_options : WriteOptions)
    (my_batch : WriteBatch) : Status * list Event :=
  if NeedSpeedupCompaction env then
    if allow_2pc opts && (HasCommit my_batch || HasRollback my_batch) then
      (OK, [])
    else if no_slowdown write_options then
      (Incomplete "Low priority write stall", [])
    else (OK, [EvLowPriRequest])
  else (OK, []).

(** ** Writing a group to the log *)

(** A write group is the list of its writers in queue order; the leader is
    the first of them, and a group is never empty. *)

(** What [merged_batch] points to when MergeBatch returns. *)
Inductive MergedBatch :=
| LeaderBatch (b : WriteBatch)   (* the leader's own batch *)
| TmpBatch (b : WriteBatch).     (* the scratch batch, after the appends *)

Record MergeResult := mkMergeResult {
  merged_batch : MergedBatch;
  write_with_wal : Z;
  to_be_cached_state : option nat   (* the writer whose batch is to be cached *)
}.

Fixpoint merge_loop (ws : list Writer) (pos : nat) (merged : WriteBatch)
    (n : Z) (cached : option nat) : MergeResult :=
  match ws with
  | [] => mkMergeResult (TmpBatch merged) n cached
  | writer :: rest =>
      if negb (CallbackFailed writer) then
        merge_loop rest (S pos) (Append merged (batch writer) true)
          (wrap64 (n + 1))
          (if IsLatestPersistentState (batch writer) then Some pos else cached)
      else merge_loop rest (S pos) merged n cached
  end.

Definition MergeBatch (write_group : list Writer) (tmp_batch : WriteBatch)
  : MergeResult :=
  match write_group with
  | [leader] =>
      if negb (CallbackFailed leader)
         && WalTerminationPoint_is_cleared (batch leader)
      then mkMergeResult (LeaderBatch (batch leader)) 1
             (if IsLatestPersistentState (batch leader) then Some 0%nat
              else None)
      else merge_loop write_group 0 tmp_batch 0 None
  | _ => merge_loop write_group 0 tmp_batch 0 None
  end.

(** The batch [merged_batch] points to. *)
Definition merged_contents (m : MergedBatch) : WriteBatch :=
  match m with LeaderBatch b | TmpBatch b => b end.

(** The scratch batch as section 4.4 of the specification describes it:
    the batches of the writers whose callback did not fail, appended to
    the scratch in the order of the group. *)
Definition scratch_of (write_group : list Writer) (tmp_batch : WriteBatch)
  : WriteBatch :=
  fold_left (fun merged writer => Append merged (batch writer) true)
            (filter (fun writer => negb (CallbackFailed writer)) write_group)
            tmp_batch.

(** The writers' [log_used] after a merge. *)
Definition assign_log_used (m : MergeResult) (write_group : list Writer)
    (logfile_number : Z) : list Writer :=
  match merged_batch m with
  | LeaderBatch _ => update_nth 0 (set_log_used logfile_number) write_group
  | TmpBatch _ =>
      if 1 <? write_with_wal m
      then map (set_log_used logfile_number) write_group
      else write_group
  end.

(** SetSequence on the merged batch: on the leader's batch it is the
    leader's batch that changes. *)
Definition stamp (m : MergeResult) (write_group : list Writer) (seq : Z)
  : WriteBatch * list Writer :=
  match merged_batch m with
  | LeaderBatch b =>
      (SetSequence b seq, update_nth 0 (set_batch (SetSequence b seq)) write_group)
  | TmpBatch b => (SetSequence b seq, write_group)
  end.

(** [cached_recoverable_state_ = *to_be_cached_state]. *)
Definition cache_state (m : MergeResult) (write_group : list Writer)
    (db : DBImpl) : DBImpl :=
  match to_be_cached_state m with
  | Some k =>
      match nth_error write_group k with
      | Some writer =>
          set_cached_recoverable_state_empty_ false
            (set_cached_recoverable_state_ (batch writer) db)
      | None => db
      end
  | None => db
  end.

Record WalResult := mkWalResult {
  wal_io_s : IOStatus;
  wal_log_used : Z;          (* what is stored through [log_used] *)
  wal_last_sequence : Z;     (* what is stored through [last_sequence] *)
  wal_db : DBImpl;
  wal_group : list Writer;
  wal_events : list Event
}.

(** WriteToWAL of one merged batch: the status of AddRecord, the log
    number, the size of the entry, the database and the events. *)
Definition WriteToWAL_batch (db : DBImpl) (merged : WriteBatch)
  : IOStatus * Z * Z * DBImpl * list Event :=
  let log_entry := Contents merged in
  let log_size := Z.of_nat (String.length log_entry) in
  let io_s := AddRecord env log_entry in
  let db1 := set_total_log_size_ (wrap64 (total_log_size_ db + log_size)) db in
  let db2 := set_alive_log_files_
               (update_back (AddSize log_size) (alive_log_files_ db1)) db1 in
  let db3 := set_log_empty_ false db2 in
  (io_s, logfile_number_ db, log_size, db3, [EvAddRecord log_entry]).

(** The loop that syncs every log, left at the first failure. *)
Fixpoint sync_logs (logs : list LogWriterNumber) (io_s : IOStatus)
  : IOStatus * list Event :=
  match logs with
  | [] => (io_s, [])
  | log :: rest =>
      let r := FileSync env (number log) in
      if ok r then
        let '(r', ev) := sync_logs rest r in (r', EvFileSync (number log) :: ev)
      else (r, [EvFileSync (number log)])
  end.

(** WriteToWAL of a write group (one write queue). *)
Definition WriteToWAL (db : DBImpl) (write_group : list Writer)
    (need_log_sync need_log_dir_sync : bool) (seq : Z) : WalResult :=
  let m := MergeBatch write_group (tmp_batch_ db) in
  let g1 := assign_log_used m write_group (logfile_number_ db) in
  let '(merged, g2) := stamp m g1 seq in
  let db1 := match merged_batch m with
             | TmpBatch _ => set_tmp_batch_ merged db
             | LeaderBatch _ => db
             end in
  let '(io_s, used, _, db2, ev) := WriteToWAL_batch db1 merged in
  let db3 := cache_state m g2 db2 in
  let '(io_s, ev_sync) :=
    if ok io_s && need_log_sync then
      let '(io_s', ev') := sync_logs (logs_ db3) io_s in
      if ok io_s' && need_log_dir_sync
      then (DirFsync env, ev' ++ [EvDirFsync])
      else (io_s', ev')
    else (io_s, []) in
  let db4 := match merged_batch m with
             | TmpBatch _ => set_tmp_batch_ (Clear (tmp_batch_ db3)) db3
             | LeaderBatch _ => db3
             end in
  mkWalResult io_s used seq db4 g2 (ev ++ ev_sync).

(** ConcurrentWriteToWAL (two write queues): the sequence is allocated
    under the log mutex, next to the append. *)
Definition ConcurrentWriteToWAL (db : DBImpl) (write_group : list Writer)
    (seq_inc : Z) : WalResult :=
  let m := MergeBatch write_group new_batch in
  let g1 := assign_log_used m write_group (logfile_number_ db) in
  let '(last_sequence, v) :=
    FetchAddLastAllocatedSequence seq_inc (versions_ db) in
  let db1 := set_versions_ v db in
  let seq := wrap64 (last_sequence + 1) in
  let '(merged, g2) := stamp m g1 seq in
  let '(io_s, used, _, db2, ev) := WriteToWAL_batch db1 merged in
  let db3 := cache_state m g2 db2 in
  mkWalResult io_s used last_sequence db3 g2 ev.

(** ** The default write mode: the leader *)

(** The accumulators of the leader's first loop over the group.  (The
    byte counts and the statistics are left out of the model.) *)
Record GroupTotals := mkTotals {
  total_count : Z;
  valid_batches : Z;
  pre_release_callback_cnt : Z;
  parallel : bool
}.

Fixpoint check_group (ws : list Writer) (acc : GroupTotals)
  : list Writer * GroupTotals :=
  match ws with
  | [] => ([], acc)
  | writer :: rest =>
      let '(writer, passed) := CheckCallback writer in
      let acc :=
        if passed then
          let to_mem := ShouldWriteToMemtable writer in
          mkTotals
            (if to_mem then wrap64 (total_count acc + Count (batch writer))
             else total_count acc)
            (wrap64 (valid_batches acc + batch_cnt writer))
            (match pre_release_callback writer with
             | Some _ => wrap64 (pre_release_callback_cnt acc + 1)
             | None => pre_release_callback_cnt acc
             end)
            (if to_mem then parallel acc && negb (HasMerge (batch writer))
             else parallel acc)
        else acc in
      let '(rest, acc) := check_group rest acc in
      (writer :: rest, acc)
  end.

(** The leader's second loop: it gives each writer whose callback did not
    fail its sequence and calls its pre-release callback; a callback that
    returns non-OK ends the loop.  [pos] is the place of the writer in the
    group.  The status returned is OK unless a callback failed. *)
Fixpoint assign_sequences (disable_mem : bool) (cnt : Z) (ws : list Writer)
    (pos : nat) (next_sequence index : Z)
  : list Writer * Status * list Event :=
  match ws with
  | [] => ([], OK, [])
  | writer :: rest =>
      if CallbackFailed writer then
        let '(rest, st, ev) :=
          assign_sequences disable_mem cnt rest (S pos) next_sequence index in
        (writer :: rest, st, ev)
      else
        let writer := set_sequence next_sequence writer in
        let advanced :=
          if seq_per_batch_ opts then wrap64 (next_sequence + batch_cnt writer)
          else if ShouldWriteToMemtable writer
               then wrap64 (next_sequence + Count (batch writer))
               else next_sequence in
        match pre_release_callback writer with
        | Some cb =>
            let ws := cb (sequence writer) disable_mem (log_used writer)
                         index cnt in
            let e := EvPreReleaseCallback pos (sequence writer) disable_mem
                       (log_used writer) index cnt ws in
            if ok ws then
              let '(rest, st, ev) :=
                assign_sequences disable_mem cnt rest (S pos) advanced
                  (wrap64 (index + 1)) in
              (writer :: rest, st, e :: ev)
            else (writer :: rest, ws, [e])
        | None =>
            let '(rest, st, ev) :=
              assign_sequences disable_mem cnt rest (S pos) advanced index in
            (writer :: rest, st, ev)
        end
  end.

(** The body of [if (status.ok())] in WriteImpl, from the first loop to
    the memtable phase, with the final values of its locals. *)
Record CommitResult := mkCommitResult {
  cm_status : Status;
  cm_io_s : IOStatus;
  cm_db : DBImpl;
  cm_group : list Writer;
  cm_seq_inc : Z;
  cm_current_sequence : Z;
  cm_last_sequence : Z;
  cm_in_parallel_group : bool;
  cm_log_used : option Z;
  cm_seq_used : option Z;
  cm_wal_events : list Event;        (* the WAL phase *)
  cm_callback_events : list Event;   (* the pre-release callbacks *)
  cm_memtable_events : list Event    (* the memtable phase *)
}.

(** The WAL phase of the leader: with one queue the group is written at
    sequence [last_sequence + 1]; with two queues the sequence is allocated
    next to the append, or alone when the WAL is disabled. *)
Definition wal_phase (write_options : WriteOptions) (last_sequence : Z)
    (need_log_sync need_log_dir_sync : bool) (db : DBImpl)
    (write_group : list Writer) (seq_inc : Z) : WalResult :=
  if negb (two_write_queues_ opts) then
    if negb (disableWAL write_options) then
      let r := WriteToWAL db write_group need_log_sync need_log_dir_sync
                 (wrap64 (last_sequence + 1)) in
      mkWalResult (wal_io_s r) (wal_log_used r) last_sequence (wal_db r)
        (wal_group r) (wal_events r)
    else mkWalResult OK 0 last_sequence db write_group []
  else
    if negb (disableWAL write_options) then
      ConcurrentWriteToWAL db write_group seq_inc
    else
      let '(old, v) := FetchAddLastAllocatedSequence seq_inc (versions_ db) in
      mkWalResult OK 0 old (set_versions_ v db) write_group [].

(** The memtable phase of the leader: the group after it, whether the
    followers were launched, what is stored through [seq_used], and the
    events.  Of WriteBatchInternal::InsertInto, whose code is not among
    the sources, the model keeps the status WriteImpl stores in
    [w.status]; the sequences of the writers stay as the leader's loop
    set them. *)
Definition memtable_phase (is_parallel : bool) (current_sequence : Z)
    (write_group : list Writer)
  : list Writer * bool * option Z * list Event :=
  if negb is_parallel then
    let g := update_nth 0 (set_status (InsertIntoGroup env)) write_group in
    (g, false, option_map sequence (hd_error g),
     [EvInsertIntoGroup current_sequence])
  else
    match write_group with
    | w :: rest =>
        if ShouldWriteToMemtable w then
          (set_status (InsertInto env) w :: rest, true, Some (sequence w),
           [EvLaunchParallelMemTableWriters; EvInsertInto (sequence w)])
        else (write_group, true, Some (sequence w),
              [EvLaunchParallelMemTableWriters])
    | [] => (write_group, true, None, [EvLaunchParallelMemTableWriters])
    end.

Definition commit_group (write_options : WriteOptions) (disable_mem : bool)
    (last_sequence : Z) (need_log_sync need_log_dir_sync : bool)
    (db : DBImpl) (write_group : list Writer) : CommitResult :=
  let '(g1, t) :=
    check_group write_group
      (mkTotals 0 0 0 (allow_concurrent_memtable_write opts
                       && (1 <? Z.of_nat (length write_group)))) in
  let seq_inc := if seq_per_batch_ opts then valid_batches t
                 else total_count t in
  let db1 := if disableWAL write_options
             then set_has_unpersisted_data_ true db else db in
  let wal := wal_phase write_options last_sequence need_log_sync
               need_log_dir_sync db1 g1 seq_inc in
  let io_s := wal_io_s wal in
  let current_sequence := wrap64 (wal_last_sequence wal + 1) in
  let last_sequence := wrap64 (wal_last_sequence wal + seq_inc) in
  let '(g3, st, ev_cb) :=
    if ok io_s then
      assign_sequences disable_mem (pre_release_callback_cnt t) (wal_group wal)
        0 current_sequence 0
    else (wal_group wal, io_s, []) in
  let '(g4, in_parallel, seq_used, ev_mem) :=
    if ok st then memtable_phase (parallel t) current_sequence g3
    else (g3, false, None, []) in
  mkCommitResult st io_s (wal_db wal) g4 seq_inc current_sequence last_sequence
    in_parallel
    (if negb (disableWAL write_options) then Some (wal_log_used wal) else None)
    seq_used (wal_events wal) ev_cb ev_mem.

(** What a call of WriteImpl or WriteImplWALOnly leaves: the status
    returned (unless the thread blocks), the database, the group as the
    leader leaves it, what is stored through [log_used] and [seq_used], the
    events, and the final values of three locals of a leader. *)
Record WriteResult := mkWriteResult {
  wr_outcome : Outcome Status;
  wr_db : DBImpl;
  wr_group : list Writer;
  wr_log_used : option Z;
  wr_seq_used : option Z;
  wr_events : list Event;
  (* the locals of a leader: [io_s] once the WAL phase is over, the
     group's sequence increment and its first sequence *)
  wr_io_s : option IOStatus;
  wr_seq_inc : Z;
  wr_current_sequence : Z
}.

(** The end of WriteImpl, after the body of [if (status.ok())]: the status
    checks, the sync of the logs, the exit of the group and the return.
    [entered] tells whether that body was run and [cm] is what it left. *)
Definition leader_finish (need_log_sync : bool) (w : Writer)
    (entered : bool) (cm : CommitResult) : WriteResult :=
  let st := cm_status cm in
  let w' := hd w (cm_group cm) in
  let ev_check :=
    if negb (CallbackFailed w') then
      if negb (ok (cm_io_s cm)) then IOStatusCheck (cm_io_s cm)
      else WriteStatusCheck st
    else [] in
  let '(st, ev_sync) :=
    if need_log_sync then
      let '(st1, e) :=
        if ok st then (MarkLogsSynced env, [EvMarkLogsSynced])
        else (st, [EvMarkLogsNotSynced]) in
      if two_write_queues_ opts then
        if manual_wal_flush_ opts then (FlushWAL env, e ++ [EvFlushWAL])
        else (SyncWAL env, e ++ [EvSyncWAL])
      else (st1, e)
    else (st, []) in
  let should_exit_batch_group :=
    if cm_in_parallel_group cm then CompleteParallelMemTableWriter env
    else true in
  let '(db2, ev_exit) :=
    if should_exit_batch_group then
      (if ok st
       then set_versions_
              (SetLastSequence (cm_last_sequence cm) (versions_ (cm_db cm)))
              (cm_db cm)
       else cm_db cm,
       MemTableInsertStatusCheck (status w')
       ++ [EvExitAsBatchGroupLeader write_thread_ st])
    else (cm_db cm, []) in
  let st := if ok st then FinalStatus w' else st in
  mkWriteResult (Done st) db2 (cm_group cm) (cm_log_used cm) (cm_seq_used cm)
    ([EvEnterAsBatchGroupLeader write_thread_]
     ++ cm_wal_events cm ++ cm_callback_events cm ++ cm_memtable_events cm
     ++ ev_check ++ ev_sync ++ ev_exit)
    (if entered then Some (cm_io_s cm) else None)
    (cm_seq_inc cm) (cm_current_sequence cm).

(** WriteImpl once PreprocessWrite has returned: from the release of the
    mutex to the return.  [st], [need_log_sync] and [db] are as
    PreprocessWrite left them, [last_sequence] is the local of that name,
    and the group is [w] followed by the writers EnterAsBatchGroupLeader
    puts after it. *)
Definition WriteImpl_after_preprocess (write_options : WriteOptions)
    (disable_mem : bool) (st : Status)
    (need_log_sync need_log_dir_sync : bool) (last_sequence : Z)
    (db : DBImpl) (w : Writer) (others : list Writer) : WriteResult :=
  let db1 := set_last_batch_group_size_ (EnterAsBatchGroupLeader env) db in
  let write_group := w :: others in
  leader_finish need_log_sync w (ok st)
    (if ok st then
       commit_group write_options disable_mem last_sequence need_log_sync
         need_log_dir_sync db1 write_group
     else mkCommitResult st OK db1 write_group 0 0 last_sequence false
            None None [] [] []).

Definition with_events (ev : list Event) (r : WriteResult) : WriteResult :=
  mkWriteResult (wr_outcome r) (wr_db r) (wr_group r) (wr_log_used r)
    (wr_seq_used r) (ev ++ wr_events r) (wr_io_s r) (wr_seq_inc r)
    (wr_current_sequence r).

(** WriteImpl from the point where the writer [w] has become the leader of
    the main queue. *)
Definition WriteImpl_leader (write_options : WriteOptions)
    (disable_mem : bool) (db : DBImpl) (w : Writer) (others : list Writer)
  : WriteResult :=
  let need_log_sync := sync write_options in
  let need_log_dir_sync := need_log_sync && negb (log_dir_synced_ db) in
  let pp :=
    if negb (two_write_queues_ opts) || negb disable_mem
    then PreprocessWrite write_options need_log_sync db
    else mkPreprocessResult (Done OK) need_log_sync db [] in
  match pp_outcome pp with
  | Blocked => mkWriteResult Blocked (pp_db pp) (w :: others) None None
                 (pp_events pp) None 0 0
  | Done st =>
      let last_sequence :=
        if negb (two_write_queues_ opts)
        then LastSequence (versions_ (pp_db pp)) else kMaxSequenceNumber in
      with_events (pp_events pp)
        (WriteImpl_after_preprocess write_options disable_mem st
           (pp_need_log_sync pp) need_log_dir_sync last_sequence (pp_db pp)
           w others)
  end.

(** ** The WAL-only path: the leader *)

Fixpoint check_group_wal_only (ws : list Writer) (cnt : Z)
  : list Writer * Z :=
  match ws with
  | [] => ([], cnt)
  | writer :: rest =>
      let '(writer, passed) := CheckCallback writer in
      let cnt :=
        if passed then
          match pre_release_callback writer with
          | Some _ => wrap64 (cnt + 1)
          | None => cnt
          end
        else cnt in
      let '(rest, cnt) := check_group_wal_only rest cnt in
      (writer :: rest, cnt)
  end.

Fixpoint total_batch_cnt (ws : list Writer) (acc : Z) : Z :=
  match ws with
  | [] => acc
  | writer :: rest =>
      total_batch_cnt rest
        (if negb (CallbackFailed writer) then wrap64 (acc + batch_cnt writer)
         else acc)
  end.

(** The loop that gives the writers their sequences; it also counts the
    writers that go on to write to a memtable. *)
Fixpoint assign_order_loop (assign_order : AssignOrder) (ws : list Writer)
    (curr_seq memtable_write_cnt : Z) : list Writer * Z :=
  match ws with
  | [] => ([], memtable_write_cnt)
  | writer :: rest =>
      if CallbackFailed writer then
        let '(rest, n) :=
          assign_order_loop assign_order rest curr_seq memtable_write_cnt in
        (writer :: rest, n)
      else
        let writer := set_sequence curr_seq writer in
        let curr_seq :=
          match assign_order with
          | kDoAssignOrder => wrap64 (curr_seq + batch_cnt writer)
          | kDontAssignOrder => curr_seq
          end in
        let memtable_write_cnt :=
          if negb (disable_memtable writer)
          then wrap64 (memtable_write_cnt + 1) else memtable_write_cnt in
        let '(rest, n) :=
          assign_order_loop assign_order rest curr_seq memtable_write_cnt in
        (writer :: rest, n)
  end.

(** The loop over the pre-release callbacks, left at the first that
    returns non-OK. *)
Fixpoint pre_release_loop (disable_mem : bool) (cnt : Z) (ws : list Writer)
    (pos : nat) (index : Z) : Status * list Event :=
  match ws with
  | [] => (OK, [])
  | writer :: rest =>
      match (if CallbackFailed writer then None
             else pre_release_callback writer) with
      | Some cb =>
          let ws := cb (sequence writer) disable_mem (log_used writer)
                       index cnt in
          let e := EvPreReleaseCallback pos (sequence writer) disable_mem
                     (log_used writer) index cnt ws in
          if ok ws then
            let '(st, ev) :=
              pre_release_loop disable_mem cnt rest (S pos) (wrap64 (index + 1)) in
            (st, e :: ev)
          else (ws, [e])
      | None => pre_release_loop disable_mem cnt rest (S pos) index
      end
  end.

(** The WAL phase of the WAL-only leader. *)
Definition wal_only_phase (write_options : WriteOptions) (db : DBImpl)
    (write_group : list Writer) (seq_inc : Z) : WalResult :=
  if negb (disableWAL write_options) then
    ConcurrentWriteToWAL db write_group seq_inc
  else
    let '(old, v) := FetchAddLastAllocatedSequence seq_inc (versions_ db) in
    mkWalResult OK 0 old (set_versions_ v db) write_group [].

(** The sync a WAL-only leader does when the write asks for one. *)
Definition wal_only_sync (write_options : WriteOptions) (st : Status)
  : Status * list Event :=
  if ok st && sync write_options then
    if manual_wal_flush_ opts then (FlushWAL env, [EvFlushWAL])
    else (SyncWAL env, [EvSyncWAL])
  else (st, []).

(** WriteImplWALOnly once the preliminary checks are over: [st] and [db0]
    are as they left them ([st] is OK when there are none). *)
Definition WriteImplWALOnly_after_preprocess (q : WriteThread)
    (write_options : WriteOptions) (assign_order : AssignOrder)
    (publish_last_seq : PublishLastSeq) (disable_mem : bool) (st : Status)
    (db0 : DBImpl) (w : Writer) (others : list Writer) : WriteResult :=
  let write_group := w :: others in
  if negb (ok st) then
    mkWriteResult (Done st) db0 write_group None None
      [EvEnterAsBatchGroupLeader q; EvExitAsBatchGroupLeader q st] None 0 0
  else
    let checked := check_group_wal_only write_group 0 in
    let cnt := snd checked in
    let seq_inc :=
      match assign_order with
      | kDoAssignOrder => total_batch_cnt (fst checked) 0
      | kDontAssignOrder => 0
      end in
    let wal := wal_only_phase write_options db0 (fst checked) seq_inc in
    let io_s := wal_io_s wal in
    let st := if negb (disableWAL write_options) then io_s else st in
    let last_sequence := wal_last_sequence wal in
    let assigned :=
      assign_order_loop assign_order (wal_group wal)
        (wrap64 (last_sequence + 1)) 0 in
    let g2 := fst assigned in
    let memtable_write_cnt := snd assigned in
    let synced := wal_only_sync write_options st in
    let st := fst synced in
    let w' := hd w g2 in
    let ev_check :=
      if negb (CallbackFailed w') then
        if negb (ok io_s) then IOStatusCheck io_s
        else WriteStatusCheck st
      else [] in
    let called :=
      if ok st then pre_release_loop disable_mem cnt g2 0 0
      else (st, []) in
    let st := fst called in
    let db1 :=
      match publish_last_seq with
      | kDoPublishLastSeq =>
          set_versions_
            (SetLastSequence (wrap64 (last_sequence + seq_inc))
               (versions_ (wal_db wal))) (wal_db wal)
      | kDontPublishLastSeq => wal_db wal
      end in
    let db2 :=
      if unordered_write opts && ok st
      then set_pending_memtable_writes_
             (wrap64 (pending_memtable_writes_ db1 + memtable_write_cnt)) db1
      else db1 in
    let final := if ok st then FinalStatus w' else st in
    mkWriteResult (Done final) db2 g2
      (if negb (disableWAL write_options) then Some (wal_log_used wal)
       else None)
      (Some (sequence w'))
      ([EvEnterAsBatchGroupLeader q] ++ wal_events wal
       ++ snd synced ++ ev_check ++ snd called
       ++ [EvExitAsBatchGroupLeader q st])
      (Some io_s) seq_inc (wrap64 (last_sequence + 1)).

(** WriteImplWALOnly from the point where the writer [w] has become the
    leader of the queue [q]. *)
Definition WriteImplWALOnly_leader (q : WriteThread)
    (write_options : WriteOptions) (assign_order : AssignOrder)
    (publish_last_seq : PublishLastSeq) (disable_mem : bool) (db : DBImpl)
    (w : Writer) (others : list Writer) : WriteResult :=
  match publish_last_seq with
  | kDoPublishLastSeq =>
      let st := if IsDBStopped (at_entry env) then GetBGError (at_entry env)
                else OK in
      if ok st then
        let pp := PreprocessWrite write_options false db in
        match pp_outcome pp with
        | Blocked =>
            mkWriteResult Blocked (pp_db pp) (w :: others) None None
              (pp_events pp) None 0 0
        | Done st =>
            with_events (pp_events pp ++ WriteStatusCheckOnLocked st)
              (WriteImplWALOnly_after_preprocess q write_options assign_order
                 publish_last_seq disable_mem st (pp_db pp) w others)
        end
      else
        WriteImplWALOnly_after_preprocess q write_options assign_order
          publish_last_seq disable_mem st db w others
  | kDontPublishLastSeq =>
      WriteImplWALOnly_after_preprocess q write_options assign_order
        publish_last_seq disable_mem OK db w others
  end.

(** ** The entry of a write *)

(** What JoinBatchGroup leaves of the writer: it leads a group, whose
    other writers are [others]; or a leader launched it as a parallel
    memtable writer of a group whose last sequence is
    [group_last_sequence]; or a leader completed it.  In the last two the
    writer is as the leader left it. *)
Inductive JoinResult :=
| STATE_GROUP_LEADER (others : list Writer)
| STATE_PARALLEL_MEMTABLE_WRITER (w : Writer) (group_last_sequence : Z)
| STATE_COMPLETED (w : Writer).

Definition WriteImplWALOnly (q : WriteThread) (write_options : WriteOptions)
    (my_batch : WriteBatch) (cb : option WriteCallback) (ref : Z)
    (sub_batch_cnt : Z) (prc : option PreReleaseCallback)
    (assign_order : AssignOrder) (publish_last_seq : PublishLastSeq)
    (disable_mem : bool) (join : JoinResult) (db : DBImpl) : WriteResult :=
  let w := new_Writer write_options my_batch cb ref disable_mem sub_batch_cnt
             prc in
  match join with
  | STATE_COMPLETED w' =>
      mkWriteResult (Done (FinalStatus w')) db [w'] (Some (log_used w'))
        (Some (sequence w')) [EvJoinBatchGroup q] None 0 0
  | STATE_GROUP_LEADER others =>
      with_events [EvJoinBatchGroup q]
        (WriteImplWALOnly_leader q write_options assign_order publish_last_seq
           disable_mem db w others)
  | STATE_PARALLEL_MEMTABLE_WRITER _ _ =>
      (* asserted not to happen on this path *)
      with_events [EvJoinBatchGroup q]
        (WriteImplWALOnly_leader q write_options assign_order publish_last_seq
           disable_mem db w [])
  end.

Definition UnorderedWriteMemtable (write_options : WriteOptions)
    (my_batch : WriteBatch) (cb : option WriteCallback) (ref : Z) (seq : Z)
    (sub_batch_cnt : Z) (db : DBImpl) : Status * DBImpl * list Event :=
  let w := new_Writer write_options my_batch cb ref false 0 None in
  let '(w, passed) := CheckCallback w in
  let '(w, db1, ev) :=
    if passed && ShouldWriteToMemtable w then
      (set_status (InsertInto env) (set_sequence seq w),
       if disableWAL write_options then set_has_unpersisted_data_ true db
       else db,
       [EvInsertInto seq])
    else (w, db, []) in
  let pending_cnt := wrap64 (pending_memtable_writes_ db1 - 1) in
  let db2 := set_pending_memtable_writes_ pending_cnt db1 in
  let ev_notify := if pending_cnt =? 0 then [EvSwitchCvNotifyAll] else [] in
  (if negb (ok (FinalStatus w)) then FinalStatus w else OK, db2,
   ev ++ ev_notify ++ WriteStatusCheck (status w)).

(** WriteImpl.  [my_batch] is [None] for a null pointer; [join] is what
    JoinBatchGroup leaves of the writer on the path that is taken. *)
Definition WriteImpl (write_options : WriteOptions)
    (my_batch : option WriteBatch) (cb : option WriteCallback) (ref : Z)
    (disable_mem : bool) (cnt : Z) (prc : option PreReleaseCallback)
    (join : JoinResult) (db : DBImpl) : WriteResult :=
  let fail st ev := mkWriteResult (Done st) db [] None None ev None 0 0 in
  match my_batch with
  | None => fail (Corruption "Batch is nullptr!") []
  | Some b =>
      let ev_tr := if tracer_ opts then [EvTracerWrite] else [] in
      if sync write_options && disableWAL write_options then
        fail (InvalidArgument "Sync writes has to enable WAL.") ev_tr
      else if two_write_queues_ opts && enable_pipelined_write opts then
        fail (NotSupported
                "pipelined_writes is not compatible with concurrent prepares")
             ev_tr
      else if seq_per_batch_ opts && enable_pipelined_write opts then
        fail (NotSupported
                "pipelined_writes is not compatible with seq_per_batch") ev_tr
      else if unordered_write opts && enable_pipelined_write opts then
        fail (NotSupported
                "pipelined_writes is not compatible with unordered_write")
             ev_tr
      else
        let '(st, ev_lp) :=
          if low_pri write_options
          then ThrottleLowPriWritesIfNeeded write_options b
          else (OK, []) in
        if negb (ok st) then fail st (ev_tr ++ ev_lp)
        else if two_write_queues_ opts && disable_mem then
          with_events (ev_tr ++ ev_lp)
            (WriteImplWALOnly nonmem_write_thread_ write_options b cb ref cnt
               prc
               (if seq_per_batch_ opts then kDoAssignOrder
                else kDontAssignOrder)
               kDontPublishLastSeq disable_mem join db)
        else if unordered_write opts then
          let sub_batch_cnt := if negb (cnt =? 0) then cnt else Count b in
          let r := WriteImplWALOnly write_thread_ write_options b cb ref
                     sub_batch_cnt prc kDoAssignOrder kDoPublishLastSeq
                     disable_mem join db in
          match wr_outcome r with
          | Blocked => with_events (ev_tr ++ ev_lp) r
          | Done st =>
              if negb (ok st) then
                with_events (ev_tr ++ ev_lp)
                  (mkWriteResult (Done st) (wr_db r) (wr_group r)
                     (wr_log_used r) None (wr_events r) (wr_io_s r)
                     (wr_seq_inc r) (wr_current_sequence r))
              else
                let seq := match wr_seq_used r with Some x => x | None => 0 end in
                if negb disable_mem then
                  let '(st, db1, ev) :=
                    UnorderedWriteMemtable write_options b cb ref seq
                      sub_batch_cnt (wr_db r) in
                  mkWriteResult (Done st) db1 (wr_group r) (wr_log_used r)
                    (Some seq) (ev_tr ++ ev_lp ++ wr_events r ++ ev)
                    (wr_io_s r) (wr_seq_inc r) (wr_current_sequence r)
                else
                  with_events (ev_tr ++ ev_lp)
                    (mkWriteResult (Done st) (wr_db r) (wr_group r)
                       (wr_log_used r) (Some seq) (wr_events r) (wr_io_s r)
                       (wr_seq_inc r) (wr_current_sequence r))
          end
        else if enable_pipelined_write opts then
          mkWriteResult (Done (PipelinedWriteImpl env)) db [] None None
            (ev_tr ++ ev_lp ++ [EvPipelinedWriteImpl]) None 0 0
        else
          let w := new_Writer write_options b cb ref disable_mem cnt prc in
          let ev_join := ev_tr ++ ev_lp ++ [EvJoinBatchGroup write_thread_] in
          match join with
          | STATE_PARALLEL_MEMTABLE_WRITER w1 group_last_sequence =>
              let '(w2, ev_mem) :=
                if ShouldWriteToMemtable w1
                then (set_status (InsertInto env) w1,
                      [EvInsertInto (sequence w1)])
                else (w1, []) in
              let '(db1, ev_exit) :=
                if CompleteParallelMemTableWriter env then
                  (set_versions_
                     (SetLastSequence group_last_sequence (versions_ db)) db,
                   MemTableInsertStatusCheck (status w2)
                   ++ [EvExitAsBatchGroupFollower])
                else (db, []) in
              mkWriteResult (Done (FinalStatus w2)) db1 [w2]
                (Some (log_used w2)) (Some (sequence w2))
                (ev_join ++ ev_mem ++ ev_exit) None 0 0
          | STATE_COMPLETED w1 =>
              mkWriteResult (Done (FinalStatus w1)) db [w1]
                (Some (log_used w1)) (Some (sequence w1)) ev_join None 0 0
          | STATE_GROUP_LEADER others =>
              with_events ev_join
                (WriteImpl_leader write_options disable_mem db w others)
          end
  end.

(** ** The sequences a group uses up *)

(** The sequences the leader's second loop steps over for a writer: none
    when its pre-commit callback failed; its batch count with
    seq_per_batch_; and otherwise the count of its batch when it writes to
    a memtable. *)
Definition consumed (writer : Writer) : Z :=
  if CallbackFailed writer then 0
  else if seq_per_batch_ opts then batch_cnt writer
  else if ShouldWriteToMemtable writer then Count (batch writer)
  else 0.

(** The same of a writer as it joins the group, when the leader has still
    to run its pre-commit callback. *)
Definition precommit_failed (writer : Writer) : bool :=
  CallbackFailed (fst (CheckCallback writer)).

Definition consumes (writer : Writer) : Z :=
  consumed (fst (CheckCallback writer)).

Definition total_consumed (ws : list Writer) : Z :=
  fold_right Z.add 0 (map consumes ws).

(** What the sequencing of a group reads of a writer. *)
Definition sequencing_view (writer : Writer) : bool * Z * Z :=
  (CallbackFailed writer, sequence writer, consumed writer).

End WritePath.

(** ** A write batch to run the model on *)

(** Modelled from the spec: a write batch is a header of 12 bytes (the
    base sequence on 8 bytes, the record count on 4) followed by its
    records, and an append copies the records of the source after those of
    the destination (section 3 and section 4.4); the code of the batch is
    not among the sources.  A WAL termination point, when set, is the
    number of records that go to the log. *)
Record Batch := mkBatch {
  header_sequence : Z;
  records : list string;
  has_merge : bool;
  has_commit : bool;
  has_rollback : bool;
  wal_term_point : option nat;
  is_latest_persistent_state : bool
}.

Fixpoint EncodeFixed (n : nat) (z : Z) : string :=
  match n with
  | O => EmptyString
  | S k => String (Ascii.ascii_of_N (Z.to_N (z mod 256)))
                  (EncodeFixed k (z / 256))
  end.

Definition Batch_Append (dst src : Batch) (wal_only : bool) : Batch :=
  mkBatch (header_sequence dst)
    (records dst ++
     match wal_only, wal_term_point src with
     | true, Some k => firstn k (records src)
     | _, _ => records src
     end)
    (has_merge dst || has_merge src)
    (has_commit dst || has_commit src)
    (has_rollback dst || has_rollback src)
    (wal_term_point dst)
    (is_latest_persistent_state dst).

Definition Batch_SetSequence (b : Batch) (seq : Z) : Batch :=
  mkBatch seq (records b) (has_merge b) (has_commit b) (has_rollback b)
    (wal_term_point b) (is_latest_persistent_state b).

Definition Batch_Contents (b : Batch) : string :=
  (EncodeFixed 8 (header_sequence b)
   ++ EncodeFixed 4 (Z.of_nat (length (records b)))
   ++ String.concat "" (records b))%string.

Definition Batch_empty : Batch := mkBatch 0 [] false false false None false.

#[export] Instance Batch_WriteBatchInternal : WriteBatchInternal Batch := {|
  Count := fun b => Z.of_nat (length (records b));
  HasMerge := has_merge;
  HasCommit := has_commit;
  HasRollback := has_rollback;
  WalTerminationPoint_is_cleared := fun b =>
    match wal_term_point b with None => true | Some _ => false end;
  IsLatestPersistentState := is_latest_persistent_state;
  Append := Batch_Append;
  SetSequence := Batch_SetSequence;
  Contents := Batch_Contents;
  Clear := fun _ => Batch_empty;
  new_batch := Batch_empty
|}.

(** A database with one write queue and default options, one empty log,
    and an outside where nothing fails and nothing stalls. *)
Definition default_options : DBOptions :=
  mkDBOptions false false true true false false 0 false false true false
              false false.

Definition default_write_options : WriteOptions :=
  mkWriteOptions false false false false false false.

Definition quiet : Snapshot := mkSnapshot false OK false.

Definition calm : Env :=
  mkEnv false quiet false
        OK false OK true OK true OK true
        0 (fun _ => 0) [] quiet []
        (fun _ => OK) (fun _ => OK) OK OK OK OK
        0 OK OK true OK.

Definition fresh_db : DBImpl (WriteBatch := Batch) :=
  mkDB (mkVersionSet 0 0 0) 1 0 true false [mkLogWriterNumber 1 false]
       [mkLogFileNumberSize 1 0 false] Batch_empty Batch_empty true false 0 0
       67108864.

Definition put (key value : string) : Batch :=
  mkBatch 0 [("put " ++ key ++ " " ++ value)%string] false false false None
          false.

(** ** Kinds of events *)

Definition is_wal_append (e : Event) : bool :=
  match e with EvAddRecord _ => true | _ => false end.

Definition is_pre_release (e : Event) : bool :=
  match e with EvPreReleaseCallback _ _ _ _ _ _ _ => true | _ => false end.

(** The events by which records reach a memtable: the leader's inserts,
    and the launch of the followers that insert their own batch. *)
Definition is_memtable_apply (e : Event) : bool :=
  match e with
  | EvInsertIntoGroup _ | EvInsertInto _ | EvLaunchParallelMemTableWriters =>
      true
  | _ => false
  end.

Definition is_stall_event (e : Event) : bool :=
  match e with
  | EvBeginWriteStall | EvEndWriteStall | EvMutexLock | EvMutexUnlock
  | EvSleepForMicroseconds _ | EvBgCvWait => true
  | _ => false
  end.

(** The events of PreprocessWrite after its decision on the WAL. *)
Definition is_preprocess_event (e : Event) : bool :=
  match e with
  | EvWaitForPendingWrites | EvHandleWriteBufferFull | EvTrimMemtableHistory
  | EvScheduleFlushes | EvLogSyncCvWait => true
  | _ => is_stall_event e
  end.

(** The syncs of the log files and of their directory. *)
Definition is_sync_event (e : Event) : bool :=
  match e with
  | EvFileSync _ | EvDirFsync => true
  | _ => false
  end.

(** What the leader does once the callbacks are over and the memtables
    written: the status checks, the sync, the exit of the group. *)
Definition is_finish_event (e : Event) : bool :=
  match e with
  | EvSetBGError _ _ | EvMarkLogsSynced | EvMarkLogsNotSynced | EvFlushWAL
  | EvSyncWAL | EvExitAsBatchGroupLeader _ _ | EvExitAsBatchGroupFollower
  | EvSwitchCvNotifyAll => true
  | _ => false
  end.

Definition is_group_exit (e : Event) : bool :=
  match e with EvExitAsBatchGroupLeader _ _ => true | _ => false end.


(** ** The order of the pre-release callbacks *)



(** ** Inputs for the examples *)

Definition single_cf_options : DBOptions :=
  mkDBOptions false false true true false false 5 false false true false
              true false.

Definition big_log_db : DBImpl (WriteBatch := Batch) :=
  mkDB (mkVersionSet 0 0 0) 1 10 false false [mkLogWriterNumber 1 false]
       [mkLogFileNumberSize 1 10 false] Batch_empty Batch_empty true false 0 0
       67108864.

Definition lax_options : DBOptions :=
  mkDBOptions false false true false false false 0 false false true false
              false false.

(** An outside where the log has been fenced off. *)
Definition fenced : Env :=
  mkEnv false quiet false
        OK false OK true OK true OK true
        0 (fun _ => 0) [] quiet []
        (fun _ => IOFenced "fenced") (fun _ => OK) OK OK OK OK
        0 OK OK true OK.

Definition solo_put : Writer (WriteBatch := Batch) :=
  new_Writer default_write_options (put "k" "v") None 0 false 0 None.

Definition two_queue_options : DBOptions :=
  mkDBOptions false false true true false false 0 true false true false
              false false.

Definition no_wal_write_options : WriteOptions :=
  mkWriteOptions false true false false false false.

(** A writer whose pre-commit callback fails, as the leader finds it after
    CheckCallback. *)
Definition conflicting_put : Writer (WriteBatch := Batch) :=
  new_Writer default_write_options (put "k" "v")
    (Some (mkWriteCallback (Busy "conflict") true)) 0 false 0 None.

Definition sync_no_wal_write_options : WriteOptions :=
  mkWriteOptions true true false false false false.

Definition unlogged_put : Writer (WriteBatch := Batch) :=
  new_Writer no_wal_write_options (put "k" "v") None 0 false 0 None.

(** Two writers with a pre-release callback: one that accepts the
    sequence it is given, one that refuses it. *)
Definition noted_put : Writer (WriteBatch := Batch) :=
  new_Writer default_write_options (put "a" "b") None 0 false 0
    (Some (fun _ _ _ _ _ => OK)).

Definition refused_put : Writer (WriteBatch := Batch) :=
  new_Writer default_write_options (put "a" "b") None 0 false 0
    (Some (fun _ _ _ _ _ => Busy "refused")).

(** An outside where the controller asks for a delay that is already
    paid for: NeedsDelay() holds and GetDelay() returns zero. *)
Definition delayed_with_credit : Env :=
  mkEnv false quiet true
        OK false OK true OK true OK true
        0 (fun _ => 0) [] quiet []
        (fun _ => OK) (fun _ => OK) OK OK OK OK
        0 OK OK true OK.

(** An outside where writes are stopped while a background error is set
    that does not stop the database. *)
Definition stopped_with_error : Snapshot :=
  mkSnapshot true (IOError "no space") false.

Definition stopped_after_error : Env :=
  mkEnv false stopped_with_error false
        OK false OK true OK true OK true
        0 (fun _ => 0) [] stopped_with_error []
        (fun _ => OK) (fun _ => OK) OK OK OK OK
        0 OK OK true OK.

(** An outside where the controller asks for 2500 microseconds and needs
    them all, then stops the writes until the second wake-up. *)
Definition stopped : Snapshot := mkSnapshot true OK false.

Definition slow : Env :=
  mkEnv false quiet true
        OK false OK true OK true OK true
        100 (fun _ => 2500) [(true, 100); (true, 1150); (true, 2200);
                             (true, 3250)] stopped [stopped; quiet]
        (fun _ => OK) (fun _ => OK) OK OK OK OK
        0 OK OK true OK.

Definition no_slowdown_write_options : WriteOptions :=
  mkWriteOptions false false false true false false.

(** * Further parts of the code *)

(** ** Clients of the task limiter that respect a cap *)

(** A client action that forces no call, never resets the cap, and sets
    caps between 0 and [m] only. *)
Definition capped_action (m : Z) (a : TaskLimiter.action) : bool :=
  match a with
  | TaskLimiter.Call force => negb force
  | TaskLimiter.SetMax limit => (0 <=? limit) && (limit <=? m)
  | TaskLimiter.ResetMax => false
  | TaskLimiter.Step _ | TaskLimiter.Drop _ => true
  end.

(** A call in progress that is not forced and has loaded a cap between 0
    and [m]. *)
Definition capped_frame (m : Z) (f : TaskLimiter.frame) : Prop :=
  match f with
  | TaskLimiter.AtEntry force => force = false
  | TaskLimiter.LimitLoaded force limit
  | TaskLimiter.AtLoop force limit _ => force = false /\ 0 <= limit <= m
  end.

Definition capped_system (m : Z) (s : TaskLimiter.system) : Prop :=
  0 <= TaskLimiter.outstanding_tasks_ (TaskLimiter.lim s) <= m /\
  0 <= TaskLimiter.max_outstanding_tasks_ (TaskLimiter.lim s) <= m /\
  Forall (fun t => match TaskLimiter.call t with
                   | Some f => capped_frame m f
                   | None => True
                   end) (TaskLimiter.threads s).

(** ** The size of a new log file *)

(** What GetWalPreallocateBlockSize reads besides [max_total_wal_size]:
    [immutable_db_options_.db_write_buffer_size] and the write buffer
    manager (a pointer that may be null), of which it calls [enabled()] and
    [buffer_size()]. *)
Record WriteBufferManager := mkWriteBufferManager {
  enabled : bool;
  buffer_size : Z
}.

Record BufferOptions := mkBufferOptions {
  db_write_buffer_size : Z;
  write_buffer_manager : option WriteBufferManager
}.

Definition GetWalPreallocateBlockSize (opts : DBOptions) (bo : BufferOptions)
    (write_buffer_size : Z) : Z :=
  let bsize := wrap64 (write_buffer_size / 10 + write_buffer_size) in
  let bsize := if 0 <? max_total_wal_size opts
               then Z.min bsize (max_total_wal_size opts) else bsize in
  let bsize := if 0 <? db_write_buffer_size bo
               then Z.min bsize (db_write_buffer_size bo) else bsize in
  match write_buffer_manager bo with
  | Some m => if enabled m then Z.min bsize (buffer_size m) else bsize
  | None => bsize
  end.

(** ** The steps of PreprocessWrite *)

(** The four steps of PreprocessWrite that may switch a memtable, each
    with the status it returned. *)
Definition preprocess_steps (env : Env) : list (Event * Status) :=
  [(EvSwitchWAL, SwitchWAL env);
   (EvHandleWriteBufferFull, HandleWriteBufferFull env);
   (EvTrimMemtableHistory, TrimMemtableHistory env);
   (EvScheduleFlushes, ScheduleFlushes env)].

(** ** More inputs for the examples *)

(** An outside where the insert of a group into the memtables fails. *)
Definition failing_insert : Env :=
  mkEnv false quiet false
        OK false OK true OK true OK true
        0 (fun _ => 0) [] quiet []
        (fun _ => OK) (fun _ => OK) OK OK OK OK
        0 (Corruption "unknown column family") OK true OK.

(** An outside where a background error has stopped the database. *)
Definition halted : Env :=
  mkEnv false (mkSnapshot false (IOError "disk full") true) false
        OK false OK true OK true OK true
        0 (fun _ => 0) [] quiet []
        (fun _ => OK) (fun _ => OK) OK OK OK OK
        0 OK OK true OK.

(** ** The sequences of a group on the WAL-only path *)

Section WalOnlyOrder.
Context {WriteBatch : Type}.

(** The sequences a writer uses up when the WAL-only leader assigns an
    order: its batch count, unless its pre-commit callback fails. *)
Definition batches_used (writer : Writer (WriteBatch := WriteBatch)) : Z :=
  if precommit_failed writer then 0 else batch_cnt writer.

Definition total_batches_used (ws : list (Writer (WriteBatch := WriteBatch)))
  : Z :=
  fold_right Z.add 0 (map batches_used ws).

(** The writers of a group that go on to write to a memtable: those whose
    pre-commit callback does not fail and whose memtable is not
    disabled. *)
Definition memtable_writers (ws : list (Writer (WriteBatch := WriteBatch)))
  : list Writer :=
  filter (fun x => negb (precommit_failed x) && negb (disable_memtable x)) ws.

(** What the loops of the WAL-only leader read of a writer. *)
Definition ordering_view (writer : Writer (WriteBatch := WriteBatch))
  : bool * Z * Z * bool :=
  (CallbackFailed writer, sequence writer, batch_cnt writer,
   disable_memtable writer).

End WalOnlyOrder.

(** A database in the unordered mode, and two writers whose batches hold
    two and three sub-batches. *)
Definition unordered_options : DBOptions :=
  mkDBOptions false true true true false false 0 false false true false
              false false.

Definition two_batches : Writer (WriteBatch := Batch) :=
  new_Writer default_write_options (put "a" "1") None 0 false 2 None.

Definition three_batches : Writer (WriteBatch := Batch) :=
  new_Writer default_write_options (put "b" "2") None 0 false 3 None.

(** An outside where compaction has fallen behind. *)
Definition compaction_behind : Env :=
  mkEnv true quiet false
        OK false OK true OK true OK true
        0 (fun _ => 0) [] quiet []
        (fun _ => OK) (fun _ => OK) OK OK OK OK
        0 OK OK true OK.

Definition hurried_low_pri_write_options : WriteOptions :=
  mkWriteOptions false false false true true false.

(** * The switch of memtables and of the log

    WriteRecoverableState, SelectColumnFamiliesForAtomicFlush,
    AssignAtomicFlushSeq, SwitchWAL, HandleWriteBufferFull,
    MaybeFlushStatsCF, NotifyOnMemTableSealed and SwitchMemtable.  The
    thread holds the mutex and is at the head of the writer queue. *)

Module MemtableSwitch.

Inductive FlushReason := kWriteBufferManager | kWriteBufferFull.

(** What the listeners are told of a sealed memtable. *)
Record MemTableInfo := mkMemTableInfo {
  cf_name : string;
  first_seqno : Z;
  earliest_seqno : Z;
  num_entries : Z;
  num_deletes : Z
}.

(** A memtable, by what the switch reads of it and writes to it; its code
    is not among the sources. *)
Record MemTable := mkMemTable {
  IsEmpty : bool;
  GetFirstSequenceNumber : Z;
  GetEarliestSequenceNumber : Z;
  mem_num_entries : Z;
  mem_num_deletes : Z;
  GetCreationSeq : Z;
  GetNextLogNumber : Z
}.

Definition SetCreationSeq (seq : Z) (m : MemTable) : MemTable :=
  mkMemTable (IsEmpty m) (GetFirstSequenceNumber m)
    (GetEarliestSequenceNumber m) (mem_num_entries m) (mem_num_deletes m)
    seq (GetNextLogNumber m).

Definition SetNextLogNumber (n : Z) (m : MemTable) : MemTable :=
  mkMemTable (IsEmpty m) (GetFirstSequenceNumber m)
    (GetEarliestSequenceNumber m) (mem_num_entries m) (mem_num_deletes m)
    (GetCreationSeq m) n.

(** Modelled from the spec: the immutable list of a column family holds
    the sealed memtables that are not flushed yet, and the switch adds the
    outgoing memtable to it (section 4.7, step 6); here the newest is
    first.  [OldestLogToKeep] and [write_buffer_size] (of the latest
    mutable options) are what the column family answers when the call
    starts. *)
Record ColumnFamilyData := mkColumnFamilyData {
  GetName : string;
  IsDropped : bool;
  mem : MemTable;
  imm : list MemTable;
  GetLogNumber : Z;
  OldestLogToKeep : Z;
  write_buffer_size : Z
}.

Definition NumNotFlushed (cf : ColumnFamilyData) : Z :=
  Z.of_nat (length (imm cf)).

Definition SetLogNumber (n : Z) (cf : ColumnFamilyData) : ColumnFamilyData :=
  mkColumnFamilyData (GetName cf) (IsDropped cf) (mem cf) (imm cf) n
    (OldestLogToKeep cf) (write_buffer_size cf).

Definition set_mem (m : MemTable) (cf : ColumnFamilyData) : ColumnFamilyData :=
  mkColumnFamilyData (GetName cf) (IsDropped cf) m (imm cf) (GetLogNumber cf)
    (OldestLogToKeep cf) (write_buffer_size cf).

(** imm()->Add(mem()) followed by SetMemtable(new_mem). *)
Definition seal (new_mem : MemTable) (cf : ColumnFamilyData)
  : ColumnFamilyData :=
  mkColumnFamilyData (GetName cf) (IsDropped cf) new_mem (mem cf :: imm cf)
    (GetLogNumber cf) (OldestLogToKeep cf) (write_buffer_size cf).

(** The calls that leave the modelled functions, in program order.  A
    column family is named by its place in the column family set. *)
Inductive SwitchEvent :=
| SwMutexLock
| SwMutexUnlock
| SwRecoverableInsertInto (seq : Z) (returned : Status)
| SwRecoverableCallback (seq : Z) (returned : Status)
| SwCreateWAL (log_number recycle_log_number preallocate_block_size : Z)
              (returned : IOStatus)
| SwNewSuperVersion
| SwWriteBuffer (log_number : Z) (returned : IOStatus)
| SwSetBGError (s : Status) (reason : BackgroundErrorReason)
| SwInstallSuperVersionAndScheduleWork (cfd : nat)
| SwOnMemTableSealed (listener : nat) (info : MemTableInfo)
| SwEnterUnbatched
| SwExitUnbatched
| SwAssignAtomicFlushSeq (cfd : nat) (seq : Z)
| SwFlushRequested (cfd : nat)
| SwSchedulePendingFlush (cfds : list nat) (reason : FlushReason)
| SwMaybeScheduleFlushOrCompaction.

Record SwitchOptions := mkSwitchOptions {
  atomic_flush : bool;
  persist_stats_to_disk : bool;
  recycle_log_file_num : Z;
  listeners : nat;               (* how many listeners there are *)
  buffer_options : BufferOptions
}.

Definition SetLastPublishedSequence (s : Z) (v : VersionSet) : VersionSet :=
  mkVersionSet (last_sequence_ v) (last_allocated_sequence_ v) s.

Fixpoint last_error {A} (l : list A) : option A :=
  match l with
  | [] => None
  | [x] => Some x
  | _ :: r => last_error r
  end.

Fixpoint map_from {A} (i : nat) (f : nat -> A -> A) (l : list A) : list A :=
  match l with
  | [] => []
  | x :: r => f i x :: map_from (S i) f r
  end.

Section Switch.
Context {WriteBatch : Type} {WBI : WriteBatchInternal WriteBatch}.

(** The answers of the outside: the insert of the cached recoverable
    state (its status, the next sequence, and what it does to the active
    memtable of each column family), the callback set by
    SetRecoverableStatePreReleaseCallback, the file system, the error
    handler read back after SetBGError, the new memtable of a column
    family, the tracker of prepared transactions, the column family of the
    persistent statistics (a null pointer when there is none), and
    whether the database is shutting down. *)
Record Outside := mkOutside {
  RecoverableInsertInto :
    WriteBatch -> Status * Z * (nat -> MemTable -> MemTable);
  recoverable_state_pre_release_callback_ : option (Z -> Status);
  CreateWAL : Z -> Z -> Z -> IOStatus;
  WriteBuffer : Z -> IOStatus;
  GetBGError_after_SetBGError : Status -> Status;
  ConstructNewMemtable : nat -> Z -> MemTable;
  FindMinLogContainingOutstandingPrep : Z;
  GetColumnFamily_stats : option nat;
  shutting_down_ : bool
}.

Record State := mkState {
  db : DBImpl (WriteBatch := WriteBatch);
  column_families : list ColumnFamilyData;
  log_recycle_files_ : list Z;
  next_file_number_ : Z;
  unable_to_release_oldest_log_ : bool
}.

Definition set_db (d : DBImpl) (s : State) : State :=
  mkState d (column_families s) (log_recycle_files_ s) (next_file_number_ s)
    (unable_to_release_oldest_log_ s).

Definition set_column_families (c : list ColumnFamilyData) (s : State)
  : State :=
  mkState (db s) c (log_recycle_files_ s) (next_file_number_ s)
    (unable_to_release_oldest_log_ s).

Definition set_unable_to_release_oldest_log_ (b : bool) (s : State) : State :=
  mkState (db s) (column_families s) (log_recycle_files_ s)
    (next_file_number_ s) b.

(** Modelled from the spec: the version set mints the number of a new file
    (section 4.7, step 2); here a counter. *)
Definition NewFileNumber (s : State) : Z * State :=
  (next_file_number_ s,
   mkState (db s) (column_families s) (log_recycle_files_ s)
     (wrap64 (next_file_number_ s + 1)) (unable_to_release_oldest_log_ s)).

Variable opts : DBOptions.
Variable sopts : SwitchOptions.
Variable out : Outside.

(** ** WriteRecoverableState *)

(** The loop of the callbacks over the sequences of the sub-batches:
    [count] sequences are left below [next_seq]. *)
Fixpoint recoverable_callbacks (cb : Z -> Status) (count : nat)
    (sub_batch_seq : Z) (status : Status) : Status * list SwitchEvent :=
  match count with
  | O => (status, [])
  | S k =>
      if ok status then
        let st := cb sub_batch_seq in
        let '(st', ev) := recoverable_callbacks cb k (sub_batch_seq + 1) st in
        (st', SwMutexUnlock :: SwRecoverableCallback sub_batch_seq st
              :: SwMutexLock :: ev)
      else (status, [])
  end.

Definition WriteRecoverableState (s : State)
  : Status * State * list SwitchEvent :=
  let d := db s in
  if negb (cached_recoverable_state_empty_ d) then
    let '(seq, v1) :=
      if two_write_queues_ opts
      then FetchAddLastAllocatedSequence 0 (versions_ d)
      else (LastSequence (versions_ d), versions_ d) in
    let first_seq := wrap64 (seq + 1) in
    let batch := SetSequence (cached_recoverable_state_ d) first_seq in
    let '(status, next_seq, touch) := RecoverableInsertInto out batch in
    let last_seq := wrap64 (next_seq - 1) in
    let v2 :=
      if two_write_queues_ opts
      then SetLastPublishedSequence last_seq
             (snd (FetchAddLastAllocatedSequence (wrap64 (last_seq - seq))
                     v1))
      else v1 in
    let v3 := SetLastSequence last_seq v2 in
    let '(status1, ev_cb) :=
      match recoverable_state_pre_release_callback_ out with
      | Some cb =>
          if ok status
          then recoverable_callbacks cb (Z.to_nat (next_seq - first_seq))
                 first_seq status
          else (status, [])
      | None => (status, [])
      end in
    let d1 := set_versions_ v3 (set_cached_recoverable_state_ batch d) in
    let d2 :=
      if ok status1
      then set_cached_recoverable_state_empty_ true
             (set_cached_recoverable_state_ (Clear batch) d1)
      else d1 in
    (status1,
     set_column_families
       (map_from 0 (fun i cf => set_mem (touch i (mem cf)) cf)
          (column_families s))
       (set_db d2 s),
     SwRecoverableInsertInto first_seq status :: ev_cb)
  else (OK, s, []).

(** ** The choice of the column families *)

Fixpoint select_from (i : nat) (p : ColumnFamilyData -> bool)
    (cfs : list ColumnFamilyData) : list nat :=
  match cfs with
  | [] => []
  | cf :: r => if p cf then i :: select_from (S i) p r
               else select_from (S i) p r
  end.

Definition SelectColumnFamiliesForAtomicFlush (s : State) : list nat :=
  select_from 0
    (fun cfd =>
       negb (IsDropped cfd)
       && (negb (NumNotFlushed cfd =? 0) || negb (IsEmpty (mem cfd))
           || negb (cached_recoverable_state_empty_ (db s))))
    (column_families s).

Definition AssignAtomicFlushSeq (cfds : list nat) (s : State)
  : list SwitchEvent :=
  let seq := LastSequence (versions_ (db s)) in
  map (fun cfd => SwAssignAtomicFlushSeq cfd seq) cfds.

(** The second loop of MaybeFlushStatsCF, over the column family set. *)
Fixpoint force_flush_stats_cf (i : nat) (cfd_stats : nat) (stats_log : Z)
    (cfs : list ColumnFamilyData) (force : bool) : bool :=
  match cfs with
  | [] => force
  | loop_cfd :: r =>
      if Nat.eqb i cfd_stats
      then force_flush_stats_cf (S i) cfd_stats stats_log r force
      else if GetLogNumber loop_cfd <=? stats_log
           then force_flush_stats_cf (S i) cfd_stats stats_log r false
           else force_flush_stats_cf (S i) cfd_stats stats_log r force
  end.

(** [None] is for a pointer that is not in the column family set, which
    the code would follow. *)
Definition MaybeFlushStatsCF (cfds : list nat) (s : State)
  : option (list nat) :=
  match cfds with
  | [] => Some cfds
  | _ :: _ =>
      if persist_stats_to_disk sopts then
        match GetColumnFamily_stats out with
        | None => Some cfds
        | Some cfd_stats =>
            match nth_error (column_families s) cfd_stats with
            | None => None
            | Some stats =>
                if negb (IsEmpty (mem stats)) then
                  if existsb (Nat.eqb cfd_stats) cfds then Some cfds
                  else if force_flush_stats_cf 0 cfd_stats
                            (GetLogNumber stats) (column_families s) true
                       then Some (cfds ++ [cfd_stats])
                       else Some cfds
                else Some cfds
            end
        end
      else Some cfds
  end.

(** The loop of HandleWriteBufferFull that picks a column family:
    [picked] is the column family picked so far with the creation
    sequence of its memtable. *)
Fixpoint pick_oldest (i : nat) (cfs : list ColumnFamilyData)
    (picked : option (nat * Z)) : option (nat * Z) :=
  match cfs with
  | [] => picked
  | cfd :: r =>
      if IsDropped cfd then pick_oldest (S i) r picked
      else if negb (IsEmpty (mem cfd)) then
        let seq := GetCreationSeq (mem cfd) in
        match picked with
        | None => pick_oldest (S i) r (Some (i, seq))
        | Some (_, seq_num_for_cf_picked) =>
            if seq <? seq_num_for_cf_picked
            then pick_oldest (S i) r (Some (i, seq))
            else pick_oldest (S i) r picked
        end
      else pick_oldest (S i) r picked
  end.

(** ** SwitchMemtable *)

Definition NotifyOnMemTableSealed (mem_table_info : MemTableInfo)
  : list SwitchEvent :=
  if Nat.eqb (listeners sopts) 0 then []
  else if shutting_down_ out then []
  else map (fun l => SwOnMemTableSealed l mem_table_info)
           (seq 0 (listeners sopts)).

(** The loop of SwitchMemtable over the column family set: a column
    family that holds nothing moves on to the current log. *)
Definition advance_empty (creating_new_log : bool) (logfile_number : Z)
    (last_sequence : Z) (loop_cfd : ColumnFamilyData) : ColumnFamilyData :=
  if (GetFirstSequenceNumber (mem loop_cfd) =? 0)
     && (NumNotFlushed loop_cfd =? 0)
  then
    let c := if creating_new_log then SetLogNumber logfile_number loop_cfd
             else loop_cfd in
    set_mem (SetCreationSeq last_sequence (mem c)) c
  else loop_cfd.

(** [None] is for a [cfd] that is not in the column family set.  The
    mutex is held at the call and at the return. *)
Definition SwitchMemtable (cfd : nat) (s : State)
  : option (Status * State * list SwitchEvent) :=
  let '(st, s, ev_rs) := WriteRecoverableState s in
  if negb (ok st) then Some (st, s, ev_rs)
  else
    match nth_error (column_families s) cfd with
    | None => None
    | Some cf =>
        let creating_new_log := negb (log_empty_ (db s)) in
        let recycle_log_number :=
          if creating_new_log && negb (recycle_log_file_num sopts =? 0)
          then match log_recycle_files_ s with
               | front :: _ => front
               | [] => 0
               end
          else 0 in
        let '(new_log_number, s) :=
          if creating_new_log then NewFileNumber s
          else (logfile_number_ (db s), s) in
        let memtable_info :=
          mkMemTableInfo (GetName cf) (GetFirstSequenceNumber (mem cf))
            (GetEarliestSequenceNumber (mem cf)) (mem_num_entries (mem cf))
            (mem_num_deletes (mem cf)) in
        let preallocate_block_size :=
          GetWalPreallocateBlockSize opts (buffer_options sopts)
            (write_buffer_size cf) in
        let io_s :=
          if creating_new_log
          then CreateWAL out new_log_number recycle_log_number
                 preallocate_block_size
          else OK in
        let ev_wal :=
          if creating_new_log
          then [SwCreateWAL new_log_number recycle_log_number
                  preallocate_block_size io_s]
          else [] in
        let st := if creating_new_log then io_s else st in
        let new_mem :=
          if ok st
          then Some (ConstructNewMemtable out cfd
                       (LastSequence (versions_ (db s))))
          else None in
        let ev_mem := if ok st then [SwNewSuperVersion] else [] in
        let s :=
          if negb (recycle_log_number =? 0)
          then mkState (db s) (column_families s) (tl (log_recycle_files_ s))
                 (next_file_number_ s) (unable_to_release_oldest_log_ s)
          else s in
        let '(st, io_s, s, ev_buf) :=
          if ok st && creating_new_log then
            let '(st, io_s, ev_buf) :=
              match last_error (logs_ (db s)) with
              | Some cur_log_writer =>
                  let io := WriteBuffer out (number cur_log_writer) in
                  (io, io, [SwWriteBuffer (number cur_log_writer) io])
              | None => (st, io_s, [])
              end in
            if ok st then
              let d := db s in
              (st, io_s,
               set_db
                 (mkDB (versions_ d) new_log_number (total_log_size_ d) true
                    false
                    (logs_ d ++ [mkLogWriterNumber new_log_number false])
                    (alive_log_files_ d
                     ++ [mkLogFileNumberSize new_log_number 0 false])
                    (tmp_batch_ d) (cached_recoverable_state_ d)
                    (cached_recoverable_state_empty_ d)
                    (has_unpersisted_data_ d) (pending_memtable_writes_ d)
                    (last_batch_group_size_ d)
                    (max_total_in_memory_state_ d)) s,
               ev_buf)
            else (st, io_s, s, ev_buf)
          else (st, io_s, s, []) in
        let before :=
          ev_rs ++ [SwMutexUnlock] ++ ev_wal ++ ev_mem ++ [SwMutexLock]
          ++ ev_buf in
        match new_mem with
        | Some new_mem =>
            if ok st then
              let logfile_number := logfile_number_ (db s) in
              let last_sequence := LastSequence (versions_ (db s)) in
              let cfs :=
                map (advance_empty creating_new_log logfile_number
                       last_sequence) (column_families s) in
              let cfs :=
                update_nth cfd
                  (fun c =>
                     seal new_mem
                       (set_mem (SetNextLogNumber logfile_number (mem c)) c))
                  cfs in
              Some (st, set_column_families cfs s,
                    before
                    ++ [SwInstallSuperVersionAndScheduleWork cfd;
                        SwMutexUnlock]
                    ++ NotifyOnMemTableSealed memtable_info
                    ++ [SwMutexLock])
            else
              let bg := if negb (ok io_s) then io_s else st in
              Some (GetBGError_after_SetBGError out bg, s,
                    before ++ [SwSetBGError bg kMemTable])
        | None =>
            let bg := if negb (ok io_s) then io_s else st in
            Some (GetBGError_after_SetBGError out bg, s,
                  before ++ [SwSetBGError bg kMemTable])
        end
    end.

(** The loops of SwitchWAL and of HandleWriteBufferFull over the column
    families chosen; the second skips a column family whose memtable is
    empty.  The reference taken around each call is given back right after
    it. *)
Fixpoint switch_each (skip_empty : bool) (cfds : list nat) (s : State)
  : option (Status * State * list SwitchEvent) :=
  match cfds with
  | [] => Some (OK, s, [])
  | cfd :: rest =>
      match nth_error (column_families s) cfd with
      | None => None
      | Some cf =>
          if skip_empty && IsEmpty (mem cf) then switch_each skip_empty rest s
          else
            match SwitchMemtable cfd s with
            | None => None
            | Some (status, s1, ev) =>
                if negb (ok status) then Some (status, s1, ev)
                else
                  match switch_each skip_empty rest s1 with
                  | None => None
                  | Some (status, s2, ev2) => Some (status, s2, ev ++ ev2)
                  end
            end
      end
  end.

(** What SwitchWAL and HandleWriteBufferFull do with the column families
    chosen. *)
Definition switch_and_schedule (skip_empty : bool) (reason : FlushReason)
    (cfds : list nat) (s : State)
  : option (Status * State * list SwitchEvent) :=
  match switch_each skip_empty cfds s with
  | None => None
  | Some (status, s1, ev) =>
      Some (status, s1,
            (if two_write_queues_ opts then [SwEnterUnbatched] else [])
            ++ ev
            ++ (if two_write_queues_ opts then [SwExitUnbatched] else [])
            ++ (if ok status then
                  (if atomic_flush sopts then AssignAtomicFlushSeq cfds s1
                   else [])
                  ++ map SwFlushRequested cfds
                  ++ [SwSchedulePendingFlush cfds reason;
                      SwMaybeScheduleFlushOrCompaction]
                else []))
  end.

(** ** SwitchWAL *)

(** [None] is for an empty [alive_log_files_], whose first entry the code
    reads. *)
Definition SwitchWAL (s : State)
  : option (Status * State * list SwitchEvent) :=
  match alive_log_files_ (db s) with
  | [] => None
  | front :: others =>
      if getting_flushed front then Some (OK, s, [])
      else
        let oldest_alive_log := lf_number front in
        let oldest_log_with_uncommitted_prep :=
          FindMinLogContainingOutstandingPrep out in
        let blocked :=
          allow_2pc opts
          && (0 <? oldest_log_with_uncommitted_prep)
          && (oldest_log_with_uncommitted_prep =? oldest_alive_log) in
        if blocked && unable_to_release_oldest_log_ s then Some (OK, s, [])
        else
          let flush_wont_release_oldest_log := blocked in
          let s :=
            if negb flush_wont_release_oldest_log then
              set_db
                (set_alive_log_files_
                   (mkLogFileNumberSize (lf_number front) (size front) true
                    :: others) (db s))
                (set_unable_to_release_oldest_log_ false s)
            else set_unable_to_release_oldest_log_ true s in
          let chosen :=
            if atomic_flush sopts
            then Some (SelectColumnFamiliesForAtomicFlush s)
            else
              MaybeFlushStatsCF
                (select_from 0
                   (fun cfd => negb (IsDropped cfd)
                               && (OldestLogToKeep cfd <=? oldest_alive_log))
                   (column_families s)) s in
          match chosen with
          | None => None
          | Some cfds =>
              (* the reason given here is FlushReason::kWriteBufferManager *)
              switch_and_schedule false kWriteBufferManager cfds s
          end
  end.

(** ** HandleWriteBufferFull *)

Definition HandleWriteBufferFull (s : State)
  : option (Status * State * list SwitchEvent) :=
  let chosen :=
    if atomic_flush sopts
    then Some (SelectColumnFamiliesForAtomicFlush s)
    else
      MaybeFlushStatsCF
        (match pick_oldest 0 (column_families s) None with
         | Some (cfd_picked, _) => [cfd_picked]
         | None => []
         end) s in
  match chosen with
  | None => None
  | Some cfds => switch_and_schedule true kWriteBufferFull cfds s
  end.

End Switch.

End MemtableSwitch.

(** ** Notions for the properties of the switch *)

Section SwitchNotions.
Import MemtableSwitch.

(** A column family that HandleWriteBufferFull may pick: it is not dropped
    and its active memtable holds something. *)
Definition flushable (cf : ColumnFamilyData) : bool :=
  negb (IsDropped cf) && negb (IsEmpty (mem cf)).

(** Whether [i] is the first of the flushable column families whose
    memtable has the smallest creation sequence. *)
Definition oldest_flushable (cfs : list ColumnFamilyData) (i : nat) : Prop :=
  exists cf,
    nth_error cfs i = Some cf /\ flushable cf = true /\
    forall j cf', nth_error cfs j = Some cf' -> flushable cf' = true ->
      GetCreationSeq (mem cf) <= GetCreationSeq (mem cf') /\
      ((j < i)%nat -> GetCreationSeq (mem cf) < GetCreationSeq (mem cf')).

End SwitchNotions.

Section SwitchDiscipline.
Import MemtableSwitch.
Context {WriteBatch : Type} {WBI : WriteBatchInternal WriteBatch}.

(** The calls made with the mutex held; the others (the callback of the
    recoverable state, the creation of the log with the new memtable and
    super-version, and the listeners) are made with the mutex released. *)
Definition under_mutex (e : SwitchEvent) : bool :=
  match e with
  | SwRecoverableCallback _ _ | SwCreateWAL _ _ _ _ | SwNewSuperVersion
  | SwOnMemTableSealed _ _ => false
  | _ => true
  end.

(** Whether the mutex is held after the events [ev], when it was [held]
    before them; [None] when the mutex is locked while held, unlocked
    while released, or a call is made on the wrong side of it. *)
Fixpoint mutex_after (held : bool) (ev : list SwitchEvent) : option bool :=
  match ev with
  | [] => Some held
  | SwMutexLock :: r => if held then None else mutex_after true r
  | SwMutexUnlock :: r => if held then mutex_after false r else None
  | e :: r => if Bool.eqb held (under_mutex e) then mutex_after held r
              else None
  end.

(** The current log is the last of [logs_] and of [alive_log_files_]. *)
Definition current_log_is_last (d : DBImpl (WriteBatch := WriteBatch))
  : Prop :=
  option_map number (last_error (logs_ d)) = Some (logfile_number_ d) /\
  option_map lf_number (last_error (alive_log_files_ d))
  = Some (logfile_number_ d).

(** Whether [cfds] are the column families of [cfs] that satisfy [p]. *)
Definition chosen_by (p : ColumnFamilyData -> bool)
    (cfs : list ColumnFamilyData) (cfds : list nat) : Prop :=
  forall i, In i cfds <->
            exists cf, nth_error cfs i = Some cf /\ p cf = true.

(** A column family that is not dropped and still needs the log
    [oldest_alive_log]. *)
Definition holds_log (oldest_alive_log : Z) (cf : ColumnFamilyData) : bool :=
  negb (IsDropped cf) && (OldestLogToKeep cf <=? oldest_alive_log).

(** A column family that an atomic flush takes. *)
Definition atomic_flushable (cache_empty : bool) (cf : ColumnFamilyData)
  : bool :=
  negb (IsDropped cf)
  && (negb (NumNotFlushed cf =? 0) || negb (IsEmpty (mem cf))
      || negb cache_empty).

(** Whether the log [oldest_alive_log] holds a prepared transaction that
    is not committed, with two-phase commit. *)
Definition held_by_prepared (opts : DBOptions)
    (out : Outside (WriteBatch := WriteBatch))
    (oldest_alive_log : Z) : bool :=
  allow_2pc opts
  && (0 <? FindMinLogContainingOutstandingPrep out)
  && (FindMinLogContainingOutstandingPrep out =? oldest_alive_log).

End SwitchDiscipline.

(** ** The callbacks of the recoverable state, and inputs for the examples *)

Section SwitchExamples.
Import MemtableSwitch.

(** The callbacks of the recoverable state among the events, each with
    the sequence it was given and the status it returned. *)
Fixpoint callbacks_made (ev : list SwitchEvent) : list (Z * Status) :=
  match ev with
  | [] => []
  | SwRecoverableCallback seq returned :: r =>
      (seq, returned) :: callbacks_made r
  | _ :: r => callbacks_made r
  end.

Definition written_memtable (creation_seq : Z) : MemTable :=
  mkMemTable false 1 1 1 0 creation_seq 0.

Definition empty_memtable (creation_seq : Z) : MemTable :=
  mkMemTable true 0 creation_seq 0 0 creation_seq 0.

(** Three column families: the second is dropped, the third has the
    oldest memtable of the other two. *)
Definition three_families : list ColumnFamilyData :=
  [mkColumnFamilyData "default" false (written_memtable 7) [] 4 4 67108864;
   mkColumnFamilyData "dropped" true (written_memtable 1) [] 5 5 67108864;
   mkColumnFamilyData "older" false (written_memtable 5) [] 3 3 67108864].

Definition switch_options : SwitchOptions :=
  mkSwitchOptions false false 0 1 (mkBufferOptions 0 None).

Definition stats_options : SwitchOptions :=
  mkSwitchOptions false true 0 1 (mkBufferOptions 0 None).

(** A database with two logs, the second of which holds something. *)
Definition used_db : DBImpl (WriteBatch := Batch) :=
  mkDB (mkVersionSet 9 9 9) 4 100 false false
       [mkLogWriterNumber 3 false; mkLogWriterNumber 4 false]
       [mkLogFileNumberSize 3 60 false; mkLogFileNumberSize 4 40 false]
       Batch_empty Batch_empty true false 0 0 67108864.

Definition used_state : State :=
  mkState used_db three_families [] 5 false.

(** The same with a recoverable state in the cache. *)
Definition cached_state : State :=
  mkState (set_cached_recoverable_state_empty_ false
             (set_cached_recoverable_state_ (put "k" "v") used_db))
          three_families [] 5 false.

(** An outside where nothing fails; the insert of the recoverable state
    uses up two sequences, and the column family of the statistics is the
    third. *)
Definition kind_outside : Outside (WriteBatch := Batch) :=
  mkOutside (fun b => (OK, header_sequence b + 2, fun _ m => m))
            (Some (fun _ => OK))
            (fun _ _ _ => OK) (fun _ => OK) (fun s => s)
            (fun _ seq => empty_memtable seq) 0 (Some 2%nat) false.

(** An outside where no log can be created. *)
Definition full_disk : Outside (WriteBatch := Batch) :=
  mkOutside (fun b => (OK, header_sequence b + 2, fun _ m => m))
            None
            (fun _ _ _ => IOError "no space") (fun _ => OK) (fun s => s)
            (fun _ seq => empty_memtable seq) 0 None false.

End SwitchExamples.

(** * The pipelined write mode: the leader of the log

    The block of PipelinedWriteImpl that a writer runs when JoinBatchGroup
    leaves it as the leader of its group: from the wait for the memtable
    writers to ExitAsBatchGroupLeader. *)

Inductive PipelinedEvent :=
| PwEvent (e : Event)
| PwWaitForMemTableWriters
| PwUpdateLastSequence (sequence : Z).

Section PipelinedMode.
Context {WriteBatch : Type} {WBI : WriteBatchInternal WriteBatch}.
Variable opts : DBOptions.
Variable env : Env.

(** [UpdateLastSequence] of the writer queue, whose code is not among the
    sources: what it returns for the sequence it is given. *)
Variable UpdateLastSequence : Z -> Z.

(** The loop over the group that checks the pre-commit callbacks and
    gives the sequences: the group, [next_sequence] and [total_count]
    after it. *)
Fixpoint pipelined_sequences (ws : list Writer) (next_sequence : Z)
    (total_count : Z) : list Writer * Z * Z :=
  match ws with
  | [] => ([], next_sequence, total_count)
  | writer :: rest =>
      let '(writer, passed) := CheckCallback writer in
      let '(writer, next_sequence, total_count) :=
        if passed && ShouldWriteToMemtable writer then
          (set_sequence next_sequence writer,
           wrap64 (next_sequence + Count (batch writer)),
           wrap64 (total_count + Count (batch writer)))
        else (writer, next_sequence, total_count) in
      let '(rest, next_sequence, total_count) :=
        pipelined_sequences rest next_sequence total_count in
      (writer :: rest, next_sequence, total_count)
  end.

(** What the block leaves: the status given to ExitAsBatchGroupLeader
    (unless the thread blocks in PreprocessWrite), the database, the
    group, what is stored through [log_used], the events, and the locals
    [current_sequence], [total_count] and [io_s]. *)
Record PipelinedResult := mkPipelinedResult {
  pw_outcome : Outcome Status;
  pw_db : DBImpl (WriteBatch := WriteBatch);
  pw_group : list (Writer (WriteBatch := WriteBatch));
  pw_log_used : option Z;
  pw_events : list PipelinedEvent;
  pw_current_sequence : Z;
  pw_total_count : Z;
  pw_io_s : IOStatus
}.

Definition PipelinedWriteImpl_leader (write_options : WriteOptions)
    (db : DBImpl) (w : Writer) (others : list Writer) : PipelinedResult :=
  let ev_wait :=
    match callback w with
    | Some cb => if negb (AllowWriteBatching cb)
                 then [PwWaitForMemTableWriters] else []
    | None => []
    end in
  let need_log_sync := negb (disableWAL write_options) && sync write_options in
  let need_log_dir_sync := need_log_sync && negb (log_dir_synced_ db) in
  let pp := PreprocessWrite opts env write_options need_log_sync db in
  let before :=
    ev_wait ++ [PwEvent EvMutexLock] ++ map PwEvent (pp_events pp) in
  match pp_outcome pp with
  | Blocked =>
      mkPipelinedResult Blocked (pp_db pp) (w :: others) None before 0 0 OK
  | Done st =>
      let need_log_sync := pp_need_log_sync pp in
      let w := set_status st w in
      let db := set_last_batch_group_size_ (EnterAsBatchGroupLeader env)
                  (pp_db pp) in
      let last := LastSequence (versions_ db) in
      let current_sequence := wrap64 (UpdateLastSequence last + 1) in
      let '(wal_write_group, total_count, db, ev_seq) :=
        if ok (status w) then
          let '(g, _, total_count) :=
            pipelined_sequences (w :: others) current_sequence 0 in
          (g, total_count,
           if disable_wal (hd w g) then set_has_unpersisted_data_ true db
           else db,
           [PwUpdateLastSequence
              (wrap64 (current_sequence + total_count - 1))])
        else (w :: others, 0, db, []) in
      let w := hd w wal_write_group in
      let '(io_s, wal_write_group, log_used, db, ev_wal) :=
        if ok (status w) && negb (disableWAL write_options) then
          let r := WriteToWAL env db wal_write_group need_log_sync
                     need_log_dir_sync current_sequence in
          (wal_io_s r,
           update_nth 0 (set_status (wal_io_s r)) (wal_group r),
           Some (wal_log_used r), wal_db r, wal_events r)
        else (OK, wal_write_group, None, db, []) in
      let w := hd w wal_write_group in
      let ev_check :=
        if negb (CallbackFailed w) then
          if negb (ok io_s) then IOStatusCheck opts io_s
          else WriteStatusCheck opts (status w)
        else [] in
      let '(wal_write_group, ev_sync) :=
        if need_log_sync then
          if ok (status w) then
            (update_nth 0 (set_status (MarkLogsSynced env)) wal_write_group,
             [EvMutexLock; EvMarkLogsSynced; EvMutexUnlock])
          else
            (wal_write_group,
             [EvMutexLock; EvMarkLogsNotSynced; EvMutexUnlock])
        else (wal_write_group, []) in
      let w := hd w wal_write_group in
      mkPipelinedResult (Done (status w)) db wal_write_group log_used
        (before
         ++ [PwEvent EvMutexUnlock;
             PwEvent (EvEnterAsBatchGroupLeader write_thread_);
             PwUpdateLastSequence last]
         ++ ev_seq
         ++ map PwEvent (ev_wal ++ ev_check ++ ev_sync)
         ++ [PwEvent (EvExitAsBatchGroupLeader write_thread_ (status w))])
        current_sequence total_count io_s
  end.

(** Whether the loop gives a sequence to a writer, and the number of
    sequences it steps over for it. *)
Definition pipelined_takes (writer : Writer (WriteBatch := WriteBatch))
  : bool :=
  snd (CheckCallback writer)
  && ShouldWriteToMemtable (fst (CheckCallback writer)).

Definition pipelined_count (writer : Writer (WriteBatch := WriteBatch))
  : Z :=
  if pipelined_takes writer then Count (batch writer) else 0.

Definition pipelined_total (ws : list (Writer (WriteBatch := WriteBatch)))
  : Z :=
  fold_right Z.add 0 (map pipelined_count ws).

End PipelinedMode.

(** ** The stall barrier and the mutex in DelayWrite *)

(** Whether a stall barrier is set and whether the mutex is held after
    the events [ev], when that was [in_stall] and [held] before them.
    [None] when a barrier is set twice or lifted while none is set, the
    mutex is locked while held or unlocked while released, the thread
    sleeps outside a barrier or with the mutex held, or it sets or lifts a
    barrier or waits on the condition variable without the mutex. *)
Fixpoint stall_state (in_stall held : bool) (ev : list Event)
  : option (bool * bool) :=
  match ev with
  | [] => Some (in_stall, held)
  | EvBeginWriteStall :: r =>
      if negb in_stall && held then stall_state true held r else None
  | EvEndWriteStall :: r =>
      if in_stall && held then stall_state false held r else None
  | EvMutexUnlock :: r =>
      if held then stall_state in_stall false r else None
  | EvMutexLock :: r =>
      if held then None else stall_state in_stall true r
  | EvSleepForMicroseconds _ :: r =>
      if in_stall && negb held then stall_state in_stall held r else None
  | EvBgCvWait :: r =>
      if in_stall && held then stall_state in_stall held r else None
  | _ :: r => stall_state in_stall held r
  end.

(** ** The recoverable state a write leaves in the cache *)

Section PersistentState.
Context {WriteBatch : Type} {WBI : WriteBatchInternal WriteBatch}.

(** A writer whose batch is to be cached as the latest persistent state:
    its pre-commit callback did not fail and its batch is marked so. *)
Definition persists (x : Writer (WriteBatch := WriteBatch)) : bool :=
  negb (CallbackFailed x) && IsLatestPersistentState (batch x).

(** Whether [i] is the place of the last such writer of [ws]. *)
Definition last_persisting (ws : list (Writer (WriteBatch := WriteBatch)))
    (i : nat) : Prop :=
  (exists x, nth_error ws i = Some x /\ persists x = true) /\
  forall j y, (i < j)%nat -> nth_error ws j = Some y -> persists y = false.

(** Whether the group is written to the log in place, from the batch of
    its leader: it has one writer, whose pre-commit callback did not fail
    and whose batch has no WAL termination point.  Every other group is
    copied into the scratch batch. *)
Definition written_in_place (ws : list (Writer (WriteBatch := WriteBatch)))
  : bool :=
  match ws with
  | [leader] =>
      negb (CallbackFailed leader)
      && WalTerminationPoint_is_cleared (batch leader)
  | _ => false
  end.

End PersistentState.

(** ** A call of GetToken among other threads *)

Section CallAmongThreads.
Import TaskLimiter.

(** One atomic access of a call of GetToken: the actions of other threads
    that come before it, and whether a compare-exchange made at this
    access fails spuriously. *)
Record access := mkAccess {
  interference : list (nat * action);
  spurious_failure : bool
}.

(** The schedule of the accesses of thread [tid]. *)
Definition call_sched (tid : nat) (accesses : list access)
  : list (nat * action) :=
  concat (map (fun a => interference a ++ [(tid, Step (spurious_failure a))])
              accesses).

(** The accesses of thread [tid] run from [s]: the system they leave and,
    for each access, the limiter as the thread finds it and as the access
    leaves it. *)
Fixpoint call_run (s : system) (tid : nat) (accesses : list access)
  : option (system
            * list (ConcurrentTaskLimiterImpl * ConcurrentTaskLimiterImpl)) :=
  match accesses with
  | [] => Some (s, [])
  | a :: rest =>
      match run s (interference a) with
      | Some s1 =>
          match sys_step s1 tid (Step (spurious_failure a)) with
          | Some s2 =>
              match call_run s2 tid rest with
              | Some (s3, found) => Some (s3, (lim s1, lim s2) :: found)
              | None => None
              end
          | None => None
          end
      | None => None
      end
  end.

(** Whether thread [tid] is inside a call of GetToken, and the tokens it
    owns. *)
Definition in_call (s : system) (tid : nat) : bool :=
  match nth_error (threads s) tid with
  | Some (mkThread (Some _) _) => true
  | _ => false
  end.

Definition tokens_of (s : system) (tid : nat) : list TaskLimiterToken :=
  match nth_error (threads s) tid with
  | Some t => held t
  | None => []
  end.

(** The control point of a call after an access that does not end it,
    made when the limiter is [l]. *)
Definition next_frame (f : frame) (l : ConcurrentTaskLimiterImpl) : frame :=
  match f with
  | AtEntry force => LimitLoaded force (max_outstanding_tasks_ l)
  | LimitLoaded force limit => AtLoop force limit (outstanding_tasks_ l)
  | AtLoop force limit _ => AtLoop force limit (outstanding_tasks_ l)
  end.

(** The flag and the cap a control point carries. *)
Definition frame_force (f : frame) : bool :=
  match f with
  | AtEntry force | LimitLoaded force _ | AtLoop force _ _ => force
  end.

Definition frame_limit (f : frame) : option Z :=
  match f with
  | AtEntry _ => None
  | LimitLoaded _ limit | AtLoop _ limit _ => Some limit
  end.

End CallAmongThreads.

(** * Properties *)

(** ** Machine integers and lists *)

Lemma wrap32_small z : INT32_MIN <= z <= INT32_MAX -> wrap32 z = z.
Proof.
  unfold wrap32, INT32_MIN, INT32_MAX. intros H.
  rewrite Z.mod_small; lia.
Qed.

Lemma wrap64_small z : 0 <= z < 18446744073709551616 -> wrap64 z = z.
Proof. unfold wrap64. intros H. apply Z.mod_small. exact H. Qed.

Lemma wrap64_idem z : wrap64 (wrap64 z) = wrap64 z.
Proof. unfold wrap64. apply Z.mod_mod. lia. Qed.

Lemma wrap64_add_l a b : wrap64 (wrap64 a + b) = wrap64 (a + b).
Proof. unfold wrap64. apply Zplus_mod_idemp_l. Qed.

Lemma wrap64_add_r a b : wrap64 (a + wrap64 b) = wrap64 (a + b).
Proof. unfold wrap64. apply Zplus_mod_idemp_r. Qed.

Lemma wrap64_range z : 0 <= wrap64 z < 18446744073709551616.
Proof. unfold wrap64. apply Z.mod_pos_bound. lia. Qed.

Lemma remove_nth_length {A} (l : list A) n x :
  nth_error l n = Some x -> S (length (remove_nth n l)) = length l.
Proof.
  revert n. induction l as [|a l IH]; intros [|n] H; simpl in *; try discriminate.
  - reflexivity.
  - f_equal. apply IH. exact H.
Qed.

(** ** The task limiter *)

Section TaskLimiterFacts.
Import TaskLimiter.

Lemma loop_test_spec force limit tasks :
  loop_test force limit tasks = true <->
  force = true \/ limit < 0 \/ tasks < limit.
Proof.
  unfold loop_test. rewrite !orb_true_iff, !Z.ltb_lt. tauto.
Qed.

(** A step from the loop head ends the call with a token only through a
    compare-exchange that found the counter equal to [tasks]. *)
Lemma GetToken_step_token spurious l force limit tasks l' tok :
  GetToken_step spurious l (AtLoop force limit tasks) = (l', Returned (Some tok)) ->
  loop_test force limit tasks = true /\
  outstanding_tasks_ l = tasks /\
  outstanding_tasks_ l' = wrap32 (outstanding_tasks_ l + 1).
Proof.
  simpl. destruct (loop_test force limit tasks); [|discriminate].
  destruct (outstanding_tasks_ l =? tasks) eqn:E; simpl.
  - destruct spurious; simpl; intros H; inversion H; subst.
    apply Z.eqb_eq in E. subst. auto.
  - discriminate.
Qed.

Lemma GetToken_step_no_token spurious l force limit tasks l' :
  GetToken_step spurious l (AtLoop force limit tasks) = (l', Returned None) ->
  loop_test force limit tasks = false /\ l' = l.
Proof.
  simpl. destruct (loop_test force limit tasks).
  - destruct ((outstanding_tasks_ l =? tasks) && negb spurious); discriminate.
  - intros H. inversion H. auto.
Qed.

(** The call run alone is the loop test on the values just loaded. *)
Lemma GetToken_alone force l :
  GetToken force l =
  if loop_test force (max_outstanding_tasks_ l) (outstanding_tasks_ l)
  then (Some (mkToken (name_ l)),
        store_outstanding (wrap32 (outstanding_tasks_ l + 1)) l)
  else (None, l).
Proof.
  unfold GetToken. simpl.
  destruct (loop_test force (max_outstanding_tasks_ l) (outstanding_tasks_ l)).
  - rewrite Z.eqb_refl. reflexivity.
  - reflexivity.
Qed.

Lemma live_tokens_update (ts : list thread) tid t t' :
  nth_error ts tid = Some t ->
  (list_sum (map (fun t => length (held t)) (update_nth tid (fun _ => t') ts))
   + length (held t) =
   list_sum (map (fun t => length (held t)) ts) + length (held t'))%nat.
Proof.
  revert tid. induction ts as [|a ts IH]; intros [|tid] H; simpl in *;
    try discriminate.
  - inversion H; subst. lia.
  - specialize (IH _ H). lia.
Qed.

Ltac stutter s := exists s; split; [reflexivity | split; [assumption | lia]].

Ltac relive E t' :=
  match type of E with
  | nth_error ?ts ?tid = Some _ =>
      let Hu := fresh "Hu" in
      pose proof (live_tokens_update ts tid _ t' E) as Hu;
      unfold live_tokens in *; simpl in *
  end.

Lemma sys_step_counts_live s tid a :
  counts_live s ->
  Z.of_nat (live_tokens s) < INT32_MAX ->
  exists s', sys_step s tid a = Some s' /\ counts_live s' /\
             (live_tokens s' <= S (live_tokens s))%nat.
Proof.
  unfold counts_live. intros Hinv Hb.
  destruct a as [force|spurious|k|limit|]; simpl.
  - (* Call *)
    destruct (nth_error (threads s) tid) as [[[f|] h]|] eqn:E;
      try stutter s.
    eexists; split; [reflexivity|].
    relive E (mkThread (Some (AtEntry force)) h). split; lia.
  - (* Step *)
    destruct (nth_error (threads s) tid) as [[[f|] h]|] eqn:E;
      try stutter s.
    destruct (GetToken_step spurious (lim s) f) as [l' p] eqn:Es.
    eexists; split; [reflexivity|].
    destruct f as [force|force limit|force limit tasks]; simpl in Es.
    + inversion Es; subst.
      relive E (mkThread (Some (LimitLoaded force (max_outstanding_tasks_ (lim s)))) h).
      split; lia.
    + inversion Es; subst.
      relive E (mkThread (Some (AtLoop force limit (outstanding_tasks_ (lim s)))) h).
      split; lia.
    + destruct (loop_test force limit tasks).
      * destruct ((outstanding_tasks_ (lim s) =? tasks) && negb spurious) eqn:Ec.
        -- apply andb_true_iff in Ec. destruct Ec as [Ec _].
           apply Z.eqb_eq in Ec. inversion Es; subst.
           relive E (mkThread None (mkToken (name_ (lim s)) :: h)).
           rewrite wrap32_small by (unfold INT32_MIN, INT32_MAX in *; lia).
           split; lia.
        -- inversion Es; subst.
           relive E (mkThread (Some (AtLoop force limit (outstanding_tasks_ (lim s)))) h).
           split; lia.
      * inversion Es; subst.
        relive E (mkThread None h). split; lia.
  - (* Drop *)
    destruct (nth_error (threads s) tid) as [[c h]|] eqn:E; try stutter s.
    destruct (nth_error h k) as [tok|] eqn:Ek; try stutter s.
    pose proof (remove_nth_length h k tok Ek) as Hlen.
    relive E (mkThread c (remove_nth k h)).
    rewrite wrap32_small by (unfold INT32_MIN, INT32_MAX in *; lia).
    replace (0 <=? outstanding_tasks_ (lim s) - 1) with true
      by (symmetry; apply Z.leb_le; lia).
    eexists; split; [reflexivity|]. simpl. split; lia.
  - eexists; split; [reflexivity|]. unfold live_tokens; simpl. split; [assumption|lia].
  - eexists; split; [reflexivity|]. unfold live_tokens; simpl. split; [assumption|lia].
Qed.

Lemma run_counts_live sched : forall s,
  counts_live s ->
  Z.of_nat (live_tokens s) + Z.of_nat (length sched) <= INT32_MAX ->
  exists s', run s sched = Some s' /\ counts_live s' /\
             (live_tokens s' <= live_tokens s + length sched)%nat.
Proof.
  induction sched as [|[tid a] rest IH]; intros s Hinv Hb; simpl in *.
  - exists s. split; [reflexivity|]. split; [assumption|lia].
  - destruct (sys_step_counts_live s tid a Hinv) as (s1 & E1 & Hinv1 & Hle1);
      [lia|].
    rewrite E1.
    destruct (IH s1 Hinv1) as (s2 & E2 & Hinv2 & Hle2); [lia|].
    exists s2. split; [assumption|]. split; [assumption|lia].
Qed.

Lemma init_counts_live name limit n : counts_live (init name limit n).
Proof.
  unfold counts_live, init, live_tokens; simpl.
  induction n as [|n IH]; simpl; [reflexivity|exact IH].
Qed.

Lemma init_live_tokens name limit n : live_tokens (init name limit n) = 0%nat.
Proof.
  unfold init, live_tokens; simpl.
  induction n as [|n IH]; simpl; [reflexivity|exact IH].
Qed.


(** A call of GetToken(force) that no other thread interferes with
    returns a token if and only if force is set, or the cap is negative,
    or the outstanding count is below the cap; when a token is returned
    the outstanding count has grown by exactly one, and when none is
    returned the limiter is unchanged.  (The count is an int32 below
    INT32_MAX, so that the increment does not overflow.) *)
Lemma GetToken_uncontended force l :
  INT32_MIN <= outstanding_tasks_ l < INT32_MAX ->
  (fst (GetToken force l) <> None <->
   force = true \/ max_outstanding_tasks_ l < 0 \/
   outstanding_tasks_ l < max_outstanding_tasks_ l) /\
  (fst (GetToken force l) <> None ->
   outstanding_tasks_ (snd (GetToken force l)) = outstanding_tasks_ l + 1 /\
   max_outstanding_tasks_ (snd (GetToken force l)) = max_outstanding_tasks_ l) /\
  (fst (GetToken force l) = None -> snd (GetToken force l) = l).
Proof.
  intros Hr. rewrite GetToken_alone.
  pose proof (loop_test_spec force (max_outstanding_tasks_ l)
                (outstanding_tasks_ l)) as Ht.
  destruct (loop_test force (max_outstanding_tasks_ l) (outstanding_tasks_ l));
    simpl.
  - split; [|split].
    + split; [intros _; apply Ht; reflexivity | discriminate].
    + intros _. split; [|reflexivity].
      apply wrap32_small. unfold INT32_MIN, INT32_MAX in *. lia.
    + discriminate.
  - split; [|split].
    + split; [intros H; contradiction|].
      intros H. apply Ht in H. discriminate.
    + intros H; contradiction.
    + reflexivity.
Qed.

(** C9. The outstanding count is the number of live tokens at every point
    of every run of client threads over one limiter: it starts at zero, the
    destruction of a token takes exactly one off, a step of GetToken that
    returns no token leaves the limiter as it is, the count is never
    negative (the assertion of the token's destructor never fails), and the
    assertion of the limiter's destructor holds exactly when no token is
    live. *)
Theorem outstanding_counts_live_tokens :
  (forall name limit,
      outstanding_tasks_ (NewConcurrentTaskLimiter name limit) = 0) /\
  (forall l, INT32_MIN < outstanding_tasks_ l <= INT32_MAX ->
      outstanding_tasks_ (fst (TaskLimiterToken_dtor l))
      = outstanding_tasks_ l - 1) /\
  (forall spurious l f l',
      GetToken_step spurious l f = (l', Returned None) -> l' = l) /\
  (forall name limit n sched,
      Z.of_nat (length sched) <= INT32_MAX ->
      exists s,
        run (init name limit n) sched = Some s /\
        outstanding_tasks_ (lim s) = Z.of_nat (live_tokens s) /\
        0 <= outstanding_tasks_ (lim s) /\
        (ConcurrentTaskLimiterImpl_dtor (lim s) = true <->
         live_tokens s = 0%nat)).
Proof.
  split; [reflexivity|]. split; [|split].
  - intros l Hr. simpl. apply wrap32_small.
    unfold INT32_MIN, INT32_MAX in *. lia.
  - intros spurious l f l' H. destruct f as [force|force limit|force limit tasks].
    + discriminate.
    + discriminate.
    + apply GetToken_step_no_token in H. apply H.
  - intros name limit n sched Hlen.
    destruct (run_counts_live sched (init name limit n)
                (init_counts_live name limit n)) as (s & Hrun & Hinv & _).
    + rewrite init_live_tokens. simpl. lia.
    + exists s. unfold counts_live in Hinv.
      split; [exact Hrun|]. split; [exact Hinv|]. split; [lia|].
      unfold ConcurrentTaskLimiterImpl_dtor. rewrite Z.eqb_eq. lia.
Qed.

Lemma outstanding_counts_live_tokens_witness :
  exists s,
    run (init "flush" 1 2)
        [(0%nat, Call false); (0%nat, Step false); (0%nat, Step false);
         (0%nat, Step false); (1%nat, Call false); (1%nat, Step false);
         (1%nat, Step false); (1%nat, Step false); (0%nat, Drop 0%nat)]
    = Some s /\
    outstanding_tasks_ (lim s) = Z.of_nat (live_tokens s) /\
    0 <= outstanding_tasks_ (lim s) /\
    (ConcurrentTaskLimiterImpl_dtor (lim s) = true <-> live_tokens s = 0%nat).
Proof.
  apply (proj2 (proj2 (proj2 outstanding_counts_live_tokens))).
  simpl. unfold INT32_MAX. lia.
Defined.

End TaskLimiterFacts.


(** ** Preprocessing *)

Section PreprocessFacts.
Context {WriteBatch : Type}.
Variable opts : DBOptions.
Variable env : Env.

Lemma sleep_loop_events stall_end obs :
  Forall (fun e => is_stall_event e = true) (snd (sleep_loop stall_end obs)).
Proof.
  induction obs as [|[needs now] rest IH]; simpl.
  - constructor.
  - destruct needs; [|constructor].
    destruct (stall_end <=? now); [constructor|].
    destruct (sleep_loop stall_end rest) as [[over slept] ev]. simpl in *.
    constructor; [reflexivity|exact IH].
Qed.

Lemma bg_wait_loop_events no_slow later : forall cur,
  Forall (fun e => is_stall_event e = true)
         (snd (bg_wait_loop no_slow cur later)).
Proof.
  induction later as [|nxt rest IH]; intros cur; simpl.
  - destruct (ok (GetBGError cur) && IsStopped cur); [|constructor].
    destruct no_slow; simpl; repeat constructor.
  - destruct (ok (GetBGError cur) && IsStopped cur); [|constructor].
    destruct no_slow; [constructor|].
    specialize (IH nxt).
    destruct (bg_wait_loop false nxt rest) as [[x d] ev]. simpl in *.
    repeat (constructor; [reflexivity|]). exact IH.
Qed.

Lemma delay_tail_events write_options cur was before :
  Forall (fun e => is_stall_event e = true) before ->
  Forall (fun e => is_stall_event e = true)
         (dw_events (delay_tail env write_options cur was before)).
Proof.
  intros Hb. unfold delay_tail.
  pose proof (bg_wait_loop_events (no_slowdown write_options) (wakeups env) cur)
    as Hw.
  destruct (bg_wait_loop (no_slowdown write_options) cur (wakeups env))
    as [[x d] ev].
  simpl in Hw. destruct x; simpl; apply Forall_app; split; assumption.
Qed.

Lemma DelayWrite_events num_bytes write_options :
  Forall (fun e => is_stall_event e = true)
         (dw_events (DelayWrite env num_bytes write_options)).
Proof.
  unfold DelayWrite.
  destruct (0 <? GetDelay env num_bytes).
  - destruct (no_slowdown write_options); [constructor|].
    pose proof (sleep_loop_events
                  (wrap64 (start_time env + GetDelay env num_bytes))
                  (ticks env)) as Hs.
    destruct (sleep_loop (wrap64 (start_time env + GetDelay env num_bytes))
                (ticks env)) as [[over slept] ev].
    simpl in Hs. destruct over.
    + apply delay_tail_events.
      repeat (constructor; [reflexivity|]).
      apply Forall_app; split; [exact Hs|repeat constructor].
    + simpl. repeat (constructor; [reflexivity|]). exact Hs.
  - apply delay_tail_events. constructor.
Qed.

Lemma PreprocessWrite_events write_options need_log_sync
    (db : DBImpl (WriteBatch := WriteBatch)) :
  exists tail,
    pp_events (PreprocessWrite opts env write_options need_log_sync db)
    = (if switch_test opts env db
       then [EvWaitForPendingWrites; EvSwitchWAL] else [])
      ++ tail
    /\ Forall (fun e => is_preprocess_event e = true) tail.
Proof.
  unfold PreprocessWrite, switch_test.
  set (st0 := if IsDBStopped (at_entry env) then GetBGError (at_entry env)
              else OK).
  destruct (ok st0 && negb (single_column_family_mode_ opts)
            && (GetMaxTotalWalSize opts db <? total_log_size_ db));
    [generalize (SwitchWAL env) | generalize st0]; clear st0; intros st1.
  all: destruct (ok st1 && ShouldFlush env);
    [generalize (HandleWriteBufferFull env) | generalize st1];
    clear st1; intros st2.
  all: destruct (ok st2 && negb (trim_history_scheduler_Empty env));
    [generalize (TrimMemtableHistory env) | generalize st2];
    clear st2; intros st3.
  all: destruct (ok st3 && negb (flush_scheduler_Empty env));
    [generalize (ScheduleFlushes env) | generalize st3];
    clear st3; intros st4.
  all: match goal with
       | |- context [dw_outcome ?d] =>
           assert (Hd : Forall (fun e => is_stall_event e = true) (dw_events d))
       end.
  all: try (destruct (ok st4 && (IsStopped (at_entry env) || NeedsDelay env));
            [apply DelayWrite_events | constructor]).
  all: match goal with
       | Hd : Forall _ (dw_events ?d) |- _ => revert Hd; generalize d
       end; intros d Hd.
  all: assert (Hd' : Forall (fun e => is_preprocess_event e = true)
                            (dw_events d))
    by (eapply Forall_impl; [|exact Hd];
        intros e He; destruct e; simpl in *; congruence).
  all: destruct (dw_outcome d) as [st5|].
  all: try destruct (ok st5 && need_log_sync).
  all: try destruct (logs_ db) as [|front rest].
  all: try destruct (getting_synced front).
  all: try destruct (parallel_sync_finishes env).
  all: simpl; eexists; (split; [reflexivity|]).
  all: repeat (first [ apply Forall_cons; [reflexivity|]
                     | apply Forall_app; split
                     | exact Hd'
                     | apply Forall_nil ]).
Qed.

(** C6 (as the code has it). The threshold of the WAL rotation is the
    configured max_total_wal_size when that is not zero, and otherwise four
    times the total in-memory state, in 64-bit arithmetic; PreprocessWrite
    switches the WAL exactly when no background error has stopped the
    database, the database is not in single-column-family mode, and the
    total size of the logs exceeds the threshold. *)
Theorem wal_switch_threshold write_options need_log_sync
    (db : DBImpl (WriteBatch := WriteBatch)) :
  (max_total_wal_size opts <> 0 ->
   GetMaxTotalWalSize opts db = max_total_wal_size opts) /\
  (max_total_wal_size opts = 0 ->
   GetMaxTotalWalSize opts db = wrap64 (4 * max_total_in_memory_state_ db)) /\
  (max_total_wal_size opts = 0 ->
   0 <= 4 * max_total_in_memory_state_ db < 18446744073709551616 ->
   GetMaxTotalWalSize opts db = 4 * max_total_in_memory_state_ db) /\
  (In EvSwitchWAL
      (pp_events (PreprocessWrite opts env write_options need_log_sync db)) <->
   (IsDBStopped (at_entry env) = false \/ ok (GetBGError (at_entry env)) = true)
   /\ single_column_family_mode_ opts = false
   /\ GetMaxTotalWalSize opts db < total_log_size_ db).
Proof.
  split; [|split; [|split]].
  - intros H. unfold GetMaxTotalWalSize.
    destruct (max_total_wal_size opts =? 0) eqn:E; [|reflexivity].
    apply Z.eqb_eq in E. contradiction.
  - intros H. unfold GetMaxTotalWalSize. rewrite H. reflexivity.
  - intros H Hr. unfold GetMaxTotalWalSize. rewrite H. simpl.
    apply wrap64_small. exact Hr.
  - destruct (PreprocessWrite_events write_options need_log_sync db)
      as (tail & Hev & Htail).
    rewrite Hev. clear Hev.
    assert (Hnot : ~ In EvSwitchWAL tail).
    { intros Hin. rewrite Forall_forall in Htail.
      specialize (Htail _ Hin). discriminate. }
    assert (Htest : switch_test opts env db = true <->
              (IsDBStopped (at_entry env) = false
               \/ ok (GetBGError (at_entry env)) = true)
              /\ single_column_family_mode_ opts = false
              /\ GetMaxTotalWalSize opts db < total_log_size_ db).
    { unfold switch_test. rewrite !andb_true_iff, negb_true_iff, Z.ltb_lt.
      destruct (IsDBStopped (at_entry env)); simpl; intuition congruence. }
    destruct (switch_test opts env db).
    + split; [intros _; apply Htest; reflexivity|].
      intros _. simpl. auto.
    + split; [|intros H; apply Htest in H; discriminate].
      simpl. intros H. contradiction.
Qed.

End PreprocessFacts.

Lemma wal_switch_threshold_witness :
  GetMaxTotalWalSize default_options fresh_db
  = 4 * max_total_in_memory_state_ fresh_db.
Proof.
  apply (proj1 (proj2 (proj2 (wal_switch_threshold default_options calm
                                default_write_options false fresh_db)))).
  - reflexivity.
  - simpl. lia.
Defined.

(** C6 as stated fails: in single-column-family mode the total size of the
    logs exceeds the threshold and the WAL is not switched. *)
Lemma wal_switch_counterexample :
  GetMaxTotalWalSize single_cf_options big_log_db
  < total_log_size_ big_log_db /\
  ~ In EvSwitchWAL
       (pp_events (PreprocessWrite single_cf_options calm
                     default_write_options false big_log_db)).
Proof.
  split; [reflexivity|].
  vm_compute. intros H. exact H.
Qed.

(** ** Writing to the log *)

Section WalFacts.
Context {WriteBatch : Type} {WBI : WriteBatchInternal WriteBatch}.
Variable opts : DBOptions.
Variable env : Env.

Lemma sync_logs_events logs io_s :
  Forall (fun e => is_sync_event e = true) (snd (sync_logs env logs io_s)).
Proof.
  revert io_s. induction logs as [|log rest IH]; intros io_s; simpl.
  - constructor.
  - destruct (ok (FileSync env (number log))); [|repeat constructor].
    specialize (IH (FileSync env (number log))).
    destruct (sync_logs env rest (FileSync env (number log))) as [r ev].
    simpl in *. constructor; [reflexivity|exact IH].
Qed.

Lemma WriteToWAL_events db (write_group : list Writer) nls nlds seq :
  exists rest,
    wal_events (WriteToWAL env db write_group nls nlds seq)
    = EvAddRecord
        (Contents (fst (stamp (MergeBatch write_group (tmp_batch_ db))
                          (assign_log_used
                             (MergeBatch write_group (tmp_batch_ db))
                             write_group (logfile_number_ db)) seq)))
      :: rest
    /\ Forall (fun e => is_sync_event e = true) rest.
Proof.
  unfold WriteToWAL.
  destruct (stamp _ _ seq) as [merged g2] eqn:Es. simpl.
  match goal with
  | |- context [ok (AddRecord env ?c) && nls] =>
      destruct (ok (AddRecord env c) && nls)
  end.
  - match goal with
    | |- context [sync_logs env ?l ?i] =>
        pose proof (sync_logs_events l i) as Hs;
        destruct (sync_logs env l i) as [io' ev']
    end.
    simpl in Hs.
    destruct (ok io' && nlds); simpl; eexists; (split; [reflexivity|]).
    + apply Forall_app; split; try assumption; repeat constructor.
    + assumption.
  - simpl. eexists. split; [reflexivity|]. constructor.
Qed.

Lemma ConcurrentWriteToWAL_events db (write_group : list Writer) seq_inc :
  wal_events (ConcurrentWriteToWAL env db write_group seq_inc)
  = [EvAddRecord
       (Contents (fst (stamp (MergeBatch write_group new_batch)
                         (assign_log_used (MergeBatch write_group new_batch)
                            write_group (logfile_number_ db))
                         (wrap64 (last_allocated_sequence_ (versions_ db) + 1)))))].
Proof.
  unfold ConcurrentWriteToWAL. simpl.
  destruct (stamp _ _ _) as [merged g2]. reflexivity.
Qed.

End WalFacts.

(** ** The leader after the WAL phase *)

Section LeaderFacts.
Context {WriteBatch : Type} {WBI : WriteBatchInternal WriteBatch}.
Variable opts : DBOptions.
Variable env : Env.

Lemma wal_phase_events write_options last nls nlds db (g : list Writer)
    seq_inc :
  Forall (fun e => is_wal_append e || is_sync_event e = true)
         (wal_events (wal_phase opts env write_options last nls nlds db g
                        seq_inc)).
Proof.
  unfold wal_phase.
  destruct (negb (two_write_queues_ opts));
    destruct (negb (disableWAL write_options)); simpl.
  - destruct (WriteToWAL_events env db g nls nlds (wrap64 (last + 1)))
      as (rest & E & Hs).
    rewrite E. constructor; [reflexivity|].
    eapply Forall_impl; [|exact Hs].
    intros e He. rewrite He. apply orb_true_r.
  - constructor.
  - rewrite ConcurrentWriteToWAL_events. repeat constructor.
  - constructor.
Qed.

Lemma wal_phase_disabled write_options last nls nlds db (g : list Writer)
    seq_inc :
  disableWAL write_options = true ->
  wal_events (wal_phase opts env write_options last nls nlds db g seq_inc) = []
  /\ wal_io_s (wal_phase opts env write_options last nls nlds db g seq_inc)
     = OK.
Proof.
  intros H. unfold wal_phase. rewrite H. simpl.
  destruct (negb (two_write_queues_ opts)); simpl; auto.
Qed.

(** When the WAL phase fails, the leader calls no callback and applies
    nothing. *)
Lemma commit_group_wal_failed write_options dm last nls nlds db
    (g : list Writer) :
  let cm := commit_group opts env write_options dm last nls nlds db g in
  ok (cm_io_s cm) = false ->
  cm_status cm = cm_io_s cm /\ cm_callback_events cm = [] /\
  cm_memtable_events cm = [] /\ cm_in_parallel_group cm = false /\
  Forall (fun e => is_wal_append e || is_sync_event e = true)
         (cm_wal_events cm).
Proof.
  unfold commit_group.
  destruct (check_group g _) as [g1 t].
  match goal with
  | |- context [wal_phase opts env write_options last nls nlds ?d g1 ?n] =>
      pose proof (wal_phase_events write_options last nls nlds d g1 n) as Hev;
      generalize dependent (wal_phase opts env write_options last nls nlds d g1 n)
  end.
  intros wal Hev. cbv zeta.
  destruct (ok (wal_io_s wal)) eqn:Eio.
  - destruct (assign_sequences _ _ _ _ _ _ _) as [[g3 st] ev_cb].
    destruct (ok st).
    + destruct (memtable_phase _ _ _ _) as [[[g4 ip] su] em]. simpl.
      intros H. congruence.
    + simpl. intros H. congruence.
  - rewrite Eio. simpl. intros _. auto.
Qed.

Lemma IOStatusCheck_spec io_s :
  ok io_s = false ->
  (In (EvSetBGError io_s kWriteCallback) (IOStatusCheck opts io_s) <->
   (paranoid_checks opts = true /\ IsBusy io_s = false
    /\ IsIncomplete io_s = false) \/ IsIOFenced io_s = true).
Proof.
  intros Hok. unfold IOStatusCheck. rewrite Hok. simpl.
  destruct (paranoid_checks opts), (IsBusy io_s), (IsIncomplete io_s),
    (IsIOFenced io_s); simpl; intuition congruence.
Qed.

Lemma MemTableInsertStatusCheck_reason st io_s :
  ~ In (EvSetBGError io_s kWriteCallback) (MemTableInsertStatusCheck st).
Proof.
  unfold MemTableInsertStatusCheck. destruct (negb (ok st)); simpl.
  - intros [H|[]]. discriminate.
  - auto.
Qed.

Lemma not_in_wal_events (l : list Event) io_s :
  Forall (fun e => is_wal_append e || is_sync_event e = true) l ->
  ~ In (EvSetBGError io_s kWriteCallback) l.
Proof.
  intros H Hin. rewrite Forall_forall in H. specialize (H _ Hin).
  discriminate.
Qed.

Lemma wal_phase_versions write_options last nls nlds db (g : list Writer)
    seq_inc :
  let wal := wal_phase opts env write_options last nls nlds db g seq_inc in
  (two_write_queues_ opts = true ->
   versions_ (wal_db wal)
   = snd (FetchAddLastAllocatedSequence seq_inc (versions_ db))
   /\ wal_last_sequence wal = last_allocated_sequence_ (versions_ db)) /\
  (two_write_queues_ opts = false ->
   versions_ (wal_db wal) = versions_ db /\ wal_last_sequence wal = last).
Proof.
  unfold wal_phase.
  destruct (two_write_queues_ opts); simpl;
    (split; intros H; try discriminate); clear H.
  - destruct (negb (disableWAL write_options)); simpl.
    + unfold ConcurrentWriteToWAL. simpl.
      destruct (stamp _ _ _) as [merged g2]. simpl.
      unfold cache_state.
      destruct (to_be_cached_state _) as [k|]; [|auto].
      destruct (nth_error g2 k); auto.
    + auto.
  - destruct (negb (disableWAL write_options)); simpl; [|auto].
    unfold WriteToWAL.
    destruct (stamp _ _ _) as [merged g2]. simpl.
    match goal with
    | |- context [if ?c then ?a else (AddRecord env ?x, [])] =>
        destruct (if c then a else (AddRecord env x, [])) as [io ev]
    end.
    assert (Hv : forall m (g' : list (@Writer WriteBatch))
                      (d : @DBImpl WriteBatch),
               versions_ (cache_state m g' d) = versions_ d).
    { intros m g' d. unfold cache_state.
      destruct (to_be_cached_state m) as [k|]; [|reflexivity].
      destruct (nth_error g' k); reflexivity. }
    destruct (merged_batch (MergeBatch g (tmp_batch_ db))); simpl;
      rewrite ?Hv; simpl; auto.
Qed.

Lemma assign_sequences_events dm cnt (ws : list Writer) :
  forall pos next index,
    Forall (fun e => is_pre_release e = true)
           (snd (assign_sequences opts dm cnt ws pos next index)).
Proof.
  induction ws as [|w rest IH]; intros pos next index; simpl.
  - constructor.
  - destruct (CallbackFailed w).
    + specialize (IH (S pos) next index).
      destruct (assign_sequences opts dm cnt rest (S pos) next index)
        as [[r st] ev]. exact IH.
    + simpl. destruct (pre_release_callback w) as [cb|].
      * match goal with
        | |- context [if ok ?x then _ else _] => destruct (ok x)
        end.
        -- match goal with
           | |- context [assign_sequences opts dm cnt rest ?p ?n ?i] =>
               specialize (IH p n i);
               destruct (assign_sequences opts dm cnt rest p n i)
                 as [[r st] ev]
           end.
           simpl in *. constructor; [reflexivity|exact IH].
        -- simpl. repeat constructor.
      * match goal with
        | |- context [assign_sequences opts dm cnt rest ?p ?n ?i] =>
            specialize (IH p n i);
            destruct (assign_sequences opts dm cnt rest p n i)
              as [[r st] ev]
        end.
        exact IH.
Qed.

Lemma memtable_phase_events par cur (g : list (@Writer WriteBatch)) :
  Forall (fun e => is_memtable_apply e = true)
         (snd (memtable_phase env par cur g)).
Proof.
  unfold memtable_phase. destruct (negb par); simpl.
  - repeat constructor.
  - destruct g as [|w rest]; [repeat constructor|].
    destruct (ShouldWriteToMemtable w); simpl; repeat constructor.
Qed.

(** The events of the body of [if (status.ok())], phase by phase, and what
    it does to the sequence counters. *)
Lemma commit_group_phases write_options dm last nls nlds db
    (g : list Writer) :
  let cm := commit_group opts env write_options dm last nls nlds db g in
  Forall (fun e => is_wal_append e || is_sync_event e = true)
         (cm_wal_events cm) /\
  Forall (fun e => is_pre_release e = true) (cm_callback_events cm) /\
  Forall (fun e => is_memtable_apply e = true) (cm_memtable_events cm) /\
  (disableWAL write_options = true -> cm_wal_events cm = []) /\
  (two_write_queues_ opts = true ->
   versions_ (cm_db cm)
   = snd (FetchAddLastAllocatedSequence (cm_seq_inc cm) (versions_ db))
   /\ cm_current_sequence cm
      = wrap64 (last_allocated_sequence_ (versions_ db) + 1)) /\
  (two_write_queues_ opts = false ->
   versions_ (cm_db cm) = versions_ db
   /\ cm_current_sequence cm = wrap64 (last + 1)
   /\ cm_last_sequence cm = wrap64 (last + cm_seq_inc cm)).
Proof.
  unfold commit_group.
  destruct (check_group g _) as [g1 t].
  set (seq_inc := if seq_per_batch_ opts then valid_batches t
                  else total_count t).
  set (db1 := if disableWAL write_options
              then set_has_unpersisted_data_ true db else db).
  assert (Hdb1 : versions_ db1 = versions_ db)
    by (unfold db1; destruct (disableWAL write_options); reflexivity).
  pose proof (wal_phase_events write_options last nls nlds db1 g1 seq_inc)
    as Hev.
  pose proof (wal_phase_disabled write_options last nls nlds db1 g1 seq_inc)
    as Hdis.
  pose proof (wal_phase_versions write_options last nls nlds db1 g1 seq_inc)
    as Hver.
  cbv zeta in Hver. rewrite Hdb1 in Hver.
  generalize dependent (wal_phase opts env write_options last nls nlds db1 g1
                          seq_inc).
  intros wal Hev Hdis Hver. cbv zeta.
  assert (Hcb : forall x,
             x = (if ok (wal_io_s wal)
                  then assign_sequences opts dm (pre_release_callback_cnt t)
                         (wal_group wal) 0
                         (wrap64 (wal_last_sequence wal + 1)) 0
                  else (wal_group wal, wal_io_s wal, [])) ->
             Forall (fun e => is_pre_release e = true) (snd x)).
  { intros x ->. destruct (ok (wal_io_s wal)); [|constructor].
    apply assign_sequences_events. }
  destruct (if ok (wal_io_s wal) then _ else _) as [[g3 st] ev_cb].
  specialize (Hcb _ eq_refl). simpl in Hcb.
  assert (Hmem : forall x,
             x = (if ok st
                  then memtable_phase env (parallel t)
                         (wrap64 (wal_last_sequence wal + 1)) g3
                  else (g3, false, None, [])) ->
             Forall (fun e => is_memtable_apply e = true) (snd x)).
  { intros x ->. destruct (ok st); [|constructor].
    apply memtable_phase_events. }
  destruct (if ok st then _ else _) as [[[g4 ip] su] em].
  specialize (Hmem _ eq_refl). simpl in *.
  destruct Hver as [Hv2 Hv1].
  split; [assumption|]. split; [assumption|]. split; [assumption|].
  split; [intros H; apply Hdis; exact H|]. split.
  - intros H. destruct (Hv2 H) as [-> ->]. split; reflexivity.
  - intros H. destruct (Hv1 H) as [-> ->]. repeat split; reflexivity.
Qed.

Lemma leader_finish_events nls (w : Writer (WriteBatch := WriteBatch))
    entered cm :
  exists fin,
    wr_events (leader_finish opts env nls w entered cm)
    = EvEnterAsBatchGroupLeader write_thread_
      :: cm_wal_events cm ++ cm_callback_events cm ++ cm_memtable_events cm
         ++ fin
    /\ Forall (fun e => is_finish_event e = true) fin.
Proof.
  unfold leader_finish.
  assert (Hc : Forall (fun e => is_finish_event e = true)
                 (if negb (CallbackFailed (hd w (cm_group cm)))
                  then if negb (ok (cm_io_s cm))
                       then IOStatusCheck opts (cm_io_s cm)
                       else WriteStatusCheck opts (cm_status cm)
                  else [])).
  { unfold IOStatusCheck, WriteStatusCheck.
    repeat match goal with
           | |- context [if ?c then _ else _] => destruct c
           end; repeat constructor. }
  revert Hc. generalize (if negb (CallbackFailed (hd w (cm_group cm)))
                  then if negb (ok (cm_io_s cm))
                       then IOStatusCheck opts (cm_io_s cm)
                       else WriteStatusCheck opts (cm_status cm)
                  else []). intros ev_check Hc.
  assert (Hs : forall x,
             x = (if nls
                  then let '(st1, e) :=
                         if ok (cm_status cm)
                         then (MarkLogsSynced env, [EvMarkLogsSynced])
                         else (cm_status cm, [EvMarkLogsNotSynced]) in
                       if two_write_queues_ opts
                       then if manual_wal_flush_ opts
                            then (FlushWAL env, e ++ [EvFlushWAL])
                            else (SyncWAL env, e ++ [EvSyncWAL])
                       else (st1, e)
                  else (cm_status cm, [])) ->
             Forall (fun e => is_finish_event e = true) (snd x)).
  { intros x ->.
    destruct nls, (ok (cm_status cm)), (two_write_queues_ opts),
      (manual_wal_flush_ opts); simpl; repeat constructor. }
  destruct (if nls then _ else _) as [st2 ev_sync].
  specialize (Hs _ eq_refl). simpl in Hs.
  assert (He : forall x,
             x = (if (if cm_in_parallel_group cm
                      then CompleteParallelMemTableWriter env else true)
                  then (if ok st2
                        then set_versions_
                               (SetLastSequence (cm_last_sequence cm)
                                  (versions_ (cm_db cm))) (cm_db cm)
                        else cm_db cm,
                        MemTableInsertStatusCheck
                          (status (hd w (cm_group cm)))
                        ++ [EvExitAsBatchGroupLeader write_thread_ st2])
                  else (cm_db cm, [])) ->
             Forall (fun e => is_finish_event e = true) (snd x)).
  { intros x ->. unfold MemTableInsertStatusCheck.
    repeat match goal with
           | |- context [if ?c then _ else _] => destruct c
           end; simpl; repeat constructor. }
  destruct (if (if cm_in_parallel_group cm then _ else true) then _ else _)
    as [db2 ev_exit].
  specialize (He _ eq_refl). simpl in He. simpl.
  exists (ev_check ++ ev_sync ++ ev_exit). split; [reflexivity|].
  repeat (apply Forall_app; split); assumption.
Qed.

Lemma leader_finish_wal_error nls (w : Writer (WriteBatch := WriteBatch))
    cm io_s :
  let r := leader_finish opts env nls w true cm in
  cm_status cm = cm_io_s cm -> cm_callback_events cm = [] ->
  cm_memtable_events cm = [] -> cm_in_parallel_group cm = false ->
  Forall (fun e => is_wal_append e || is_sync_event e = true)
         (cm_wal_events cm) ->
  wr_io_s r = Some io_s -> ok io_s = false ->
  CallbackFailed (hd w (wr_group r)) = false ->
  (In (EvSetBGError io_s kWriteCallback) (wr_events r) <->
   (paranoid_checks opts = true /\ IsBusy io_s = false
    /\ IsIncomplete io_s = false) \/ IsIOFenced io_s = true) /\
  (nls && two_write_queues_ opts = false -> wr_outcome r = Done io_s).
Proof.
  cbv zeta. unfold leader_finish. intros Hst Hcbev Hmem Hpar Hwal.
  rewrite Hst, Hcbev, Hmem, Hpar.
  destruct (if nls then _ else _) as [st2 ev_sync] eqn:Esync.
  simpl. intros Hio Hnok Hcb. inversion Hio as [Hio']. clear Hio.
  rewrite Hio' in *. rewrite Hcb, Hnok in *. simpl in *.
  assert (Hsync : ~ In (EvSetBGError io_s kWriteCallback) ev_sync
                  /\ (nls && two_write_queues_ opts = false -> st2 = io_s)).
  { destruct nls; simpl in Esync.
    - destruct (two_write_queues_ opts); [destruct (manual_wal_flush_ opts)|];
        inversion Esync; subst; simpl;
        (split; [intuition discriminate | intros; congruence]).
    - inversion Esync; subst. simpl. auto. }
  destruct Hsync as [Hsync Hret].
  split.
  - rewrite !in_app_iff.
    pose proof (not_in_wal_events _ io_s Hwal) as Hw.
    pose proof (MemTableInsertStatusCheck_reason
                  (status (hd w (cm_group cm))) io_s) as Hm.
    pose proof (IOStatusCheck_spec io_s Hnok) as Hc.
    simpl. split.
    + intros [H|[H|[H|[H|[H|H]]]]]; try tauto; try discriminate.
      destruct H as [H|[]]. discriminate.
    + intros H. right. right. left. tauto.
  - intros H. rewrite (Hret H), Hnok. reflexivity.
Qed.

Lemma WriteImpl_wal_error write_options dm st nls nlds last db
    (w : Writer) others io_s :
  let r := WriteImpl_after_preprocess opts env write_options dm st nls nlds
             last db w others in
  wr_io_s r = Some io_s -> ok io_s = false ->
  CallbackFailed (hd w (wr_group r)) = false ->
  (In (EvSetBGError io_s kWriteCallback) (wr_events r) <->
   (paranoid_checks opts = true /\ IsBusy io_s = false
    /\ IsIncomplete io_s = false) \/ IsIOFenced io_s = true) /\
  (nls && two_write_queues_ opts = false -> wr_outcome r = Done io_s).
Proof.
  unfold WriteImpl_after_preprocess. cbv zeta.
  destruct (ok st) eqn:Est.
  - intros Hio Hnok Hcb.
    pose proof (commit_group_wal_failed write_options dm last nls nlds
                  (set_last_batch_group_size_ (EnterAsBatchGroupLeader env) db)
                  (w :: others)) as Hcm.
    cbv zeta in Hcm.
    assert (Hio' : ok (cm_io_s (commit_group opts env write_options dm last
                        nls nlds
                        (set_last_batch_group_size_
                           (EnterAsBatchGroupLeader env) db) (w :: others)))
                   = false).
    { unfold leader_finish in Hio.
      destruct (if nls then _ else _) as [st2 ev_sync] in Hio.
      destruct (if (if cm_in_parallel_group _ then _ else true) then _ else _)
        as [db2 ev_exit] in Hio.
      simpl in Hio. inversion Hio. congruence. }
    destruct (Hcm Hio') as (H1 & H2 & H3 & H4 & H5).
    apply leader_finish_wal_error; assumption.
  - unfold leader_finish. simpl.
    destruct (if nls then _ else _) as [st2 ev_sync].
    simpl. discriminate.
Qed.

Lemma wal_only_phase_spec write_options db (g : list (@Writer WriteBatch))
    seq_inc :
  let wal := wal_only_phase env write_options db g seq_inc in
  versions_ (wal_db wal)
  = snd (FetchAddLastAllocatedSequence seq_inc (versions_ db)) /\
  wal_last_sequence wal = last_allocated_sequence_ (versions_ db) /\
  (disableWAL write_options = true ->
   wal_events wal = [] /\ wal_io_s wal = OK /\ wal_group wal = g) /\
  (disableWAL write_options = false ->
   wal_events wal
   = [EvAddRecord
        (Contents (fst (stamp (MergeBatch g new_batch)
                          (assign_log_used (MergeBatch g new_batch) g
                             (logfile_number_ db))
                          (wrap64 (last_allocated_sequence_ (versions_ db)
                                   + 1)))))]).
Proof.
  unfold wal_only_phase.
  destruct (disableWAL write_options); simpl.
  - repeat split; try reflexivity. discriminate.
  - rewrite ConcurrentWriteToWAL_events.
    unfold ConcurrentWriteToWAL. simpl.
    destruct (stamp _ _ _) as [merged g2]. simpl.
    unfold cache_state.
    destruct (to_be_cached_state _) as [k|];
      [destruct (nth_error g2 k)|]; simpl;
      repeat split; try reflexivity; discriminate.
Qed.

Lemma wal_only_sync_events write_options st :
  Forall (fun e => is_finish_event e = true)
         (snd (wal_only_sync opts env write_options st))
  /\ (ok st = false -> wal_only_sync opts env write_options st = (st, [])).
Proof.
  unfold wal_only_sync. split.
  - destruct (ok st && sync write_options); [|constructor].
    destruct (manual_wal_flush_ opts); repeat constructor.
  - intros ->. reflexivity.
Qed.

Lemma WriteImplWALOnly_wal_error q write_options ao pls dm st db
    (w : Writer) others io_s :
  let r := WriteImplWALOnly_after_preprocess opts env q write_options ao pls
             dm st db w others in
  wr_io_s r = Some io_s -> ok io_s = false ->
  CallbackFailed (hd w (wr_group r)) = false ->
  (In (EvSetBGError io_s kWriteCallback) (wr_events r) <->
   (paranoid_checks opts = true /\ IsBusy io_s = false
    /\ IsIncomplete io_s = false) \/ IsIOFenced io_s = true) /\
  wr_outcome r = Done io_s.
Proof.
  unfold WriteImplWALOnly_after_preprocess.
  destruct (ok st) eqn:Est; [|simpl; discriminate]. cbn [negb]. cbv zeta.
  set (checked := check_group_wal_only (w :: others) 0).
  set (seq_inc := match ao with
                  | kDontAssignOrder => 0
                  | kDoAssignOrder => total_batch_cnt (fst checked) 0
                  end).
  destruct (wal_only_phase_spec write_options db (fst checked) seq_inc)
    as (_ & _ & Hoff & Hon).
  generalize dependent (wal_only_phase env write_options db (fst checked)
                          seq_inc).
  intros wal Hoff Hon.
  cbn [wr_io_s wr_group wr_events wr_outcome].
  intros Hio Hnok Hcb. inversion Hio as [Hio']. clear Hio. subst io_s.
  destruct (disableWAL write_options) eqn:Edis.
  { destruct (Hoff eq_refl) as (_ & Hok & _). rewrite Hok in Hnok.
    discriminate. }
  cbn [negb] in *.
  destruct (wal_only_sync_events write_options (wal_io_s wal)) as [_ Hsync].
  rewrite (Hsync Hnok) in *. cbn [fst snd] in *.
  rewrite Hnok in *. cbn [negb fst snd] in *. rewrite Hcb. cbn [negb].
  rewrite (Hon eq_refl). split; [|rewrite ?Hnok; reflexivity].
  pose proof (IOStatusCheck_spec (wal_io_s wal) Hnok) as Hc.
  simpl. rewrite in_app_iff. simpl. split.
  - intros [H1|[H1|[H1|[H1|[]]]]]; try discriminate; tauto.
  - intros H1. right. right. left. tauto.
Qed.

(** C7 (as the code has it). When the WAL write of a group fails and the
    leader's own pre-commit callback did not fail, the error is recorded as
    a background error if and only if paranoid_checks is on and the status
    is neither Busy nor Incomplete, or the status is IOFenced; the leader
    returns the error, on the WAL-only path always and on the default path
    unless a sync with two write queues follows. *)
Theorem wal_error_recorded_and_returned :
  (forall write_options dm st nls nlds last db (w : Writer) others io_s,
      let r := WriteImpl_after_preprocess opts env write_options dm st nls
                 nlds last db w others in
      wr_io_s r = Some io_s -> ok io_s = false ->
      CallbackFailed (hd w (wr_group r)) = false ->
      (In (EvSetBGError io_s kWriteCallback) (wr_events r) <->
       (paranoid_checks opts = true /\ IsBusy io_s = false
        /\ IsIncomplete io_s = false) \/ IsIOFenced io_s = true) /\
      (nls && two_write_queues_ opts = false -> wr_outcome r = Done io_s)) /\
  (forall q write_options ao pls dm st db (w : Writer) others io_s,
      let r := WriteImplWALOnly_after_preprocess opts env q write_options ao
                 pls dm st db w others in
      wr_io_s r = Some io_s -> ok io_s = false ->
      CallbackFailed (hd w (wr_group r)) = false ->
      (In (EvSetBGError io_s kWriteCallback) (wr_events r) <->
       (paranoid_checks opts = true /\ IsBusy io_s = false
        /\ IsIncomplete io_s = false) \/ IsIOFenced io_s = true) /\
      wr_outcome r = Done io_s).
Proof.
  split; intros.
  - apply WriteImpl_wal_error; assumption.
  - apply WriteImplWALOnly_wal_error; assumption.
Qed.

Lemma pre_release_loop_events dm cnt (ws : list (@Writer WriteBatch)) :
  forall pos index,
    Forall (fun e => is_pre_release e = true)
           (snd (pre_release_loop dm cnt ws pos index)).
Proof.
  induction ws as [|w rest IH]; intros pos index; simpl.
  - constructor.
  - destruct (if CallbackFailed w then None else pre_release_callback w)
      as [cb|].
    + match goal with
      | |- context [if ok ?x then _ else _] => destruct (ok x)
      end.
      * match goal with
        | |- context [pre_release_loop dm cnt rest ?p ?i] =>
            specialize (IH p i);
            destruct (pre_release_loop dm cnt rest p i) as [st ev]
        end.
        simpl in *. constructor; [reflexivity|exact IH].
      * simpl. repeat constructor.
    + apply IH.
Qed.

Lemma leader_finish_last_allocated nls (w : @Writer WriteBatch) entered cm :
  last_allocated_sequence_ (versions_ (wr_db (leader_finish opts env nls w
                                                entered cm)))
  = last_allocated_sequence_ (versions_ (cm_db cm)).
Proof.
  unfold leader_finish.
  destruct (if nls then _ else _) as [st2 ev_sync].
  destruct (if cm_in_parallel_group cm then _ else true);
    [destruct (ok st2)|]; reflexivity.
Qed.

Lemma leader_finish_locals nls (w : @Writer WriteBatch) entered cm :
  let r := leader_finish opts env nls w entered cm in
  wr_seq_inc r = cm_seq_inc cm /\
  wr_current_sequence r = cm_current_sequence cm /\
  wr_group r = cm_group cm /\
  wr_io_s r = (if entered then Some (cm_io_s cm) else None).
Proof.
  unfold leader_finish.
  destruct (if nls then _ else _) as [st2 ev_sync].
  destruct (if (if cm_in_parallel_group cm then _ else true) then _ else _)
    as [db2 ev_exit].
  simpl. auto.
Qed.

Lemma Forall_weaken (P Q : Event -> bool) (l : list Event) :
  (forall e, P e = true -> Q e = false) ->
  Forall (fun e => P e = true) l -> Forall (fun e => Q e = false) l.
Proof.
  intros H HF. eapply Forall_impl; [|exact HF]. exact H.
Qed.

End LeaderFacts.

Lemma wal_error_recorded_and_returned_witness :
  In (EvSetBGError (IOFenced "fenced") kWriteCallback)
     (wr_events (WriteImpl_after_preprocess default_options fenced
                   default_write_options false OK false false 0 fresh_db
                   solo_put [])) /\
  wr_outcome (WriteImpl_after_preprocess default_options fenced
                default_write_options false OK false false 0 fresh_db
                solo_put [])
  = Done (IOFenced "fenced").
Proof.
  assert (H1 : wr_io_s (WriteImpl_after_preprocess default_options fenced
                          default_write_options false OK false false 0
                          fresh_db solo_put [])
               = Some (IOFenced "fenced")) by (vm_compute; reflexivity).
  assert (H2 : ok (IOFenced "fenced") = false) by reflexivity.
  assert (H3 : CallbackFailed
                 (hd solo_put
                    (wr_group (WriteImpl_after_preprocess default_options
                                 fenced default_write_options false OK false
                                 false 0 fresh_db solo_put [])))
               = false) by (vm_compute; reflexivity).
  destruct (proj1 (wal_error_recorded_and_returned default_options fenced)
              default_write_options false OK false false 0 fresh_db
              solo_put [] (IOFenced "fenced") H1 H2 H3) as [Hrec Hret].
  split.
  - apply Hrec. left. repeat split.
  - apply Hret. reflexivity.
Defined.

(** C7 as stated fails: with paranoid_checks off, a fenced log still
    records a background error. *)
Lemma wal_error_counterexample :
  paranoid_checks lax_options = false /\
  wr_io_s (WriteImpl_leader lax_options fenced default_write_options false
             fresh_db solo_put [])
  = Some (IOFenced "fenced") /\
  ok (IOFenced "fenced") = false /\
  In (EvSetBGError (IOFenced "fenced") kWriteCallback)
     (wr_events (WriteImpl_leader lax_options fenced default_write_options
                   false fresh_db solo_put [])).
Proof.
  split; [reflexivity|]. split; [reflexivity|]. split; [reflexivity|].
  vm_compute. right. right. left. reflexivity.
Qed.

(** ** Merging the batches of a group *)

Section MergeFacts.
Context {WriteBatch : Type} {WBI : WriteBatchInternal WriteBatch}.
Variable env : Env.

Lemma merge_loop_scratch (ws : list (@Writer WriteBatch)) :
  forall pos merged n cached,
    merged_batch (merge_loop ws pos merged n cached)
    = TmpBatch (scratch_of ws merged).
Proof.
  unfold scratch_of.
  induction ws as [|w rest IH]; intros pos merged n cached; simpl.
  - reflexivity.
  - destruct (negb (CallbackFailed w)); simpl; apply IH.
Qed.

Lemma stamp_contents (m : MergeResult) (g : list (@Writer WriteBatch)) seq :
  fst (stamp m g seq) = SetSequence (merged_contents (merged_batch m)) seq.
Proof. unfold stamp. destruct (merged_batch m); reflexivity. Qed.

(** C4 (as the code has it). A group of exactly one writer whose callback
    did not fail and whose batch has no WAL termination point is written
    from that writer's batch, in place; for every other group the batches
    of exactly the writers whose callback did not fail are appended to the
    scratch batch in group order.  In both cases the merged batch is
    stamped with the sequence given for the group and its contents are the
    record appended to the log. *)
Theorem merge_batch_in_place_or_scratch :
  (forall (leader : @Writer WriteBatch) tmp,
      CallbackFailed leader = false ->
      WalTerminationPoint_is_cleared (batch leader) = true ->
      merged_batch (MergeBatch [leader] tmp) = LeaderBatch (batch leader)) /\
  (forall (g : list (@Writer WriteBatch)) tmp,
      (forall leader, g = [leader] ->
                      CallbackFailed leader = true
                      \/ WalTerminationPoint_is_cleared (batch leader) = false) ->
      merged_batch (MergeBatch g tmp) = TmpBatch (scratch_of g tmp)) /\
  (forall db (g : list (@Writer WriteBatch)) nls nlds seq,
      exists syncs,
        wal_events (WriteToWAL env db g nls nlds seq)
        = EvAddRecord
            (Contents
               (SetSequence
                  (merged_contents (merged_batch (MergeBatch g (tmp_batch_ db))))
                  seq))
          :: syncs
        /\ Forall (fun e => is_sync_event e = true) syncs) /\
  (forall db (g : list (@Writer WriteBatch)) seq_inc,
      wal_events (ConcurrentWriteToWAL env db g seq_inc)
      = [EvAddRecord
           (Contents
              (SetSequence
                 (merged_contents (merged_batch (MergeBatch g new_batch)))
                 (wrap64 (last_allocated_sequence_ (versions_ db) + 1))))]).
Proof.
  split; [|split; [|split]].
  - intros leader tmp Hcb Hcl. unfold MergeBatch. rewrite Hcb, Hcl.
    reflexivity.
  - intros g tmp H. unfold MergeBatch.
    destruct g as [|leader [|second rest]]; try apply merge_loop_scratch.
    destruct (H leader eq_refl) as [Hf|Hc].
    + rewrite Hf. cbn [negb andb]. apply merge_loop_scratch.
    + rewrite Hc, andb_false_r. apply merge_loop_scratch.
  - intros db g nls nlds seq.
    destruct (WriteToWAL_events env db g nls nlds seq) as (rest & E & Hs).
    exists rest. rewrite E, stamp_contents. auto.
  - intros db g seq_inc.
    rewrite ConcurrentWriteToWAL_events, stamp_contents. reflexivity.
Qed.

End MergeFacts.

Lemma merge_batch_in_place_or_scratch_witness :
  merged_batch (MergeBatch [solo_put] Batch_empty)
  = LeaderBatch (batch solo_put) /\
  merged_batch (MergeBatch [solo_put; solo_put] Batch_empty)
  = TmpBatch (scratch_of [solo_put; solo_put] Batch_empty).
Proof.
  destruct (merge_batch_in_place_or_scratch calm (WriteBatch := Batch))
    as (Hin & Hout & _).
  split.
  - apply Hin; reflexivity.
  - apply Hout. intros leader H. discriminate H.
Defined.

(** C4 as stated fails: a group of one writer whose batch has no WAL
    termination point, but whose pre-commit callback failed, is not written
    in place: an empty scratch batch goes to the log. *)
Lemma merge_batch_counterexample :
  WalTerminationPoint_is_cleared (batch conflicting_put) = true /\
  wr_events (WriteImpl_leader default_options calm default_write_options
               false fresh_db conflicting_put [])
  = [EvEnterAsBatchGroupLeader write_thread_;
     EvAddRecord (Contents (SetSequence Batch_empty 1));
     EvInsertIntoGroup 1;
     EvExitAsBatchGroupLeader write_thread_ OK] /\
  Contents (SetSequence Batch_empty 1)
  <> Contents (SetSequence (batch conflicting_put) 1).
Proof.
  split; [reflexivity|]. split; [vm_compute; reflexivity|].
  vm_compute. discriminate.
Qed.

(** ** The entry of a write *)

Section EntryFacts.
Context {WriteBatch : Type} {WBI : WriteBatchInternal WriteBatch}.
Variable opts : DBOptions.
Variable env : Env.

(** C3. A write with a null batch returns Corruption; a write of a batch
    with sync and disableWAL returns InvalidArgument; a write of a batch
    with pipelined write enabled together with two write queues,
    seq-per-batch or unordered write returns NotSupported (each case is
    read on the calls the cases before it leave over, the order in which
    WriteImpl makes the checks).  In every one of these cases the call
    returns a status that is not OK, the writer joins no queue, and the
    database, with its sequence counters, is as it was. *)
Theorem invalid_writes_rejected write_options
    (my_batch : option WriteBatch) cb ref dm cnt prc join db :
  let r := WriteImpl opts env write_options my_batch cb ref dm cnt prc join
             db in
  (my_batch = None ->
   wr_outcome r = Done (Corruption "Batch is nullptr!")) /\
  (my_batch <> None ->
   sync write_options && disableWAL write_options = true ->
   wr_outcome r = Done (InvalidArgument "Sync writes has to enable WAL.")) /\
  (my_batch <> None ->
   sync write_options && disableWAL write_options = false ->
   enable_pipelined_write opts = true ->
   two_write_queues_ opts || seq_per_batch_ opts || unordered_write opts
   = true ->
   exists msg, wr_outcome r = Done (NotSupported msg)) /\
  (my_batch = None
   \/ sync write_options && disableWAL write_options = true
   \/ (enable_pipelined_write opts = true
       /\ two_write_queues_ opts || seq_per_batch_ opts
          || unordered_write opts = true) ->
   (exists st, wr_outcome r = Done st /\ ok st = false)
   /\ wr_db r = db
   /\ forall q, ~ In (EvJoinBatchGroup q) (wr_events r)).
Proof.
  unfold WriteImpl. cbv zeta.
  destruct my_batch as [b|].
  - split; [discriminate|]. split; [|split].
    + intros _ H. rewrite H. reflexivity.
    + intros _ H Hp Hq. rewrite H, Hp.
      destruct (two_write_queues_ opts), (seq_per_batch_ opts),
        (unordered_write opts); try discriminate; simpl;
        eexists; reflexivity.
    + intros [H|[H|[Hp Hq]]]; [discriminate| |].
      * rewrite H. simpl.
        split; [eexists; split; reflexivity|]. split; [reflexivity|].
        intros q. destruct (tracer_ opts); simpl; intuition discriminate.
      * destruct (sync write_options && disableWAL write_options);
          [simpl; split; [eexists; split; reflexivity|];
           split; [reflexivity|];
           intros q; destruct (tracer_ opts); simpl; intuition discriminate|].
        rewrite Hp.
        destruct (two_write_queues_ opts), (seq_per_batch_ opts),
          (unordered_write opts); try discriminate; simpl;
          (split; [eexists; split; reflexivity|]);
          (split; [reflexivity|]);
          intros q; destruct (tracer_ opts); simpl; intuition discriminate.
  - split; [reflexivity|]. split; [intros H; contradiction|].
    split; [intros H; contradiction|].
    intros _. simpl. split; [eexists; split; reflexivity|].
    split; [reflexivity|]. intros q H. exact H.
Qed.

End EntryFacts.

Lemma invalid_writes_rejected_witness :
  wr_outcome (WriteImpl default_options calm sync_no_wal_write_options
                (Some (put "k" "v")) None 0 false 0 None
                (STATE_GROUP_LEADER []) fresh_db)
  = Done (InvalidArgument "Sync writes has to enable WAL.").
Proof.
  apply (proj1 (proj2 (invalid_writes_rejected default_options calm
                         sync_no_wal_write_options (Some (put "k" "v")) None
                         0 false 0 None (STATE_GROUP_LEADER []) fresh_db))).
  - discriminate.
  - reflexivity.
Defined.

(** The null batch is tested first: with sync and disableWAL as well,
    the write returns Corruption. *)
Example null_batch_tested_first :
  wr_outcome (WriteImpl default_options calm sync_no_wal_write_options
                (@None Batch) None 0 false 0 None (STATE_GROUP_LEADER [])
                fresh_db)
  = Done (Corruption "Batch is nullptr!").
Proof. reflexivity. Qed.

(** ** Delaying a write *)

Section DelayFacts.
Variable env : Env.

Lemma sleep_loop_spec stall_end obs :
  let n := length (take_while (still_delayed stall_end) obs) in
  sleep_loop stall_end obs
  = ((n <? length obs)%nat, (0 <? n)%nat,
     repeat (EvSleepForMicroseconds 1000) n).
Proof.
  induction obs as [|[needs now] rest IH]; simpl.
  - reflexivity.
  - change (still_delayed stall_end (needs, now))
      with (needs && (now <? stall_end)).
    destruct needs; simpl; [|reflexivity].
    destruct (Z.leb_spec stall_end now), (Z.ltb_spec now stall_end);
      try lia; simpl; [reflexivity|].
    cbv zeta in IH. rewrite IH. reflexivity.
Qed.

Lemma bg_wait_loop_cons cur nxt rest :
  bg_wait_loop false cur (nxt :: rest)
  = if must_wait cur
    then (fst (fst (bg_wait_loop false nxt rest)), true,
          EvBeginWriteStall :: EvBgCvWait :: EvEndWriteStall
          :: snd (bg_wait_loop false nxt rest))
    else (WaitOver cur, false, []).
Proof.
  cbn [bg_wait_loop]. fold (must_wait cur). destruct (must_wait cur).
  - destruct (bg_wait_loop false nxt rest) as [[x d] ev]. reflexivity.
  - reflexivity.
Qed.

Lemma take_while_cons {A} (p : A -> bool) x l :
  take_while p (x :: l) = if p x then x :: take_while p l else [].
Proof. reflexivity. Qed.

Lemma stall_rounds_cons cur nxt rest :
  stall_rounds (cur :: nxt :: rest)
  = if must_wait cur
    then EvBeginWriteStall :: EvBgCvWait :: EvEndWriteStall
         :: stall_rounds (nxt :: rest)
    else [].
Proof.
  unfold stall_rounds. rewrite (take_while_cons must_wait cur).
  destruct (must_wait cur); [|reflexivity].
  generalize (take_while must_wait (nxt :: rest)). intros taken.
  assert (Hpos : forall l : list Snapshot,
             (length l <? length (nxt :: rest))%nat = false ->
             exists k, length l = S k).
  { intros l H. apply Nat.ltb_ge in H. simpl in H.
    destruct (length l) as [|k]; [lia|]. exists k. reflexivity. }
  change (length (cur :: taken) <? length (cur :: nxt :: rest))%nat
    with (length taken <? length (nxt :: rest))%nat.
  destruct (length taken <? length (nxt :: rest))%nat eqn:E.
  - reflexivity.
  - destruct (Hpos taken E) as [k Hk].
    cbn [length pred]. rewrite Hk. reflexivity.
Qed.

Lemma bg_wait_loop_spec later : forall cur,
  snd (bg_wait_loop false cur later) = stall_rounds (cur :: later) /\
  (fst (fst (bg_wait_loop false cur later)) = WaitBlocked <->
   forallb must_wait (cur :: later) = true) /\
  (forall last, fst (fst (bg_wait_loop false cur later)) = WaitOver last ->
                must_wait last = false) /\
  (forall s, fst (fst (bg_wait_loop false cur later)) <> WaitReturned s).
Proof.
  induction later as [|nxt rest IH]; intros cur.
  - unfold stall_rounds. simpl. fold (must_wait cur).
    destruct (must_wait cur) eqn:E; simpl.
    + repeat split; try reflexivity; try discriminate.
    + repeat split; try discriminate.
      intros last H. injection H as <-. exact E.
  - destruct (IH nxt) as (Hev & Hbl & Hover & Hret).
    rewrite bg_wait_loop_cons, stall_rounds_cons.
    change (forallb must_wait (cur :: nxt :: rest))
      with (must_wait cur && forallb must_wait (nxt :: rest)).
    destruct (must_wait cur) eqn:E; cbn [fst snd andb].
    + rewrite Hev. repeat split; try apply Hbl; try assumption.
    + repeat split; try discriminate.
      intros last H. injection H as <-. exact E.
Qed.

Lemma bg_wait_loop_no_slowdown later cur :
  bg_wait_loop true cur later
  = if must_wait cur
    then (WaitReturned (Incomplete "Write stall"), false, [])
    else (WaitOver cur, false, []).
Proof.
  destruct later; simpl; fold (must_wait cur); destruct (must_wait cur);
    reflexivity.
Qed.

(** C5 (as the code has it). With no_slowdown, DelayWrite neither sleeps
    nor waits, and it returns Incomplete("Write stall") when the controller
    gives a positive delay, or when no background error is set and the
    controller is stopped.  Without no_slowdown and with a positive delay
    it sleeps 1000 microseconds at a time while the controller still needs
    a delay and the deadline has not come; then, or at once when the delay
    is zero, it waits on the background condition variable while no
    background error is set and the controller is stopped. *)
Theorem DelayWrite_stalls num_bytes write_options :
  let r := DelayWrite env num_bytes write_options in
  let delay := GetDelay env num_bytes in
  (no_slowdown write_options = true ->
   dw_events r = [] /\ delayed r = false /\ dw_outcome r <> Blocked /\
   (0 < delay \/ must_wait (at_entry env) = true ->
    dw_outcome r = Done (Incomplete "Write stall"))) /\
  (no_slowdown write_options = false -> 0 < delay ->
   let stall_end := wrap64 (start_time env + delay) in
   let n := length (take_while (still_delayed stall_end) (ticks env)) in
   (n = length (ticks env) ->
    dw_outcome r = Blocked /\
    dw_events r
    = EvBeginWriteStall :: EvMutexUnlock
      :: repeat (EvSleepForMicroseconds 1000) n) /\
   ((n < length (ticks env))%nat ->
    dw_events r
    = EvBeginWriteStall :: EvMutexUnlock
      :: repeat (EvSleepForMicroseconds 1000) n
         ++ [EvMutexLock; EvEndWriteStall]
         ++ stall_rounds (after_sleep env :: wakeups env) /\
    (dw_outcome r = Blocked <->
     forallb must_wait (after_sleep env :: wakeups env) = true))) /\
  (no_slowdown write_options = false -> delay <= 0 ->
   dw_events r = stall_rounds (at_entry env :: wakeups env) /\
   (dw_outcome r = Blocked <->
    forallb must_wait (at_entry env :: wakeups env) = true)).
Proof.
  cbv zeta. split; [|split].
  - intros Hns. unfold DelayWrite. rewrite Hns.
    destruct (0 <? GetDelay env num_bytes) eqn:Ed.
    + simpl. split; [reflexivity|]. split; [reflexivity|].
      split; [discriminate|reflexivity].
    + unfold delay_tail. rewrite Hns, bg_wait_loop_no_slowdown.
      destruct (must_wait (at_entry env)) eqn:Em; simpl.
      * split; [reflexivity|]. split; [reflexivity|].
        split; [discriminate|reflexivity].
      * split; [reflexivity|]. split; [reflexivity|].
        split; [discriminate|].
        intros [H|H]; [apply Z.ltb_ge in Ed; lia | discriminate].
  - intros Hns Hd. unfold DelayWrite. rewrite Hns.
    apply Z.ltb_lt in Hd. rewrite Hd.
    rewrite sleep_loop_spec.
    set (n := length (take_while
                        (still_delayed
                           (wrap64 (start_time env + GetDelay env num_bytes)))
                        (ticks env))).
    split.
    + intros Hn. rewrite Hn, Nat.ltb_irrefl. simpl. auto.
    + intros Hn. apply Nat.ltb_lt in Hn. rewrite Hn.
      unfold delay_tail. rewrite Hns.
      destruct (bg_wait_loop_spec (wakeups env) (after_sleep env))
        as (Hev & Hbl & _ & Hret).
      destruct (bg_wait_loop false (after_sleep env) (wakeups env))
        as [[x d] ev].
      cbn [fst snd] in *. rewrite <- Hev.
      destruct x as [s0| |last]; simpl.
      * exfalso. apply (Hret s0). reflexivity.
      * split; [rewrite <- app_assoc; reflexivity|].
        split; [intros _; apply Hbl; reflexivity | reflexivity].
      * split; [rewrite <- app_assoc; reflexivity|].
        split; [discriminate|].
        intros H. apply Hbl in H. discriminate.
  - intros Hns Hd. unfold DelayWrite.
    apply Z.ltb_ge in Hd. rewrite Hd.
    unfold delay_tail. rewrite Hns.
    destruct (bg_wait_loop_spec (wakeups env) (at_entry env))
      as (Hev & Hbl & _ & Hret).
    destruct (bg_wait_loop false (at_entry env) (wakeups env))
      as [[x d] ev].
    cbn [fst snd] in *. rewrite <- Hev.
    destruct x as [s0| |last]; simpl.
    + exfalso. apply (Hret s0). reflexivity.
    + split; [reflexivity|].
      split; [intros _; apply Hbl; reflexivity | reflexivity].
    + split; [reflexivity|].
      split; [discriminate|].
      intros H. apply Hbl in H. discriminate.
Qed.

End DelayFacts.

Lemma DelayWrite_stalls_witness :
  dw_events (DelayWrite slow 0 default_write_options)
  = EvBeginWriteStall :: EvMutexUnlock
    :: repeat (EvSleepForMicroseconds 1000) 3
       ++ [EvMutexLock; EvEndWriteStall]
       ++ stall_rounds (after_sleep slow :: wakeups slow) /\
  (dw_outcome (DelayWrite slow 0 default_write_options) = Blocked <->
   forallb must_wait (after_sleep slow :: wakeups slow) = true).
Proof.
  assert (Hns : no_slowdown default_write_options = false) by reflexivity.
  assert (Hd : 0 < GetDelay slow 0) by (simpl; lia).
  apply (proj2 (proj1 (proj2 (DelayWrite_stalls slow 0 default_write_options))
                  Hns Hd)).
  simpl. lia.
Defined.

(** C5 as stated fails: a write with no_slowdown reaches DelayWrite while
    the controller needs a delay, the delay it is given is zero, and it
    goes on with an OK status. *)
Lemma DelayWrite_counterexample :
  no_slowdown no_slowdown_write_options = true /\
  IsStopped (at_entry delayed_with_credit) || NeedsDelay delayed_with_credit
  = true /\
  dw_outcome (DelayWrite delayed_with_credit 0 no_slowdown_write_options)
  = Done OK /\
  pp_outcome (PreprocessWrite default_options delayed_with_credit
                no_slowdown_write_options false fresh_db)
  = Done OK.
Proof. repeat split. Qed.

(** Another case where C5 as stated fails: the writes are stopped and a
    background error is set; the write with no_slowdown fails at once, but
    with the text of the background error. *)
Lemma DelayWrite_after_error :
  IsStopped (at_entry stopped_after_error) = true /\
  dw_outcome (DelayWrite stopped_after_error 0 no_slowdown_write_options)
  = Done (Incomplete "IO error: no space").
Proof. repeat split. Qed.

(** ** The pre-release callbacks in the trace *)

Section CallbackOrderFacts.
Context {WriteBatch : Type} {WBI : WriteBatchInternal WriteBatch}.
Variable opts : DBOptions.
Variable env : Env.





Lemma memtable_phase_sequences par cur (g : list (@Writer WriteBatch)) :
  map sequence (fst (fst (fst (memtable_phase env par cur g))))
  = map sequence g.
Proof.
  unfold memtable_phase. destruct (negb par); simpl.
  - destruct g; reflexivity.
  - destruct g as [|w rest]; [reflexivity|].
    destruct (ShouldWriteToMemtable w); reflexivity.
Qed.






















End CallbackOrderFacts.

(** A leader and a follower with a pre-release callback each: the
    callbacks are called in the order of the group, with the sequences 1
    and 2, between the append to the log and the writes to the memtable. *)
Example pre_release_callbacks_of_two_writers :
  filter (fun e => is_wal_append e || is_pre_release e || is_memtable_apply e)
    (wr_events
       (WriteImpl default_options calm default_write_options
          (Some (put "a" "b")) None 0 false 0 (Some (fun _ _ _ _ _ => OK))
          (STATE_GROUP_LEADER [noted_put]) fresh_db))
  = [EvAddRecord (Contents (Batch_SetSequence
                              (Batch_Append (Batch_Append Batch_empty
                                               (put "a" "b") true)
                                 (put "a" "b") true) 1));
     EvPreReleaseCallback 0 1 false 1 0 2 OK;
     EvPreReleaseCallback 1 2 false 1 1 2 OK;
     EvLaunchParallelMemTableWriters;
     EvInsertInto 1].
Proof. vm_compute. reflexivity. Qed.

(** ** The sequences of a group *)

Section SequenceFacts.
Context {WriteBatch : Type} {WBI : WriteBatchInternal WriteBatch}.
Variable opts : DBOptions.
Variable env : Env.

(** SetSequence writes the header of a batch and leaves its count. *)
Hypothesis Count_SetSequence :
  forall (b : WriteBatch) s, Count (SetSequence b s) = Count b.

Lemma check_group_writers (ws : list (@Writer WriteBatch)) : forall acc,
  fst (check_group ws acc) = map (fun x => fst (CheckCallback x)) ws.
Proof.
  induction ws as [|w rest IH]; intros acc; simpl; [reflexivity|].
  destruct (CheckCallback w) as [w' passed] eqn:E.
  match goal with
  | |- context [check_group rest ?a] =>
      specialize (IH a); destruct (check_group rest a) as [r t]
  end.
  simpl in *. rewrite IH. reflexivity.
Qed.

Lemma CheckCallback_passed (x : @Writer WriteBatch) :
  ok (callback_status x) = true ->
  snd (CheckCallback x) = negb (precommit_failed x).
Proof.
  unfold precommit_failed, CheckCallback, CallbackFailed. intros H.
  destruct (callback x) as [cb|] eqn:E; simpl.
  - rewrite E. rewrite negb_involutive. reflexivity.
  - rewrite E. exact H.
Qed.

Lemma check_group_totals (ws : list (@Writer WriteBatch)) :
  Forall (fun x => ok (callback_status x) = true) ws ->
  forall acc a b,
    total_count acc = wrap64 a -> valid_batches acc = wrap64 b ->
    (seq_per_batch_ opts = true ->
     valid_batches (snd (check_group ws acc))
     = wrap64 (b + total_consumed opts ws)) /\
    (seq_per_batch_ opts = false ->
     total_count (snd (check_group ws acc))
     = wrap64 (a + total_consumed opts ws)).
Proof.
  induction 1 as [|w rest Hw Hrest IH]; intros acc a b Ha Hb.
  - simpl. unfold total_consumed. simpl. rewrite !Z.add_0_r. auto.
  - pose proof (CheckCallback_passed w Hw) as Hp.
    unfold total_consumed. cbn [map fold_right check_group].
    fold (total_consumed opts rest).
    unfold consumes at 1 2, consumed. unfold precommit_failed in Hp.
    destruct (CheckCallback w) as [w' passed]. cbn [fst snd] in Hp |- *.
    subst passed.
    match goal with
    | |- context [check_group rest ?x] =>
        pose proof (IH x) as IH'; destruct (check_group rest x) as [r t]
    end.
    cbn [fst snd] in *.
    destruct (CallbackFailed w'); cbn [negb] in IH'.
    + destruct (IH' a b Ha Hb) as [H1 H2]. split; intros Hs.
      * rewrite (H1 Hs). reflexivity.
      * rewrite (H2 Hs). reflexivity.
    + cbn [total_count valid_batches] in IH'.
      destruct (ShouldWriteToMemtable w').
      * destruct (IH' (a + Count (batch w')) (b + batch_cnt w')) as [H1 H2];
          [rewrite Ha; apply wrap64_add_l | rewrite Hb; apply wrap64_add_l|].
        split; intros Hs; rewrite Hs.
        -- rewrite (H1 Hs). f_equal. lia.
        -- rewrite (H2 Hs). f_equal. lia.
      * destruct (IH' a (b + batch_cnt w')) as [H1 H2];
          [exact Ha | rewrite Hb; apply wrap64_add_l|].
        split; intros Hs; rewrite Hs.
        -- rewrite (H1 Hs). f_equal. lia.
        -- rewrite (H2 Hs). f_equal.
Qed.

Lemma merged_group_view (g : list (@Writer WriteBatch)) tmp lf seq :
  map (sequencing_view opts)
      (snd (stamp (MergeBatch g tmp) (assign_log_used (MergeBatch g tmp) g lf)
              seq))
  = map (sequencing_view opts) g.
Proof.
  assert (Hloop : map (sequencing_view opts)
                    (snd (stamp (merge_loop g 0 tmp 0 None)
                            (assign_log_used (merge_loop g 0 tmp 0 None) g lf)
                            seq))
                  = map (sequencing_view opts) g).
  { unfold stamp, assign_log_used. rewrite merge_loop_scratch. simpl.
    destruct (1 <? write_with_wal _); [|reflexivity].
    rewrite map_map. apply map_ext. reflexivity. }
  unfold MergeBatch.
  destruct g as [|leader [|second rest]]; try exact Hloop.
  destruct (negb (CallbackFailed leader)
            && WalTerminationPoint_is_cleared (batch leader)); [|exact Hloop].
  unfold stamp, assign_log_used, sequencing_view, consumed, CallbackFailed,
    ShouldWriteToMemtable, CallbackFailed.
  simpl. rewrite Count_SetSequence. reflexivity.
Qed.

Lemma wal_phase_view write_options last nls nlds db
    (g : list (@Writer WriteBatch)) seq_inc :
  map (sequencing_view opts)
      (wal_group (wal_phase opts env write_options last nls nlds db g seq_inc))
  = map (sequencing_view opts) g.
Proof.
  unfold wal_phase.
  destruct (negb (two_write_queues_ opts));
    destruct (negb (disableWAL write_options)); simpl; try reflexivity.
  - unfold WriteToWAL.
    pose proof (merged_group_view g (tmp_batch_ db) (logfile_number_ db)
                  (wrap64 (last + 1))) as H.
    destruct (stamp _ _ _) as [merged g2]. simpl in *.
    match goal with
    | |- context [if ?c then ?a else (AddRecord env ?x, [])] =>
        destruct (if c then a else (AddRecord env x, [])) as [io ev]
    end.
    exact H.
  - unfold ConcurrentWriteToWAL. simpl.
    match goal with
    | |- context [stamp ?m ?g1 ?s] =>
        pose proof (merged_group_view g new_batch (logfile_number_ db) s) as H;
        destruct (stamp m g1 s) as [merged g2]
    end.
    exact H.
Qed.

Lemma advanced_consumed (w : @Writer WriteBatch) n0 :
  CallbackFailed w = false ->
  (if seq_per_batch_ opts
   then wrap64 (wrap64 n0 + batch_cnt (set_sequence (wrap64 n0) w))
   else if ShouldWriteToMemtable (set_sequence (wrap64 n0) w)
        then wrap64 (wrap64 n0 + Count (batch (set_sequence (wrap64 n0) w)))
        else wrap64 n0)
  = wrap64 (n0 + consumed opts w).
Proof.
  intros Hf. unfold consumed. rewrite Hf.
  change (ShouldWriteToMemtable (set_sequence (wrap64 n0) w))
    with (ShouldWriteToMemtable w).
  change (batch (set_sequence (wrap64 n0) w)) with (batch w).
  change (batch_cnt (set_sequence (wrap64 n0) w)) with (batch_cnt w).
  destruct (seq_per_batch_ opts); [apply wrap64_add_l|].
  destruct (ShouldWriteToMemtable w); [apply wrap64_add_l|].
  rewrite Z.add_0_r. reflexivity.
Qed.

Lemma assign_sequences_sequences dm cnt (ws : list (@Writer WriteBatch)) :
  forall pos n0 index,
    length (fst (fst (assign_sequences opts dm cnt ws pos (wrap64 n0) index)))
    = length ws /\
    forall i x, nth_error ws i = Some x ->
      exists s',
        nth_error
          (map sequence
             (fst (fst (assign_sequences opts dm cnt ws pos (wrap64 n0)
                          index)))) i = Some s' /\
        (CallbackFailed x = true -> s' = sequence x) /\
        (CallbackFailed x = false ->
         (forall p s d l ix t ret,
             In (EvPreReleaseCallback p s d l ix t ret)
                (snd (assign_sequences opts dm cnt ws pos (wrap64 n0) index)) ->
             (p < pos + i)%nat -> ok ret = true) ->
         s' = wrap64 (n0 + fold_right Z.add 0
                             (firstn i (map (consumed opts) ws)))).
Proof.
  induction ws as [|w rest IH]; intros pos n0 index.
  - split; [reflexivity|]. intros [|i] x H; discriminate.
  - cbn [assign_sequences].
    destruct (CallbackFailed w) eqn:Ef.
    + destruct (IH (S pos) n0 index) as [Hlen Hnth].
      destruct (assign_sequences opts dm cnt rest (S pos) (wrap64 n0) index)
        as [[r st] ev].
      cbn [fst snd] in *. split; [simpl; congruence|].
      intros [|i] x Hx; cbn [nth_error map] in *.
      * injection Hx as <-. exists (sequence w).
        split; [reflexivity|]. split; [reflexivity|]. congruence.
      * destruct (Hnth i x Hx) as (s' & Hs & Hfail & Hok).
        exists s'. split; [exact Hs|]. split; [exact Hfail|].
        intros Hc Hev. rewrite Hok; auto.
        -- cbn [firstn fold_right]. unfold consumed at 2. rewrite Ef.
           reflexivity.
        -- intros p s d l ix t ret Hin Hp. eapply Hev; [exact Hin|lia].
    + rewrite (advanced_consumed w n0 Ef).
      assert (Hhead : forall (x : @Writer WriteBatch),
                 Some w = Some x ->
                 exists s', Some (sequence (set_sequence (wrap64 n0) w))
                            = Some s' /\
                   (CallbackFailed x = true -> s' = sequence x) /\
                   (CallbackFailed x = false ->
                    s' = wrap64 (n0 + 0))).
      { intros x Hx. injection Hx as <-. exists (wrap64 n0).
        split; [reflexivity|]. split; [congruence|].
        rewrite Z.add_0_r. reflexivity. }
      destruct (IH (S pos) (n0 + consumed opts w) index) as [Hlen0 Hnth0].
      destruct (IH (S pos) (n0 + consumed opts w) (wrap64 (index + 1)))
        as [Hlen1 Hnth1].
      assert (Hsum : forall i,
                 wrap64 (n0 + consumed opts w
                         + fold_right Z.add 0
                             (firstn i (map (consumed opts) rest)))
                 = wrap64 (n0 + fold_right Z.add 0
                                  (firstn (S i)
                                     (map (consumed opts) (w :: rest)))))
        by (intros i; cbn [map firstn fold_right]; f_equal; lia).
      change (pre_release_callback (set_sequence (wrap64 n0) w))
        with (pre_release_callback w).
      destruct (pre_release_callback w) as [cb|].
      * match goal with
        | |- context [if ok ?x then _ else _] => destruct (ok x) eqn:Eok
        end.
        -- destruct (assign_sequences opts dm cnt rest (S pos)
                       (wrap64 (n0 + consumed opts w)) (wrap64 (index + 1)))
             as [[r st] ev].
           cbn [fst snd] in *. split; [simpl; congruence|].
           intros [|i] x Hx; cbn [nth_error map] in *.
           ++ destruct (Hhead x Hx) as (s' & Hs & Hfail & Hok).
              exists s'. split; [exact Hs|]. split; [exact Hfail|].
              intros Hc _. apply Hok, Hc.
           ++ destruct (Hnth1 i x Hx) as (s' & Hs & Hfail & Hok).
              exists s'. split; [exact Hs|]. split; [exact Hfail|].
              intros Hc Hev. rewrite <- Hsum. apply Hok; [exact Hc|].
              intros p s d l ix t ret Hin Hp.
              eapply Hev; [right; exact Hin|lia].
        -- cbn [fst snd]. split; [reflexivity|].
           intros [|i] x Hx; cbn [nth_error map] in *.
           ++ destruct (Hhead x Hx) as (s' & Hs & Hfail & Hok).
              exists s'. split; [exact Hs|]. split; [exact Hfail|].
              intros Hc _. apply Hok, Hc.
           ++ exists (sequence x).
              split; [apply map_nth_error; exact Hx|].
              split; [reflexivity|].
              intros _ Hev.
              rewrite (Hev _ _ _ _ _ _ _ (or_introl eq_refl)) in Eok
                by lia.
              discriminate.
      * destruct (assign_sequences opts dm cnt rest (S pos)
                    (wrap64 (n0 + consumed opts w)) index)
          as [[r st] ev].
        cbn [fst snd] in *. split; [simpl; congruence|].
        intros [|i] x Hx; cbn [nth_error map] in *.
        -- destruct (Hhead x Hx) as (s' & Hs & Hfail & Hok).
           exists s'. split; [exact Hs|]. split; [exact Hfail|].
           intros Hc _. apply Hok, Hc.
        -- destruct (Hnth0 i x Hx) as (s' & Hs & Hfail & Hok).
           exists s'. split; [exact Hs|]. split; [exact Hfail|].
           intros Hc Hev. rewrite <- Hsum. apply Hok; [exact Hc|].
           intros p s d l ix t ret Hin Hp.
           eapply Hev; [exact Hin|lia].
Qed.

Lemma view_nth (g g' : list (@Writer WriteBatch)) i x :
  map (sequencing_view opts) g' = map (sequencing_view opts) g ->
  nth_error g i = Some x ->
  exists x', nth_error g' i = Some x'
             /\ sequencing_view opts x' = sequencing_view opts x.
Proof.
  intros Hm Hx.
  apply (map_nth_error (sequencing_view opts)) in Hx.
  rewrite <- Hm, nth_error_map in Hx.
  destruct (nth_error g' i) as [x'|]; [|discriminate].
  exists x'. split; [reflexivity|]. simpl in Hx. congruence.
Qed.

Lemma view_consumed (g g' : list (@Writer WriteBatch)) :
  map (sequencing_view opts) g' = map (sequencing_view opts) g ->
  map (consumed opts) g' = map (consumed opts) g.
Proof.
  intros Hm. apply (f_equal (map snd)) in Hm.
  rewrite !map_map in Hm. exact Hm.
Qed.

Lemma commit_group_sequences write_options dm last nls nlds db
    (g : list (@Writer WriteBatch)) :
  Forall (fun x => ok (callback_status x) = true) g ->
  let cm := commit_group opts env write_options dm last nls nlds db g in
  ok (cm_io_s cm) = true ->
  length (cm_group cm) = length g /\
  (forall i x, nth_error g i = Some x ->
     exists s',
       nth_error (map sequence (cm_group cm)) i = Some s' /\
       (precommit_failed x = true -> s' = sequence x) /\
       (precommit_failed x = false ->
        (forall p s d l ix t ret,
            In (EvPreReleaseCallback p s d l ix t ret)
               (cm_callback_events cm) ->
            (p < i)%nat -> ok ret = true) ->
        s' = wrap64 (cm_current_sequence cm
                     + total_consumed opts (firstn i g)))) /\
  cm_seq_inc cm = wrap64 (total_consumed opts g).
Proof.
  intros Hfresh. unfold commit_group.
  pose proof (check_group_writers g
                (mkTotals 0 0 0 (allow_concurrent_memtable_write opts
                                 && (1 <? Z.of_nat (length g))))) as Hg1.
  destruct (check_group_totals g Hfresh
              (mkTotals 0 0 0 (allow_concurrent_memtable_write opts
                               && (1 <? Z.of_nat (length g))))
              0 0 eq_refl eq_refl) as [Hvb Htc].
  destruct (check_group g _) as [g1 t]. cbn [fst snd] in Hg1, Hvb, Htc.
  set (seq_inc := if seq_per_batch_ opts then valid_batches t
                  else total_count t).
  assert (Hinc : seq_inc = wrap64 (total_consumed opts g)).
  { unfold seq_inc. destruct (seq_per_batch_ opts);
      [rewrite Hvb by reflexivity | rewrite Htc by reflexivity];
      reflexivity. }
  match goal with
  | |- context [wal_phase opts env write_options last nls nlds ?d g1 ?n] =>
      pose proof (wal_phase_view write_options last nls nlds d g1 n) as Hview;
      generalize dependent (wal_phase opts env write_options last nls nlds d
                              g1 n)
  end.
  intros wal Hview. cbv zeta.
  destruct (ok (wal_io_s wal)) eqn:Eio.
  2: { rewrite Eio. simpl. congruence. }
  pose proof (assign_sequences_sequences dm (pre_release_callback_cnt t)
                (wal_group wal) 0 (wal_last_sequence wal + 1) 0)
    as [Hlen Hnth].
  destruct (assign_sequences _ _ _ _ _ _ _) as [[g3 st] ev_cb].
  cbn [fst snd] in Hlen, Hnth.
  pose proof (memtable_phase_sequences env (parallel t)
                (wrap64 (wal_last_sequence wal + 1)) g3) as Hseq.
  assert (Hfin : forall g4 : list (@Writer WriteBatch),
             map sequence g4 = map sequence g3 ->
             length g4 = length g /\
             (forall i x, nth_error g i = Some x ->
                exists s',
                  nth_error (map sequence g4) i = Some s' /\
                  (precommit_failed x = true -> s' = sequence x) /\
                  (precommit_failed x = false ->
                   (forall p s d l ix t ret,
                       In (EvPreReleaseCallback p s d l ix t ret) ev_cb ->
                       (p < i)%nat -> ok ret = true) ->
                   s' = wrap64 (wrap64 (wal_last_sequence wal + 1)
                                + total_consumed opts (firstn i g))))).
  { intros g4 H4. split.
    - rewrite <- (length_map sequence g4), H4, length_map, Hlen.
      rewrite <- (length_map (sequencing_view opts)), Hview, length_map.
      rewrite Hg1, length_map. reflexivity.
    - intros i x Hx. rewrite H4.
      assert (Hx1 : nth_error g1 i = Some (fst (CheckCallback x)))
        by (rewrite Hg1;
            apply (map_nth_error (fun y => fst (CheckCallback y)));
            exact Hx).
      destruct (view_nth g1 (wal_group wal) i _ Hview Hx1)
        as (x2 & Hx2 & Hv).
      assert (Hcf : CallbackFailed x2 = precommit_failed x)
        by exact (f_equal (fun v => fst (fst v)) Hv).
      assert (Hsq : sequence x2 = sequence x).
      { transitivity (sequence (fst (CheckCallback x)));
          [exact (f_equal (fun v => snd (fst v)) Hv)|].
        unfold CheckCallback. destruct (callback x); reflexivity. }
      destruct (Hnth i x2 Hx2) as (s' & Hs & Hfail & Hok).
      exists s'. split; [exact Hs|]. rewrite <- Hcf, <- Hsq.
      split; [exact Hfail|].
      intros Hc Hev. rewrite (Hok Hc Hev), wrap64_add_l.
      rewrite (view_consumed _ _ Hview), Hg1, map_map.
      unfold total_consumed. rewrite firstn_map. reflexivity. }
  destruct (ok st).
  - destruct (memtable_phase _ _ _ _) as [[[g4 ip] su] em].
    cbn [fst snd] in Hseq. simpl. intros _.
    destruct (Hfin g4 Hseq) as [H1 H2]. auto.
  - simpl. intros _. destruct (Hfin g3 eq_refl) as [H1 H2]. auto.
Qed.

Lemma exit_not_in (l : list Event) q s :
  Forall (fun e => is_group_exit e = false) l ->
  ~ In (EvExitAsBatchGroupLeader q s) l.
Proof.
  intros H Hin. rewrite Forall_forall in H. specialize (H _ Hin).
  discriminate.
Qed.

(** The leader stores the last sequence of the group when it leaves the
    group with an OK status, and leaves the stored one when it leaves the
    group with another status. *)
Lemma leader_finish_exit nls (w : @Writer WriteBatch) entered cm st' :
  Forall (fun e => is_group_exit e = false) (cm_wal_events cm) ->
  Forall (fun e => is_group_exit e = false) (cm_callback_events cm) ->
  Forall (fun e => is_group_exit e = false) (cm_memtable_events cm) ->
  In (EvExitAsBatchGroupLeader write_thread_ st')
     (wr_events (leader_finish opts env nls w entered cm)) ->
  LastSequence (versions_ (wr_db (leader_finish opts env nls w entered cm)))
  = if ok st' then cm_last_sequence cm
    else LastSequence (versions_ (cm_db cm)).
Proof.
  intros Hwal Hcb Hmem. unfold leader_finish.
  assert (Hc : Forall (fun e => is_group_exit e = false)
                 (if negb (CallbackFailed (hd w (cm_group cm)))
                  then if negb (ok (cm_io_s cm))
                       then IOStatusCheck opts (cm_io_s cm)
                       else WriteStatusCheck opts (cm_status cm)
                  else [])).
  { unfold IOStatusCheck, WriteStatusCheck.
    repeat match goal with
           | |- context [if ?c then _ else _] => destruct c
           end; repeat constructor. }
  revert Hc. generalize (if negb (CallbackFailed (hd w (cm_group cm)))
                  then if negb (ok (cm_io_s cm))
                       then IOStatusCheck opts (cm_io_s cm)
                       else WriteStatusCheck opts (cm_status cm)
                  else []). intros ev_check Hc.
  assert (Hs : forall x,
             x = (if nls
                  then let '(st1, e) :=
                         if ok (cm_status cm)
                         then (MarkLogsSynced env, [EvMarkLogsSynced])
                         else (cm_status cm, [EvMarkLogsNotSynced]) in
                       if two_write_queues_ opts
                       then if manual_wal_flush_ opts
                            then (FlushWAL env, e ++ [EvFlushWAL])
                            else (SyncWAL env, e ++ [EvSyncWAL])
                       else (st1, e)
                  else (cm_status cm, [])) ->
             Forall (fun e => is_group_exit e = false) (snd x)).
  { intros x ->.
    destruct nls, (ok (cm_status cm)), (two_write_queues_ opts),
      (manual_wal_flush_ opts); simpl; repeat constructor. }
  destruct (if nls then _ else _) as [st2 ev_sync].
  specialize (Hs _ eq_refl). cbn [snd] in Hs.
  assert (Hm : Forall (fun e => is_group_exit e = false)
                 (MemTableInsertStatusCheck
                    (status (hd w (cm_group cm)))))
    by (unfold MemTableInsertStatusCheck;
        destruct (negb (ok (status (hd w (cm_group cm)))));
        repeat constructor).
  destruct (if cm_in_parallel_group cm then _ else true).
  - cbn [wr_events wr_db]. intros Hin.
    destruct Hin as [Hin|Hin]; [discriminate|]. cbn [app] in Hin.
    repeat (apply in_app_or in Hin; destruct Hin as [Hin|Hin];
            [exfalso; eapply exit_not_in; [|exact Hin]; assumption|]).
    simpl in Hin. destruct Hin as [Hin|[]]. injection Hin as <-.
    destruct (ok st2); reflexivity.
  - cbn [wr_events wr_db]. intros Hin. exfalso.
    destruct Hin as [Hin|Hin]; [discriminate|]. cbn [app] in Hin.
    repeat (apply in_app_or in Hin; destruct Hin as [Hin|Hin];
            [eapply exit_not_in; [|exact Hin]; assumption|]).
    simpl in Hin. destruct Hin.
Qed.

(** C1 (as the code has it). In the default write mode, when the WAL
    phase of a group succeeded: a writer whose pre-commit callback failed
    keeps the sequence it had; a writer whose pre-commit callback did not
    fail, and before which no pre-release callback of the group returned a
    non-OK status, gets the first sequence of the group plus what the
    writers before it use up; the sequence increment of the group is the
    total of what its writers use up.  With two write queues the
    last-allocated sequence advances by that increment.  With one queue
    the leader keeps the advance in a local: the last sequence is set to
    the one the leader read plus the increment when the leader leaves the
    group with an OK status, and stays as it was when the leader leaves
    the group with another status. *)
Theorem sequences_assigned_in_group_order write_options dm st nls nlds last
    db (w : @Writer WriteBatch) others io_s :
  Forall (fun x => ok (callback_status x) = true) (w :: others) ->
  ok st = true ->
  let r := WriteImpl_after_preprocess opts env write_options dm st nls nlds
             last db w others in
  wr_io_s r = Some io_s -> ok io_s = true ->
  length (wr_group r) = length (w :: others) /\
  (forall i x x',
      nth_error (w :: others) i = Some x ->
      nth_error (wr_group r) i = Some x' ->
      (precommit_failed x = true -> sequence x' = sequence x) /\
      (precommit_failed x = false ->
       (forall p s d l ix t ret,
           In (EvPreReleaseCallback p s d l ix t ret) (wr_events r) ->
           (p < i)%nat -> ok ret = true) ->
       sequence x'
       = wrap64 (wr_current_sequence r
                 + total_consumed opts (firstn i (w :: others))))) /\
  wr_seq_inc r = wrap64 (total_consumed opts (w :: others)) /\
  (two_write_queues_ opts = true ->
   wr_current_sequence r
   = wrap64 (last_allocated_sequence_ (versions_ db) + 1) /\
   last_allocated_sequence_ (versions_ (wr_db r))
   = wrap64 (last_allocated_sequence_ (versions_ db) + wr_seq_inc r)) /\
  (two_write_queues_ opts = false ->
   wr_current_sequence r = wrap64 (last + 1) /\
   forall st',
     In (EvExitAsBatchGroupLeader write_thread_ st') (wr_events r) ->
     (ok st' = true ->
      LastSequence (versions_ (wr_db r)) = wrap64 (last + wr_seq_inc r)) /\
     (ok st' = false ->
      LastSequence (versions_ (wr_db r)) = LastSequence (versions_ db))).
Proof.
  intros Hfresh Hst. cbv zeta. unfold WriteImpl_after_preprocess.
  cbv zeta. rewrite Hst.
  set (db1 := set_last_batch_group_size_ (EnterAsBatchGroupLeader env) db).
  pose proof (commit_group_sequences write_options dm last nls nlds db1
                (w :: others) Hfresh) as Hseq.
  destruct (commit_group_phases opts env write_options dm last nls nlds db1
              (w :: others)) as (Hwal & Hcb & Hmem & _ & Hv2 & Hv1).
  pose proof (fun st' =>
                leader_finish_exit nls w true
                  (commit_group opts env write_options dm last nls nlds db1
                     (w :: others)) st') as Hexit.
  pose proof (leader_finish_last_allocated opts env nls w true
                (commit_group opts env write_options dm last nls nlds db1
                   (w :: others))) as Hla.
  destruct (leader_finish_events opts env nls w true
              (commit_group opts env write_options dm last nls nlds db1
                 (w :: others))) as (fin & Hev & _).
  destruct (leader_finish_locals opts env nls w true
              (commit_group opts env write_options dm last nls nlds db1
                 (w :: others))) as (Hinc & Hcur & Hg & Hio).
  cbv zeta in Hseq.
  generalize dependent (commit_group opts env write_options dm last nls nlds
                          db1 (w :: others)).
  intros cm Hseq Hwal Hcb Hmem Hv2 Hv1.
  generalize (leader_finish opts env nls w true cm).
  intros r Hexit Hla Hev Hinc Hcur Hg Hio Hsome Hok.
  rewrite Hio in Hsome. injection Hsome as <-.
  destruct (Hseq Hok) as (Hlen & Hnth & Hsum).
  rewrite Hinc, Hcur, Hg.
  split; [exact Hlen|]. split; [|split; [exact Hsum|split]].
  - intros i x x' Hx Hx'.
    destruct (Hnth i x Hx) as (s' & Hs & Hfail & Hgood).
    rewrite (map_nth_error sequence _ _ Hx') in Hs. injection Hs as <-.
    split; [exact Hfail|].
    intros Hc Hcalls. apply Hgood; [exact Hc|].
    intros p s d l ix t ret Hin. eapply Hcalls. rewrite Hev.
    right. apply in_or_app. right. apply in_or_app. left. exact Hin.
  - intros Htwo. destruct (Hv2 Htwo) as [Hver Hc2].
    split; [exact Hc2|]. rewrite Hla, Hver. reflexivity.
  - intros Hone. destruct (Hv1 Hone) as (Hver & Hc1 & Hl1).
    split; [exact Hc1|]. intros st' Hin.
    assert (Hls : LastSequence (versions_ (wr_db r))
                  = if ok st' then cm_last_sequence cm
                    else LastSequence (versions_ (cm_db cm))).
    { apply (Hexit st'); try assumption.
      - eapply Forall_impl; [|exact Hwal]. intros e; destruct e; easy.
      - eapply Forall_impl; [|exact Hcb]. intros e; destruct e; easy.
      - eapply Forall_impl; [|exact Hmem]. intros e; destruct e; easy. }
    rewrite Hls, Hver, Hl1.
    split; intros ->; reflexivity.
Qed.

End SequenceFacts.

Lemma sequences_assigned_in_group_order_witness :
  sequence
    (nth 1 (wr_group (WriteImpl_after_preprocess default_options calm
                        default_write_options false OK false false 0
                        fresh_db noted_put [solo_put])) noted_put)
  = wrap64 (wr_current_sequence
              (WriteImpl_after_preprocess default_options calm
                 default_write_options false OK false false 0 fresh_db
                 noted_put [solo_put])
            + total_consumed default_options
                (firstn 1 [noted_put; solo_put])).
Proof.
  assert (Hcount : forall (b : Batch) s, Count (SetSequence b s) = Count b)
    by (intros b s; reflexivity).
  assert (Hfresh : Forall (fun x : @Writer Batch =>
                             ok (callback_status x) = true)
                          [noted_put; solo_put])
    by (repeat constructor).
  assert (Hio : wr_io_s (WriteImpl_after_preprocess default_options calm
                           default_write_options false OK false false 0
                           fresh_db noted_put [solo_put])
                = Some OK) by (vm_compute; reflexivity).
  destruct (sequences_assigned_in_group_order default_options calm Hcount
              default_write_options false OK false false 0 fresh_db
              noted_put [solo_put] OK Hfresh eq_refl Hio eq_refl)
    as (_ & Hnth & _).
  assert (Hx : nth_error [noted_put; solo_put] 1 = Some solo_put)
    by reflexivity.
  assert (Hx' : nth_error
                  (wr_group (WriteImpl_after_preprocess default_options calm
                               default_write_options false OK false false 0
                               fresh_db noted_put [solo_put])) 1
                = Some (nth 1 (wr_group
                                 (WriteImpl_after_preprocess default_options
                                    calm default_write_options false OK false
                                    false 0 fresh_db noted_put [solo_put]))
                          noted_put))
    by (vm_compute; reflexivity).
  apply (proj2 (Hnth 1%nat solo_put _ Hx Hx')); [reflexivity|].
  intros p s d l ix t ret Hin Hp. vm_compute in Hin.
  repeat (destruct Hin as [Hin|Hin]; [try discriminate Hin|]);
    try (injection Hin as _ _ _ _ _ _ <-; reflexivity).
  destruct Hin.
Defined.

(** C1 as stated fails: neither writer has a pre-commit callback and the
    WAL phase succeeds, but the pre-release callback of the first writer
    refuses its sequence, the leader's loop ends there, and the second
    writer is left without the sequence 2; the two records of the group
    make an increment of 2, and the last sequence, with one write queue,
    stays 0. *)
Lemma sequences_counterexample :
  wr_io_s (WriteImpl_after_preprocess default_options calm
             default_write_options false OK false false 0 fresh_db
             refused_put [solo_put]) = Some OK /\
  precommit_failed refused_put = false /\
  precommit_failed solo_put = false /\
  wrap64 (wr_current_sequence
            (WriteImpl_after_preprocess default_options calm
               default_write_options false OK false false 0 fresh_db
               refused_put [solo_put])
          + total_consumed default_options [refused_put]) = 2 /\
  map sequence
      (wr_group (WriteImpl_after_preprocess default_options calm
                   default_write_options false OK false false 0 fresh_db
                   refused_put [solo_put]))
  = [1; kMaxSequenceNumber] /\
  two_write_queues_ default_options = false /\
  total_consumed default_options [refused_put; solo_put] = 2 /\
  LastSequence (versions_ fresh_db) = 0 /\
  LastSequence
    (versions_ (wr_db (WriteImpl_after_preprocess default_options calm
                         default_write_options false OK false false 0
                         fresh_db refused_put [solo_put]))) = 0.
Proof. vm_compute. repeat split. Qed.

(** * Further properties *)

(** ** The cap of the task limiter *)

Section TaskLimiterBounds.
Import TaskLimiter.

Lemma Forall_update_nth {A} (P : A -> Prop) (l : list A) i y :
  Forall P l -> P y -> Forall P (update_nth i (fun _ => y) l).
Proof.
  intros Hl Hy. revert i. induction Hl as [|x r Hx Hr IH]; intros [|i]; simpl;
    constructor; auto.
Qed.

Lemma Forall_nth_error {A} (P : A -> Prop) (l : list A) i x :
  Forall P l -> nth_error l i = Some x -> P x.
Proof.
  intros Hl Hx. rewrite Forall_forall in Hl. apply Hl.
  eapply nth_error_In; eassumption.
Qed.

Lemma sys_step_capped m s tid a s' :
  m <= INT32_MAX ->
  capped_system m s -> capped_action m a = true ->
  sys_step s tid a = Some s' -> capped_system m s'.
Proof.
  unfold capped_system. intros Hm (Hc & Hcap & Hts) Ha.
  destruct a as [force|spurious|k|limit|]; simpl in *; try discriminate.
  - (* Call *)
    destruct (nth_error (threads s) tid) as [[[f|] h]|] eqn:E;
      intros H; inversion H; subst; auto.
    simpl. repeat split; try lia.
    apply Forall_update_nth; [exact Hts|].
    simpl. destruct force; [discriminate|reflexivity].
  - (* Step *)
    destruct (nth_error (threads s) tid) as [[[f|] h]|] eqn:E;
      try (intros H; inversion H; subst; auto; fail).
    pose proof (Forall_nth_error _ _ _ _ Hts E) as Hf. simpl in Hf.
    destruct f as [force|force limit|force limit tasks]; simpl in *.
    + intros H; inversion H; subst; simpl. repeat split; try lia.
      apply Forall_update_nth; [exact Hts|]. simpl. auto.
    + intros H; inversion H; subst; simpl. repeat split; try lia.
      apply Forall_update_nth; [exact Hts|]. simpl. auto.
    + destruct Hf as [-> Hl].
      unfold loop_test. simpl.
      destruct (limit <? 0) eqn:E0; [apply Z.ltb_lt in E0; lia|]. simpl.
      destruct (tasks <? limit) eqn:E1.
      * apply Z.ltb_lt in E1.
        destruct (outstanding_tasks_ (lim s) =? tasks) eqn:E2; simpl.
        -- apply Z.eqb_eq in E2.
           destruct spurious; simpl; intros H; inversion H; subst; simpl.
           ++ repeat split; try lia.
              apply Forall_update_nth; [exact Hts|]. simpl. auto.
           ++ rewrite wrap32_small
                by (unfold INT32_MIN, INT32_MAX in *; lia).
              repeat split; try lia.
              apply Forall_update_nth; [exact Hts|]. exact I.
        -- intros H; inversion H; subst; simpl. repeat split; try lia.
           apply Forall_update_nth; [exact Hts|]. simpl. auto.
      * intros H; inversion H; subst; simpl. repeat split; try lia.
        apply Forall_update_nth; [exact Hts|]. exact I.
  - (* Drop *)
    destruct (nth_error (threads s) tid) as [[c h]|] eqn:E;
      try (intros H; inversion H; subst; auto; fail).
    destruct (nth_error h k) as [tok|] eqn:Ek;
      try (intros H; inversion H; subst; auto; fail).
    pose proof (Forall_nth_error _ _ _ _ Hts E) as Hf. simpl in Hf.
    destruct (0 <=? wrap32 (outstanding_tasks_ (lim s) - 1)) eqn:Ea;
      [|discriminate].
    intros H; inversion H; subst; simpl.
    apply Z.leb_le in Ea.
    assert (Hw : wrap32 (outstanding_tasks_ (lim s) - 1)
                 = outstanding_tasks_ (lim s) - 1)
      by (apply wrap32_small; unfold INT32_MIN, INT32_MAX in *; lia).
    rewrite Hw in *. repeat split; try lia.
    apply Forall_update_nth; [exact Hts|]. exact Hf.
  - (* SetMax *)
    apply andb_true_iff in Ha. destruct Ha as [H0 H1].
    apply Z.leb_le in H0. apply Z.leb_le in H1.
    intros H; inversion H; subst; simpl. repeat split; try lia. exact Hts.
Qed.

Lemma run_capped m sched : forall s s',
  m <= INT32_MAX ->
  capped_system m s ->
  forallb (fun x => capped_action m (snd x)) sched = true ->
  run s sched = Some s' -> capped_system m s'.
Proof.
  induction sched as [|[tid a] rest IH]; intros s s' Hm Hs Hq; simpl in *.
  - intros H; inversion H; subst; exact Hs.
  - apply andb_true_iff in Hq. destruct Hq as [Ha Hq].
    destruct (sys_step s tid a) as [s1|] eqn:E; [|discriminate].
    apply IH; auto. eapply sys_step_capped; eassumption.
Qed.

Lemma init_capped name limit n m :
  0 <= limit <= m -> capped_system m (init name limit n).
Proof.
  intros H. unfold capped_system, init. simpl.
  split; [lia|]. split; [lia|].
  induction n as [|n IH]; simpl; constructor; [exact I|exact IH].
Qed.

Lemma run_counts_live_some sched : forall s s',
  counts_live s ->
  Z.of_nat (live_tokens s) + Z.of_nat (length sched) <= INT32_MAX ->
  run s sched = Some s' -> counts_live s'.
Proof.
  intros s s' Hinv Hb Hrun.
  destruct (run_counts_live sched s Hinv Hb) as (s2 & E & H2 & _).
  congruence.
Qed.

(** The cap holds under concurrency.  When no call is forced, the cap is
    never reset, and the caps in force (the first and those set later) are
    between 0 and [m], the outstanding count and the number of live tokens
    stay between 0 and [m] at every point of every run, whatever the
    interleaving of the clients and the spurious failures of the
    compare-exchange. *)
Theorem outstanding_never_exceeds_cap name limit n m sched s :
  0 <= limit <= m -> m <= INT32_MAX ->
  Z.of_nat (length sched) <= INT32_MAX ->
  forallb (fun x => capped_action m (snd x)) sched = true ->
  run (init name limit n) sched = Some s ->
  0 <= outstanding_tasks_ (lim s) <= m /\
  Z.of_nat (live_tokens s) <= m.
Proof.
  intros Hl Hm Hlen Hq Hrun.
  pose proof (run_capped m sched _ _ Hm (init_capped name limit n m Hl) Hq Hrun)
    as (Hc & _).
  split; [exact Hc|].
  assert (Hlive : counts_live s).
  { eapply run_counts_live_some; [apply init_counts_live| |exact Hrun].
    rewrite init_live_tokens. simpl. lia. }
  unfold counts_live in Hlive. lia.
Qed.

(** A token given and destroyed leaves the limiter as it was: the
    destructor of the token undoes the increment of GetToken, its assertion
    holds, and the token names the limiter that gave it. *)
Theorem token_round_trip force l tok l' :
  0 <= outstanding_tasks_ l < INT32_MAX ->
  GetToken force l = (Some tok, l') ->
  TaskLimiterToken_dtor l' = (l, true) /\ limiter_ tok = GetName l.
Proof.
  intros Hr. rewrite GetToken_alone.
  destruct (loop_test force (max_outstanding_tasks_ l) (outstanding_tasks_ l));
    [|discriminate].
  intros H. inversion H; subst. clear H.
  unfold TaskLimiterToken_dtor. simpl.
  rewrite (wrap32_small (outstanding_tasks_ l + 1))
    by (unfold INT32_MIN, INT32_MAX in *; lia).
  replace (outstanding_tasks_ l + 1 - 1) with (outstanding_tasks_ l) by lia.
  rewrite wrap32_small by (unfold INT32_MIN, INT32_MAX in *; lia).
  destruct l as [nm cap cnt]. simpl in *. unfold store_outstanding. simpl.
  split; [|reflexivity]. f_equal. apply Z.leb_le. lia.
Qed.

End TaskLimiterBounds.

Lemma outstanding_never_exceeds_cap_witness :
  match TaskLimiter.run (TaskLimiter.init "flush" 1 2)
          [(0%nat, TaskLimiter.Call false); (1%nat, TaskLimiter.Call false);
           (0%nat, TaskLimiter.Step false); (1%nat, TaskLimiter.Step false);
           (0%nat, TaskLimiter.Step false); (1%nat, TaskLimiter.Step false);
           (0%nat, TaskLimiter.Step false); (1%nat, TaskLimiter.Step false);
           (1%nat, TaskLimiter.Step false)] with
  | Some s =>
      0 <= TaskLimiter.outstanding_tasks_ (TaskLimiter.lim s) <= 1 /\
      Z.of_nat (TaskLimiter.live_tokens s) <= 1
  | None => True
  end.
Proof.
  destruct (TaskLimiter.run _ _) as [s|] eqn:E; [|exact I].
  refine (outstanding_never_exceeds_cap "flush" 1 2 1 _ s _ _ _ _ E).
  - lia.
  - unfold INT32_MAX. lia.
  - simpl. unfold INT32_MAX. lia.
  - reflexivity.
Defined.

Lemma token_round_trip_witness :
  TaskLimiter.TaskLimiterToken_dtor (TaskLimiter.mkLimiter "compaction" 2 2)
  = (TaskLimiter.mkLimiter "compaction" 2 1, true) /\
  TaskLimiter.limiter_ (TaskLimiter.mkToken "compaction")
  = TaskLimiter.GetName (TaskLimiter.mkLimiter "compaction" 2 1).
Proof.
  apply (token_round_trip false (TaskLimiter.mkLimiter "compaction" 2 1)).
  - simpl. unfold INT32_MAX. lia.
  - reflexivity.
Defined.

(** ** The size of a new log file *)

(** The preallocation of a new log is a tenth more than the write buffer
    (in 64-bit arithmetic), cut down to every limit that is in force:
    [max_total_wal_size] and [db_write_buffer_size] when positive, the size
    of the write buffer manager when it is enabled.  It never exceeds any
    of them, and it is one of them. *)
Theorem wal_preallocation_within_limits opts bo write_buffer_size :
  let base := wrap64 (write_buffer_size / 10 + write_buffer_size) in
  let b := GetWalPreallocateBlockSize opts bo write_buffer_size in
  b <= base /\
  (0 < max_total_wal_size opts -> b <= max_total_wal_size opts) /\
  (0 < db_write_buffer_size bo -> b <= db_write_buffer_size bo) /\
  (forall m, write_buffer_manager bo = Some m -> enabled m = true ->
             b <= buffer_size m) /\
  (b = base \/
   (0 < max_total_wal_size opts /\ b = max_total_wal_size opts) \/
   (0 < db_write_buffer_size bo /\ b = db_write_buffer_size bo) \/
   (exists m, write_buffer_manager bo = Some m /\ enabled m = true
              /\ b = buffer_size m)) /\
  (0 <= write_buffer_size < 16000000000000000000 ->
   base = write_buffer_size + write_buffer_size / 10).
Proof.
  cbv zeta. unfold GetWalPreallocateBlockSize.
  set (base := wrap64 (write_buffer_size / 10 + write_buffer_size)).
  destruct (0 <? max_total_wal_size opts) eqn:E1;
    [apply Z.ltb_lt in E1 | apply Z.ltb_ge in E1];
    (destruct (0 <? db_write_buffer_size bo) eqn:E2;
     [apply Z.ltb_lt in E2 | apply Z.ltb_ge in E2]);
    (destruct (write_buffer_manager bo) as [m|] eqn:E3;
     [destruct (enabled m) eqn:E4|]).
  all: repeat match goal with
              | |- context [Z.min ?a ?b] =>
                  destruct (Z.min_spec a b) as [[? ->]|[? ->]]
              end.
  all: repeat split; try lia.
  all: try (intros m' Hm' He'; inversion Hm'; subst; try congruence; lia).
  all: try (intros Hr; unfold base, wrap64;
            rewrite Z.mod_small;
            [lia | pose proof (Z.div_pos write_buffer_size 10);
                   pose proof (Z.div_le_upper_bound write_buffer_size 10
                                 1600000000000000000); lia]).
  all: try (left; reflexivity).
  all: try (right; left; split; [assumption|reflexivity]).
  all: try (right; right; left; split; [assumption|reflexivity]).
  all: right; right; right; exists m; auto.
Qed.

(** ** The accounts of the log *)

Section WalAccounts.
Context {WriteBatch : Type} {WBI : WriteBatchInternal WriteBatch}.
Variable env : Env.

Lemma sync_logs_spec logs : forall io_s,
  let synced := take_while (fun l => ok (FileSync env (number l))) logs in
  snd (sync_logs env logs io_s)
  = map (fun l => EvFileSync (number l)) (firstn (S (length synced)) logs) /\
  ((length synced < length logs)%nat -> ok (fst (sync_logs env logs io_s)) = false) /\
  (length synced = length logs ->
   ok (fst (sync_logs env logs io_s)) = ok io_s || negb (length logs =? 0)%nat).
Proof.
  induction logs as [|log rest IH]; intros io_s; cbv zeta.
  - simpl. split; [reflexivity|]. split; [lia|].
    intros _. rewrite orb_false_r. reflexivity.
  - cbn [sync_logs take_while].
    destruct (ok (FileSync env (number log))) eqn:E.
    + destruct (IH (FileSync env (number log))) as (Hev & Hfail & Hok).
      destruct (sync_logs env rest (FileSync env (number log))) as [r' ev].
      cbn [fst snd length] in *. split; [|split].
      * cbn [firstn map]. rewrite Hev. reflexivity.
      * intros Hlt. apply Hfail. lia.
      * intros Hlen. rewrite Hok by lia. rewrite E. simpl.
        rewrite orb_true_r. reflexivity.
    + cbn [fst snd length firstn map]. split; [|split].
      * destruct rest; reflexivity.
      * intros _. exact E.
      * discriminate.
Qed.

Lemma update_back_sizes n (l : list LogFileNumberSize) :
  l <> [] ->
  wrap64 (fold_right Z.add 0 (map size (update_back (AddSize n) l)))
  = wrap64 (fold_right Z.add 0 (map size l) + n).
Proof.
  induction l as [|x [|y r] IH]; intros Hne.
  - now elim Hne.
  - simpl. rewrite !Z.add_0_r. rewrite wrap64_idem. reflexivity.
  - change (update_back (AddSize n) (x :: y :: r))
      with (x :: update_back (AddSize n) (y :: r)).
    cbn [map fold_right].
    rewrite <- wrap64_add_r, IH by discriminate.
    rewrite wrap64_add_r. f_equal. cbn [map fold_right]. lia.
Qed.

(** What WriteToWAL of a group leaves of the database, whatever the log
    writer answered. *)
Lemma WriteToWAL_db db (g : list (@Writer WriteBatch)) nls nlds seq :
  let r := WriteToWAL env db g nls nlds seq in
  let m := MergeBatch g (tmp_batch_ db) in
  let merged := fst (stamp m (assign_log_used m g (logfile_number_ db)) seq) in
  let len := Z.of_nat (String.length (Contents merged)) in
  total_log_size_ (wal_db r) = wrap64 (total_log_size_ db + len) /\
  alive_log_files_ (wal_db r)
  = update_back (AddSize len) (alive_log_files_ db) /\
  log_empty_ (wal_db r) = false /\
  wal_log_used r = logfile_number_ db /\
  logfile_number_ (wal_db r) = logfile_number_ db /\
  logs_ (wal_db r) = logs_ db /\
  tmp_batch_ (wal_db r)
  = match merged_batch m with
    | TmpBatch _ => Clear merged
    | LeaderBatch _ => tmp_batch_ db
    end.
Proof.
  cbv zeta. unfold WriteToWAL.
  destruct (stamp _ _ seq) as [merged g2] eqn:Es. cbn [fst].
  assert (Hc : forall m' (g' : list (@Writer WriteBatch)) (d : @DBImpl WriteBatch),
             total_log_size_ (cache_state m' g' d) = total_log_size_ d /\
             alive_log_files_ (cache_state m' g' d) = alive_log_files_ d /\
             log_empty_ (cache_state m' g' d) = log_empty_ d /\
             logfile_number_ (cache_state m' g' d) = logfile_number_ d /\
             logs_ (cache_state m' g' d) = logs_ d /\
             tmp_batch_ (cache_state m' g' d) = tmp_batch_ d).
  { intros m' g' d. unfold cache_state.
    destruct (to_be_cached_state m') as [k|]; [|auto 10].
    destruct (nth_error g' k); auto 10. }
  unfold WriteToWAL_batch. cbv zeta.
  match goal with
  | |- context [if ?c then ?a else (AddRecord env ?x, [])] =>
      destruct (if c then a else (AddRecord env x, [])) as [io ev]
  end.
  destruct (merged_batch (MergeBatch g (tmp_batch_ db))) eqn:Em;
    cbn [wal_db wal_log_used];
    repeat match goal with
           | |- context [cache_state ?a ?b ?c] =>
               destruct (Hc a b c) as (-> & -> & -> & -> & -> & ->)
           end; simpl;
    repeat match goal with
           | |- context [cache_state ?a ?b ?c] =>
               destruct (Hc a b c) as (-> & -> & -> & -> & -> & ->)
           end; simpl; auto 10.
Qed.

Lemma ConcurrentWriteToWAL_db db (g : list (@Writer WriteBatch)) seq_inc :
  let r := ConcurrentWriteToWAL env db g seq_inc in
  let m := MergeBatch g new_batch in
  let merged := fst (stamp m (assign_log_used m g (logfile_number_ db))
                       (wrap64 (last_allocated_sequence_ (versions_ db) + 1))) in
  let len := Z.of_nat (String.length (Contents merged)) in
  total_log_size_ (wal_db r) = wrap64 (total_log_size_ db + len) /\
  alive_log_files_ (wal_db r)
  = update_back (AddSize len) (alive_log_files_ db) /\
  log_empty_ (wal_db r) = false /\
  wal_log_used r = logfile_number_ db /\
  logfile_number_ (wal_db r) = logfile_number_ db /\
  logs_ (wal_db r) = logs_ db /\
  tmp_batch_ (wal_db r) = tmp_batch_ db.
Proof.
  cbv zeta. unfold ConcurrentWriteToWAL. cbn [FetchAddLastAllocatedSequence].
  destruct (stamp _ _ _) as [merged g2] eqn:Es. cbn [fst].
  unfold WriteToWAL_batch, cache_state. cbv zeta. cbn [wal_db wal_log_used].
  destruct (to_be_cached_state _) as [k|];
    [destruct (nth_error g2 k)|]; simpl; auto 10.
Qed.

Lemma update_back_nonempty {A} (f : A -> A) (l : list A) :
  l <> [] -> update_back f l <> [].
Proof.
  destruct l as [|x [|y r]]; simpl; intros H; try discriminate. now elim H.
Qed.

(** The total size of the logs stays the sum of the sizes of the alive
    log files through every write to the log, by either queue, and whether
    or not the log writer reported a failure; and once something was
    appended the log is no longer empty. *)
Theorem wal_size_accounts_kept (db : @DBImpl WriteBatch) :
  alive_log_files_ db <> [] ->
  total_log_size_ db
  = wrap64 (fold_right Z.add 0 (map size (alive_log_files_ db))) ->
  (forall (g : list Writer) nls nlds seq,
      let d := wal_db (WriteToWAL env db g nls nlds seq) in
      alive_log_files_ d <> [] /\
      total_log_size_ d
      = wrap64 (fold_right Z.add 0 (map size (alive_log_files_ d))) /\
      log_empty_ d = false) /\
  (forall (g : list Writer) seq_inc,
      let d := wal_db (ConcurrentWriteToWAL env db g seq_inc) in
      alive_log_files_ d <> [] /\
      total_log_size_ d
      = wrap64 (fold_right Z.add 0 (map size (alive_log_files_ d))) /\
      log_empty_ d = false).
Proof.
  intros Hne Hsum. split.
  - intros g nls nlds seq. cbv zeta.
    destruct (WriteToWAL_db db g nls nlds seq) as (Ht & Ha & He & _).
    rewrite Ht, Ha, He. split; [apply update_back_nonempty; exact Hne|].
    split; [|reflexivity].
    rewrite update_back_sizes by exact Hne.
    rewrite Hsum, wrap64_add_l. reflexivity.
  - intros g seq_inc. cbv zeta.
    destruct (ConcurrentWriteToWAL_db db g seq_inc) as (Ht & Ha & He & _).
    rewrite Ht, Ha, He. split; [apply update_back_nonempty; exact Hne|].
    split; [|reflexivity].
    rewrite update_back_sizes by exact Hne.
    rewrite Hsum, wrap64_add_l. reflexivity.
Qed.

(** The syncs of WriteToWAL.  After the append, the files of the logs are
    synced in the order of [logs_] up to the first that fails, and the
    directory is synced only when every file was; none of it happens when
    the append failed or no sync was asked for.  The write to the log is
    OK exactly when the append is, and with it every sync that was asked
    for. *)
Theorem wal_sync_stops_at_first_failure db (g : list (@Writer WriteBatch))
    nls nlds seq :
  let r := WriteToWAL env db g nls nlds seq in
  let m := MergeBatch g (tmp_batch_ db) in
  let entry := Contents (fst (stamp m (assign_log_used m g (logfile_number_ db))
                                seq)) in
  let synced := take_while (fun l => ok (FileSync env (number l))) (logs_ db) in
  let all_synced := (length synced =? length (logs_ db))%nat in
  wal_events r
  = EvAddRecord entry
    :: (if ok (AddRecord env entry) && nls
        then map (fun l => EvFileSync (number l))
                 (firstn (S (length synced)) (logs_ db))
             ++ (if all_synced && nlds then [EvDirFsync] else [])
        else []) /\
  ok (wal_io_s r)
  = ok (AddRecord env entry)
    && (negb nls || (all_synced && (negb nlds || ok (DirFsync env)))).
Proof.
  cbv zeta. unfold WriteToWAL.
  destruct (stamp _ _ seq) as [merged g2] eqn:Es. cbn [fst].
  unfold WriteToWAL_batch. cbv zeta.
  assert (Hl : forall m' (g' : list (@Writer WriteBatch)) (d : @DBImpl WriteBatch),
             logs_ (cache_state m' g' d) = logs_ d).
  { intros m' g' d. unfold cache_state.
    destruct (to_be_cached_state m') as [k|]; [|reflexivity].
    destruct (nth_error g' k); reflexivity. }
  rewrite Hl.
  assert (Hlogs : forall d : @DBImpl WriteBatch,
             logs_ (match merged_batch (MergeBatch g (tmp_batch_ db)) with
                    | LeaderBatch _ => d
                    | TmpBatch _ => set_tmp_batch_ merged d
                    end) = logs_ d)
    by (intros d; destruct (merged_batch _); reflexivity).
  cbn [logs_ set_log_empty_ set_alive_log_files_ set_total_log_size_].
  rewrite Hlogs.
  destruct (ok (AddRecord env (Contents merged))) eqn:Ea.
  2: { simpl. split; [reflexivity|exact Ea]. }
  destruct nls; cbn [andb negb orb].
  2: { simpl. split; [reflexivity|exact Ea]. }
  destruct (sync_logs_spec (logs_ db) (AddRecord env (Contents merged)))
    as (Hev & Hfail & Hok).
  destruct (sync_logs env (logs_ db) (AddRecord env (Contents merged)))
    as [io' ev'].
  cbn [fst snd] in *.
  pose proof (Nat.eqb_spec
                (length (take_while (fun l => ok (FileSync env (number l)))
                           (logs_ db)))
                (length (logs_ db))) as Hs.
  destruct Hs as [Heq|Hneq].
  - rewrite (Hok Heq), Ea. cbn [orb andb].
    destruct nlds; cbn [andb negb orb wal_events wal_io_s].
    + rewrite Hev. split; reflexivity.
    + rewrite Hev, app_nil_r. split; [reflexivity|].
      rewrite (Hok Heq), Ea. reflexivity.
  - assert (Hlt : (length (take_while (fun l => ok (FileSync env (number l)))
                             (logs_ db)) < length (logs_ db))%nat).
    { assert (Hle : forall (p : LogWriterNumber -> bool) l,
                 (length (take_while p l) <= length l)%nat).
      { intros p l. induction l as [|x r IH]; simpl; [lia|].
        destruct (p x); simpl; lia. }
      specialize (Hle (fun l => ok (FileSync env (number l))) (logs_ db)).
      lia. }
    rewrite (Hfail Hlt). cbn [andb wal_events wal_io_s].
    rewrite Hev, app_nil_r. split; [reflexivity|]. exact (Hfail Hlt).
Qed.

End WalAccounts.

Lemma wal_size_accounts_kept_witness :
  alive_log_files_ (wal_db (WriteToWAL calm fresh_db [solo_put] false false 1))
  <> [] /\
  total_log_size_ (wal_db (WriteToWAL calm fresh_db [solo_put] false false 1))
  = wrap64 (fold_right Z.add 0
              (map size
                 (alive_log_files_
                    (wal_db (WriteToWAL calm fresh_db [solo_put] false false
                               1))))) /\
  log_empty_ (wal_db (WriteToWAL calm fresh_db [solo_put] false false 1))
  = false.
Proof.
  assert (Hne : alive_log_files_ fresh_db <> []) by (simpl; discriminate).
  assert (Hsum : total_log_size_ fresh_db
                 = wrap64 (fold_right Z.add 0
                             (map size (alive_log_files_ fresh_db))))
    by reflexivity.
  exact (proj1 (wal_size_accounts_kept calm fresh_db Hne Hsum)
           [solo_put] false false 1).
Defined.

(** ** PreprocessWrite stops at the first failure *)

Section PreprocessFailures.
Context {WriteBatch : Type}.
Variable opts : DBOptions.
Variable env : Env.

(** A step of PreprocessWrite: it runs only on an OK status. *)
Lemma preprocess_step_cases (st : Status) (c : bool) (s : Status)
    (ev : list Event) st' ev' :
  (if ok st && c then (s, ev) else (st, [])) = (st', ev') ->
  (ev' = [] /\ st' = st) \/ (ev' = ev /\ st' = s /\ ok st = true).
Proof.
  destruct (ok st); simpl; [destruct c|]; intros H; inversion H; auto.
Qed.

(** PreprocessWrite from the test of the write controller on. *)
Lemma preprocess_tail write_options need_log_sync
    (db : DBImpl (WriteBatch := WriteBatch)) st before :
  let dw :=
    if ok st && (IsStopped (at_entry env) || NeedsDelay env)
    then DelayWrite env (last_batch_group_size_ db) write_options
    else mkDelayResult (Done st) false [] in
  let r :=
    match dw_outcome dw with
    | Blocked => mkPreprocessResult Blocked need_log_sync db
                   (before ++ dw_events dw)
    | Done st =>
        if ok st && need_log_sync then
          match logs_ db with
          | front :: _ =>
              if getting_synced front && negb (parallel_sync_finishes env) then
                mkPreprocessResult Blocked need_log_sync db
                  (before ++ dw_events dw ++ [EvLogSyncCvWait])
              else
                mkPreprocessResult (Done st) true
                  (set_logs_ (map mark_getting_synced (logs_ db)) db)
                  (before ++ dw_events dw
                   ++ if getting_synced front then [EvLogSyncCvWait] else [])
          | [] => mkPreprocessResult (Done st) true db (before ++ dw_events dw)
          end
        else mkPreprocessResult (Done st) false db (before ++ dw_events dw)
    end in
  (ok st = false ->
   pp_outcome r = Done st /\ pp_events r = before /\
   pp_need_log_sync r = false) /\
  (forall st', pp_outcome r = Done st' -> ok st' = false ->
               pp_need_log_sync r = false) /\
  (forall st', pp_outcome r = Done st' -> ok st' = true ->
               pp_need_log_sync r = need_log_sync /\
               (need_log_sync = true ->
                Forall (fun l => getting_synced l = true) (logs_ (pp_db r)))) /\
  (exists extra,
      pp_events r = before ++ extra /\
      Forall (fun e => is_stall_event e = true \/ e = EvLogSyncCvWait) extra).
Proof.
  cbv zeta. split; [|split; [|split]].
  - intros Hst. rewrite Hst. simpl. rewrite Hst. simpl.
    rewrite app_nil_r. auto.
  - generalize (if ok st && (IsStopped (at_entry env) || NeedsDelay env)
                then DelayWrite env (last_batch_group_size_ db) write_options
                else mkDelayResult (Done st) false []).
    intros dw st'. destruct (dw_outcome dw) as [s|]; [|discriminate].
    destruct (ok s) eqn:Es; simpl.
    + destruct need_log_sync; simpl.
      * destruct (logs_ db) as [|front rest]; simpl.
        -- intros H; inversion H; subst. congruence.
        -- destruct (getting_synced front && negb (parallel_sync_finishes env));
             simpl; [discriminate|].
           intros H; inversion H; subst. congruence.
      * reflexivity.
    + reflexivity.
  - generalize (if ok st && (IsStopped (at_entry env) || NeedsDelay env)
                then DelayWrite env (last_batch_group_size_ db) write_options
                else mkDelayResult (Done st) false []).
    intros dw st'. destruct (dw_outcome dw) as [s|]; [|discriminate].
    destruct (ok s) eqn:Es; simpl.
    + destruct need_log_sync; simpl.
      * destruct (logs_ db) as [|front rest] eqn:El; simpl.
        -- intros _ _. split; [reflexivity|]. intros _. rewrite El.
           constructor.
        -- destruct (getting_synced front && negb (parallel_sync_finishes env));
             simpl; [discriminate|].
           intros _ _. split; [reflexivity|]. intros _.
           repeat constructor.
           apply Forall_forall. intros l Hl. apply in_map_iff in Hl.
           destruct Hl as (l0 & <- & _). reflexivity.
      * intros _ _. split; [reflexivity|discriminate].
    + intros H; inversion H; subst. congruence.
  - assert (Hd : Forall (fun e => is_stall_event e = true \/ e = EvLogSyncCvWait)
                   (dw_events
                      (if ok st && (IsStopped (at_entry env) || NeedsDelay env)
                       then DelayWrite env (last_batch_group_size_ db)
                              write_options
                       else mkDelayResult (Done st) false []))).
    { destruct (ok st && (IsStopped (at_entry env) || NeedsDelay env));
        [|constructor].
      eapply Forall_impl; [|apply DelayWrite_events]. intros e He. auto. }
    revert Hd.
    generalize (if ok st && (IsStopped (at_entry env) || NeedsDelay env)
                then DelayWrite env (last_batch_group_size_ db) write_options
                else mkDelayResult (Done st) false []).
    intros dw Hd.
    destruct (dw_outcome dw) as [s|];
      [|eexists; split; [reflexivity|exact Hd]].
    destruct (ok s && need_log_sync);
      [|eexists; split; [reflexivity|exact Hd]].
    destruct (logs_ db) as [|front rest];
      [eexists; split; [reflexivity|exact Hd]|].
    destruct (getting_synced front) eqn:Eg; simpl.
    + destruct (parallel_sync_finishes env); simpl; eexists;
        (split; [reflexivity|]); apply Forall_app; split; auto.
    + eexists; split; [reflexivity|]. rewrite app_nil_r. exact Hd.
Qed.

(** A status that is not OK clears the request for a sync of the logs. *)
Lemma PreprocessWrite_failure_clears_sync write_options need_log_sync
    (db : DBImpl (WriteBatch := WriteBatch)) st :
  pp_outcome (PreprocessWrite opts env write_options need_log_sync db)
  = Done st ->
  ok st = false ->
  pp_need_log_sync (PreprocessWrite opts env write_options need_log_sync db)
  = false.
Proof.
  unfold PreprocessWrite.
  match goal with
  | |- context [if ?c then (SwitchWAL env, ?e) else ?x] =>
      destruct (if c then (SwitchWAL env, e) else x) as [st1 ev1]
  end.
  match goal with
  | |- context [if ?c then (HandleWriteBufferFull env, ?e) else ?x] =>
      destruct (if c then (HandleWriteBufferFull env, e) else x)
        as [st2 ev2]
  end.
  match goal with
  | |- context [if ?c then (TrimMemtableHistory env, ?e) else ?x] =>
      destruct (if c then (TrimMemtableHistory env, e) else x)
        as [st3 ev3]
  end.
  match goal with
  | |- context [if ?c then (ScheduleFlushes env, ?e) else ?x] =>
      destruct (if c then (ScheduleFlushes env, e) else x)
        as [st4 ev4]
  end.
  destruct (preprocess_tail write_options need_log_sync db st4
              (ev1 ++ ev2 ++ ev3 ++ ev4)) as (_ & Hclr & _).
  cbv zeta in Hclr. apply Hclr.
Qed.

(** PreprocessWrite returns the status of the first step that fails and
    takes no step after it.  When the database is stopped on a background
    error it takes no step at all and returns that error; when one of the
    steps that switch memtables returns a non-OK status, that call is the
    last thing PreprocessWrite does and its status is the one returned;
    whenever the status returned is not OK the request for a sync of the
    logs is cleared; and when it is OK the request stands, and every log
    is then marked as getting synced. *)
Theorem PreprocessWrite_stops_at_first_failure write_options need_log_sync
    (db : DBImpl (WriteBatch := WriteBatch)) :
  let r := PreprocessWrite opts env write_options need_log_sync db in
  (IsDBStopped (at_entry env) = true ->
   ok (GetBGError (at_entry env)) = false ->
   pp_outcome r = Done (GetBGError (at_entry env)) /\ pp_events r = [] /\
   pp_need_log_sync r = false) /\
  (forall e s, In (e, s) (preprocess_steps env) -> In e (pp_events r) ->
               ok s = false ->
               pp_outcome r = Done s /\
               (exists before, pp_events r = before ++ [e]) /\
               pp_need_log_sync r = false) /\
  (forall st, pp_outcome r = Done st -> ok st = false ->
              pp_need_log_sync r = false) /\
  (forall st, pp_outcome r = Done st -> ok st = true ->
              pp_need_log_sync r = need_log_sync /\
              (need_log_sync = true ->
               Forall (fun l => getting_synced l = true) (logs_ (pp_db r)))).
Proof.
  cbv zeta. unfold PreprocessWrite.
  set (st0 := if IsDBStopped (at_entry env) then GetBGError (at_entry env)
              else OK).
  match goal with
  | |- context [if ?c then (SwitchWAL env, ?e) else ?x] =>
      destruct (if c then (SwitchWAL env, e) else x) as [st1 ev1] eqn:E1
  end.
  match goal with
  | |- context [if ?c then (HandleWriteBufferFull env, ?e) else ?x] =>
      destruct (if c then (HandleWriteBufferFull env, e) else x)
        as [st2 ev2] eqn:E2
  end.
  match goal with
  | |- context [if ?c then (TrimMemtableHistory env, ?e) else ?x] =>
      destruct (if c then (TrimMemtableHistory env, e) else x)
        as [st3 ev3] eqn:E3
  end.
  match goal with
  | |- context [if ?c then (ScheduleFlushes env, ?e) else ?x] =>
      destruct (if c then (ScheduleFlushes env, e) else x)
        as [st4 ev4] eqn:E4
  end.
  rewrite <- andb_assoc in E1.
  apply preprocess_step_cases in E1, E2, E3, E4.
  destruct (preprocess_tail write_options need_log_sync db st4
              (ev1 ++ ev2 ++ ev3 ++ ev4)) as (Hfail & Hclr & Hkeep & Hshape).
  cbv zeta in Hfail, Hclr, Hkeep, Hshape.
  match type of Hclr with
  | forall st', pp_outcome ?x = _ -> _ => generalize dependent x
  end.
  intros r Hfail Hclr Hkeep (extra & Hev & Hextra).
  split; [|split; [|split]]; [| |exact Hclr|exact Hkeep].
  - intros Hs Hbg. unfold st0 in *. rewrite Hs in *.
    destruct E1 as [[-> ->]|(_ & _ & H)]; [|congruence].
    destruct E2 as [[-> ->]|(_ & _ & H)]; [|congruence].
    destruct E3 as [[-> ->]|(_ & _ & H)]; [|congruence].
    destruct E4 as [[-> ->]|(_ & _ & H)]; [|congruence].
    destruct (Hfail Hbg) as (Ho & He & Hn). auto.
  - intros e s Hin Hine Hok.
    assert (Hnot : ~ In e extra).
    { intros Hx. rewrite Forall_forall in Hextra.
      destruct (Hextra _ Hx) as [Hst|Hl];
        simpl in Hin; intuition (try discriminate; subst);
        match goal with
        | H : (_, _) = (_, _) |- _ => inversion H; subst; discriminate
        end. }
    rewrite Hev in Hine. apply in_app_or in Hine.
    destruct Hine as [Hine|Hine]; [|contradiction].
    assert (Hst4 : st4 = s /\ exists b, ev1 ++ ev2 ++ ev3 ++ ev4 = b ++ [e]).
    { simpl in Hin.
      destruct E1 as [[-> ->]|(-> & -> & H1)];
        destruct E2 as [[-> ->]|(-> & -> & H2)];
        destruct E3 as [[-> ->]|(-> & -> & H3)];
        destruct E4 as [[-> ->]|(-> & -> & H4)];
        simpl in Hine;
        repeat match goal with
               | H : _ \/ _ |- _ => destruct H
               | H : False |- _ => destruct H
               | H : (_, _) = (_, _) |- _ => inversion H; clear H; subst
               end;
        try discriminate; try congruence;
        (split; [reflexivity|]);
        simpl;
        match goal with
        | |- exists b, ?l = b ++ [_] => exists (removelast l); reflexivity
        end. }
    destruct Hst4 as [-> (b & Hb)].
    destruct (Hfail Hok) as (Ho & He & Hn).
    split; [exact Ho|]. split; [|exact Hn].
    exists b. rewrite He. exact Hb.
Qed.

End PreprocessFailures.

(** ** The end of a group on the default path *)

Section LeaderExit.
Context {WriteBatch : Type} {WBI : WriteBatchInternal WriteBatch}.
Variable opts : DBOptions.
Variable env : Env.

Lemma kinds_not_exit (l : list Event) :
  (Forall (fun e => is_wal_append e || is_sync_event e = true) l \/
   Forall (fun e => is_pre_release e = true) l \/
   Forall (fun e => is_memtable_apply e = true) l) ->
  Forall (fun e => is_group_exit e = false) l.
Proof.
  intros [H|[H|H]]; (eapply Forall_impl; [|exact H]);
    intros e; destruct e; easy.
Qed.

(** The parts of leader_finish: the status after the sync of the logs and
    its events, whether this thread leaves the group, and the rest. *)
Lemma leader_finish_parts nls (w : @Writer WriteBatch) entered cm :
  let w' := hd w (cm_group cm) in
  let leaves := if cm_in_parallel_group cm
                then CompleteParallelMemTableWriter env else true in
  exists st2 ev_check ev_sync,
    Forall (fun e => is_group_exit e = false /\ is_memtable_apply e = false)
           (ev_check ++ ev_sync) /\
    (forall s, ~ In (EvSetBGError s kMemTable) (ev_check ++ ev_sync)) /\
    (nls = false -> st2 = cm_status cm /\ ev_sync = []) /\
    (ok (cm_status cm) = false -> two_write_queues_ opts = false ->
     st2 = cm_status cm) /\
    (ok (cm_io_s cm) = true ->
     ev_check = if negb (CallbackFailed w')
                then WriteStatusCheck opts (cm_status cm) else []) /\
    wr_events (leader_finish opts env nls w entered cm)
    = EvEnterAsBatchGroupLeader write_thread_
      :: cm_wal_events cm ++ cm_callback_events cm ++ cm_memtable_events cm
         ++ ev_check ++ ev_sync
         ++ (if leaves
             then MemTableInsertStatusCheck (status w')
                  ++ [EvExitAsBatchGroupLeader write_thread_ st2]
             else []) /\
    wr_db (leader_finish opts env nls w entered cm)
    = (if leaves && ok st2
       then set_versions_
              (SetLastSequence (cm_last_sequence cm) (versions_ (cm_db cm)))
              (cm_db cm)
       else cm_db cm) /\
    wr_outcome (leader_finish opts env nls w entered cm)
    = Done (if ok st2 then FinalStatus w' else st2).
Proof.
  cbv zeta. unfold leader_finish.
  set (ev_check := if negb (CallbackFailed (hd w (cm_group cm)))
                   then if negb (ok (cm_io_s cm))
                        then IOStatusCheck opts (cm_io_s cm)
                        else WriteStatusCheck opts (cm_status cm)
                   else []).
  assert (Hc : Forall (fun e => is_group_exit e = false
                               /\ is_memtable_apply e = false) ev_check /\
               (forall s, ~ In (EvSetBGError s kMemTable) ev_check) /\
               (ok (cm_io_s cm) = true ->
                ev_check = if negb (CallbackFailed (hd w (cm_group cm)))
                           then WriteStatusCheck opts (cm_status cm) else [])).
  { unfold ev_check, IOStatusCheck, WriteStatusCheck. split; [|split].
    - repeat match goal with
             | |- context [if ?c then _ else _] => destruct c
             end; repeat constructor.
    - intros s.
      repeat match goal with
             | |- context [if ?c then _ else _] => destruct c
             end; simpl; intuition discriminate.
    - intros ->. reflexivity. }
  clearbody ev_check. destruct Hc as (Hc1 & Hc2 & Hc3).
  assert (Hs : forall x,
             x = (if nls
                  then let '(st1, e) :=
                         if ok (cm_status cm)
                         then (MarkLogsSynced env, [EvMarkLogsSynced])
                         else (cm_status cm, [EvMarkLogsNotSynced]) in
                       if two_write_queues_ opts
                       then if manual_wal_flush_ opts
                            then (FlushWAL env, e ++ [EvFlushWAL])
                            else (SyncWAL env, e ++ [EvSyncWAL])
                       else (st1, e)
                  else (cm_status cm, [])) ->
             Forall (fun e => is_group_exit e = false
                              /\ is_memtable_apply e = false) (snd x) /\
             (forall s, ~ In (EvSetBGError s kMemTable) (snd x)) /\
             (nls = false -> fst x = cm_status cm /\ snd x = []) /\
             (ok (cm_status cm) = false -> two_write_queues_ opts = false ->
              fst x = cm_status cm)).
  { intros x ->.
    destruct nls, (ok (cm_status cm)), (two_write_queues_ opts),
      (manual_wal_flush_ opts); simpl;
      (split; [repeat constructor|]);
      (split; [intros s; intuition discriminate|]);
      (split; [intros; try discriminate; auto|]);
      intros; try discriminate; reflexivity. }
  destruct (if nls then _ else _) as [st2 ev_sync].
  destruct (Hs _ eq_refl) as (Hs1 & Hs2 & Hs3 & Hs4). cbn [fst snd] in *.
  exists st2, ev_check, ev_sync.
  split; [apply Forall_app; split; assumption|].
  split; [intros s Hin; apply in_app_or in Hin;
          destruct Hin as [Hin|Hin]; [eapply Hc2|eapply Hs2]; eassumption|].
  split; [exact Hs3|]. split; [exact Hs4|]. split; [exact Hc3|].
  destruct (if cm_in_parallel_group cm then _ else true); simpl.
  - split; [reflexivity|]. split; reflexivity.
  - split; [reflexivity|]. split; reflexivity.
Qed.

Lemma check_group_length (ws : list (@Writer WriteBatch)) acc :
  length (fst (check_group ws acc)) = length ws.
Proof.
  revert acc. induction ws as [|x r IH]; intros acc; cbn [check_group];
    [reflexivity|].
  destruct (CheckCallback x) as [x' passed].
  match goal with
  | |- context [check_group r ?a] =>
      specialize (IH a); destruct (check_group r a) as [r' t]
  end.
  simpl in *. congruence.
Qed.

Lemma update_nth_length {A} (f : A -> A) (l : list A) n :
  length (update_nth n f l) = length l.
Proof.
  revert n. induction l as [|x r IH]; intros [|n]; simpl; auto.
Qed.

Lemma merged_group_length (g : list (@Writer WriteBatch)) tmp lf seq :
  length (snd (stamp (MergeBatch g tmp) (assign_log_used (MergeBatch g tmp) g lf)
                 seq)) = length g.
Proof.
  unfold stamp, assign_log_used.
  destruct (merged_batch (MergeBatch g tmp)); cbn [snd].
  - rewrite !update_nth_length. reflexivity.
  - destruct (1 <? write_with_wal _); [apply length_map|reflexivity].
Qed.

Lemma wal_phase_length write_options last nls nlds db
    (g : list (@Writer WriteBatch)) seq_inc :
  length (wal_group (wal_phase opts env write_options last nls nlds db g
                       seq_inc)) = length g.
Proof.
  unfold wal_phase.
  destruct (negb (two_write_queues_ opts));
    destruct (negb (disableWAL write_options)); simpl; try reflexivity.
  - unfold WriteToWAL.
    pose proof (merged_group_length g (tmp_batch_ db) (logfile_number_ db)
                  (wrap64 (last + 1))) as H.
    destruct (stamp _ _ _) as [merged g2]. simpl in *.
    match goal with
    | |- context [if ?c then ?a else (AddRecord env ?x, [])] =>
        destruct (if c then a else (AddRecord env x, [])) as [io ev]
    end.
    exact H.
  - unfold ConcurrentWriteToWAL. simpl.
    match goal with
    | |- context [stamp ?m ?g1 ?s] =>
        pose proof (merged_group_length g new_batch (logfile_number_ db) s)
          as H;
        destruct (stamp m g1 s) as [merged g2]
    end.
    exact H.
Qed.

Lemma assign_sequences_length dm cnt (ws : list (@Writer WriteBatch)) :
  forall pos next index,
    length (fst (fst (assign_sequences opts dm cnt ws pos next index)))
    = length ws.
Proof.
  induction ws as [|x r IH]; intros pos next index; cbn [assign_sequences];
    [reflexivity|].
  destruct (CallbackFailed x).
  - specialize (IH (S pos) next index).
    destruct (assign_sequences opts dm cnt r (S pos) next index)
      as [[r' st] ev]. simpl in *. congruence.
  - cbv zeta.
    destruct (pre_release_callback (set_sequence next x)) as [cb|].
    + match goal with
      | |- context [if ok ?y then _ else _] => destruct (ok y)
      end; [|reflexivity].
      match goal with
      | |- context [assign_sequences opts dm cnt r ?p ?n ?i] =>
          specialize (IH p n i);
          destruct (assign_sequences opts dm cnt r p n i) as [[r' st] ev]
      end.
      simpl in *. congruence.
    + match goal with
      | |- context [assign_sequences opts dm cnt r ?p ?n ?i] =>
          specialize (IH p n i);
          destruct (assign_sequences opts dm cnt r p n i) as [[r' st] ev]
      end.
      simpl in *. congruence.
Qed.

(** What the memtable phase leaves in the status of the leader. *)
Lemma memtable_phase_status par cur (g : list (@Writer WriteBatch)) w :
  g <> [] ->
  let res := memtable_phase env par cur g in
  (forall seq, In (EvInsertIntoGroup seq) (snd res) ->
     snd (fst (fst res)) = false /\
     status (hd w (fst (fst (fst res)))) = InsertIntoGroup env) /\
  (forall seq, In (EvInsertInto seq) (snd res) ->
     snd (fst (fst res)) = true /\
     status (hd w (fst (fst (fst res)))) = InsertInto env).
Proof.
  intros Hne. cbv zeta. unfold memtable_phase.
  destruct g as [|x r]; [now elim Hne|].
  destruct (negb par); simpl.
  - split; [auto|]. intros seq [H|[]]. discriminate.
  - destruct (ShouldWriteToMemtable x); simpl.
    + split; [intros seq [H|[H|[]]]; discriminate|]. auto.
    + split; intros seq [H|[]]; discriminate.
Qed.

Lemma commit_group_memtable write_options dm last nls nlds db
    (g : list (@Writer WriteBatch)) w :
  g <> [] ->
  let cm := commit_group opts env write_options dm last nls nlds db g in
  (forall seq, In (EvInsertIntoGroup seq) (cm_memtable_events cm) ->
     cm_in_parallel_group cm = false /\
     status (hd w (cm_group cm)) = InsertIntoGroup env) /\
  (forall seq, In (EvInsertInto seq) (cm_memtable_events cm) ->
     cm_in_parallel_group cm = true /\
     status (hd w (cm_group cm)) = InsertInto env) /\
  LastSequence (versions_ (cm_db cm)) = LastSequence (versions_ db).
Proof.
  intros Hne. unfold commit_group.
  pose proof (check_group_length g
                (mkTotals 0 0 0 (allow_concurrent_memtable_write opts
                                 && (1 <? Z.of_nat (length g))))) as Hl1.
  destruct (check_group g _) as [g1 t]. cbn [fst] in Hl1.
  set (db1 := if disableWAL write_options
              then set_has_unpersisted_data_ true db else db).
  assert (Hdb1 : versions_ db1 = versions_ db)
    by (unfold db1; destruct (disableWAL write_options); reflexivity).
  match goal with
  | |- context [wal_phase opts env write_options last nls nlds db1 g1 ?n] =>
      pose proof (wal_phase_length write_options last nls nlds db1 g1 n)
        as Hl2;
      pose proof (wal_phase_versions opts env write_options last nls nlds db1
                    g1 n) as Hver;
      generalize dependent (wal_phase opts env write_options last nls nlds db1
                              g1 n)
  end.
  intros wal Hl2 Hver. cbv zeta in Hver |- *. rewrite Hdb1 in Hver.
  assert (Hlast : LastSequence (versions_ (wal_db wal))
                  = LastSequence (versions_ db)).
  { destruct Hver as [H2 H1].
    destruct (two_write_queues_ opts).
    - destruct (H2 eq_refl) as [-> _]. reflexivity.
    - destruct (H1 eq_refl) as [-> _]. reflexivity. }
  destruct (ok (wal_io_s wal)) eqn:Eio.
  - pose proof (assign_sequences_length dm (pre_release_callback_cnt t)
                  (wal_group wal) 0 (wrap64 (wal_last_sequence wal + 1)) 0)
      as Hl3.
    destruct (assign_sequences _ _ _ _ _ _ _) as [[g3 st] ev_cb].
    cbn [fst] in Hl3.
    assert (Hg3 : g3 <> []).
    { intros ->. destruct g; [now elim Hne|]. simpl in *. lia. }
    destruct (ok st).
    + destruct (memtable_phase_status (parallel t)
                  (wrap64 (wal_last_sequence wal + 1)) g3 w Hg3) as [Ha Hb].
      destruct (memtable_phase _ _ _ _) as [[[g4 ip] su] em].
      simpl in *. auto.
    + simpl. split; [|split]; [intros seq []|intros seq []|exact Hlast].
  - rewrite Eio. simpl.
    split; [|split]; [intros seq []|intros seq []|exact Hlast].
Qed.

(** A group whose leader does not leave it with an OK status never moves
    the last sequence: the sequences of a failed group are not published
    (and neither are they when another writer of a parallel group is the
    one that leaves it). *)
Theorem failed_group_never_publishes write_options dm st nls nlds last db
    (w : @Writer WriteBatch) others :
  let r := WriteImpl_after_preprocess opts env write_options dm st nls nlds
             last db w others in
  (forall st', In (EvExitAsBatchGroupLeader write_thread_ st') (wr_events r) ->
               ok st' = false) ->
  LastSequence (versions_ (wr_db r)) = LastSequence (versions_ db).
Proof.
  cbv zeta. unfold WriteImpl_after_preprocess. cbv zeta.
  set (db1 := set_last_batch_group_size_ (EnterAsBatchGroupLeader env) db).
  assert (Hcm : LastSequence
                  (versions_
                     (cm_db (if ok st
                             then commit_group opts env write_options dm last
                                    nls nlds db1 (w :: others)
                             else mkCommitResult st OK db1 (w :: others) 0 0
                                    last false None None [] [] [])))
                = LastSequence (versions_ db)).
  { destruct (ok st); [|reflexivity].
    destruct (commit_group_memtable write_options dm last nls nlds db1
                (w :: others) w) as (_ & _ & H); [discriminate|exact H]. }
  revert Hcm.
  generalize (if ok st
              then commit_group opts env write_options dm last nls nlds db1
                     (w :: others)
              else mkCommitResult st OK db1 (w :: others) 0 0 last false None
                     None [] [] []).
  intros cm Hcm.
  destruct (leader_finish_parts nls w (ok st) cm)
    as (st2 & ev_check & ev_sync & _ & _ & _ & _ & _ & Hev & Hdb & _).
  rewrite Hev, Hdb. intros Hexit.
  destruct (if cm_in_parallel_group cm then _ else true); [|exact Hcm].
  rewrite (Hexit st2); [exact Hcm|].
  right. repeat (apply in_or_app; right). left. reflexivity.
Qed.

(** A failed insert into the memtables is always recorded as a background
    error with the reason kMemTable, whatever paranoid_checks says, and
    the leader returns a non-OK status; yet the group is left with the
    status the leader had before the insert, so that after a serial insert
    that failed the other writers of the group are completed with an OK
    status when the syncs succeed. *)
Theorem memtable_failure_always_recorded write_options dm st nls nlds last db
    (w : @Writer WriteBatch) others :
  let r := WriteImpl_after_preprocess opts env write_options dm st nls nlds
             last db w others in
  (forall seq, In (EvInsertIntoGroup seq) (wr_events r) ->
     ok (InsertIntoGroup env) = false ->
     In (EvSetBGError (InsertIntoGroup env) kMemTable) (wr_events r) /\
     (exists s, wr_outcome r = Done s /\ ok s = false) /\
     (exists st',
         In (EvExitAsBatchGroupLeader write_thread_ st') (wr_events r) /\
         (ok st' = true -> wr_outcome r = Done (InsertIntoGroup env)) /\
         (nls = false -> ok st' = true))) /\
  (forall seq, In (EvInsertInto seq) (wr_events r) ->
     ok (InsertInto env) = false ->
     (exists s, wr_outcome r = Done s /\ ok s = false) /\
     (forall st',
         In (EvExitAsBatchGroupLeader write_thread_ st') (wr_events r) ->
         In (EvSetBGError (InsertInto env) kMemTable) (wr_events r))).
Proof.
  cbv zeta. unfold WriteImpl_after_preprocess. cbv zeta.
  set (db1 := set_last_batch_group_size_ (EnterAsBatchGroupLeader env) db).
  assert (Hcm :
    let cm := if ok st
              then commit_group opts env write_options dm last nls nlds db1
                     (w :: others)
              else mkCommitResult st OK db1 (w :: others) 0 0 last false None
                     None [] [] [] in
    Forall (fun e => is_wal_append e || is_sync_event e = true)
           (cm_wal_events cm) /\
    Forall (fun e => is_pre_release e = true) (cm_callback_events cm) /\
    Forall (fun e => is_memtable_apply e = true) (cm_memtable_events cm) /\
    (forall seq, In (EvInsertIntoGroup seq) (cm_memtable_events cm) ->
       cm_in_parallel_group cm = false /\
       status (hd w (cm_group cm)) = InsertIntoGroup env /\
       (ok (cm_status cm) = true)) /\
    (forall seq, In (EvInsertInto seq) (cm_memtable_events cm) ->
       cm_in_parallel_group cm = true /\
       status (hd w (cm_group cm)) = InsertInto env)).
  { cbv zeta. destruct (ok st).
    - destruct (commit_group_phases opts env write_options dm last nls nlds db1
                  (w :: others)) as (Hwal & Hcb & Hmemk & _).
      destruct (commit_group_memtable write_options dm last nls nlds db1
                  (w :: others) w) as (Ha & Hb & _); [discriminate|].
      split; [exact Hwal|]. split; [exact Hcb|]. split; [exact Hmemk|].
      split; [|exact Hb].
      intros seq Hin. destruct (Ha seq Hin) as [H1 H2].
      split; [exact H1|]. split; [exact H2|].
      revert Hin. unfold commit_group.
      destruct (check_group _ _) as [g1 t].
      match goal with
      | |- context [wal_phase opts env write_options last nls nlds ?d g1 ?n] =>
          generalize (wal_phase opts env write_options last nls nlds d g1 n)
      end.
      intros wal. cbv zeta.
      destruct (if ok (wal_io_s wal) then _ else _) as [[g3 st3] ev_cb].
      destruct (ok st3) eqn:E3.
      + destruct (memtable_phase _ _ _ _) as [[[g4 ip] su] em]. simpl.
        intros _. exact E3.
      + simpl. intros [].
    - simpl. split; [constructor|]. split; [constructor|].
      split; [constructor|]. split; intros seq []. }
  revert Hcm.
  generalize (if ok st
              then commit_group opts env write_options dm last nls nlds db1
                     (w :: others)
              else mkCommitResult st OK db1 (w :: others) 0 0 last false None
                     None [] [] []).
  intros cm. cbv zeta. intros (Hwal & Hcb & Hmemk & Hser & Hpar).
  destruct (leader_finish_parts nls w (ok st) cm)
    as (st2 & ev_check & ev_sync & Hk & Hnm & Hn0 & _ & _ & Hev & _ & Hout).
  destruct (leader_finish_locals opts env nls w (ok st) cm)
    as (_ & _ & Hg & _).
  rewrite Hev, Hout. clear Hev Hout.
  assert (Hmem : forall e,
             is_memtable_apply e = true ->
             In e (EvEnterAsBatchGroupLeader write_thread_
                   :: cm_wal_events cm ++ cm_callback_events cm
                      ++ cm_memtable_events cm ++ ev_check ++ ev_sync
                      ++ (if if cm_in_parallel_group cm
                             then CompleteParallelMemTableWriter env else true
                          then MemTableInsertStatusCheck
                                 (status (hd w (cm_group cm)))
                               ++ [EvExitAsBatchGroupLeader write_thread_ st2]
                          else [])) ->
             In e (cm_memtable_events cm)).
  { intros e He [Hin|Hin]; [subst; discriminate|].
    apply in_app_or in Hin. destruct Hin as [Hin|Hin].
    { rewrite Forall_forall in Hwal. specialize (Hwal _ Hin).
      destruct e; discriminate. }
    apply in_app_or in Hin. destruct Hin as [Hin|Hin].
    { rewrite Forall_forall in Hcb. specialize (Hcb _ Hin).
      destruct e; discriminate. }
    apply in_app_or in Hin. destruct Hin as [Hin|Hin]; [exact Hin|].
    rewrite app_assoc in Hin.
    apply in_app_or in Hin. destruct Hin as [Hin|Hin].
    { rewrite Forall_forall in Hk. destruct (Hk _ Hin). congruence. }
    destruct (if cm_in_parallel_group cm then _ else true); [|destruct Hin].
    unfold MemTableInsertStatusCheck in Hin.
    destruct (negb (ok (status (hd w (cm_group cm))))); simpl in Hin;
      intuition (subst; discriminate). }
  split.
  - intros seq Hin Hbad.
    destruct (Hser seq (Hmem (EvInsertIntoGroup seq) eq_refl Hin))
      as (Hp & Hs & Hokst).
    rewrite Hp in *. rewrite Hs. unfold MemTableInsertStatusCheck.
    rewrite Hbad. cbn [negb].
    split; [|split].
    + right. do 5 (apply in_or_app; right). simpl. auto.
    + unfold FinalStatus. rewrite Hs, Hbad. cbn [negb].
      destruct (ok st2) eqn:E2; eauto.
    + exists st2. split; [|split].
      * right. do 5 (apply in_or_app; right). simpl. auto.
      * intros ->. unfold FinalStatus. rewrite Hs, Hbad. reflexivity.
      * intros Hn. destruct (Hn0 Hn) as [-> _]. exact Hokst.
  - intros seq Hin Hbad.
    destruct (Hpar seq (Hmem (EvInsertInto seq) eq_refl Hin)) as (Hp & Hs).
    rewrite Hp in *. rewrite Hs. unfold MemTableInsertStatusCheck.
    rewrite Hbad. cbn [negb].
    split.
    + unfold FinalStatus. rewrite Hs, Hbad. cbn [negb].
      destruct (ok st2) eqn:E2; eauto.
    + intros st' Hex.
      destruct (CompleteParallelMemTableWriter env).
      * right. do 5 (apply in_or_app; right). simpl. auto.
      * exfalso. destruct Hex as [Hex|Hex]; [discriminate|].
        rewrite app_nil_r in Hex.
        apply in_app_or in Hex. destruct Hex as [Hex|Hex].
        { eapply exit_not_in; [|exact Hex].
          apply kinds_not_exit. left. exact Hwal. }
        apply in_app_or in Hex. destruct Hex as [Hex|Hex].
        { eapply exit_not_in; [|exact Hex].
          apply kinds_not_exit. right. left. exact Hcb. }
        apply in_app_or in Hex. destruct Hex as [Hex|Hex].
        { eapply exit_not_in; [|exact Hex].
          apply kinds_not_exit. right. right. exact Hmemk. }
        rewrite Forall_forall in Hk. destruct (Hk _ Hex). discriminate.
Qed.

(** A write whose preprocessing fails appends nothing to the log, calls
    no callback, writes no memtable and assigns no sequence; its leader
    enters and leaves the group, every writer of the group is handed the
    failure, and the leader returns it. *)
Theorem failed_preprocess_writes_nothing write_options dm db
    (w : @Writer WriteBatch) others st :
  let pp := PreprocessWrite opts env write_options (sync write_options) db in
  let r := WriteImpl_leader opts env write_options dm db w others in
  negb (two_write_queues_ opts) || negb dm = true ->
  pp_outcome pp = Done st -> ok st = false ->
  wr_outcome r = Done st /\
  wr_events r
  = pp_events pp
    ++ [EvEnterAsBatchGroupLeader write_thread_]
    ++ (if negb (CallbackFailed w) then WriteStatusCheck opts st else [])
    ++ MemTableInsertStatusCheck (status w)
    ++ [EvExitAsBatchGroupLeader write_thread_ st] /\
  wr_group r = w :: others /\
  versions_ (wr_db r) = versions_ (pp_db pp) /\
  wr_io_s r = None.
Proof.
  cbv zeta. intros Hpre Hpp Hbad.
  pose proof (PreprocessWrite_failure_clears_sync opts env write_options
                (sync write_options) db st Hpp Hbad) as Hclr.
  unfold WriteImpl_leader. cbv zeta. rewrite Hpre.
  revert Hpp Hclr.
  generalize (PreprocessWrite opts env write_options (sync write_options) db).
  intros pp Hpp Hclr. rewrite Hpp, Hclr.
  unfold WriteImpl_after_preprocess. cbv zeta. rewrite Hbad.
  unfold leader_finish, with_events. simpl.
  rewrite Hbad. simpl. auto.
Qed.

End LeaderExit.

Lemma failed_group_never_publishes_witness :
  LastSequence
    (versions_ (wr_db (WriteImpl_after_preprocess default_options fenced
                         default_write_options false OK false false 0
                         fresh_db solo_put [])))
  = LastSequence (versions_ fresh_db).
Proof.
  apply failed_group_never_publishes.
  intros st' Hin. vm_compute in Hin.
  repeat (destruct Hin as [Hin|Hin]; [try discriminate Hin|]).
  - injection Hin as <-. reflexivity.
  - destruct Hin.
Defined.

Lemma memtable_failure_always_recorded_witness :
  In (EvSetBGError (InsertIntoGroup failing_insert) kMemTable)
     (wr_events (WriteImpl_after_preprocess lax_options failing_insert
                   default_write_options false OK false false 0 fresh_db
                   solo_put [])) /\
  wr_outcome (WriteImpl_after_preprocess lax_options failing_insert
                default_write_options false OK false false 0 fresh_db
                solo_put [])
  = Done (InsertIntoGroup failing_insert).
Proof.
  destruct (proj1 (memtable_failure_always_recorded lax_options failing_insert
                     default_write_options false OK false false 0 fresh_db
                     solo_put []) 1)
    as (Hrec & _ & st' & Hexit & Hret & Hok).
  - vm_compute. auto 10.
  - reflexivity.
  - split; [exact Hrec|]. apply Hret, Hok. reflexivity.
Defined.

Lemma failed_preprocess_writes_nothing_witness :
  wr_outcome (WriteImpl_leader default_options halted default_write_options
                false fresh_db solo_put [])
  = Done (IOError "disk full") /\
  wr_group (WriteImpl_leader default_options halted default_write_options
              false fresh_db solo_put [])
  = [solo_put].
Proof.
  destruct (failed_preprocess_writes_nothing default_options halted
              default_write_options false fresh_db solo_put []
              (IOError "disk full"))
    as (Hout & _ & Hg & _); try reflexivity.
  split; assumption.
Defined.

(** ** The sequences of a group on the WAL-only path *)

Section WalOnlyFacts.
Context {WriteBatch : Type} {WBI : WriteBatchInternal WriteBatch}.
Variable opts : DBOptions.
Variable env : Env.

Lemma check_group_wal_only_writers (ws : list (@Writer WriteBatch)) :
  forall cnt,
    fst (check_group_wal_only ws cnt)
    = map (fun x => fst (CheckCallback x)) ws.
Proof.
  induction ws as [|x r IH]; intros cnt; simpl; [reflexivity|].
  destruct (CheckCallback x) as [x' passed] eqn:E.
  match goal with
  | |- context [check_group_wal_only r ?a] =>
      specialize (IH a); destruct (check_group_wal_only r a) as [r' c]
  end.
  simpl in *. rewrite IH. reflexivity.
Qed.

Lemma merged_group_ordering (g : list (@Writer WriteBatch)) tmp lf seq :
  map ordering_view
      (snd (stamp (MergeBatch g tmp) (assign_log_used (MergeBatch g tmp) g lf)
              seq))
  = map ordering_view g.
Proof.
  assert (Hhead : forall (f : @Writer WriteBatch -> @Writer WriteBatch) l,
             (forall x, ordering_view (f x) = ordering_view x) ->
             map ordering_view (update_nth 0 f l) = map ordering_view l).
  { intros f [|x r] H; simpl; [reflexivity|]. rewrite H. reflexivity. }
  unfold stamp, assign_log_used.
  destruct (merged_batch (MergeBatch g tmp)); cbn [snd].
  - rewrite !Hhead by reflexivity. reflexivity.
  - destruct (1 <? write_with_wal _); [|reflexivity].
    rewrite map_map. apply map_ext. reflexivity.
Qed.

Lemma wal_only_phase_ordering write_options db
    (g : list (@Writer WriteBatch)) seq_inc :
  map ordering_view (wal_group (wal_only_phase env write_options db g seq_inc))
  = map ordering_view g.
Proof.
  unfold wal_only_phase.
  destruct (negb (disableWAL write_options)); [|reflexivity].
  unfold ConcurrentWriteToWAL. simpl.
  match goal with
  | |- context [stamp ?m ?g1 ?s] =>
      pose proof (merged_group_ordering g new_batch (logfile_number_ db) s)
        as H;
      destruct (stamp m g1 s) as [merged g2]
  end.
  exact H.
Qed.

Lemma total_batch_cnt_spec (ws : list (@Writer WriteBatch)) : forall a,
  total_batch_cnt ws (wrap64 a)
  = wrap64 (a + fold_right Z.add 0
                  (map (fun x => if CallbackFailed x then 0 else batch_cnt x)
                       ws)).
Proof.
  induction ws as [|x r IH]; intros a; cbn [total_batch_cnt map fold_right].
  - rewrite Z.add_0_r. reflexivity.
  - destruct (CallbackFailed x); cbn [negb].
    + rewrite IH. f_equal.
    + rewrite wrap64_add_l, IH. f_equal. lia.
Qed.

Lemma assign_order_loop_spec ao (ws : list (@Writer WriteBatch)) :
  forall n0 c0,
    let used := fun x : @Writer WriteBatch =>
                  if CallbackFailed x then 0 else
                  match ao with
                  | kDoAssignOrder => batch_cnt x
                  | kDontAssignOrder => 0
                  end in
    length (fst (assign_order_loop ao ws (wrap64 n0) (wrap64 c0))) = length ws /\
    snd (assign_order_loop ao ws (wrap64 n0) (wrap64 c0))
    = wrap64 (c0 + Z.of_nat
                     (length (filter (fun x => negb (CallbackFailed x)
                                               && negb (disable_memtable x))
                                     ws))) /\
    forall i x, nth_error ws i = Some x ->
      exists s',
        nth_error (map sequence
                     (fst (assign_order_loop ao ws (wrap64 n0) (wrap64 c0)))) i
        = Some s' /\
        (CallbackFailed x = true -> s' = sequence x) /\
        (CallbackFailed x = false ->
         s' = wrap64 (n0 + fold_right Z.add 0 (firstn i (map used ws)))).
Proof.
  induction ws as [|x r IH]; intros n0 c0; cbv zeta.
  - simpl. split; [reflexivity|]. split; [rewrite Z.add_0_r; reflexivity|].
    intros [|i] y H; discriminate.
  - cbn [assign_order_loop filter].
    destruct (CallbackFailed x) eqn:Ef; cbn [negb andb].
    + destruct (IH n0 c0) as (Hlen & Hcnt & Hnth).
      destruct (assign_order_loop ao r (wrap64 n0) (wrap64 c0)) as [r' n].
      cbn [fst snd] in *. split; [simpl; congruence|]. split; [exact Hcnt|].
      intros [|i] y Hy; cbn [nth_error map] in *.
      * injection Hy as <-. exists (sequence x).
        split; [reflexivity|]. split; [reflexivity|]. congruence.
      * destruct (Hnth i y Hy) as (s' & Hs & Hfail & Hok).
        exists s'. split; [exact Hs|]. split; [exact Hfail|].
        intros Hc. rewrite (Hok Hc). cbn [firstn fold_right].
        rewrite Ef. reflexivity.
    + cbv zeta.
      change (batch_cnt (set_sequence (wrap64 n0) x)) with (batch_cnt x).
      change (disable_memtable (set_sequence (wrap64 n0) x))
        with (disable_memtable x).
      set (n1 := match ao with
                 | kDoAssignOrder => batch_cnt x
                 | kDontAssignOrder => 0
                 end).
      assert (Hn1 : match ao with
                    | kDontAssignOrder => wrap64 n0
                    | kDoAssignOrder => wrap64 (wrap64 n0 + batch_cnt x)
                    end = wrap64 (n0 + n1)).
      { unfold n1. destruct ao; [rewrite Z.add_0_r; reflexivity|].
        apply wrap64_add_l. }
      rewrite Hn1.
      set (c1 := if disable_memtable x then c0 else c0 + 1).
      assert (Hc1 : (if negb (disable_memtable x)
                     then wrap64 (wrap64 c0 + 1) else wrap64 c0)
                    = wrap64 c1).
      { unfold c1. destruct (disable_memtable x); simpl; [reflexivity|].
        apply wrap64_add_l. }
      rewrite Hc1.
      destruct (IH (n0 + n1) c1) as (Hlen & Hcnt & Hnth).
      destruct (assign_order_loop ao r (wrap64 (n0 + n1)) (wrap64 c1))
        as [r' n].
      cbn [fst snd] in *. split; [simpl; congruence|]. split.
      * rewrite Hcnt. unfold c1. f_equal.
        destruct (disable_memtable x); cbn [negb length]; lia.
      * intros [|i] y Hy; cbn [nth_error map] in *.
        -- injection Hy as <-. exists (wrap64 n0).
           split; [reflexivity|]. split; [congruence|].
           intros _. cbn [firstn fold_right]. rewrite Z.add_0_r. reflexivity.
        -- destruct (Hnth i y Hy) as (s' & Hs & Hfail & Hok).
           exists s'. split; [exact Hs|]. split; [exact Hfail|].
           intros Hc. rewrite (Hok Hc). cbn [firstn fold_right].
           rewrite Ef. fold n1. f_equal. lia.
Qed.

Lemma wal_only_phase_pending write_options db
    (g : list (@Writer WriteBatch)) seq_inc :
  pending_memtable_writes_ (wal_db (wal_only_phase env write_options db g
                                      seq_inc))
  = pending_memtable_writes_ db.
Proof.
  unfold wal_only_phase.
  destruct (negb (disableWAL write_options)); [|reflexivity].
  unfold ConcurrentWriteToWAL. simpl.
  destruct (stamp _ _ _) as [merged g2]. simpl.
  unfold cache_state.
  destruct (to_be_cached_state _) as [k|]; [|reflexivity].
  destruct (nth_error g2 k); reflexivity.
Qed.

Lemma ordering_nth (g g' : list (@Writer WriteBatch)) i x :
  map ordering_view g' = map ordering_view g ->
  nth_error g i = Some x ->
  exists x', nth_error g' i = Some x' /\ ordering_view x' = ordering_view x.
Proof.
  intros Hm Hx.
  apply (map_nth_error ordering_view) in Hx.
  rewrite <- Hm, nth_error_map in Hx.
  destruct (nth_error g' i) as [x'|]; [|discriminate].
  exists x'. split; [reflexivity|]. simpl in Hx. congruence.
Qed.

(** What the leader of the WAL-only path leaves, when the preliminary
    checks passed: the group and the database in terms of the group as the
    log phase left it. *)
Lemma WriteImplWALOnly_after_preprocess_result q write_options ao pls dm st db
    (w : @Writer WriteBatch) others :
  ok st = true ->
  let r := WriteImplWALOnly_after_preprocess opts env q write_options ao pls
             dm st db w others in
  let checked := map (fun x => fst (CheckCallback x)) (w :: others) in
  exists g1 exit_status,
    map ordering_view g1 = map ordering_view checked /\
    wr_seq_inc r = match ao with
                   | kDoAssignOrder => total_batch_cnt checked 0
                   | kDontAssignOrder => 0
                   end /\
    wr_current_sequence r
    = wrap64 (last_allocated_sequence_ (versions_ db) + 1) /\
    wr_group r
    = fst (assign_order_loop ao g1
             (wrap64 (last_allocated_sequence_ (versions_ db) + 1)) 0) /\
    last_allocated_sequence_ (versions_ (wr_db r))
    = wrap64 (last_allocated_sequence_ (versions_ db) + wr_seq_inc r) /\
    LastSequence (versions_ (wr_db r))
    = match pls with
      | kDoPublishLastSeq =>
          wrap64 (last_allocated_sequence_ (versions_ db) + wr_seq_inc r)
      | kDontPublishLastSeq => LastSequence (versions_ db)
      end /\
    pending_memtable_writes_ (wr_db r)
    = (if unordered_write opts && ok exit_status
       then wrap64 (pending_memtable_writes_ db
                    + snd (assign_order_loop ao g1
                             (wrap64 (last_allocated_sequence_ (versions_ db)
                                      + 1)) 0))
       else pending_memtable_writes_ db) /\
    (forall st', In (EvExitAsBatchGroupLeader q st') (wr_events r) ->
                 st' = exit_status) /\
    In (EvExitAsBatchGroupLeader q exit_status) (wr_events r) /\
    wr_outcome r
    = Done (if ok exit_status
            then FinalStatus
                   (hd w (fst (assign_order_loop ao g1
                                 (wrap64 (last_allocated_sequence_
                                            (versions_ db) + 1)) 0)))
            else exit_status).
Proof.
  intros Hst. cbv zeta.
  unfold WriteImplWALOnly_after_preprocess. rewrite Hst. cbn [negb].
  cbv zeta.
  rewrite (check_group_wal_only_writers (w :: others) 0).
  set (checked := map (fun x => fst (CheckCallback x)) (w :: others)).
  set (cnt := snd (check_group_wal_only (w :: others) 0)).
  set (seq_inc := match ao with
                  | kDontAssignOrder => 0
                  | kDoAssignOrder => total_batch_cnt checked 0
                  end).
  destruct (wal_only_phase_spec env write_options db checked seq_inc)
    as (Hver & Hlast & Hoff & Hon).
  pose proof (wal_only_phase_ordering write_options db checked seq_inc)
    as Hview.
  pose proof (wal_only_phase_pending write_options db checked seq_inc)
    as Hpend.
  assert (Hwal : Forall (fun e => is_group_exit e = false)
                   (wal_events (wal_only_phase env write_options db checked
                                  seq_inc))).
  { destruct (disableWAL write_options).
    - destruct (Hoff eq_refl) as (-> & _). constructor.
    - rewrite (Hon eq_refl). repeat constructor. }
  clear Hoff Hon.
  generalize dependent (wal_only_phase env write_options db checked seq_inc).
  intros wal Hver Hlast Hview Hpend Hwal. rewrite Hlast.
  set (st1 := if negb (disableWAL write_options) then wal_io_s wal else st).
  destruct (wal_only_sync_events opts env write_options st1) as [Hsync _].
  set (synced := wal_only_sync opts env write_options st1) in *.
  set (g2 := fst (assign_order_loop ao (wal_group wal)
                    (wrap64 (last_allocated_sequence_ (versions_ db) + 1)) 0)).
  set (called := if ok (fst synced)
                 then pre_release_loop dm cnt g2 0 0
                 else (fst synced, [])).
  assert (Hcalled : Forall (fun e => is_pre_release e = true) (snd called)).
  { unfold called. destruct (ok (fst synced)); [|constructor].
    apply pre_release_loop_events. }
  exists (wal_group wal), (fst called).
  cbn [wr_seq_inc wr_current_sequence wr_group wr_db wr_events wr_outcome].
  split; [exact Hview|]. split; [reflexivity|]. split; [reflexivity|].
  split; [reflexivity|].
  assert (Hv : forall d : @DBImpl WriteBatch,
             versions_ (if unordered_write opts && ok (fst called)
                        then set_pending_memtable_writes_
                               (wrap64 (pending_memtable_writes_ d
                                        + snd (assign_order_loop ao
                                                 (wal_group wal)
                                                 (wrap64
                                                    (last_allocated_sequence_
                                                       (versions_ db) + 1))
                                                 0))) d
                        else d) = versions_ d)
    by (intros d; destruct (unordered_write opts && ok (fst called));
        reflexivity).
  split; [rewrite Hv; destruct pls; simpl; rewrite Hver; reflexivity|].
  split; [rewrite Hv; destruct pls; simpl; [rewrite Hver|]; reflexivity|].
  split.
  { destruct (unordered_write opts && ok (fst called)); destruct pls; simpl;
      rewrite ?Hpend; reflexivity. }
  split; [|split; [|reflexivity]].
  2: { right. cbn [app]. do 4 (apply in_or_app; right). left. reflexivity. }
  intros st' Hin. destruct Hin as [Hin|Hin]; [discriminate|].
  cbn [app] in Hin.
  apply in_app_or in Hin. destruct Hin as [Hin|Hin];
    [exfalso; eapply exit_not_in; [|exact Hin]; exact Hwal|].
  apply in_app_or in Hin. destruct Hin as [Hin|Hin].
  { exfalso. rewrite Forall_forall in Hsync. specialize (Hsync _ Hin).
    unfold synced, wal_only_sync in Hin.
    destruct (ok st1 && sync write_options); [|destruct Hin].
    destruct (manual_wal_flush_ opts); simpl in Hin;
      intuition discriminate. }
  apply in_app_or in Hin. destruct Hin as [Hin|Hin].
  { exfalso. unfold IOStatusCheck, WriteStatusCheck in Hin.
    repeat match type of Hin with
           | context [if ?c then _ else _] => destruct c
           end; simpl in Hin; intuition discriminate. }
  apply in_app_or in Hin. destruct Hin as [Hin|Hin].
  { exfalso. eapply exit_not_in; [|exact Hin].
    apply kinds_not_exit. right. left. exact Hcalled. }
  destruct Hin as [Hin|[]]. injection Hin as <-. reflexivity.
Qed.

(** The sequences of a group on the WAL-only path.  The first sequence of
    the group is the one after the last allocated; a writer whose
    pre-commit callback failed keeps the sequence it had; every other
    writer gets the first sequence plus the batch counts of the writers
    before it whose callback did not fail when an order is assigned, and
    the first sequence itself when none is.  The last-allocated sequence
    advances by the total of those batch counts (by nothing when no order
    is assigned), and a leader that publishes sets the last sequence to the
    last allocated.  All of it holds whether or not the write to the log
    succeeded and whatever the pre-release callbacks return. *)
Theorem wal_only_sequences_in_group_order q write_options ao pls dm st db
    (w : @Writer WriteBatch) others :
  ok st = true ->
  let r := WriteImplWALOnly_after_preprocess opts env q write_options ao pls
             dm st db w others in
  let used := fun ws => match ao with
                        | kDoAssignOrder => total_batches_used ws
                        | kDontAssignOrder => 0
                        end in
  wr_current_sequence r
  = wrap64 (last_allocated_sequence_ (versions_ db) + 1) /\
  wr_seq_inc r = wrap64 (used (w :: others)) /\
  length (wr_group r) = length (w :: others) /\
  (forall i x x',
      nth_error (w :: others) i = Some x ->
      nth_error (wr_group r) i = Some x' ->
      (precommit_failed x = true -> sequence x' = sequence x) /\
      (precommit_failed x = false ->
       sequence x'
       = wrap64 (wr_current_sequence r + used (firstn i (w :: others))))) /\
  last_allocated_sequence_ (versions_ (wr_db r))
  = wrap64 (last_allocated_sequence_ (versions_ db) + wr_seq_inc r) /\
  LastSequence (versions_ (wr_db r))
  = match pls with
    | kDoPublishLastSeq => last_allocated_sequence_ (versions_ (wr_db r))
    | kDontPublishLastSeq => LastSequence (versions_ db)
    end.
Proof.
  intros Hst. cbv zeta.
  destruct (WriteImplWALOnly_after_preprocess_result q write_options ao pls dm
              st db w others Hst)
    as (g1 & xs & Hview & Hinc & Hcur & Hg & Hla & Hls & _).
  cbv zeta in Hview.
  set (checked := map (fun x => fst (CheckCallback x)) (w :: others)) in *.
  assert (Hused : forall ws : list (@Writer WriteBatch),
             fold_right Z.add 0
               (map (fun x => if CallbackFailed x then 0 else batch_cnt x)
                    (map (fun x => fst (CheckCallback x)) ws))
             = total_batches_used ws).
  { intros ws. unfold total_batches_used. rewrite map_map. f_equal.
    apply map_ext. intros x. unfold batches_used, precommit_failed.
    destruct (CallbackFailed (fst (CheckCallback x))); [reflexivity|].
    unfold CheckCallback. destruct (callback x); reflexivity. }
  destruct (assign_order_loop_spec ao g1
              (last_allocated_sequence_ (versions_ db) + 1) 0)
    as (Hlen & _ & Hnth).
  change (wrap64 0) with 0 in Hlen, Hnth.
  rewrite Hcur, Hla, Hls, Hg. clear Hla Hls.
  split; [reflexivity|]. split.
  { rewrite Hinc. destruct ao; [reflexivity|].
    change 0 with (wrap64 0) at 1.
    rewrite total_batch_cnt_spec. unfold checked. rewrite Hused.
    reflexivity. }
  split.
  { rewrite Hlen. rewrite <- (length_map ordering_view), Hview, length_map.
    unfold checked. apply length_map. }
  split; [|split; [reflexivity|destruct pls; reflexivity]].
  intros i x x' Hx Hx'.
  assert (Hx1 : nth_error checked i = Some (fst (CheckCallback x)))
    by (apply (map_nth_error (fun y => fst (CheckCallback y))); exact Hx).
  destruct (ordering_nth checked g1 i _ Hview Hx1) as (x2 & Hx2 & Hv).
  assert (Hcf : CallbackFailed x2 = precommit_failed x)
    by exact (f_equal (fun v => fst (fst (fst v))) Hv).
  assert (Hsq : sequence x2 = sequence x).
  { transitivity (sequence (fst (CheckCallback x)));
      [exact (f_equal (fun v => snd (fst (fst v))) Hv)|].
    unfold CheckCallback. destruct (callback x); reflexivity. }
  destruct (Hnth i x2 Hx2) as (s' & Hs & Hfail & Hok).
  rewrite (map_nth_error sequence _ _ Hx') in Hs. injection Hs as <-.
  rewrite <- Hcf, <- Hsq. split; [exact Hfail|].
  intros Hc. rewrite (Hok Hc), wrap64_add_l. f_equal. f_equal.
  assert (Hmap : map (fun x0 : @Writer WriteBatch =>
                        if CallbackFailed x0 then 0
                        else match ao with
                             | kDontAssignOrder => 0
                             | kDoAssignOrder => batch_cnt x0
                             end) g1
                 = map (fun x0 : @Writer WriteBatch =>
                          if CallbackFailed x0 then 0
                          else match ao with
                               | kDontAssignOrder => 0
                               | kDoAssignOrder => batch_cnt x0
                               end) checked).
  { apply (f_equal (map (fun v : bool * Z * Z * bool =>
                           if fst (fst (fst v)) then 0
                           else match ao with
                                | kDontAssignOrder => 0
                                | kDoAssignOrder => snd (fst v)
                                end))) in Hview.
    rewrite !map_map in Hview. exact Hview. }
  rewrite Hmap. destruct ao.
  - rewrite firstn_map.
    generalize (firstn i checked). intros l.
    induction l as [|y r IH]; simpl; [reflexivity|].
    rewrite IH. destruct (CallbackFailed y); reflexivity.
  - rewrite <- Hused. unfold checked. rewrite !firstn_map. reflexivity.
Qed.

Lemma memtable_writers_ordering (l l' : list (@Writer WriteBatch)) :
  map ordering_view l = map ordering_view l' ->
  length (filter (fun x => negb (CallbackFailed x) && negb (disable_memtable x))
            l)
  = length (filter (fun x => negb (CallbackFailed x)
                             && negb (disable_memtable x)) l').
Proof.
  revert l'. induction l as [|x r IH]; intros [|y r'] H; simpl in *;
    try discriminate; [reflexivity|].
  injection H as Hcf _ _ Hdm Hr. rewrite Hcf, Hdm.
  destruct (negb (CallbackFailed y) && negb (disable_memtable y)); simpl;
    rewrite (IH _ Hr); reflexivity.
Qed.

(** The count of pending memtable writes in the unordered mode.  The
    leader of the WAL-only path adds to it the number of writers of its
    group that go on to write to a memtable, when the mode is on and the
    group is left with an OK status, and nothing otherwise; each call of
    UnorderedWriteMemtable takes one off, whether or not it inserted and
    whether or not the insert failed, and wakes the waiting switch exactly
    when the count comes to zero. *)
Theorem pending_memtable_writes_balance q write_options ao pls dm st db
    (w : @Writer WriteBatch) others :
  ok st = true ->
  let r := WriteImplWALOnly_after_preprocess opts env q write_options ao pls
             dm st db w others in
  (exists st', In (EvExitAsBatchGroupLeader q st') (wr_events r)) /\
  (forall st', In (EvExitAsBatchGroupLeader q st') (wr_events r) ->
     pending_memtable_writes_ (wr_db r)
     = if unordered_write opts && ok st'
       then wrap64 (pending_memtable_writes_ db
                    + Z.of_nat (length (memtable_writers (w :: others))))
       else pending_memtable_writes_ db) /\
  (forall wo b cb ref seq cnt (db' : @DBImpl WriteBatch),
     let res := UnorderedWriteMemtable opts env wo b cb ref seq cnt db' in
     pending_memtable_writes_ (snd (fst res))
     = wrap64 (pending_memtable_writes_ db' - 1) /\
     (In EvSwitchCvNotifyAll (snd res) <->
      pending_memtable_writes_ (snd (fst res)) = 0)).
Proof.
  intros Hst. cbv zeta.
  destruct (WriteImplWALOnly_after_preprocess_result q write_options ao pls dm
              st db w others Hst)
    as (g1 & xs & Hview & _ & _ & _ & _ & _ & Hpend & Huniq & Hex & _).
  cbv zeta in Hview.
  split; [eauto|]. split.
  - intros st' Hin. rewrite (Huniq st' Hin), Hpend.
    destruct (unordered_write opts && ok xs); [|reflexivity].
    destruct (assign_order_loop_spec ao g1
                (last_allocated_sequence_ (versions_ db) + 1) 0)
      as (_ & Hcnt & _).
    change (wrap64 0) with 0 in Hcnt. rewrite Hcnt, Z.add_0_l.
    rewrite wrap64_add_r. f_equal. f_equal. f_equal.
    unfold memtable_writers.
    rewrite (memtable_writers_ordering g1 _ Hview).
    clear. generalize (w :: others). intros l.
    induction l as [|x r IH]; cbn [map filter length]; [reflexivity|].
    assert (Hd : disable_memtable (fst (CheckCallback x)) = disable_memtable x)
      by (unfold CheckCallback; destruct (callback x); reflexivity).
    rewrite Hd. fold (precommit_failed x).
    destruct (negb (precommit_failed x) && negb (disable_memtable x));
      cbn [length]; rewrite IH; reflexivity.
  - intros wo b cb ref seq cnt db'. cbv zeta.
    unfold UnorderedWriteMemtable.
    destruct (CheckCallback _) as [w0 passed].
    assert (Hp : forall d : @DBImpl WriteBatch,
               pending_memtable_writes_
                 (if disableWAL wo then set_has_unpersisted_data_ true d else d)
               = pending_memtable_writes_ d)
      by (intros d; destruct (disableWAL wo); reflexivity).
    destruct (passed && ShouldWriteToMemtable w0); cbn [fst snd];
      cbn [pending_memtable_writes_ set_pending_memtable_writes_];
      rewrite ?Hp; (split; [reflexivity|]);
      unfold WriteStatusCheck;
      destruct (wrap64 (pending_memtable_writes_ db' - 1) =? 0) eqn:E;
      [apply Z.eqb_eq in E | apply Z.eqb_neq in E
      |apply Z.eqb_eq in E | apply Z.eqb_neq in E];
      repeat match goal with
             | |- context [if ?c then _ else _] => destruct c
             end; simpl; split; intros H; try tauto; try contradiction;
      repeat match goal with
             | H : _ \/ _ |- _ => destruct H
             end; try discriminate; try contradiction; auto.
Qed.

End WalOnlyFacts.

Lemma wal_only_sequences_in_group_order_witness :
  wr_seq_inc (WriteImplWALOnly_after_preprocess unordered_options calm
                write_thread_ default_write_options kDoAssignOrder
                kDoPublishLastSeq false OK fresh_db two_batches
                [three_batches])
  = wrap64 (total_batches_used [two_batches; three_batches]) /\
  LastSequence
    (versions_ (wr_db (WriteImplWALOnly_after_preprocess unordered_options
                         calm write_thread_ default_write_options
                         kDoAssignOrder kDoPublishLastSeq false OK fresh_db
                         two_batches [three_batches])))
  = last_allocated_sequence_
      (versions_ (wr_db (WriteImplWALOnly_after_preprocess unordered_options
                           calm write_thread_ default_write_options
                           kDoAssignOrder kDoPublishLastSeq false OK fresh_db
                           two_batches [three_batches]))).
Proof.
  destruct (wal_only_sequences_in_group_order unordered_options calm
              write_thread_ default_write_options kDoAssignOrder
              kDoPublishLastSeq false OK fresh_db two_batches [three_batches]
              eq_refl) as (_ & Hinc & _ & _ & _ & Hpub).
  split; assumption.
Defined.

Lemma pending_memtable_writes_balance_witness :
  pending_memtable_writes_
    (wr_db (WriteImplWALOnly_after_preprocess unordered_options calm
              write_thread_ default_write_options kDoAssignOrder
              kDoPublishLastSeq false OK fresh_db two_batches
              [three_batches]))
  = wrap64 (pending_memtable_writes_ fresh_db
            + Z.of_nat (length (memtable_writers
                                  [two_batches; three_batches]))).
Proof.
  destruct (pending_memtable_writes_balance unordered_options calm
              write_thread_ default_write_options kDoAssignOrder
              kDoPublishLastSeq false OK fresh_db two_batches [three_batches]
              eq_refl) as (_ & Hp & _).
  apply (Hp OK). vm_compute. auto 10.
Defined.

(** ** The throttle of low-priority writes *)

Section LowPriority.
Context {WriteBatch : Type} {WBI : WriteBatchInternal WriteBatch}.
Variable opts : DBOptions.
Variable env : Env.

Lemma WriteImplWALOnly_starts q write_options my_batch cb ref cnt prc ao pls
    dm join (db : @DBImpl WriteBatch) :
  exists tail,
    wr_events (WriteImplWALOnly opts env q write_options my_batch cb ref cnt
                 prc ao pls dm join db)
    = EvJoinBatchGroup q :: tail.
Proof.
  unfold WriteImplWALOnly. cbv zeta.
  destruct join; unfold with_events; simpl; eauto.
Qed.

(** A low-priority write is throttled when compaction needs speeding up,
    unless it is the commit or the rollback of a two-phase transaction.
    With no_slowdown a throttled write fails with Incomplete, and it does
    so before it joins a queue: nothing is written and the database is as
    it was.  Otherwise the write asks the rate limiter once, before it
    joins the queue, and goes on; a write that is not throttled never asks
    the rate limiter first. *)
Theorem low_priority_write_throttled write_options b cb ref dm cnt prc join
    (db : @DBImpl WriteBatch) :
  sync write_options && disableWAL write_options = false ->
  (two_write_queues_ opts || seq_per_batch_ opts || unordered_write opts)
  && enable_pipelined_write opts = false ->
  let r := WriteImpl opts env write_options (Some b) cb ref dm cnt prc join
             db in
  let throttled := low_pri write_options && NeedSpeedupCompaction env
                   && negb (allow_2pc opts
                            && (HasCommit b || HasRollback b)) in
  let traced := if tracer_ opts then [EvTracerWrite] else [] in
  (throttled && no_slowdown write_options = true ->
   wr_outcome r = Done (Incomplete "Low priority write stall") /\
   wr_events r = traced /\ wr_db r = db /\ wr_group r = []) /\
  (throttled && no_slowdown write_options = false ->
   exists first rest,
     wr_events r
     = traced ++ (if throttled then [EvLowPriRequest] else [])
       ++ first :: rest /\
     (first = EvJoinBatchGroup write_thread_ \/
      first = EvJoinBatchGroup nonmem_write_thread_ \/
      first = EvPipelinedWriteImpl)).
Proof.
  intros Hsync Hpipe. cbv zeta. unfold WriteImpl.
  rewrite Hsync.
  assert (Hp1 : two_write_queues_ opts && enable_pipelined_write opts = false)
    by (destruct (two_write_queues_ opts), (enable_pipelined_write opts);
        simpl in *; congruence).
  assert (Hp2 : seq_per_batch_ opts && enable_pipelined_write opts = false)
    by (destruct (two_write_queues_ opts), (seq_per_batch_ opts),
          (enable_pipelined_write opts); simpl in *; congruence).
  assert (Hp3 : unordered_write opts && enable_pipelined_write opts = false)
    by (destruct (two_write_queues_ opts), (seq_per_batch_ opts),
          (unordered_write opts), (enable_pipelined_write opts);
        simpl in *; congruence).
  rewrite Hp1, Hp2, Hp3. cbv zeta.
  unfold ThrottleLowPriWritesIfNeeded.
  set (traced := if tracer_ opts then [EvTracerWrite] else []).
  assert (Hgo : forall lp,
    exists first rest,
      wr_events
        (if two_write_queues_ opts && dm then
           with_events (traced ++ lp)
             (WriteImplWALOnly opts env nonmem_write_thread_ write_options b
                cb ref cnt prc
                (if seq_per_batch_ opts then kDoAssignOrder
                 else kDontAssignOrder)
                kDontPublishLastSeq dm join db)
         else if unordered_write opts then
           let sub_batch_cnt := if negb (cnt =? 0) then cnt else Count b in
           let r := WriteImplWALOnly opts env write_thread_ write_options b
                      cb ref sub_batch_cnt prc kDoAssignOrder
                      kDoPublishLastSeq dm join db in
           match wr_outcome r with
           | Blocked => with_events (traced ++ lp) r
           | Done st =>
               if negb (ok st) then
                 with_events (traced ++ lp)
                   (mkWriteResult (Done st) (wr_db r) (wr_group r)
                      (wr_log_used r) None (wr_events r) (wr_io_s r)
                      (wr_seq_inc r) (wr_current_sequence r))
               else
                 let seq :=
                   match wr_seq_used r with Some x => x | None => 0 end in
                 if negb dm then
                   let '(st, db1, ev) :=
                     UnorderedWriteMemtable opts env write_options b cb ref
                       seq sub_batch_cnt (wr_db r) in
                   mkWriteResult (Done st) db1 (wr_group r) (wr_log_used r)
                     (Some seq) (traced ++ lp ++ wr_events r ++ ev)
                     (wr_io_s r) (wr_seq_inc r) (wr_current_sequence r)
                 else
                   with_events (traced ++ lp)
                     (mkWriteResult (Done st) (wr_db r) (wr_group r)
                        (wr_log_used r) (Some seq) (wr_events r) (wr_io_s r)
                        (wr_seq_inc r) (wr_current_sequence r))
           end
         else if enable_pipelined_write opts then
           mkWriteResult (Done (PipelinedWriteImpl env)) db [] None None
             (traced ++ lp ++ [EvPipelinedWriteImpl]) None 0 0
         else
           let w := new_Writer write_options b cb ref dm cnt prc in
           let ev_join := traced ++ lp ++ [EvJoinBatchGroup write_thread_] in
           match join with
           | STATE_PARALLEL_MEMTABLE_WRITER w1 group_last_sequence =>
               let '(w2, ev_mem) :=
                 if ShouldWriteToMemtable w1
                 then (set_status (InsertInto env) w1,
                       [EvInsertInto (sequence w1)])
                 else (w1, []) in
               let '(db1, ev_exit) :=
                 if CompleteParallelMemTableWriter env then
                   (set_versions_
                      (SetLastSequence group_last_sequence (versions_ db)) db,
                    MemTableInsertStatusCheck (status w2)
                    ++ [EvExitAsBatchGroupFollower])
                 else (db, []) in
               mkWriteResult (Done (FinalStatus w2)) db1 [w2]
                 (Some (log_used w2)) (Some (sequence w2))
                 (ev_join ++ ev_mem ++ ev_exit) None 0 0
           | STATE_COMPLETED w1 =>
               mkWriteResult (Done (FinalStatus w1)) db [w1]
                 (Some (log_used w1)) (Some (sequence w1)) ev_join None 0 0
           | STATE_GROUP_LEADER others =>
               with_events ev_join
                 (WriteImpl_leader opts env write_options dm db w others)
           end)
      = traced ++ lp ++ first :: rest /\
      (first = EvJoinBatchGroup write_thread_ \/
       first = EvJoinBatchGroup nonmem_write_thread_ \/
       first = EvPipelinedWriteImpl)).
  { intros lp.
    destruct (two_write_queues_ opts && dm).
    { match goal with |- context [WriteImplWALOnly ?a ?b ?c ?d ?e ?f ?g ?h ?i ?j ?k ?l ?m ?n] =>
        destruct (WriteImplWALOnly_starts c d e f g h i j k l m n) as [t Ht] end.
      unfold with_events. cbn [wr_events]. rewrite Ht.
      eexists; eexists; split;
        [rewrite <- app_assoc; reflexivity|auto]. }
    destruct (unordered_write opts).
    { cbv zeta.
      match goal with |- context [WriteImplWALOnly ?a ?b ?c ?d ?e ?f ?g ?h ?i ?j ?k ?l ?m ?n] =>
        destruct (WriteImplWALOnly_starts c d e f g h i j k l m n) as [t Ht];
        generalize dependent (WriteImplWALOnly a b c d e f g h i j k l m n) end.
      intros r Ht.
      destruct (wr_outcome r) as [st|].
      2: { unfold with_events. cbn [wr_events]. rewrite Ht.
           eexists; eexists; split;
             [rewrite <- app_assoc; reflexivity|auto]. }
      destruct (negb (ok st)).
      { unfold with_events. cbn [wr_events]. rewrite Ht.
        eexists; eexists; split;
          [rewrite <- app_assoc; reflexivity|auto]. }
      destruct (negb dm).
      { destruct (UnorderedWriteMemtable _ _ _ _ _ _ _ _ _) as [[st1 db1] ev].
        cbn [wr_events]. rewrite Ht.
        eexists; eexists; split; [reflexivity|auto]. }
      unfold with_events. cbn [wr_events]. rewrite Ht.
      eexists; eexists; split;
        [rewrite <- app_assoc; reflexivity|auto]. }
    destruct (enable_pipelined_write opts).
    { cbn [wr_events]. eexists; eexists; split; [reflexivity|auto]. }
    cbv zeta.
    destruct join as [others|w1 gls|w1].
    - unfold with_events. cbn [wr_events].
      eexists; eexists; split;
        [rewrite <- !app_assoc; reflexivity|auto].
    - destruct (if ShouldWriteToMemtable w1 then _ else _) as [w2 ev_mem].
      destruct (if CompleteParallelMemTableWriter env then _ else _)
        as [db1 ev_exit].
      cbn [wr_events].
      eexists; eexists; split;
        [rewrite <- !app_assoc; reflexivity|auto].
    - cbn [wr_events]. eexists; eexists; split; [reflexivity|auto]. }
  destruct (low_pri write_options); cbn [andb].
  2: { split; [discriminate|]. intros _. cbn [negb ok code].
       apply (Hgo []). }
  destruct (NeedSpeedupCompaction env); cbn [andb].
  2: { split; [discriminate|]. intros _. cbn [negb ok code].
       apply (Hgo []). }
  destruct (allow_2pc opts && (HasCommit b || HasRollback b)); cbn [negb].
  { split; [discriminate|]. intros _. cbn [negb ok code].
    apply (Hgo []). }
  destruct (no_slowdown write_options).
  - split; [|discriminate]. intros _.
    cbn. rewrite app_nil_r. repeat split.
  - split; [discriminate|]. intros _. cbn [negb ok code].
    apply (Hgo [EvLowPriRequest]).
Qed.

End LowPriority.

(** A hurried low-priority write while compaction is behind. *)
Lemma low_priority_write_throttled_witness :
  wr_outcome (WriteImpl default_options compaction_behind
                hurried_low_pri_write_options (Some (put "k" "v")) None 0
                false 0 None (STATE_GROUP_LEADER []) fresh_db)
  = Done (Incomplete "Low priority write stall").
Proof.
  exact (proj1 (proj1 (low_priority_write_throttled default_options
                         compaction_behind hurried_low_pri_write_options
                         (put "k" "v") None 0 false 0 None
                         (STATE_GROUP_LEADER []) fresh_db eq_refl eq_refl)
                  eq_refl)).
Defined.

(** ** The choice of the column family to flush *)

Section ColumnFamilyChoice.
Import MemtableSwitch.

Lemma pick_oldest_spec : forall cfs i0 acc,
  (forall k s, acc = Some (k, s) -> (k < i0)%nat) ->
  match pick_oldest i0 cfs acc with
  | None => acc = None /\ forall cf, In cf cfs -> flushable cf = false
  | Some (i, seq) =>
      (forall j cf', nth_error cfs j = Some cf' -> flushable cf' = true ->
         seq <= GetCreationSeq (mem cf') /\
         ((i0 + j < i)%nat -> seq < GetCreationSeq (mem cf'))) /\
      (acc = Some (i, seq) \/
       ((exists j cf, i = (i0 + j)%nat /\ nth_error cfs j = Some cf /\
                      flushable cf = true /\ seq = GetCreationSeq (mem cf)) /\
        forall k s, acc = Some (k, s) -> seq < s))
  end.
Proof.
  induction cfs as [|cfd r IH]; intros i0 acc Hacc; simpl.
  - destruct acc as [[i seq]|].
    + split; [|left; reflexivity].
      intros j cf' Hj. destruct j; discriminate.
    + split; [reflexivity|]. intros cf [].
  - assert (Hskip :
      flushable cfd = false ->
      match pick_oldest (S i0) r acc with
      | None => acc = None /\
                forall cf, cfd = cf \/ In cf r -> flushable cf = false
      | Some (i, seq) =>
          (forall j cf', nth_error (cfd :: r) j = Some cf' ->
             flushable cf' = true ->
             seq <= GetCreationSeq (mem cf') /\
             ((i0 + j < i)%nat -> seq < GetCreationSeq (mem cf'))) /\
          (acc = Some (i, seq) \/
           ((exists j cf, i = (i0 + j)%nat /\
                          nth_error (cfd :: r) j = Some cf /\
                          flushable cf = true /\
                          seq = GetCreationSeq (mem cf)) /\
            forall k s, acc = Some (k, s) -> seq < s))
      end).
    { intros Hf. specialize (IH (S i0) acc).
      assert (Hacc' : forall k s, acc = Some (k, s) -> (k < S i0)%nat)
        by (intros k s E; specialize (Hacc k s E); lia).
      specialize (IH Hacc').
      destruct (pick_oldest (S i0) r acc) as [[i seq]|].
      - destruct IH as [Hall Hor]. split.
        + intros j cf' Hj Hfl. destruct j as [|j]; simpl in Hj.
          * injection Hj as <-. congruence.
          * destruct (Hall j cf' Hj Hfl) as [H1 H2]. split; [exact H1|].
            intros Hlt. apply H2. lia.
        + destruct Hor as [Hor|[[j [cf [Hi [Hj [Hfl Hs]]]]] Hlt]];
            [left; exact Hor|right]. split; [|exact Hlt].
          exists (S j), cf. repeat split; try assumption. lia.
      - destruct IH as [Hn Hall]. split; [exact Hn|].
        intros cf [<-|Hin]; [exact Hf|apply Hall; exact Hin]. }
    unfold flushable in Hskip at 1.
    destruct (IsDropped cfd) eqn:Hd; [apply Hskip; reflexivity|].
    destruct (IsEmpty (mem cfd)) eqn:He; simpl; [apply Hskip; reflexivity|].
    clear Hskip.
    assert (Hfl : flushable cfd = true)
      by (unfold flushable; rewrite Hd, He; reflexivity).
    assert (Htake : forall lim : option Z,
      (forall k s, acc = Some (k, s) -> lim = Some s) ->
      (acc = None -> lim = None) ->
      (forall s, lim = Some s -> GetCreationSeq (mem cfd) < s) ->
      match pick_oldest (S i0) r (Some (i0, GetCreationSeq (mem cfd))) with
      | None => acc = None /\
                forall cf, cfd = cf \/ In cf r -> flushable cf = false
      | Some (i, seq) =>
          (forall j cf', nth_error (cfd :: r) j = Some cf' ->
             flushable cf' = true ->
             seq <= GetCreationSeq (mem cf') /\
             ((i0 + j < i)%nat -> seq < GetCreationSeq (mem cf'))) /\
          (acc = Some (i, seq) \/
           ((exists j cf, i = (i0 + j)%nat /\
                          nth_error (cfd :: r) j = Some cf /\
                          flushable cf = true /\
                          seq = GetCreationSeq (mem cf)) /\
            forall k s, acc = Some (k, s) -> seq < s))
      end).
    { intros lim Hl1 Hl2 Hl3.
      specialize (IH (S i0) (Some (i0, GetCreationSeq (mem cfd)))).
      assert (Hacc' : forall k s,
                 Some (i0, GetCreationSeq (mem cfd)) = Some (k, s) ->
                 (k < S i0)%nat)
        by (intros k s E; injection E as <- <-; lia).
      specialize (IH Hacc').
      destruct (pick_oldest (S i0) r (Some (i0, GetCreationSeq (mem cfd))))
        as [[i seq]|]; [|destruct IH; discriminate].
      destruct IH as [Hall Hor].
      assert (Hle : seq <= GetCreationSeq (mem cfd) /\
                    ((i0 < i)%nat -> seq < GetCreationSeq (mem cfd))).
      { destruct Hor as [Hor|[_ Hlt]].
        - injection Hor as <- <-. split; lia.
        - specialize (Hlt _ _ eq_refl). lia. }
      split.
      - intros j cf' Hj Hfl'. destruct j as [|j]; simpl in Hj.
        + injection Hj as <-. split; [apply Hle|].
          intros Hlt. apply Hle. lia.
        + destruct (Hall j cf' Hj Hfl') as [H1 H2]. split; [exact H1|].
          intros Hlt. apply H2. lia.
      - right. split.
        + destruct Hor as [Hor|[[j [cf [Hi [Hj [Hfl' Hs]]]]] _]].
          * injection Hor as <- <-. exists 0%nat, cfd.
            repeat split; try assumption; try reflexivity. lia.
          * exists (S j), cf. repeat split; try assumption. lia.
        + intros k s E. specialize (Hl1 k s E). specialize (Hl3 s Hl1). lia. }
    destruct acc as [[k s]|].
    + destruct (GetCreationSeq (mem cfd) <? s) eqn:Hlt.
      * apply (Htake (Some s)).
        -- intros k' s' E. injection E as _ <-. reflexivity.
        -- discriminate.
        -- intros s' E. injection E as <-. apply Z.ltb_lt. exact Hlt.
      * apply Z.ltb_ge in Hlt.
        specialize (IH (S i0) (Some (k, s))).
        assert (Hacc' : forall k' s', Some (k, s) = Some (k', s') ->
                                      (k' < S i0)%nat)
          by (intros k' s' E; specialize (Hacc k' s' E); lia).
        specialize (IH Hacc').
        destruct (pick_oldest (S i0) r (Some (k, s))) as [[i seq]|];
          [|destruct IH; discriminate].
        destruct IH as [Hall Hor].
        assert (Hks : (k < i0)%nat) by (apply (Hacc k s); reflexivity).
        split.
        -- intros j cf' Hj Hfl'. destruct j as [|j]; simpl in Hj.
           ++ injection Hj as <-.
              destruct Hor as [Hor|[[j [cf [Hi _]]] Hl]].
              ** injection Hor as <- <-. split; [lia|]. intros; lia.
              ** specialize (Hl _ _ eq_refl). split; [lia|]. intros; lia.
           ++ destruct (Hall j cf' Hj Hfl') as [H1 H2]. split; [exact H1|].
              intros Hl. apply H2. lia.
        -- destruct Hor as [Hor|[[j [cf [Hi [Hj [Hfl' Hs]]]]] Hl]];
             [left; exact Hor|right]. split; [|exact Hl].
           exists (S j), cf. repeat split; try assumption. lia.
    + apply (Htake None).
      * discriminate.
      * reflexivity.
      * discriminate.
Qed.

Lemma pick_oldest_oldest cfs :
  match pick_oldest 0 cfs None with
  | None => forall cf, In cf cfs -> flushable cf = false
  | Some (i, seq) => oldest_flushable cfs i
  end.
Proof.
  pose proof (pick_oldest_spec cfs 0 None) as H.
  assert (H0 : forall (k : nat) (s : Z), None = Some (k, s) -> (k < 0)%nat)
    by discriminate.
  specialize (H H0).
  destruct (pick_oldest 0 cfs None) as [[i seq]|].
  - destruct H as [Hall [Hor|[[j [cf [Hi [Hj [Hfl Hs]]]]] _]]];
      [discriminate|].
    simpl in Hi. subst i seq. exists cf. repeat split; try assumption.
    + apply (Hall j0 cf'); assumption.
    + apply (Hall j0 cf'); assumption.
  - apply H.
Qed.

End ColumnFamilyChoice.

Section SwitchCases.
Import MemtableSwitch.
Context {WriteBatch : Type} {WBI : WriteBatchInternal WriteBatch}.
Variable opts : DBOptions.
Variable sopts : SwitchOptions.
Variable out : Outside (WriteBatch := WriteBatch).

Lemma map_from_length {A} (f : nat -> A -> A) (l : list A) : forall i,
  length (map_from i f l) = length l.
Proof. induction l; intros i; simpl; [reflexivity|f_equal; apply IHl]. Qed.

Lemma map_from_nth {A} (f : nat -> A -> A) (l : list A) : forall i n,
  nth_error (map_from i f l) n = option_map (f (i + n)%nat) (nth_error l n).
Proof.
  induction l as [|x r IH]; intros i n; simpl.
  - destruct n; reflexivity.
  - destruct n as [|n]; simpl.
    + rewrite Nat.add_0_r. reflexivity.
    + rewrite IH. do 2 f_equal. lia.
Qed.

(** What WriteRecoverableState leaves alone. *)
Lemma WriteRecoverableState_frame s st s' ev :
  WriteRecoverableState opts out s = (st, s', ev) ->
  logfile_number_ (db s') = logfile_number_ (db s) /\
  total_log_size_ (db s') = total_log_size_ (db s) /\
  log_empty_ (db s') = log_empty_ (db s) /\
  log_dir_synced_ (db s') = log_dir_synced_ (db s) /\
  logs_ (db s') = logs_ (db s) /\
  alive_log_files_ (db s') = alive_log_files_ (db s) /\
  log_recycle_files_ s' = log_recycle_files_ s /\
  next_file_number_ s' = next_file_number_ s /\
  unable_to_release_oldest_log_ s' = unable_to_release_oldest_log_ s /\
  length (column_families s') = length (column_families s) /\
  (forall i cf', nth_error (column_families s') i = Some cf' ->
     exists cf, nth_error (column_families s) i = Some cf /\
                GetName cf' = GetName cf /\ IsDropped cf' = IsDropped cf /\
                imm cf' = imm cf /\ GetLogNumber cf' = GetLogNumber cf /\
                OldestLogToKeep cf' = OldestLogToKeep cf /\
                write_buffer_size cf' = write_buffer_size cf) /\
  (cached_recoverable_state_empty_ (db s) = true ->
   st = OK /\ s' = s /\ ev = []).
Proof.
  unfold WriteRecoverableState.
  destruct (cached_recoverable_state_empty_ (db s)) eqn:Hc; cbn [negb].
  - intros H. injection H as <- <- <-.
    repeat split; try reflexivity.
    intros i cf' Hi. exists cf'. repeat split; try reflexivity. exact Hi.
  - destruct (if two_write_queues_ opts then _ else _) as [seq v1].
    destruct (RecoverableInsertInto out _) as [[status next_seq] touch].
    destruct (match recoverable_state_pre_release_callback_ out with
              | Some _ => _ | None => _ end) as [status1 ev_cb].
    intros H. injection H as <- <- <-.
    destruct (ok status1); cbn; repeat split; try reflexivity;
      try apply map_from_length; try discriminate.
    all: intros i cf' Hi; rewrite map_from_nth in Hi;
      destruct (nth_error (column_families s) i) as [cf|]; [|discriminate];
      simpl in Hi; injection Hi as <-; exists cf; repeat split; reflexivity.
Qed.

Lemma SwitchMemtable_shape cfd s st s' ev :
  SwitchMemtable opts sopts out cfd s = Some (st, s', ev) ->
  exists st0 s0 ev0,
    WriteRecoverableState opts out s = (st0, s0, ev0) /\
    ((ok st0 = false /\ st = st0 /\ s' = s0 /\ ev = ev0) \/
     (ok st0 = true /\
      exists cf, nth_error (column_families s0) cfd = Some cf /\
      let creating := negb (log_empty_ (db s0)) in
      let recycled :=
        if creating && negb (recycle_log_file_num sopts =? 0)
        then match log_recycle_files_ s0 with
             | front :: _ => front
             | [] => 0
             end
        else 0 in
      let n := if creating then next_file_number_ s0
               else logfile_number_ (db s0) in
      let pre := GetWalPreallocateBlockSize opts (buffer_options sopts)
                   (write_buffer_size cf) in
      let io := CreateWAL out n recycled pre in
      let cur := last_error (logs_ (db s0)) in
      let info :=
        mkMemTableInfo (GetName cf) (GetFirstSequenceNumber (mem cf))
          (GetEarliestSequenceNumber (mem cf)) (mem_num_entries (mem cf))
          (mem_num_deletes (mem cf)) in
      let failure :=
        if creating then
          if ok io then
            match cur with
            | Some w => if ok (WriteBuffer out (number w)) then None
                        else Some (WriteBuffer out (number w))
            | None => None
            end
          else Some io
        else None in
      log_recycle_files_ s'
      = (if negb (recycled =? 0) then tl (log_recycle_files_ s0)
         else log_recycle_files_ s0) /\
      next_file_number_ s'
      = (if creating then wrap64 (next_file_number_ s0 + 1)
         else next_file_number_ s0) /\
      unable_to_release_oldest_log_ s' = unable_to_release_oldest_log_ s0 /\
      ev = ev0 ++ [SwMutexUnlock]
           ++ (if creating then [SwCreateWAL n recycled pre io] else [])
           ++ (if creating && negb (ok io) then [] else [SwNewSuperVersion])
           ++ [SwMutexLock]
           ++ (if creating && ok io
               then match cur with
                    | Some w => [SwWriteBuffer (number w)
                                   (WriteBuffer out (number w))]
                    | None => []
                    end
               else [])
           ++ match failure with
              | Some bg => [SwSetBGError bg kMemTable]
              | None =>
                  [SwInstallSuperVersionAndScheduleWork cfd; SwMutexUnlock]
                  ++ NotifyOnMemTableSealed sopts out info ++ [SwMutexLock]
              end /\
      match failure with
      | Some bg =>
          ok bg = false /\ st = GetBGError_after_SetBGError out bg /\
          db s' = db s0 /\ column_families s' = column_families s0
      | None =>
          ok st = true /\
          db s'
          = (if creating then
               let d := db s0 in
               mkDB (versions_ d) n (total_log_size_ d) true false
                 (logs_ d ++ [mkLogWriterNumber n false])
                 (alive_log_files_ d ++ [mkLogFileNumberSize n 0 false])
                 (tmp_batch_ d) (cached_recoverable_state_ d)
                 (cached_recoverable_state_empty_ d)
                 (has_unpersisted_data_ d) (pending_memtable_writes_ d)
                 (last_batch_group_size_ d) (max_total_in_memory_state_ d)
             else db s0) /\
          column_families s'
          = update_nth cfd
              (fun c =>
                 seal (ConstructNewMemtable out cfd
                         (LastSequence (versions_ (db s0))))
                   (set_mem (SetNextLogNumber n (mem c)) c))
              (map (advance_empty creating n
                      (LastSequence (versions_ (db s0))))
                 (column_families s0))
      end)).
Proof.
  unfold SwitchMemtable.
  destruct (WriteRecoverableState opts out s) as [[st0 s0] ev0] eqn:Ers.
  intros H. exists st0, s0, ev0. split; [reflexivity|].
  destruct (ok st0) eqn:Hok0; cbn [negb] in H.
  2: { left. injection H as H1 H2 H3; subst st s' ev. repeat split. }
  right. split; [reflexivity|].
  destruct (nth_error (column_families s0) cfd) as [cf|] eqn:Hcf;
    [|discriminate H].
  exists cf. split; [reflexivity|].
  destruct (log_empty_ (db s0)) eqn:Hle; cbn [negb andb] in H |- *.
  - rewrite Hok0 in H. cbn in H. rewrite ?Hok0 in H.
    injection H as H1 H2 H3; subst st s' ev. cbn. rewrite Hok0.
    repeat split; try reflexivity.
    rewrite <- !app_assoc. reflexivity.
  - cbn [NewFileNumber] in H.
    set (recycled := if negb (recycle_log_file_num sopts =? 0)
                     then match log_recycle_files_ s0 with
                          | front :: _ => front
                          | [] => 0
                          end
                     else 0) in *.
    set (pre := GetWalPreallocateBlockSize opts (buffer_options sopts)
                  (write_buffer_size cf)) in *.
    destruct (ok (CreateWAL out (next_file_number_ s0) recycled pre))
      eqn:Hio; cbn [andb negb] in H |- *.
    + destruct (negb (recycled =? 0)) eqn:Hrec;
        cbn [db logs_ column_families log_recycle_files_ next_file_number_
             unable_to_release_oldest_log_] in H;
        (destruct (last_error (logs_ (db s0))) as [w|] eqn:Hw;
         [destruct (ok (WriteBuffer out (number w))) eqn:Hwb|]);
        repeat (first [rewrite Hio in H | rewrite Hwb in H];
                cbn [negb] in H; cbv iota beta in H);
        injection H as H1 H2 H3; subst st s' ev; cbn;
        rewrite ?Hio, ?Hwb; repeat split; try reflexivity;
        rewrite <- !app_assoc; reflexivity.
    + rewrite Hio in H. cbn [negb] in H.
      destruct (negb (recycled =? 0)) eqn:Hrec;
        injection H as H1 H2 H3; subst st s' ev; cbn; repeat split;
        try reflexivity; try exact Hio; rewrite <- !app_assoc; reflexivity.
Qed.

Lemma mutex_after_app ev1 : forall held ev2,
  mutex_after held (ev1 ++ ev2)
  = match mutex_after held ev1 with
    | Some h => mutex_after h ev2
    | None => None
    end.
Proof.
  induction ev1 as [|e r IH]; intros held ev2; [reflexivity|].
  destruct e; simpl; destruct held; simpl; try reflexivity; apply IH.
Qed.

Lemma recoverable_callbacks_mutex cb : forall count sub status st ev,
  recoverable_callbacks cb count sub status = (st, ev) ->
  mutex_after true ev = Some true.
Proof.
  induction count as [|k IH]; intros sub status st ev; simpl.
  - intros H. injection H as <- <-. reflexivity.
  - destruct (ok status).
    + destruct (recoverable_callbacks cb k (sub + 1) (cb sub))
        as [st' ev'] eqn:E.
      intros H. injection H as <- <-. simpl. eapply IH. exact E.
    + intros H. injection H as <- <-. reflexivity.
Qed.

Lemma WriteRecoverableState_mutex s st s' ev :
  WriteRecoverableState opts out s = (st, s', ev) ->
  mutex_after true ev = Some true.
Proof.
  unfold WriteRecoverableState.
  destruct (cached_recoverable_state_empty_ (db s)); cbn [negb].
  - intros H. injection H as <- <- <-. reflexivity.
  - destruct (if two_write_queues_ opts then _ else _) as [seq v1].
    destruct (RecoverableInsertInto out _) as [[status next_seq] touch].
    destruct (match recoverable_state_pre_release_callback_ out with
              | Some _ => _ | None => _ end) as [status1 ev_cb] eqn:E.
    intros H. injection H as <- <- <-. simpl.
    destruct (recoverable_state_pre_release_callback_ out) as [cb|].
    + destruct (ok status).
      * eapply recoverable_callbacks_mutex. exact E.
      * injection E as <- <-. reflexivity.
    + injection E as <- <-. reflexivity.
Qed.

Lemma NotifyOnMemTableSealed_mutex info :
  mutex_after false (NotifyOnMemTableSealed sopts out info) = Some false.
Proof.
  unfold NotifyOnMemTableSealed.
  destruct (Nat.eqb (listeners sopts) 0); [reflexivity|].
  destruct (shutting_down_ out); [reflexivity|].
  generalize (seq 0 (listeners sopts)).
  induction l as [|x r IH]; [reflexivity|exact IH].
Qed.

Lemma SwitchMemtable_mutex cfd s st s' ev :
  SwitchMemtable opts sopts out cfd s = Some (st, s', ev) ->
  mutex_after true ev = Some true.
Proof.
  intros H. apply SwitchMemtable_shape in H.
  destruct H as [st0 [s0 [ev0 [Ers [[_ [_ [_ ->]]]|[_ [cf [_ H]]]]]]]].
  - eapply WriteRecoverableState_mutex. exact Ers.
  - cbv zeta in H. destruct H as [_ [_ [_ [-> _]]]].
    rewrite mutex_after_app.
    rewrite (WriteRecoverableState_mutex _ _ _ _ Ers).
    destruct (negb (log_empty_ (db s0))); cbn [andb].
    + match goal with |- context [ok (CreateWAL ?a ?b ?c ?d)] =>
        destruct (ok (CreateWAL a b c d)) end; cbn [negb app].
      * destruct (last_error (logs_ (db s0))) as [w|].
        -- destruct (ok (WriteBuffer out (number w))); cbn.
           ++ rewrite mutex_after_app, NotifyOnMemTableSealed_mutex.
              reflexivity.
           ++ reflexivity.
        -- cbn. rewrite mutex_after_app, NotifyOnMemTableSealed_mutex.
           reflexivity.
      * reflexivity.
    + cbn. rewrite mutex_after_app, NotifyOnMemTableSealed_mutex.
      reflexivity.
Qed.

Lemma switch_each_mutex skip : forall cfds s st s' ev,
  switch_each opts sopts out skip cfds s = Some (st, s', ev) ->
  mutex_after true ev = Some true.
Proof.
  induction cfds as [|cfd rest IH]; intros s st s' ev; simpl.
  - intros H. injection H as <- <- <-. reflexivity.
  - destruct (nth_error (column_families s) cfd) as [cf|]; [|discriminate].
    destruct (skip && IsEmpty (mem cf)); [apply IH|].
    destruct (SwitchMemtable opts sopts out cfd s) as [[[st1 s1] ev1]|] eqn:E;
      [|discriminate].
    destruct (negb (ok st1)).
    + intros H. injection H as <- <- <-.
      eapply SwitchMemtable_mutex. exact E.
    + destruct (switch_each opts sopts out skip rest s1)
        as [[[st2 s2] ev2]|] eqn:E2; [|discriminate].
      intros H. injection H as <- <- <-.
      rewrite mutex_after_app, (SwitchMemtable_mutex _ _ _ _ _ E).
      eapply IH. exact E2.
Qed.

Lemma mutex_after_held (l : list SwitchEvent) :
  Forall (fun e => under_mutex e = true /\ e <> SwMutexLock
                   /\ e <> SwMutexUnlock) l ->
  mutex_after true l = Some true.
Proof.
  induction 1 as [|e r [He [H1 H2]] _ IH]; [reflexivity|].
  destruct e; try discriminate; try congruence; simpl; exact IH.
Qed.

Lemma switch_and_schedule_mutex skip reason cfds s st s' ev :
  switch_and_schedule opts sopts out skip reason cfds s = Some (st, s', ev) ->
  mutex_after true ev = Some true.
Proof.
  unfold switch_and_schedule.
  destruct (switch_each opts sopts out skip cfds s) as [[[st1 s1] ev1]|] eqn:E;
    [|discriminate].
  intros H. injection H as <- <- <-.
  assert (H1 : mutex_after true
                 (if two_write_queues_ opts then [SwEnterUnbatched] else [])
               = Some true) by (destruct (two_write_queues_ opts); reflexivity).
  assert (H2 : mutex_after true
                 (if two_write_queues_ opts then [SwExitUnbatched] else [])
               = Some true) by (destruct (two_write_queues_ opts); reflexivity).
  assert (H3 : mutex_after true
                 (if atomic_flush sopts then AssignAtomicFlushSeq cfds s1
                  else []) = Some true).
  { destruct (atomic_flush sopts); [|reflexivity].
    unfold AssignAtomicFlushSeq. apply mutex_after_held.
    apply Forall_forall. intros e He. apply in_map_iff in He.
    destruct He as [x [<- _]]. repeat split; discriminate. }
  assert (H4 : mutex_after true (map SwFlushRequested cfds) = Some true).
  { apply mutex_after_held. apply Forall_forall. intros e He.
    apply in_map_iff in He. destruct He as [x [<- _]].
    repeat split; discriminate. }
  rewrite mutex_after_app, H1.
  rewrite mutex_after_app, (switch_each_mutex _ _ _ _ _ _ E).
  rewrite mutex_after_app, H2.
  destruct (ok st1); [|reflexivity].
  rewrite mutex_after_app, H3.
  rewrite mutex_after_app, H4. reflexivity.
Qed.

(** The switch keeps to the mutex.  SwitchMemtable, SwitchWAL and
    HandleWriteBufferFull are entered with the mutex held and return with
    it held; they never lock it while it is held nor unlock it while it
    is released; the log is created, the new memtable and super-version
    are built, and the callback of the recoverable state and the
    listeners are called only while it is released; the buffer of the old
    log is flushed, the background error is set, the memtable is
    installed and the flushes are scheduled only while it is held. *)
Theorem switch_keeps_to_the_mutex s :
  (forall cfd r, SwitchMemtable opts sopts out cfd s = Some r ->
                 mutex_after true (snd r) = Some true) /\
  (forall r, SwitchWAL opts sopts out s = Some r ->
             mutex_after true (snd r) = Some true) /\
  (forall r, HandleWriteBufferFull opts sopts out s = Some r ->
             mutex_after true (snd r) = Some true).
Proof.
  split; [|split].
  - intros cfd [[st s'] ev] H. eapply SwitchMemtable_mutex. exact H.
  - intros [[st s'] ev]. unfold SwitchWAL.
    destruct (alive_log_files_ (db s)) as [|front others]; [discriminate|].
    destruct (getting_flushed front).
    { intros H. injection H as <- <- <-. reflexivity. }
    match goal with |- context [if ?c && unable_to_release_oldest_log_ s
                                then _ else _] =>
      destruct (c && unable_to_release_oldest_log_ s) end.
    { intros H. injection H as <- <- <-. reflexivity. }
    match goal with |- context [match ?c with Some _ => _ | None => None end
                                = _] =>
      destruct c as [cfds|] end; [|discriminate].
    intros H. eapply switch_and_schedule_mutex. exact H.
  - intros [[st s'] ev]. unfold HandleWriteBufferFull.
    match goal with |- context [match ?c with Some _ => _ | None => None end
                                = _] =>
      destruct c as [cfds|] end; [|discriminate].
    intros H. eapply switch_and_schedule_mutex. exact H.
Qed.

Lemma last_error_app {A} (l : list A) (x : A) :
  last_error (l ++ [x]) = Some x.
Proof.
  induction l as [|y r IH]; [reflexivity|].
  simpl. destruct (r ++ [x]) eqn:E; [destruct r; discriminate|exact IH].
Qed.

Lemma recoverable_callbacks_events cb : forall count sub status st ev e,
  recoverable_callbacks cb count sub status = (st, ev) -> In e ev ->
  e = SwMutexLock \/ e = SwMutexUnlock \/
  exists q r, e = SwRecoverableCallback q r.
Proof.
  induction count as [|k IH]; intros sub status st ev e; simpl.
  - intros H. injection H as <- <-. intros [].
  - destruct (ok status).
    + destruct (recoverable_callbacks cb k (sub + 1) (cb sub))
        as [st' ev'] eqn:E.
      intros H. injection H as <- <-.
      intros [<-|[<-|[<-|Hin]]]; eauto.
    + intros H. injection H as <- <-. intros [].
Qed.

Lemma WriteRecoverableState_events s st s' ev e :
  WriteRecoverableState opts out s = (st, s', ev) -> In e ev ->
  e = SwMutexLock \/ e = SwMutexUnlock \/
  (exists q r, e = SwRecoverableCallback q r) \/
  (exists q r, e = SwRecoverableInsertInto q r).
Proof.
  unfold WriteRecoverableState.
  destruct (cached_recoverable_state_empty_ (db s)); cbn [negb].
  - intros H. injection H as <- <- <-. intros [].
  - destruct (if two_write_queues_ opts then _ else _) as [seq v1].
    destruct (RecoverableInsertInto out _) as [[status next_seq] touch].
    destruct (match recoverable_state_pre_release_callback_ out with
              | Some _ => _ | None => _ end) as [status1 ev_cb] eqn:E.
    intros H. injection H as <- <- <-.
    intros [<-|Hin]; [right; right; right; eauto|].
    destruct (recoverable_state_pre_release_callback_ out) as [cb|].
    + destruct (ok status).
      * destruct (recoverable_callbacks_events _ _ _ _ _ _ _ E Hin)
          as [->|[->|H]]; auto.
      * injection E as <- <-. destruct Hin.
    + injection E as <- <-. destruct Hin.
Qed.

Lemma NotifyOnMemTableSealed_events info e :
  In e (NotifyOnMemTableSealed sopts out info) ->
  exists l, e = SwOnMemTableSealed l info.
Proof.
  unfold NotifyOnMemTableSealed.
  destruct (Nat.eqb (listeners sopts) 0); [intros []|].
  destruct (shutting_down_ out); [intros []|].
  intros H. apply in_map_iff in H. destruct H as [l [<- _]]. eauto.
Qed.

Lemma update_nth_nth {A} (f : A -> A) (l : list A) : forall n i,
  nth_error (update_nth n f l) i
  = if Nat.eqb i n then option_map f (nth_error l i) else nth_error l i.
Proof.
  induction l as [|x r IH]; intros n i.
  - destruct n, i; simpl; try reflexivity;
      destruct (Nat.eqb _ _); reflexivity.
  - destruct n as [|n], i as [|i]; simpl; try reflexivity. apply IH.
Qed.

Lemma advance_empty_keeps creating n last c :
  imm (advance_empty creating n last c) = imm c /\
  IsEmpty (mem (advance_empty creating n last c)) = IsEmpty (mem c) /\
  GetFirstSequenceNumber (mem (advance_empty creating n last c))
  = GetFirstSequenceNumber (mem c) /\
  IsDropped (advance_empty creating n last c) = IsDropped c.
Proof.
  unfold advance_empty.
  destruct ((GetFirstSequenceNumber (mem c) =? 0) && (NumNotFlushed c =? 0));
    [destruct creating|]; cbn; repeat split.
Qed.

(** A switch of memtables is all or nothing.  Either the memtable of the
    column family is sealed with the number of the current log and moved
    in front of the immutable ones, a new memtable is installed, and,
    when the log held something, one new log with a fresh number becomes
    the current log, the last of [logs_] and of [alive_log_files_]; or
    the logs and the column families are as the write of the recoverable
    state left them and nothing is installed.  A switch fails only when
    the recoverable state cannot be written or the log held something
    (with an empty log no file is created and the switch succeeds); in
    the second case the I/O status that failed, of the creation of the
    log or of the flush of the buffer of the current log, is recorded as
    a background error with the reason kMemTable, and the status returned
    is the one read back from the error handler. *)
Theorem memtable_switch_all_or_nothing cfd s st s' ev :
  SwitchMemtable opts sopts out cfd s = Some (st, s', ev) ->
  let st0 := fst (fst (WriteRecoverableState opts out s)) in
  let s0 := snd (fst (WriteRecoverableState opts out s)) in
  (ok st = true /\ ok st0 = true /\
   In (SwInstallSuperVersionAndScheduleWork cfd) ev /\
   (forall bg reason, ~ In (SwSetBGError bg reason) ev) /\
   (exists cf cf' sealed,
       nth_error (column_families s0) cfd = Some cf /\
       nth_error (column_families s') cfd = Some cf' /\
       mem cf'
       = ConstructNewMemtable out cfd (LastSequence (versions_ (db s0))) /\
       imm cf' = sealed :: imm cf /\
       GetNextLogNumber sealed = logfile_number_ (db s') /\
       IsEmpty sealed = IsEmpty (mem cf) /\
       GetFirstSequenceNumber sealed = GetFirstSequenceNumber (mem cf)) /\
   (forall i c', i <> cfd -> nth_error (column_families s') i = Some c' ->
      exists c, nth_error (column_families s0) i = Some c /\
                imm c' = imm c /\ IsEmpty (mem c') = IsEmpty (mem c) /\
                IsDropped c' = IsDropped c) /\
   (if log_empty_ (db s) then db s' = db s0
    else
      logs_ (db s')
      = logs_ (db s) ++ [mkLogWriterNumber (next_file_number_ s) false] /\
      alive_log_files_ (db s')
      = alive_log_files_ (db s)
        ++ [mkLogFileNumberSize (next_file_number_ s) 0 false] /\
      logfile_number_ (db s') = next_file_number_ s /\
      log_empty_ (db s') = true /\ log_dir_synced_ (db s') = false))
  \/
  ((forall i, ~ In (SwInstallSuperVersionAndScheduleWork i) ev) /\
   db s' = db s0 /\ column_families s' = column_families s0 /\
   (ok st0 = false -> st = st0) /\
   (ok st0 = true ->
    log_empty_ (db s) = false /\
    exists bg,
      ok bg = false /\ In (SwSetBGError bg kMemTable) ev /\
      st = GetBGError_after_SetBGError out bg /\
      ((exists recycled pre,
           bg = CreateWAL out (next_file_number_ s) recycled pre) \/
       (exists w, last_error (logs_ (db s)) = Some w /\
                  bg = WriteBuffer out (number w))))).
Proof.
  intros H. apply SwitchMemtable_shape in H.
  destruct H as [st0 [s0 [ev0 [Ers H]]]]. rewrite Ers. cbn [fst snd].
  pose proof (WriteRecoverableState_frame _ _ _ _ Ers)
    as [Fn [_ [Fe [_ [Fl [Fa [_ [Fnext _]]]]]]]].
  assert (Hev0 : forall i, ~ In (SwInstallSuperVersionAndScheduleWork i) ev0).
  { intros i Hin.
    destruct (WriteRecoverableState_events _ _ _ _ _ Ers Hin)
      as [E|[E|[[q [r E]]|[q [r E]]]]]; discriminate. }
  assert (Hev0' : forall bg reason, ~ In (SwSetBGError bg reason) ev0).
  { intros bg reason Hin.
    destruct (WriteRecoverableState_events _ _ _ _ _ Ers Hin)
      as [E|[E|[[q [r E]]|[q [r E]]]]]; discriminate. }
  destruct H as [[Hok0 [-> [-> ->]]]|[Hok0 [cf [Hcf H]]]].
  { right. split; [exact Hev0|]. split; [reflexivity|].
    split; [reflexivity|]. split; [reflexivity|].
    intros Hc. congruence. }
  cbv zeta in H. rewrite Fe, Fl, Fnext in H.
  destruct H as [_ [_ [_ [Hev H]]]].
  set (pre := GetWalPreallocateBlockSize opts (buffer_options sopts)
                (write_buffer_size cf)) in *.
  assert (Hsuccess : forall creating n mid,
    ev = ev0 ++ mid
         ++ [SwInstallSuperVersionAndScheduleWork cfd; SwMutexUnlock]
         ++ NotifyOnMemTableSealed sopts out
              (mkMemTableInfo (GetName cf) (GetFirstSequenceNumber (mem cf))
                 (GetEarliestSequenceNumber (mem cf))
                 (mem_num_entries (mem cf)) (mem_num_deletes (mem cf)))
         ++ [SwMutexLock] ->
    (forall bg reason, ~ In (SwSetBGError bg reason) mid) ->
    logfile_number_ (db s') = n ->
    column_families s'
    = update_nth cfd
        (fun c =>
           seal (ConstructNewMemtable out cfd
                   (LastSequence (versions_ (db s0))))
             (set_mem (SetNextLogNumber n (mem c)) c))
        (map (advance_empty creating n (LastSequence (versions_ (db s0))))
           (column_families s0)) ->
    In (SwInstallSuperVersionAndScheduleWork cfd) ev /\
    (forall bg reason, ~ In (SwSetBGError bg reason) ev) /\
    (exists cf cf' sealed,
        nth_error (column_families s0) cfd = Some cf /\
        nth_error (column_families s') cfd = Some cf' /\
        mem cf'
        = ConstructNewMemtable out cfd (LastSequence (versions_ (db s0))) /\
        imm cf' = sealed :: imm cf /\
        GetNextLogNumber sealed = logfile_number_ (db s') /\
        IsEmpty sealed = IsEmpty (mem cf) /\
        GetFirstSequenceNumber sealed = GetFirstSequenceNumber (mem cf)) /\
    (forall i c', i <> cfd -> nth_error (column_families s') i = Some c' ->
       exists c, nth_error (column_families s0) i = Some c /\
                 imm c' = imm c /\ IsEmpty (mem c') = IsEmpty (mem c) /\
                 IsDropped c' = IsDropped c)).
  { intros creating n mid -> Hmid Hn Hcfs. split; [|split; [|split]].
    - apply in_or_app. right. apply in_or_app. right. left. reflexivity.
    - intros bg reason Hin.
      apply in_app_or in Hin. destruct Hin as [Hin|Hin];
        [exact (Hev0' _ _ Hin)|].
      apply in_app_or in Hin. destruct Hin as [Hin|Hin];
        [exact (Hmid _ _ Hin)|].
      cbn [app] in Hin.
      destruct Hin as [E|[E|Hin]]; try discriminate.
      apply in_app_or in Hin. destruct Hin as [Hin|[E|[]]];
        [|discriminate].
      apply NotifyOnMemTableSealed_events in Hin. destruct Hin as [l E].
      discriminate.
    - rewrite Hcfs, Hn.
      destruct (advance_empty_keeps creating n
                  (LastSequence (versions_ (db s0))) cf)
        as [K1 [K2 [K3 K4]]].
      set (c := advance_empty creating n (LastSequence (versions_ (db s0)))
                  cf) in *.
      exists cf,
        (seal (ConstructNewMemtable out cfd
                 (LastSequence (versions_ (db s0))))
           (set_mem (SetNextLogNumber n (mem c)) c)),
        (SetNextLogNumber n (mem c)).
      split; [exact Hcf|].
      rewrite update_nth_nth, Nat.eqb_refl, nth_error_map, Hcf.
      cbn [option_map]. split; [reflexivity|].
      cbn. rewrite K1, K2, K3. repeat split.
    - intros i c' Hi Hc'. rewrite Hcfs, update_nth_nth in Hc'.
      destruct (Nat.eqb i cfd) eqn:Ei;
        [apply Nat.eqb_eq in Ei; contradiction|].
      rewrite nth_error_map in Hc'.
      destruct (nth_error (column_families s0) i) as [c|];
        [|discriminate].
      injection Hc' as <-. exists c. split; [reflexivity|].
      destruct (advance_empty_keeps creating n
                  (LastSequence (versions_ (db s0))) c)
        as [K1 [K2 [K3 K4]]].
      repeat split; assumption. }
  destruct (log_empty_ (db s)) eqn:Hle; cbn [negb andb] in H, Hev.
  - destruct H as [Hst [Hdb Hcfs]]. left.
    split; [exact Hst|]. split; [exact Hok0|].
    assert (Hn : logfile_number_ (db s') = logfile_number_ (db s0))
      by (rewrite Hdb; reflexivity).
    destruct (Hsuccess false (logfile_number_ (db s0))
                [SwMutexUnlock; SwNewSuperVersion; SwMutexLock])
      as [H1 [H2 [H3 H4]]]; try assumption.
    + intros bg reason [E|[E|[E|[]]]]; discriminate.
    + repeat split; try assumption.
  - match type of H with context [ok (CreateWAL ?a ?b ?c ?d)] =>
      set (io := CreateWAL a b c d) in *;
      assert (Hio_form : exists recycled pre0,
                 io = CreateWAL out (next_file_number_ s) recycled pre0)
        by (eexists; eexists; reflexivity)
    end.
    destruct (ok io) eqn:Hio; cbn [negb] in H, Hev.
    + destruct (last_error (logs_ (db s))) as [w|] eqn:Hw.
      * destruct (ok (WriteBuffer out (number w))) eqn:Hwb.
        -- destruct H as [Hst [Hdb Hcfs]]. left.
           split; [exact Hst|]. split; [exact Hok0|].
           assert (Hn : logfile_number_ (db s') = next_file_number_ s)
             by (rewrite Hdb; reflexivity).
           match type of Hev with
             ev = ev0 ++ ?a ++ ?b ++ ?c ++ ?d ++ ?e ++ ?f =>
             destruct (Hsuccess true (next_file_number_ s)
                         (a ++ b ++ c ++ d ++ e))
               as [H1 [H2 [H3 H4]]]; try assumption
           end.
           ++ intros bg reason Hin. cbn in Hin.
              destruct Hin as [E|[E|[E|[E|[E|[]]]]]]; discriminate.
           ++ repeat split; try assumption; rewrite Hdb; cbn;
                rewrite ?Fl, ?Fa; reflexivity.
        -- destruct H as [Hbg [Hst [Hdb Hcfs]]]. right.
           repeat split; try assumption.
           ++ intros i Hin. rewrite Hev in Hin.
              apply in_app_or in Hin. destruct Hin as [Hin|Hin];
                [exact (Hev0 _ Hin)|].
              cbn in Hin.
              destruct Hin as [E|[E|[E|[E|[E|[E|[]]]]]]]; discriminate.
           ++ intros Hc. congruence.
           ++ exists (WriteBuffer out (number w)).
              split; [exact Hbg|]. split; [|split; [exact Hst|]].
              ** rewrite Hev. apply in_or_app. right. cbn. auto 10.
              ** right. exists w. split; reflexivity.
      * destruct H as [Hst [Hdb Hcfs]]. left.
        split; [exact Hst|]. split; [exact Hok0|].
        assert (Hn : logfile_number_ (db s') = next_file_number_ s)
          by (rewrite Hdb; reflexivity).
        match type of Hev with
          ev = ev0 ++ ?a ++ ?b ++ ?c ++ ?d ++ ?e ++ ?f =>
          destruct (Hsuccess true (next_file_number_ s)
                      (a ++ b ++ c ++ d ++ e))
            as [H1 [H2 [H3 H4]]]; try assumption
        end.
        -- intros bg reason Hin. cbn in Hin.
           destruct Hin as [E|[E|[E|[E|[]]]]]; discriminate.
        -- repeat split; try assumption; rewrite Hdb; cbn;
             rewrite ?Fl, ?Fa; reflexivity.
    + destruct H as [Hbg [Hst [Hdb Hcfs]]]. right.
      repeat split; try assumption.
      * intros i Hin. rewrite Hev in Hin.
        apply in_app_or in Hin. destruct Hin as [Hin|Hin];
          [exact (Hev0 _ Hin)|].
        cbn in Hin.
        destruct Hin as [E|[E|[E|[E|[]]]]]; discriminate.
      * intros Hc. congruence.
      * exists io. split; [exact Hbg|]. split; [|split; [exact Hst|]].
        -- rewrite Hev. apply in_or_app. right. cbn. auto 10.
        -- left. exact Hio_form.
Qed.

Lemma SwitchMemtable_frame cfd s st s' ev :
  SwitchMemtable opts sopts out cfd s = Some (st, s', ev) ->
  unable_to_release_oldest_log_ s' = unable_to_release_oldest_log_ s /\
  length (column_families s') = length (column_families s) /\
  (exists extra,
      alive_log_files_ (db s') = alive_log_files_ (db s) ++ extra) /\
  (current_log_is_last (db s) -> current_log_is_last (db s')) /\
  (forall n r, In (SwWriteBuffer n r) ev -> current_log_is_last (db s) ->
               n = logfile_number_ (db s)).
Proof.
  intros H. apply SwitchMemtable_shape in H.
  destruct H as [st0 [s0 [ev0 [Ers H]]]].
  pose proof (WriteRecoverableState_frame _ _ _ _ Ers)
    as [Fn [_ [Fe [_ [Fl [Fa [_ [Fnext [Fu [Flen _]]]]]]]]]].
  assert (Hinv0 : current_log_is_last (db s) -> current_log_is_last (db s0))
    by (unfold current_log_is_last; rewrite Fn, Fl, Fa; auto).
  assert (Hev0 : forall n r, ~ In (SwWriteBuffer n r) ev0).
  { intros n r Hin.
    destruct (WriteRecoverableState_events _ _ _ _ _ Ers Hin)
      as [E|[E|[[q [r' E]]|[q [r' E]]]]]; discriminate. }
  destruct H as [[Hok0 [-> [-> ->]]]|[Hok0 [cf [Hcf H]]]].
  { split; [exact Fu|]. split; [exact Flen|].
    split; [exists []; rewrite app_nil_r; exact Fa|].
    split; [exact Hinv0|].
    intros n r Hin. destruct (Hev0 _ _ Hin). }
  cbv zeta in H. destruct H as [_ [_ [Hu [Hev H]]]].
  assert (Hwb : forall n r, In (SwWriteBuffer n r) ev ->
                current_log_is_last (db s) -> n = logfile_number_ (db s)).
  { intros n r Hin [Hlast _]. rewrite Hev in Hin.
    apply in_app_or in Hin. destruct Hin as [Hin|Hin];
      [destruct (Hev0 _ _ Hin)|].
    apply in_app_or in Hin. destruct Hin as [[E|[]]|Hin]; [discriminate|].
    apply in_app_or in Hin. destruct Hin as [Hin|Hin].
    { destruct (negb (log_empty_ (db s0))); [|destruct Hin].
      destruct Hin as [E|[]]; discriminate. }
    apply in_app_or in Hin. destruct Hin as [Hin|Hin].
    { match type of Hin with In _ (if ?c then _ else _) =>
        destruct c end; [destruct Hin|].
      destruct Hin as [E|[]]; discriminate. }
    apply in_app_or in Hin. destruct Hin as [[E|[]]|Hin]; [discriminate|].
    apply in_app_or in Hin. destruct Hin as [Hin|Hin].
    { match type of Hin with In _ (if ?c then _ else _) =>
        destruct c end; [|destruct Hin].
      rewrite Fl in Hin.
      destruct (last_error (logs_ (db s))) as [w|]; [|destruct Hin].
      destruct Hin as [E|[]]. injection E as <- _.
      cbn in Hlast. injection Hlast as <-. reflexivity. }
    match type of Hin with In _ (match ?f with _ => _ end) =>
      destruct f end.
    - destruct Hin as [E|[]]; discriminate.
    - cbn [app] in Hin. destruct Hin as [E|[E|Hin]]; try discriminate.
      apply in_app_or in Hin. destruct Hin as [Hin|[E|[]]];
        [|discriminate].
      apply NotifyOnMemTableSealed_events in Hin. destruct Hin as [l E].
      discriminate. }
  match type of H with match ?f with _ => _ end => destruct f end.
  - destruct H as [_ [_ [Hdb Hcfs]]]. rewrite Hdb, Hcfs.
    split; [congruence|]. split; [exact Flen|].
    split; [exists []; rewrite app_nil_r; exact Fa|].
    split; [exact Hinv0|exact Hwb].
  - destruct H as [_ [Hdb Hcfs]]. rewrite Hcfs.
    rewrite update_nth_length, length_map.
    split; [congruence|]. split; [exact Flen|].
    destruct (negb (log_empty_ (db s0))).
    + rewrite Hdb. cbn. rewrite Fa. split; [eauto|]. split; [|exact Hwb].
      intros _. unfold current_log_is_last. cbn.
      rewrite !last_error_app. split; reflexivity.
    + rewrite Hdb. split; [|split; [exact Hinv0|exact Hwb]].
      exists []. rewrite app_nil_r. exact Fa.
Qed.

Lemma switch_each_frame skip : forall cfds s st s' ev,
  switch_each opts sopts out skip cfds s = Some (st, s', ev) ->
  unable_to_release_oldest_log_ s' = unable_to_release_oldest_log_ s /\
  length (column_families s') = length (column_families s) /\
  (exists extra,
      alive_log_files_ (db s') = alive_log_files_ (db s) ++ extra) /\
  (current_log_is_last (db s) -> current_log_is_last (db s')).
Proof.
  induction cfds as [|cfd rest IH]; intros s st s' ev; simpl.
  - intros H. injection H as <- <- <-.
    split; [reflexivity|]. split; [reflexivity|]. split; [|auto].
    exists []. rewrite app_nil_r. reflexivity.
  - destruct (nth_error (column_families s) cfd) as [cf|]; [|discriminate].
    destruct (skip && IsEmpty (mem cf)); [apply IH|].
    destruct (SwitchMemtable opts sopts out cfd s) as [[[st1 s1] ev1]|] eqn:E;
      [|discriminate].
    destruct (SwitchMemtable_frame _ _ _ _ _ E)
      as [Hu [Hl [[x Ha] [Hi _]]]].
    destruct (negb (ok st1)).
    + intros H. injection H as <- <- <-.
      split; [exact Hu|]. split; [exact Hl|]. split; [eauto|exact Hi].
    + destruct (switch_each opts sopts out skip rest s1)
        as [[[st2 s2] ev2]|] eqn:E2; [|discriminate].
      intros H. injection H as <- <- <-.
      destruct (IH _ _ _ _ E2) as [Hu2 [Hl2 [[x2 Ha2] Hi2]]].
      split; [congruence|]. split; [congruence|]. split; [|auto].
      exists (x ++ x2). rewrite Ha2, Ha, app_assoc. reflexivity.
Qed.

Lemma switch_and_schedule_frame skip reason cfds s st s' ev :
  switch_and_schedule opts sopts out skip reason cfds s = Some (st, s', ev) ->
  unable_to_release_oldest_log_ s' = unable_to_release_oldest_log_ s /\
  length (column_families s') = length (column_families s) /\
  (exists extra,
      alive_log_files_ (db s') = alive_log_files_ (db s) ++ extra) /\
  (current_log_is_last (db s) -> current_log_is_last (db s')).
Proof.
  unfold switch_and_schedule.
  destruct (switch_each opts sopts out skip cfds s) as [[[st1 s1] ev1]|] eqn:E;
    [|discriminate].
  intros H. injection H as <- <- <-.
  eapply switch_each_frame. exact E.
Qed.

Lemma select_from_bound p : forall cfs i0 i,
  In i (select_from i0 p cfs) ->
  (i0 <= i < i0 + length cfs)%nat /\
  exists cf, nth_error cfs (i - i0) = Some cf /\ p cf = true.
Proof.
  induction cfs as [|cf r IH]; intros i0 i; simpl; [intros []|].
  assert (Hrec : In i (select_from (S i0) p r) ->
                 (i0 <= i < i0 + S (length r))%nat /\
                 exists cf0, nth_error (cf :: r) (i - i0) = Some cf0
                             /\ p cf0 = true).
  { intros Hin. destruct (IH _ _ Hin) as [Hb [c [Hc Hp]]].
    split; [lia|]. exists c. split; [|exact Hp].
    replace (i - i0)%nat with (S (i - S i0)) by lia. exact Hc. }
  destruct (p cf) eqn:Hp; [|exact Hrec].
  intros [<-|Hin]; [|exact (Hrec Hin)].
  split; [lia|]. exists cf. rewrite Nat.sub_diag. split; [reflexivity|exact Hp].
Qed.

Lemma select_from_complete p : forall cfs i0 j cf,
  nth_error cfs j = Some cf -> p cf = true ->
  In (i0 + j)%nat (select_from i0 p cfs).
Proof.
  induction cfs as [|c r IH]; intros i0 j cf Hj Hp.
  - destruct j; discriminate.
  - destruct j as [|j]; simpl in Hj |- *.
    + injection Hj as ->. rewrite Hp, Nat.add_0_r. left. reflexivity.
    + replace (i0 + S j)%nat with (S i0 + j)%nat by lia.
      destruct (p c); [right|]; eapply IH; eassumption.
Qed.

Lemma SwitchMemtable_defined cfd s :
  (cfd < length (column_families s))%nat ->
  exists r, SwitchMemtable opts sopts out cfd s = Some r.
Proof.
  intros Hlt.
  destruct (SwitchMemtable opts sopts out cfd s) as [r|] eqn:E; [eauto|].
  exfalso. unfold SwitchMemtable in E.
  destruct (WriteRecoverableState opts out s) as [[st0 s0] ev0] eqn:Ers.
  destruct (negb (ok st0)); [discriminate|].
  pose proof (WriteRecoverableState_frame _ _ _ _ Ers)
    as [_ [_ [_ [_ [_ [_ [_ [_ [_ [Flen _]]]]]]]]]].
  destruct (nth_error (column_families s0) cfd) as [cf|] eqn:Hcf.
  2: { apply nth_error_None in Hcf. lia. }
  repeat match type of E with
         | context [match ?x with pair _ _ => _ end] => destruct x
         end.
  repeat match type of E with
         | context [match ?x with Some _ => _ | None => _ end] => destruct x
         | context [if ?x then _ else _] => destruct x
         end; discriminate.
Qed.

Lemma switch_each_defined skip : forall cfds s,
  Forall (fun i => (i < length (column_families s))%nat) cfds ->
  exists r, switch_each opts sopts out skip cfds s = Some r.
Proof.
  induction cfds as [|cfd rest IH]; intros s Hall; simpl; [eauto|].
  inversion Hall as [|? ? Hc Hr]; subst.
  destruct (nth_error (column_families s) cfd) as [cf|] eqn:Hcf.
  2: { apply nth_error_None in Hcf. lia. }
  destruct (skip && IsEmpty (mem cf)); [apply IH; exact Hr|].
  destruct (SwitchMemtable_defined cfd s Hc) as [[[st1 s1] ev1] E].
  rewrite E. destruct (negb (ok st1)); [eauto|].
  destruct (SwitchMemtable_frame _ _ _ _ _ E) as [_ [Hl _]].
  destruct (IH s1) as [[[st2 s2] ev2] E2].
  { rewrite Hl. exact Hr. }
  rewrite E2. eauto.
Qed.

Lemma force_flush_stats_cf_spec stats log : forall cfs i0 force,
  force_flush_stats_cf i0 stats log cfs force = true <->
  force = true /\
  forall j cf, nth_error cfs j = Some cf -> (i0 + j)%nat <> stats ->
               log < GetLogNumber cf.
Proof.
  induction cfs as [|c r IH]; intros i0 force; simpl.
  - split; [intros ->; split; [reflexivity|]|intros [-> _]; reflexivity].
    intros j cf Hj. destruct j; discriminate.
  - assert (Hshift : forall P : Prop,
      (P /\ forall j cf, nth_error r j = Some cf -> (S i0 + j)%nat <> stats ->
                          log < GetLogNumber cf) ->
      ((i0 + 0)%nat <> stats -> log < GetLogNumber c) ->
      P /\ forall j cf, nth_error (c :: r) j = Some cf ->
                         (i0 + j)%nat <> stats -> log < GetLogNumber cf).
    { intros P [HP Hall] H0. split; [exact HP|].
      intros j cf Hj Hne. destruct j as [|j]; simpl in Hj.
      - injection Hj as <-. apply H0. exact Hne.
      - apply (Hall j cf Hj). lia. }
    assert (Hunshift : forall P : Prop,
      (P /\ forall j cf, nth_error (c :: r) j = Some cf ->
                          (i0 + j)%nat <> stats -> log < GetLogNumber cf) ->
      (P /\ forall j cf, nth_error r j = Some cf -> (S i0 + j)%nat <> stats ->
                          log < GetLogNumber cf) /\
      ((i0 + 0)%nat <> stats -> log < GetLogNumber c)).
    { intros P [HP Hall]. split; [split; [exact HP|]|].
      - intros j cf Hj Hne. apply (Hall (S j) cf Hj). lia.
      - intros Hne. apply (Hall 0%nat c eq_refl Hne). }
    destruct (Nat.eqb i0 stats) eqn:Ei.
    + apply Nat.eqb_eq in Ei. rewrite IH. split.
      * intros H. apply Hshift; [exact H|]. intros Hne. lia.
      * intros H. apply Hunshift in H. apply H.
    + apply Nat.eqb_neq in Ei.
      destruct (GetLogNumber c <=? log) eqn:Hle.
      * apply Z.leb_le in Hle. rewrite IH. split.
        -- intros [Hf _]. discriminate.
        -- intros H. apply Hunshift in H. destruct H as [_ H].
           assert (log < GetLogNumber c) by (apply H; lia). lia.
      * apply Z.leb_gt in Hle. rewrite IH. split.
        -- intros H. apply Hshift; [exact H|]. intros _. exact Hle.
        -- intros H. apply Hunshift in H. apply H.
Qed.

Lemma existsb_eqb_In (x : nat) (l : list nat) :
  existsb (Nat.eqb x) l = true <-> In x l.
Proof.
  rewrite existsb_exists. split.
  - intros [y [Hin He]]. apply Nat.eqb_eq in He. subst. exact Hin.
  - intros Hin. exists x. split; [exact Hin|apply Nat.eqb_refl].
Qed.

Lemma app_one_neq {A} (l : list A) (x : A) : l ++ [x] <> l.
Proof.
  intros H. apply (f_equal (@length A)) in H.
  rewrite length_app in H. simpl in H. lia.
Qed.

(** The column family of the statistics is added to the column families
    to flush only to let old logs go: when there is something to flush
    already, the statistics are persisted, their memtable holds
    something, they are not among the column families chosen, and the
    log number of every other column family of the set, dropped or not,
    is larger than theirs.  It is then added last; the column families
    chosen are never changed otherwise. *)
Theorem stats_column_family_flushed_to_release_logs cfds s :
  (forall i, GetColumnFamily_stats out = Some i ->
             (i < length (column_families s))%nat) ->
  exists r,
    MaybeFlushStatsCF sopts out cfds s = Some r /\
    (r = cfds \/ exists stats, r = cfds ++ [stats]) /\
    forall stats,
      r = cfds ++ [stats] <->
      cfds <> [] /\ persist_stats_to_disk sopts = true /\
      GetColumnFamily_stats out = Some stats /\ ~ In stats cfds /\
      exists cf,
        nth_error (column_families s) stats = Some cf /\
        IsEmpty (mem cf) = false /\
        forall j cf', nth_error (column_families s) j = Some cf' ->
                      j <> stats -> GetLogNumber cf < GetLogNumber cf'.
Proof.
  intros Hvalid. unfold MaybeFlushStatsCF.
  assert (Hno : forall P : nat -> Prop,
    (forall stats, cfds = cfds ++ [stats] -> P stats)).
  { intros P stats H. symmetry in H. destruct (app_one_neq _ _ H). }
  assert (Hkeep : forall Q : nat -> Prop,
    (forall stats, Q stats -> False) ->
    exists r, Some cfds = Some r /\
      (r = cfds \/ exists stats, r = cfds ++ [stats]) /\
      forall stats, r = cfds ++ [stats] <-> Q stats).
  { intros Q HQ. exists cfds. split; [reflexivity|]. split; [auto|].
    intros stats. split; [apply Hno|intros H; destruct (HQ _ H)]. }
  destruct cfds as [|c0 rest] eqn:Ecfds.
  { apply Hkeep. intros stats [H _]. congruence. }
  rewrite <- Ecfds in *.
  destruct (persist_stats_to_disk sopts) eqn:Hp.
  2: { apply Hkeep. intros stats [_ [H _]]. discriminate. }
  destruct (GetColumnFamily_stats out) as [cfd_stats|] eqn:Hs.
  2: { apply Hkeep. intros stats [_ [_ [H _]]]. discriminate. }
  destruct (nth_error (column_families s) cfd_stats) as [stats|] eqn:Hn.
  2: { apply nth_error_None in Hn. specialize (Hvalid _ eq_refl). lia. }
  destruct (IsEmpty (mem stats)) eqn:He; cbn [negb].
  { apply Hkeep. intros i [_ [_ [Hi [_ [cf [Hcf [Hem _]]]]]]].
    injection Hi as <-. congruence. }
  destruct (existsb (Nat.eqb cfd_stats) cfds) eqn:Hex.
  { apply Hkeep. intros i [_ [_ [Hi [Hnot _]]]]. injection Hi as <-.
    apply Hnot. apply existsb_eqb_In. exact Hex. }
  assert (Hnot : ~ In cfd_stats cfds).
  { intros Hin. apply existsb_eqb_In in Hin. congruence. }
  destruct (force_flush_stats_cf 0 cfd_stats (GetLogNumber stats)
              (column_families s) true) eqn:Hf.
  - apply force_flush_stats_cf_spec in Hf. destruct Hf as [_ Hall].
    exists (cfds ++ [cfd_stats]). split; [reflexivity|]. split; [eauto|].
    intros i. split.
    + intros H. apply app_inj_tail in H. destruct H as [_ <-].
      split; [congruence|]. split; [reflexivity|]. split; [reflexivity|].
      split; [exact Hnot|]. exists stats. split; [exact Hn|].
      split; [exact He|]. intros j cf' Hj Hne. apply (Hall j cf' Hj). exact Hne.
    + intros [_ [_ [Hi _]]]. injection Hi as <-. reflexivity.
  - apply Hkeep. intros i [_ [_ [Hi [_ [cf [Hcf [_ Hall]]]]]]].
    injection Hi as <-. rewrite Hn in Hcf. injection Hcf as <-.
    assert (Ht : force_flush_stats_cf 0 cfd_stats (GetLogNumber stats)
                   (column_families s) true = true).
    { apply force_flush_stats_cf_spec. split; [reflexivity|].
      intros j cf' Hj Hne. apply (Hall j cf' Hj). exact Hne. }
    congruence.
Qed.

Lemma MaybeFlushStatsCF_cases cfds s r :
  MaybeFlushStatsCF sopts out cfds s = Some r ->
  r = cfds \/
  exists stats, GetColumnFamily_stats out = Some stats /\
                (stats < length (column_families s))%nat /\
                ~ In stats cfds /\ r = cfds ++ [stats].
Proof.
  unfold MaybeFlushStatsCF.
  destruct cfds as [|c0 rest] eqn:Ecfds;
    [intros H; injection H as <-; auto|].
  rewrite <- Ecfds.
  destruct (persist_stats_to_disk sopts);
    [|intros H; injection H as <-; auto].
  destruct (GetColumnFamily_stats out) as [cfd_stats|];
    [|intros H; injection H as <-; auto].
  destruct (nth_error (column_families s) cfd_stats) as [stats|] eqn:Hn;
    [|discriminate].
  destruct (negb (IsEmpty (mem stats)));
    [|intros H; injection H as <-; auto].
  destruct (existsb (Nat.eqb cfd_stats) cfds) eqn:Hex;
    [intros H; injection H as <-; auto|].
  destruct (force_flush_stats_cf _ _ _ _ _);
    [|intros H; injection H as <-; auto].
  intros H. injection H as <-. right. exists cfd_stats.
  split; [reflexivity|]. split.
  - apply nth_error_Some. congruence.
  - split; [|reflexivity]. intros Hin. apply existsb_eqb_In in Hin.
    congruence.
Qed.

Lemma MaybeFlushStatsCF_defined cfds s :
  (forall i, GetColumnFamily_stats out = Some i ->
             (i < length (column_families s))%nat) ->
  exists r, MaybeFlushStatsCF sopts out cfds s = Some r.
Proof.
  intros Hvalid. unfold MaybeFlushStatsCF.
  destruct cfds as [|c0 rest]; [eauto|].
  destruct (persist_stats_to_disk sopts); [|eauto].
  destruct (GetColumnFamily_stats out) as [cfd_stats|]; [|eauto].
  destruct (nth_error (column_families s) cfd_stats) as [stats|] eqn:Hn.
  2: { apply nth_error_None in Hn. specialize (Hvalid _ eq_refl). lia. }
  destruct (negb (IsEmpty (mem stats))); [|eauto].
  destruct (existsb _ _); [eauto|].
  destruct (force_flush_stats_cf _ _ _ _ _); eauto.
Qed.

Lemma select_from_chosen p cfs : chosen_by p cfs (select_from 0 p cfs).
Proof.
  intros i. split.
  - intros Hin. destruct (select_from_bound _ _ _ _ Hin) as [_ [cf [Hc Hp]]].
    rewrite Nat.sub_0_r in Hc. eauto.
  - intros [cf [Hc Hp]]. apply (select_from_complete p cfs 0 i cf Hc Hp).
Qed.

Lemma select_from_valid p cfs :
  Forall (fun i => (i < length cfs)%nat) (select_from 0 p cfs).
Proof.
  apply Forall_forall. intros i Hin.
  destruct (select_from_bound _ _ _ _ Hin) as [Hb _]. lia.
Qed.

Lemma SwitchMemtable_events cfd s st s' ev e :
  SwitchMemtable opts sopts out cfd s = Some (st, s', ev) -> In e ev ->
  match e with
  | SwInstallSuperVersionAndScheduleWork i => i = cfd
  | SwEnterUnbatched | SwExitUnbatched | SwAssignAtomicFlushSeq _ _
  | SwFlushRequested _ | SwSchedulePendingFlush _ _
  | SwMaybeScheduleFlushOrCompaction => False
  | _ => True
  end.
Proof.
  intros H. apply SwitchMemtable_shape in H.
  destruct H as [st0 [s0 [ev0 [Ers H]]]].
  assert (Hev0 : In e ev0 ->
    match e with
    | SwInstallSuperVersionAndScheduleWork i => i = cfd
    | SwEnterUnbatched | SwExitUnbatched | SwAssignAtomicFlushSeq _ _
    | SwFlushRequested _ | SwSchedulePendingFlush _ _
    | SwMaybeScheduleFlushOrCompaction => False
    | _ => True
    end).
  { intros Hin.
    destruct (WriteRecoverableState_events _ _ _ _ _ Ers Hin)
      as [->|[->|[[q [r ->]]|[q [r ->]]]]]; exact I. }
  destruct H as [[_ [_ [_ ->]]]|[_ [cf [_ H]]]]; [exact Hev0|].
  cbv zeta in H. destruct H as [_ [_ [_ [-> _]]]].
  intros Hin.
  apply in_app_or in Hin. destruct Hin as [Hin|Hin]; [exact (Hev0 Hin)|].
  apply in_app_or in Hin. destruct Hin as [[<-|[]]|Hin]; [exact I|].
  apply in_app_or in Hin. destruct Hin as [Hin|Hin].
  { match type of Hin with In _ (if ?c then _ else _) => destruct c end;
      [|destruct Hin]. destruct Hin as [<-|[]]. exact I. }
  apply in_app_or in Hin. destruct Hin as [Hin|Hin].
  { match type of Hin with In _ (if ?c then _ else _) => destruct c end;
      [destruct Hin|]. destruct Hin as [<-|[]]. exact I. }
  apply in_app_or in Hin. destruct Hin as [[<-|[]]|Hin]; [exact I|].
  apply in_app_or in Hin. destruct Hin as [Hin|Hin].
  { match type of Hin with In _ (if ?c then _ else _) => destruct c end;
      [|destruct Hin].
    match type of Hin with In _ (match ?c with _ => _ end) =>
      destruct c end; [|destruct Hin].
    destruct Hin as [<-|[]]. exact I. }
  match type of Hin with In _ (match ?f with _ => _ end) => destruct f end.
  - destruct Hin as [<-|[]]. exact I.
  - cbn [app] in Hin. destruct Hin as [<-|[<-|Hin]]; try exact I.
    + reflexivity.
    + apply in_app_or in Hin. destruct Hin as [Hin|[<-|[]]]; [|exact I].
      apply NotifyOnMemTableSealed_events in Hin. destruct Hin as [l ->].
      exact I.
Qed.

Lemma switch_each_events skip : forall cfds s st s' ev e,
  switch_each opts sopts out skip cfds s = Some (st, s', ev) -> In e ev ->
  match e with
  | SwInstallSuperVersionAndScheduleWork i => In i cfds
  | SwEnterUnbatched | SwExitUnbatched | SwAssignAtomicFlushSeq _ _
  | SwFlushRequested _ | SwSchedulePendingFlush _ _
  | SwMaybeScheduleFlushOrCompaction => False
  | _ => True
  end.
Proof.
  induction cfds as [|cfd rest IH]; intros s st s' ev e; simpl.
  - intros H. injection H as <- <- <-. intros [].
  - destruct (nth_error (column_families s) cfd) as [cf|]; [|discriminate].
    assert (Hweak : forall x,
      match x with
      | SwInstallSuperVersionAndScheduleWork i => In i rest
      | SwEnterUnbatched | SwExitUnbatched | SwAssignAtomicFlushSeq _ _
      | SwFlushRequested _ | SwSchedulePendingFlush _ _
      | SwMaybeScheduleFlushOrCompaction => False
      | _ => True
      end ->
      match x with
      | SwInstallSuperVersionAndScheduleWork i => cfd = i \/ In i rest
      | SwEnterUnbatched | SwExitUnbatched | SwAssignAtomicFlushSeq _ _
      | SwFlushRequested _ | SwSchedulePendingFlush _ _
      | SwMaybeScheduleFlushOrCompaction => False
      | _ => True
      end) by (intros x; destruct x; auto).
    assert (Hhere : forall x,
      match x with
      | SwInstallSuperVersionAndScheduleWork i => i = cfd
      | SwEnterUnbatched | SwExitUnbatched | SwAssignAtomicFlushSeq _ _
      | SwFlushRequested _ | SwSchedulePendingFlush _ _
      | SwMaybeScheduleFlushOrCompaction => False
      | _ => True
      end ->
      match x with
      | SwInstallSuperVersionAndScheduleWork i => cfd = i \/ In i rest
      | SwEnterUnbatched | SwExitUnbatched | SwAssignAtomicFlushSeq _ _
      | SwFlushRequested _ | SwSchedulePendingFlush _ _
      | SwMaybeScheduleFlushOrCompaction => False
      | _ => True
      end) by (intros x; destruct x; auto).
    destruct (skip && IsEmpty (mem cf)).
    { intros H Hin. apply Hweak. eapply IH; eassumption. }
    destruct (SwitchMemtable opts sopts out cfd s) as [[[st1 s1] ev1]|] eqn:E;
      [|discriminate].
    destruct (negb (ok st1)).
    + intros H. injection H as <- <- <-. intros Hin. apply Hhere.
      eapply SwitchMemtable_events; eassumption.
    + destruct (switch_each opts sopts out skip rest s1)
        as [[[st2 s2] ev2]|] eqn:E2; [|discriminate].
      intros H. injection H as <- <- <-. intros Hin.
      apply in_app_or in Hin. destruct Hin as [Hin|Hin].
      * apply Hhere. eapply SwitchMemtable_events; eassumption.
      * apply Hweak. eapply IH; eassumption.
Qed.

Lemma switch_and_schedule_events skip reason cfds s st s' ev :
  switch_and_schedule opts sopts out skip reason cfds s = Some (st, s', ev) ->
  (forall i, In (SwInstallSuperVersionAndScheduleWork i) ev -> In i cfds) /\
  (forall c r, In (SwSchedulePendingFlush c r) ev <->
               ok st = true /\ c = cfds /\ r = reason).
Proof.
  unfold switch_and_schedule.
  destruct (switch_each opts sopts out skip cfds s) as [[[st1 s1] ev1]|] eqn:E;
    [|discriminate].
  intros H. injection H as <- <- <-.
  assert (Hq : forall e b (x : SwitchEvent),
             In e (if b : bool then [x] else []) -> e = x)
    by (intros e b x Hin; destruct b; [destruct Hin as [<-|[]]; reflexivity
                                      |destruct Hin]).
  split.
  - intros i Hin.
    apply in_app_or in Hin. destruct Hin as [Hin|Hin];
      [apply Hq in Hin; discriminate|].
    apply in_app_or in Hin. destruct Hin as [Hin|Hin];
      [exact (switch_each_events _ _ _ _ _ _ _ E Hin)|].
    apply in_app_or in Hin. destruct Hin as [Hin|Hin];
      [apply Hq in Hin; discriminate|].
    destruct (ok st1); [|destruct Hin].
    apply in_app_or in Hin. destruct Hin as [Hin|Hin].
    { destruct (atomic_flush sopts); [|destruct Hin].
      unfold AssignAtomicFlushSeq in Hin. apply in_map_iff in Hin.
      destruct Hin as [x [Hx _]]. discriminate. }
    apply in_app_or in Hin. destruct Hin as [Hin|Hin].
    { apply in_map_iff in Hin. destruct Hin as [x [Hx _]]. discriminate. }
    destruct Hin as [Hx|[Hx|[]]]; discriminate.
  - intros c r. split.
    + intros Hin.
      apply in_app_or in Hin. destruct Hin as [Hin|Hin];
        [apply Hq in Hin; discriminate|].
      apply in_app_or in Hin. destruct Hin as [Hin|Hin];
        [destruct (switch_each_events _ _ _ _ _ _ _ E Hin)|].
      apply in_app_or in Hin. destruct Hin as [Hin|Hin];
        [apply Hq in Hin; discriminate|].
      destruct (ok st1); [|destruct Hin].
      apply in_app_or in Hin. destruct Hin as [Hin|Hin].
      { destruct (atomic_flush sopts); [|destruct Hin].
        unfold AssignAtomicFlushSeq in Hin. apply in_map_iff in Hin.
        destruct Hin as [x [Hx _]]. discriminate. }
      apply in_app_or in Hin. destruct Hin as [Hin|Hin].
      { apply in_map_iff in Hin. destruct Hin as [x [Hx _]]. discriminate. }
      destruct Hin as [Hx|[Hx|[]]]; [|discriminate].
      injection Hx as <- <-. repeat split.
    + intros [Hok [-> ->]]. rewrite Hok.
      do 4 (apply in_or_app; right). apply in_or_app. right.
      left. reflexivity.
Qed.

(** What HandleWriteBufferFull flushes.  Without atomic flush it picks
    the column family, not dropped and with something in its active
    memtable, whose memtable has the smallest creation sequence (the
    first of them in the column family set), and none when there is no
    such column family; only the column family of the statistics may
    follow it.  With atomic flush it takes every column family that is
    not dropped and holds something.  Only column families chosen are
    switched, and the flush of all of them is scheduled, with the reason
    kWriteBufferFull, exactly when the status returned is OK. *)
Theorem write_buffer_full_flushes_oldest_memtable s st s' ev :
  HandleWriteBufferFull opts sopts out s = Some (st, s', ev) ->
  exists cfds,
    (if atomic_flush sopts
     then chosen_by
            (atomic_flushable (cached_recoverable_state_empty_ (db s)))
            (column_families s) cfds
     else
       match cfds with
       | [] => forall cf, In cf (column_families s) -> flushable cf = false
       | i :: rest =>
           oldest_flushable (column_families s) i /\
           (rest = [] \/
            exists stats, GetColumnFamily_stats out = Some stats /\
                          stats <> i /\ rest = [stats])
       end) /\
    (forall i, In (SwInstallSuperVersionAndScheduleWork i) ev -> In i cfds) /\
    (forall c r, In (SwSchedulePendingFlush c r) ev <->
                 ok st = true /\ c = cfds /\ r = kWriteBufferFull).
Proof.
  unfold HandleWriteBufferFull.
  destruct (atomic_flush sopts) eqn:Ha.
  - intros H. exists (SelectColumnFamiliesForAtomicFlush s).
    split; [apply select_from_chosen|].
    eapply switch_and_schedule_events. exact H.
  - pose proof (pick_oldest_oldest (column_families s)) as Hpick.
    destruct (MaybeFlushStatsCF sopts out _ s) as [cfds|] eqn:Em;
      [|discriminate].
    intros H. exists cfds.
    split; [|eapply switch_and_schedule_events; exact H].
    destruct (pick_oldest 0 (column_families s) None) as [[i seq]|].
    + apply MaybeFlushStatsCF_cases in Em.
      destruct Em as [->|[stats [Hs [_ [Hnot ->]]]]].
      * split; [exact Hpick|left; reflexivity].
      * cbn [app]. split; [exact Hpick|]. right. exists stats.
        split; [exact Hs|]. split; [|reflexivity].
        intros ->. apply Hnot. left. reflexivity.
    + cbn in Em. injection Em as <-. exact Hpick.
Qed.

(** What SwitchWAL flushes.  When the oldest alive log is not being
    flushed yet, and SwitchWAL has not given up on it already, the log is
    marked as getting flushed, unless with two-phase commit it holds a
    prepared transaction that is not committed: then it is left unmarked
    and the database notes that it is unable to release it.  Without
    atomic flush the column families chosen are those, not dropped, whose
    oldest log to keep is not after the oldest alive log, in the order of
    the column family set, and only the column family of the statistics
    may follow them; with atomic flush they are every column family that
    is not dropped and holds something.  Only column families chosen are
    switched, and the flush of all of them is scheduled, with the reason
    kWriteBufferManager, exactly when the status returned is OK. *)
Theorem wal_switch_flushes_holders_of_oldest_log s front others st s' ev :
  alive_log_files_ (db s) = front :: others ->
  getting_flushed front = false ->
  held_by_prepared opts out (lf_number front)
  && unable_to_release_oldest_log_ s = false ->
  SwitchWAL opts sopts out s = Some (st, s', ev) ->
  let held := held_by_prepared opts out (lf_number front) in
  (exists extra,
      alive_log_files_ (db s')
      = mkLogFileNumberSize (lf_number front) (size front) (negb held)
        :: others ++ extra) /\
  unable_to_release_oldest_log_ s' = held /\
  exists cfds,
    (if atomic_flush sopts
     then chosen_by
            (atomic_flushable (cached_recoverable_state_empty_ (db s)))
            (column_families s) cfds
     else
       exists holders rest,
         cfds = holders ++ rest /\
         chosen_by (holds_log (lf_number front)) (column_families s)
           holders /\
         (rest = [] \/
          exists stats, GetColumnFamily_stats out = Some stats /\
                        ~ In stats holders /\ rest = [stats])) /\
    (forall i, In (SwInstallSuperVersionAndScheduleWork i) ev -> In i cfds) /\
    (forall c r, In (SwSchedulePendingFlush c r) ev <->
                 ok st = true /\ c = cfds /\ r = kWriteBufferManager).
Proof.
  intros Halive Hgf Hgo. unfold SwitchWAL. rewrite Halive, Hgf.
  unfold held_by_prepared in *. rewrite Hgo. cbv zeta.
  set (held := allow_2pc opts
               && (0 <? FindMinLogContainingOutstandingPrep out)
               && (FindMinLogContainingOutstandingPrep out
                   =? lf_number front)) in *.
  set (s1 := if negb held
             then set_db
                    (set_alive_log_files_
                       (mkLogFileNumberSize (lf_number front) (size front)
                          true :: others) (db s))
                    (set_unable_to_release_oldest_log_ false s)
             else set_unable_to_release_oldest_log_ true s).
  assert (Hs1 : column_families s1 = column_families s /\
                cached_recoverable_state_empty_ (db s1)
                = cached_recoverable_state_empty_ (db s) /\
                unable_to_release_oldest_log_ s1 = held /\
                alive_log_files_ (db s1)
                = mkLogFileNumberSize (lf_number front) (size front)
                    (negb held) :: others).
  { unfold s1. destruct held; cbn; repeat split; try assumption.
    rewrite Halive. destruct front as [n z g]. cbn in *. subst g.
    reflexivity. }
  destruct Hs1 as [Hcf [Hce [Hun Hal]]].
  destruct (if atomic_flush sopts then _ else _) as [cfds|] eqn:Ech;
    [|discriminate].
  intros H.
  destruct (switch_and_schedule_frame _ _ _ _ _ _ _ H)
    as [Hu [_ [[extra Hx] _]]].
  split; [exists extra; rewrite Hx, Hal; reflexivity|].
  split; [congruence|].
  exists cfds. split; [|eapply switch_and_schedule_events; exact H].
  destruct (atomic_flush sopts).
  - injection Ech as <-. unfold SelectColumnFamiliesForAtomicFlush.
    rewrite Hcf, Hce. apply select_from_chosen.
  - rewrite Hcf in Ech.
    destruct (MaybeFlushStatsCF_cases _ _ _ Ech)
      as [->|[stats [Hs [_ [Hnot ->]]]]].
    + eexists. exists []. split; [rewrite app_nil_r; reflexivity|].
      split; [apply select_from_chosen|left; reflexivity].
    + eexists. exists [stats]. split; [reflexivity|].
      split; [apply select_from_chosen|]. right. exists stats.
      repeat split; assumption.
Qed.

(** SwitchWAL tries once for an oldest alive log.  Whatever its switches
    returned, a second call right after the first returns OK and does
    nothing: the log is marked as getting flushed, or the database has
    noted that it is unable to release it. *)
Theorem wal_switch_not_repeated s :
  alive_log_files_ (db s) <> [] ->
  (forall i, GetColumnFamily_stats out = Some i ->
             (i < length (column_families s))%nat) ->
  exists st s' ev,
    SwitchWAL opts sopts out s = Some (st, s', ev) /\
    SwitchWAL opts sopts out s' = Some (OK, s', []).
Proof.
  intros Hne Hvalid. unfold SwitchWAL at 1.
  destruct (alive_log_files_ (db s)) as [|front others] eqn:Halive;
    [congruence|].
  destruct (getting_flushed front) eqn:Hgf.
  { exists OK, s, []. split; [reflexivity|].
    unfold SwitchWAL. rewrite Halive, Hgf. reflexivity. }
  cbv zeta.
  set (held := allow_2pc opts
               && (0 <? FindMinLogContainingOutstandingPrep out)
               && (FindMinLogContainingOutstandingPrep out
                   =? lf_number front)) in *.
  destruct (held && unable_to_release_oldest_log_ s) eqn:Hgo.
  { exists OK, s, []. split; [reflexivity|].
    unfold SwitchWAL. rewrite Halive, Hgf. fold held. rewrite Hgo.
    reflexivity. }
  set (s1 := if negb held
             then set_db
                    (set_alive_log_files_
                       (mkLogFileNumberSize (lf_number front) (size front)
                          true :: others) (db s))
                    (set_unable_to_release_oldest_log_ false s)
             else set_unable_to_release_oldest_log_ true s).
  assert (Hs1 : column_families s1 = column_families s /\
                unable_to_release_oldest_log_ s1 = held /\
                alive_log_files_ (db s1)
                = mkLogFileNumberSize (lf_number front) (size front)
                    (negb held) :: others).
  { unfold s1. destruct held; cbn; repeat split; try assumption.
    rewrite Halive. destruct front as [n z g]. cbn in *. subst g.
    reflexivity. }
  destruct Hs1 as [Hcf [Hun Hal]].
  assert (Hch : exists cfds,
    (if atomic_flush sopts
     then Some (SelectColumnFamiliesForAtomicFlush s1)
     else MaybeFlushStatsCF sopts out
            (select_from 0
               (fun cfd => negb (IsDropped cfd)
                           && (OldestLogToKeep cfd <=? lf_number front))
               (column_families s1)) s1) = Some cfds /\
    Forall (fun i => (i < length (column_families s1))%nat) cfds).
  { destruct (atomic_flush sopts).
    - eexists. split; [reflexivity|]. apply select_from_valid.
    - destruct (MaybeFlushStatsCF_defined
                  (select_from 0
                     (fun cfd => negb (IsDropped cfd)
                                 && (OldestLogToKeep cfd <=? lf_number front))
                     (column_families s1)) s1) as [r Hr].
      { rewrite Hcf. exact Hvalid. }
      exists r. split; [exact Hr|].
      destruct (MaybeFlushStatsCF_cases _ _ _ Hr)
        as [->|[stats [_ [Hlt [_ ->]]]]].
      + apply select_from_valid.
      + apply Forall_app. split; [apply select_from_valid|].
        constructor; [exact Hlt|constructor]. }
  destruct Hch as [cfds [Hch Hall]]. rewrite Hch.
  unfold switch_and_schedule.
  destruct (switch_each_defined false cfds s1 Hall) as [[[st2 s2] ev2] E].
  rewrite E. eexists. eexists. eexists. split; [reflexivity|].
  destruct (switch_each_frame _ _ _ _ _ _ E) as [Hu [_ [[extra Hx] _]]].
  unfold SwitchWAL. rewrite Hx, Hal. cbn [app getting_flushed lf_number].
  fold held. destruct held; cbn [negb].
  - rewrite Hu, Hun. reflexivity.
  - reflexivity.
Qed.

(** The current log stays the last one.  When the number of the current
    log is that of the last entry of [logs_] and of [alive_log_files_],
    it is so again after a switch of memtables, failed or not, after
    SwitchWAL and HandleWriteBufferFull, and after a write to the log by
    either queue; and the log whose buffer a switch flushes before it
    moves on to a new log is the current one. *)
Theorem current_log_stays_last s :
  current_log_is_last (db s) ->
  (forall cfd st s' ev,
      SwitchMemtable opts sopts out cfd s = Some (st, s', ev) ->
      current_log_is_last (db s') /\
      forall n r, In (SwWriteBuffer n r) ev -> n = logfile_number_ (db s)) /\
  (forall st s' ev, SwitchWAL opts sopts out s = Some (st, s', ev) ->
                    current_log_is_last (db s')) /\
  (forall st s' ev,
      HandleWriteBufferFull opts sopts out s = Some (st, s', ev) ->
      current_log_is_last (db s')) /\
  (forall env g nls nlds seq,
      current_log_is_last (wal_db (WriteToWAL env (db s) g nls nlds seq))) /\
  (forall env g seq_inc,
      current_log_is_last
        (wal_db (ConcurrentWriteToWAL env (db s) g seq_inc))).
Proof.
  intros Hinv.
  assert (Hback : forall (f : LogFileNumberSize -> LogFileNumberSize) l,
             (forall x, lf_number (f x) = lf_number x) ->
             option_map lf_number (last_error (update_back f l))
             = option_map lf_number (last_error l)).
  { intros f l Hf. induction l as [|x r IH]; [reflexivity|].
    destruct r as [|y r]; [cbn; rewrite Hf; reflexivity|].
    change (update_back f (x :: y :: r)) with (x :: update_back f (y :: r)).
    change (last_error (x :: y :: r)) with (last_error (y :: r)).
    rewrite <- IH.
    destruct (update_back f (y :: r)) eqn:E; [|reflexivity].
    destruct r; discriminate. }
  split; [|split; [|split; [|split]]].
  - intros cfd st s' ev H.
    destruct (SwitchMemtable_frame _ _ _ _ _ H) as [_ [_ [_ [H1 H2]]]].
    split; [auto|]. intros n r Hin. eapply H2; eassumption.
  - intros st s' ev. unfold SwitchWAL.
    destruct (alive_log_files_ (db s)) as [|front others] eqn:Halive;
      [discriminate|].
    destruct (getting_flushed front).
    { intros H. injection H as _ <- _. exact Hinv. }
    cbv zeta.
    match goal with |- context [if ?c && unable_to_release_oldest_log_ s
                                then _ else _] =>
      set (held := c) end.
    destruct (held && unable_to_release_oldest_log_ s).
    { intros H. injection H as _ <- _. exact Hinv. }
    match goal with |- context [switch_and_schedule _ _ _ _ _ _ ?x] =>
      set (s1 := x) end.
    assert (Hinv1 : current_log_is_last (db s1)).
    { unfold s1. destruct held; cbn; [exact Hinv|].
      destruct Hinv as [H1 H2]. split; [exact H1|].
      cbn. rewrite Halive in H2. destruct others; exact H2. }
    destruct (if atomic_flush sopts then _ else _) as [cfds|];
      [|discriminate].
    intros H. apply switch_and_schedule_frame in H. apply H. exact Hinv1.
  - intros st s' ev. unfold HandleWriteBufferFull.
    destruct (if atomic_flush sopts then _ else _) as [cfds|];
      [|discriminate].
    intros H. apply switch_and_schedule_frame in H. apply H. exact Hinv.
  - intros env g nls nlds seq.
    pose proof (WriteToWAL_db env (db s) g nls nlds seq) as H.
    cbv zeta in H. destruct H as [_ [Ha [_ [_ [Hn [Hl _]]]]]].
    destruct Hinv as [H1 H2]. unfold current_log_is_last.
    rewrite Ha, Hn, Hl, Hback; [auto|reflexivity].
  - intros env g seq_inc.
    pose proof (ConcurrentWriteToWAL_db env (db s) g seq_inc) as H.
    cbv zeta in H. destruct H as [_ [Ha [_ [_ [Hn [Hl _]]]]]].
    destruct Hinv as [H1 H2]. unfold current_log_is_last.
    rewrite Ha, Hn, Hl, Hback; [auto|reflexivity].
Qed.

End SwitchCases.

(** ** The write of the recoverable state *)

Section RecoverableState.
Import MemtableSwitch.
Context {WriteBatch : Type} {WBI : WriteBatchInternal WriteBatch}.
Variable opts : DBOptions.
Variable out : Outside (WriteBatch := WriteBatch).

Lemma recoverable_callbacks_failed cb count sub status :
  ok status = false ->
  recoverable_callbacks cb count sub status = (status, []).
Proof. intros H. destruct count; simpl; [|rewrite H]; reflexivity. Qed.

Lemma recoverable_callbacks_spec cb : forall count sub status st ev,
  ok status = true ->
  recoverable_callbacks cb count sub status = (st, ev) ->
  exists k,
    (k <= count)%nat /\
    callbacks_made ev
    = map (fun i => (sub + Z.of_nat i, cb (sub + Z.of_nat i))) (seq 0 k) /\
    (forall i, (S i < k)%nat -> ok (cb (sub + Z.of_nat i)) = true) /\
    (ok st = true -> k = count) /\
    (k = 0%nat -> st = status) /\
    (forall j, k = S j -> st = cb (sub + Z.of_nat j)).
Proof.
  induction count as [|c IH]; intros sub status st ev Hok; simpl.
  - intros H. injection H as <- <-. exists 0%nat.
    repeat split; try reflexivity; try lia.
  - rewrite Hok.
    destruct (recoverable_callbacks cb c (sub + 1) (cb sub)) as [st' ev']
      eqn:E.
    intros H. injection H as <- <-.
    destruct (ok (cb sub)) eqn:Hcb.
    + destruct (IH _ _ _ _ Hcb E) as [k [Hk [Hev [Hall [Hfin [H0 HS]]]]]].
      exists (S k). split; [lia|]. split; [|split; [|split; [|split]]].
      * cbn [callbacks_made seq map]. rewrite Z.add_0_r. f_equal.
        rewrite Hev, <- seq_shift, map_map. apply map_ext. intros i.
        replace (sub + 1 + Z.of_nat i) with (sub + Z.of_nat (S i)) by lia.
        reflexivity.
      * intros i Hi. destruct i as [|i].
        -- rewrite Z.add_0_r. exact Hcb.
        -- replace (sub + Z.of_nat (S i)) with (sub + 1 + Z.of_nat i) by lia.
           apply Hall. lia.
      * intros H. rewrite (Hfin H). reflexivity.
      * discriminate.
      * intros j Hj. injection Hj as <-. destruct k as [|k'].
        -- rewrite Z.add_0_r. apply H0. reflexivity.
        -- rewrite (HS k' eq_refl).
           replace (sub + 1 + Z.of_nat k') with (sub + Z.of_nat (S k'))
             by lia.
           reflexivity.
    + rewrite (recoverable_callbacks_failed _ _ _ _ Hcb) in E.
      injection E as <- <-. exists 1%nat.
      split; [lia|]. split; [|split; [|split; [|split]]].
      * cbn. rewrite Z.add_0_r. reflexivity.
      * intros i Hi. lia.
      * intros H. congruence.
      * discriminate.
      * intros j Hj. injection Hj as <-. rewrite Z.add_0_r. reflexivity.
Qed.

(** The write of the cached recoverable state.  The batch is stamped
    with the sequence after the last one (the last allocated with two
    write queues) and inserted; the last sequence then becomes the one
    before the next sequence of the insert, and with two write queues the
    last allocated and the last published sequences become the same,
    whether or not the insert succeeded.  When the insert succeeded the
    callback is called for the sequences from the first on, in order, and
    stops at the first call that fails or when the next sequence is
    reached; the status returned is that of the last call made, or of
    the insert when none was made.  The cache is emptied exactly when the
    status returned is OK, so that a failed write is tried again by the
    next switch. *)
Theorem recoverable_state_written_in_order s status next_seq touch st s' ev :
  cached_recoverable_state_empty_ (db s) = false ->
  0 <= last_allocated_sequence_ (versions_ (db s)) < 18446744073709551616 ->
  let seq := if two_write_queues_ opts
             then last_allocated_sequence_ (versions_ (db s))
             else LastSequence (versions_ (db s)) in
  let first_seq := wrap64 (seq + 1) in
  let batch := SetSequence (cached_recoverable_state_ (db s)) first_seq in
  RecoverableInsertInto out batch = (status, next_seq, touch) ->
  WriteRecoverableState opts out s = (st, s', ev) ->
  LastSequence (versions_ (db s')) = wrap64 (next_seq - 1) /\
  last_allocated_sequence_ (versions_ (db s'))
  = (if two_write_queues_ opts then wrap64 (next_seq - 1)
     else last_allocated_sequence_ (versions_ (db s))) /\
  last_published_sequence_ (versions_ (db s'))
  = (if two_write_queues_ opts then wrap64 (next_seq - 1)
     else last_published_sequence_ (versions_ (db s))) /\
  cached_recoverable_state_empty_ (db s') = ok st /\
  (ok st = false -> cached_recoverable_state_ (db s') = batch) /\
  match recoverable_state_pre_release_callback_ out with
  | Some cb =>
      if ok status then
        exists k,
          (k <= Z.to_nat (next_seq - first_seq))%nat /\
          callbacks_made ev
          = map (fun i => (first_seq + Z.of_nat i,
                           cb (first_seq + Z.of_nat i))) (List.seq 0 k) /\
          (forall i, (S i < k)%nat ->
                     ok (cb (first_seq + Z.of_nat i)) = true) /\
          (ok st = true -> k = Z.to_nat (next_seq - first_seq)) /\
          (k = 0%nat -> st = status) /\
          (forall j, k = S j -> st = cb (first_seq + Z.of_nat j))
      else callbacks_made ev = [] /\ st = status
  | None => callbacks_made ev = [] /\ st = status
  end.
Proof.
  intros Hc Hla. cbv zeta. intros Hins. unfold WriteRecoverableState.
  rewrite Hc. cbn [negb].
  assert (Hseq :
    (if two_write_queues_ opts
     then FetchAddLastAllocatedSequence 0 (versions_ (db s))
     else (LastSequence (versions_ (db s)), versions_ (db s)))
    = (if two_write_queues_ opts
       then last_allocated_sequence_ (versions_ (db s))
       else LastSequence (versions_ (db s)),
       versions_ (db s))).
  { destruct (two_write_queues_ opts); [|reflexivity].
    unfold FetchAddLastAllocatedSequence. f_equal.
    rewrite Z.add_0_r. unfold wrap64. rewrite Z.mod_small by lia.
    destruct (versions_ (db s)); reflexivity. }
  rewrite Hseq, Hins.
  set (seq := if two_write_queues_ opts
              then last_allocated_sequence_ (versions_ (db s))
              else LastSequence (versions_ (db s))) in *.
  set (first_seq := wrap64 (seq + 1)) in *.
  destruct (match recoverable_state_pre_release_callback_ out with
            | Some _ => _ | None => _ end) as [status1 ev_cb] eqn:E.
  intros H. injection H as <- <- <-.
  assert (Hcounters :
    forall d : DBImpl (WriteBatch := WriteBatch),
      let v := versions_
                 (set_versions_
                    (SetLastSequence (wrap64 (next_seq - 1))
                       (if two_write_queues_ opts
                        then SetLastPublishedSequence (wrap64 (next_seq - 1))
                               (snd (FetchAddLastAllocatedSequence
                                       (wrap64 (wrap64 (next_seq - 1) - seq))
                                       (versions_ (db s))))
                        else versions_ (db s))) d) in
      LastSequence v = wrap64 (next_seq - 1) /\
      last_allocated_sequence_ v
      = (if two_write_queues_ opts then wrap64 (next_seq - 1)
         else last_allocated_sequence_ (versions_ (db s))) /\
      last_published_sequence_ v
      = (if two_write_queues_ opts then wrap64 (next_seq - 1)
         else last_published_sequence_ (versions_ (db s)))).
  { intros d. cbn. unfold seq. destruct (two_write_queues_ opts); cbn.
    - repeat split. unfold wrap64.
      rewrite Z.add_mod_idemp_r by lia.
      replace (last_allocated_sequence_ (versions_ (db s))
               + ((next_seq - 1) mod 18446744073709551616
                  - last_allocated_sequence_ (versions_ (db s))))
        with ((next_seq - 1) mod 18446744073709551616) by lia.
      apply Z.mod_mod. lia.
    - repeat split. }
  assert (Hcb :
    match recoverable_state_pre_release_callback_ out with
    | Some cb =>
        if ok status then
          exists k,
            (k <= Z.to_nat (next_seq - first_seq))%nat /\
            callbacks_made (SwRecoverableInsertInto first_seq status :: ev_cb)
            = map (fun i => (first_seq + Z.of_nat i,
                             cb (first_seq + Z.of_nat i))) (List.seq 0 k) /\
            (forall i, (S i < k)%nat ->
                       ok (cb (first_seq + Z.of_nat i)) = true) /\
            (ok status1 = true -> k = Z.to_nat (next_seq - first_seq)) /\
            (k = 0%nat -> status1 = status) /\
            (forall j, k = S j -> status1 = cb (first_seq + Z.of_nat j))
        else callbacks_made (SwRecoverableInsertInto first_seq status :: ev_cb)
             = [] /\ status1 = status
    | None => callbacks_made (SwRecoverableInsertInto first_seq status
                              :: ev_cb) = [] /\ status1 = status
    end).
  { cbn [callbacks_made].
    destruct (recoverable_state_pre_release_callback_ out) as [cb|].
    - destruct (ok status) eqn:Hok.
      + eapply recoverable_callbacks_spec; eassumption.
      + injection E as <- <-. split; reflexivity.
    - injection E as <- <-. split; reflexivity. }
  cbn [db set_column_families set_db].
  destruct (ok status1) eqn:Hok1.
  - destruct (Hcounters
                (set_cached_recoverable_state_
                   (SetSequence (cached_recoverable_state_ (db s)) first_seq)
                   (db s))) as [C1 [C2 C3]].
    cbn in C1, C2, C3 |- *.
    split; [exact C1|]. split; [exact C2|]. split; [exact C3|].
    split; [reflexivity|]. split; [discriminate|exact Hcb].
  - destruct (Hcounters
                (set_cached_recoverable_state_
                   (SetSequence (cached_recoverable_state_ (db s)) first_seq)
                   (db s))) as [C1 [C2 C3]].
    cbn in C1, C2, C3 |- *.
    split; [exact C1|]. split; [exact C2|]. split; [exact C3|].
    split; [exact Hc|]. split; [reflexivity|exact Hcb].
Qed.

End RecoverableState.

Section SwitchWitnesses.
Import MemtableSwitch.

Lemma stats_column_family_flushed_to_release_logs_witness :
  exists r,
    MaybeFlushStatsCF stats_options kind_outside [0%nat] used_state = Some r /\
    (r = [0%nat] \/ exists stats, r = [0%nat] ++ [stats]) /\
    forall stats,
      r = [0%nat] ++ [stats] <->
      [0%nat] <> [] /\ persist_stats_to_disk stats_options = true /\
      GetColumnFamily_stats kind_outside = Some stats /\ ~ In stats [0%nat] /\
      exists cf,
        nth_error (column_families used_state) stats = Some cf /\
        IsEmpty (mem cf) = false /\
        forall j cf', nth_error (column_families used_state) j = Some cf' ->
                      j <> stats -> GetLogNumber cf < GetLogNumber cf'.
Proof.
  apply (stats_column_family_flushed_to_release_logs stats_options
           kind_outside [0%nat] used_state).
  intros i H. injection H as <-. vm_compute. reflexivity.
Defined.

Lemma memtable_switch_all_or_nothing_witness :
  exists st s' ev,
    SwitchMemtable default_options switch_options full_disk 0 used_state
    = Some (st, s', ev) /\
    (let st0 := fst (fst (WriteRecoverableState default_options full_disk used_state)) in
  let s0 := snd (fst (WriteRecoverableState default_options full_disk used_state)) in
  (ok st = true /\ ok st0 = true /\
   In (SwInstallSuperVersionAndScheduleWork 0%nat) ev /\
   (forall bg reason, ~ In (SwSetBGError bg reason) ev) /\
   (exists cf cf' sealed,
       nth_error (column_families s0) 0%nat = Some cf /\
       nth_error (column_families s') 0%nat = Some cf' /\
       mem cf'
       = ConstructNewMemtable full_disk 0%nat (LastSequence (versions_ (db s0))) /\
       imm cf' = sealed :: imm cf /\
       GetNextLogNumber sealed = logfile_number_ (db s') /\
       IsEmpty sealed = IsEmpty (mem cf) /\
       GetFirstSequenceNumber sealed = GetFirstSequenceNumber (mem cf)) /\
   (forall i c', i <> 0%nat -> nth_error (column_families s') i = Some c' ->
      exists c, nth_error (column_families s0) i = Some c /\
                imm c' = imm c /\ IsEmpty (mem c') = IsEmpty (mem c) /\
                IsDropped c' = IsDropped c) /\
   (if log_empty_ (db used_state) then db s' = db s0
    else
      logs_ (db s')
      = logs_ (db used_state) ++ [mkLogWriterNumber (next_file_number_ used_state) false] /\
      alive_log_files_ (db s')
      = alive_log_files_ (db used_state)
        ++ [mkLogFileNumberSize (next_file_number_ used_state) 0 false] /\
      logfile_number_ (db s') = next_file_number_ used_state /\
      log_empty_ (db s') = true /\ log_dir_synced_ (db s') = false))
  \/
  ((forall i, ~ In (SwInstallSuperVersionAndScheduleWork i) ev) /\
   db s' = db s0 /\ column_families s' = column_families s0 /\
   (ok st0 = false -> st = st0) /\
   (ok st0 = true ->
    log_empty_ (db used_state) = false /\
    exists bg,
      ok bg = false /\ In (SwSetBGError bg kMemTable) ev /\
      st = GetBGError_after_SetBGError full_disk bg /\
      ((exists recycled pre,
           bg = CreateWAL full_disk (next_file_number_ used_state) recycled pre) \/
       (exists w, last_error (logs_ (db used_state)) = Some w /\
                  bg = WriteBuffer full_disk (number w)))))).
Proof.
  eexists. eexists. eexists.
  refine ((fun H => conj H
             (memtable_switch_all_or_nothing default_options switch_options
                full_disk 0 used_state _ _ _ H)) _).
  vm_compute. reflexivity.
Defined.

Lemma current_log_stays_last_witness :
  (forall cfd st s' ev,
      SwitchMemtable default_options switch_options kind_outside cfd used_state = Some (st, s', ev) ->
      current_log_is_last (db s') /\
      forall n r, In (SwWriteBuffer n r) ev -> n = logfile_number_ (db used_state)) /\
  (forall st s' ev, SwitchWAL default_options switch_options kind_outside used_state = Some (st, s', ev) ->
                    current_log_is_last (db s')) /\
  (forall st s' ev,
      HandleWriteBufferFull default_options switch_options kind_outside used_state = Some (st, s', ev) ->
      current_log_is_last (db s')) /\
  (forall env g nls nlds seq,
      current_log_is_last (wal_db (WriteToWAL env (db used_state) g nls nlds seq))) /\
  (forall env g seq_inc,
      current_log_is_last
        (wal_db (ConcurrentWriteToWAL env (db used_state) g seq_inc))).
Proof.
  apply (current_log_stays_last default_options switch_options kind_outside
           used_state).
  split; reflexivity.
Defined.

Lemma wal_switch_not_repeated_witness :
  exists st s' ev,
    SwitchWAL default_options switch_options kind_outside used_state = Some (st, s', ev) /\
    SwitchWAL default_options switch_options kind_outside s' = Some (OK, s', []).
Proof.
  apply (wal_switch_not_repeated default_options switch_options kind_outside
           used_state).
  - intros H. vm_compute in H. discriminate H.
  - intros i H. injection H as <-. vm_compute. reflexivity.
Defined.

Lemma wal_switch_flushes_holders_of_oldest_log_witness :
  exists st s' ev,
    SwitchWAL default_options switch_options kind_outside used_state
    = Some (st, s', ev) /\
    (let held := held_by_prepared default_options kind_outside (lf_number (mkLogFileNumberSize 3 60 false)) in
  (exists extra,
      alive_log_files_ (db s')
      = mkLogFileNumberSize (lf_number (mkLogFileNumberSize 3 60 false)) (size (mkLogFileNumberSize 3 60 false)) (negb held)
        :: [mkLogFileNumberSize 4 40 false] ++ extra) /\
  unable_to_release_oldest_log_ s' = held /\
  exists cfds,
    (if atomic_flush switch_options
     then chosen_by
            (atomic_flushable (cached_recoverable_state_empty_ (db used_state)))
            (column_families used_state) cfds
     else
       exists holders rest,
         cfds = holders ++ rest /\
         chosen_by (holds_log (lf_number (mkLogFileNumberSize 3 60 false))) (column_families used_state)
           holders /\
         (rest = [] \/
          exists stats, GetColumnFamily_stats kind_outside = Some stats /\
                        ~ In stats holders /\ rest = [stats])) /\
    (forall i, In (SwInstallSuperVersionAndScheduleWork i) ev -> In i cfds) /\
    (forall c r, In (SwSchedulePendingFlush c r) ev <->
                 ok st = true /\ c = cfds /\ r = kWriteBufferManager)).
Proof.
  eexists. eexists. eexists.
  refine ((fun H => conj H
             (wal_switch_flushes_holders_of_oldest_log default_options
                switch_options kind_outside used_state
                (mkLogFileNumberSize 3 60 false)
                [mkLogFileNumberSize 4 40 false] _ _ _
                eq_refl eq_refl eq_refl H)) _).
  vm_compute. reflexivity.
Defined.

Lemma recoverable_state_written_in_order_witness :
  exists st s' ev,
    WriteRecoverableState default_options kind_outside cached_state
    = (st, s', ev) /\
    (LastSequence (versions_ (db s')) = wrap64 (12 - 1) /\
  last_allocated_sequence_ (versions_ (db s'))
  = (if two_write_queues_ default_options then wrap64 (12 - 1)
     else last_allocated_sequence_ (versions_ (db cached_state))) /\
  last_published_sequence_ (versions_ (db s'))
  = (if two_write_queues_ default_options then wrap64 (12 - 1)
     else last_published_sequence_ (versions_ (db cached_state))) /\
  cached_recoverable_state_empty_ (db s') = ok st /\
  (ok st = false -> cached_recoverable_state_ (db s') = (SetSequence (put "k" "v") 10)) /\
  match recoverable_state_pre_release_callback_ kind_outside with
  | Some cb =>
      if ok OK then
        exists k,
          (k <= Z.to_nat (12 - 10))%nat /\
          callbacks_made ev
          = map (fun i => (10 + Z.of_nat i,
                           cb (10 + Z.of_nat i))) (List.seq 0 k) /\
          (forall i, (S i < k)%nat ->
                     ok (cb (10 + Z.of_nat i)) = true) /\
          (ok st = true -> k = Z.to_nat (12 - 10)) /\
          (k = 0%nat -> st = OK) /\
          (forall j, k = S j -> st = cb (10 + Z.of_nat j))
      else callbacks_made ev = [] /\ st = OK
  | None => callbacks_made ev = [] /\ st = OK
  end).
Proof.
  eexists. eexists. eexists.
  refine ((fun H => conj H
             (recoverable_state_written_in_order default_options kind_outside
                cached_state OK 12 (fun _ m => m) _ _ _ eq_refl _ eq_refl
                H)) _).
  - cbn. lia.
  - vm_compute. reflexivity.
Defined.

Lemma write_buffer_full_flushes_oldest_memtable_witness :
  exists st s' ev,
    HandleWriteBufferFull default_options switch_options kind_outside
      used_state = Some (st, s', ev) /\
    exists cfds,
      match cfds with
      | [] => forall cf, In cf (column_families used_state) ->
                         flushable cf = false
      | i :: rest =>
          oldest_flushable (column_families used_state) i /\
          (rest = [] \/
           exists stats, GetColumnFamily_stats kind_outside = Some stats /\
                         stats <> i /\ rest = [stats])
      end /\
      (forall i, In (SwInstallSuperVersionAndScheduleWork i) ev ->
                 In i cfds) /\
      (forall c r, In (SwSchedulePendingFlush c r) ev <->
                   ok st = true /\ c = cfds /\ r = kWriteBufferFull).
Proof.
  eexists. eexists. eexists.
  refine ((fun H => conj H
             (write_buffer_full_flushes_oldest_memtable default_options
                switch_options kind_outside used_state _ _ _ H)) _).
  vm_compute. reflexivity.
Defined.

End SwitchWitnesses.

(** ** The pipelined write mode *)

Section PipelinedFacts.
Context {WriteBatch : Type} {WBI : WriteBatchInternal WriteBatch}.
Variable opts : DBOptions.
Variable env : Env.
Variable UpdateLastSequence : Z -> Z.

Lemma CheckCallback_keeps (x : @Writer WriteBatch) :
  batch (fst (CheckCallback x)) = batch x /\
  sequence (fst (CheckCallback x)) = sequence x.
Proof.
  unfold CheckCallback. destruct (callback x); split; reflexivity.
Qed.

Lemma pipelined_sequences_spec : forall (ws : list (@Writer WriteBatch))
    next total,
  wrap64 next = next -> wrap64 total = total ->
  let r := pipelined_sequences ws next total in
  snd r = wrap64 (total + pipelined_total ws) /\
  snd (fst r) = wrap64 (next + pipelined_total ws) /\
  length (fst (fst r)) = length ws /\
  forall i x x',
    nth_error ws i = Some x -> nth_error (fst (fst r)) i = Some x' ->
    sequence x'
    = if pipelined_takes x
      then wrap64 (next + pipelined_total (firstn i ws))
      else sequence x.
Proof.
  induction ws as [|writer rest IH]; intros next total Hn Ht; cbv zeta.
  - cbn. rewrite !Z.add_0_r, Hn, Ht. repeat split.
    intros i x x' Hi. destruct i; discriminate.
  - cbn [pipelined_sequences].
    destruct (CheckCallback writer) as [w1 passed] eqn:Ec.
    assert (Hw1 : w1 = fst (CheckCallback writer)) by (rewrite Ec; reflexivity).
    assert (Hp : passed = snd (CheckCallback writer))
      by (rewrite Ec; reflexivity).
    destruct (CheckCallback_keeps writer) as [Kb Ks].
    rewrite <- Hw1 in Kb, Ks.
    assert (Htakes : pipelined_takes writer
                     = passed && ShouldWriteToMemtable w1)
      by (unfold pipelined_takes; rewrite <- Hw1, <- Hp; reflexivity).
    assert (Htot : forall l : list (@Writer WriteBatch),
               pipelined_total (writer :: l)
               = (if passed && ShouldWriteToMemtable w1
                  then Count (batch w1) else 0) + pipelined_total l).
    { intros l. unfold pipelined_total. cbn [map fold_right].
      unfold pipelined_count. rewrite Htakes, Kb. reflexivity. }
    rewrite Htot.
    destruct (passed && ShouldWriteToMemtable w1) eqn:Etake.
    + specialize (IH (wrap64 (next + Count (batch w1)))
                     (wrap64 (total + Count (batch w1)))
                     (wrap64_idem _) (wrap64_idem _)).
      cbv zeta in IH.
      destruct (pipelined_sequences rest (wrap64 (next + Count (batch w1)))
                  (wrap64 (total + Count (batch w1))))
        as [[rest' n'] t'].
      cbn [fst snd] in IH |- *. destruct IH as [H1 [H2 [H3 H4]]].
      split; [rewrite H1, wrap64_add_l; f_equal; lia|].
      split; [rewrite H2, wrap64_add_l; f_equal; lia|].
      split; [cbn; f_equal; exact H3|].
      intros i x x' Hi Hi'. destruct i as [|i]; cbn in Hi, Hi'.
      * injection Hi as <-. injection Hi' as <-. rewrite Htakes.
        cbn. rewrite Z.add_0_r. symmetry. exact Hn.
      * rewrite (H4 i x x' Hi Hi').
        destruct (pipelined_takes x); [|reflexivity].
        cbn [firstn]. rewrite Htot.
        rewrite wrap64_add_l. f_equal. lia.
    + specialize (IH next total Hn Ht). cbv zeta in IH.
      destruct (pipelined_sequences rest next total) as [[rest' n'] t'].
      cbn [fst snd] in IH |- *. destruct IH as [H1 [H2 [H3 H4]]].
      split; [rewrite H1; f_equal; lia|].
      split; [rewrite H2; f_equal; lia|].
      split; [cbn; f_equal; exact H3|].
      intros i x x' Hi Hi'. destruct i as [|i]; cbn in Hi, Hi'.
      * injection Hi as <-. injection Hi' as <-. rewrite Htakes.
        exact Ks.
      * rewrite (H4 i x x' Hi Hi').
        destruct (pipelined_takes x); [|reflexivity].
        cbn [firstn]. rewrite Htot. f_equal; lia.
Qed.

Lemma WriteToWAL_group db (g : list (@Writer WriteBatch)) nls nlds seq :
  map sequence (wal_group (WriteToWAL env db g nls nlds seq))
  = map sequence g /\
  length (wal_group (WriteToWAL env db g nls nlds seq)) = length g /\
  versions_ (wal_db (WriteToWAL env db g nls nlds seq)) = versions_ db.
Proof.
  assert (Hhead : forall (f : @Writer WriteBatch -> @Writer WriteBatch) l,
             (forall x, sequence (f x) = sequence x) ->
             map sequence (update_nth 0 f l) = map sequence l).
  { intros f [|x r] H; simpl; [reflexivity|]. rewrite H. reflexivity. }
  assert (Hc : forall m' (g' : list (@Writer WriteBatch))
                      (d : @DBImpl WriteBatch),
             versions_ (cache_state m' g' d) = versions_ d).
  { intros m' g' d. unfold cache_state.
    destruct (to_be_cached_state m') as [k|]; [|reflexivity].
    destruct (nth_error g' k); reflexivity. }
  assert (Hg : wal_group (WriteToWAL env db g nls nlds seq)
               = snd (stamp (MergeBatch g (tmp_batch_ db))
                        (assign_log_used (MergeBatch g (tmp_batch_ db)) g
                           (logfile_number_ db)) seq)).
  { unfold WriteToWAL.
    destruct (stamp _ _ seq) as [merged g2]. unfold WriteToWAL_batch.
    cbv zeta.
    match goal with
    | |- context [if ?c then ?a else (AddRecord env ?x, [])] =>
        destruct (if c then a else (AddRecord env x, [])) as [io ev]
    end. reflexivity. }
  split; [|split].
  - rewrite Hg. unfold stamp, assign_log_used.
    destruct (merged_batch (MergeBatch g (tmp_batch_ db))); cbn [snd].
    + rewrite !Hhead by reflexivity. reflexivity.
    + destruct (1 <? write_with_wal _); [|reflexivity].
      rewrite map_map. apply map_ext. reflexivity.
  - rewrite Hg. apply merged_group_length.
  - unfold WriteToWAL.
    destruct (stamp _ _ seq) as [merged g2]. unfold WriteToWAL_batch.
    cbv zeta.
    match goal with
    | |- context [if ?c then ?a else (AddRecord env ?x, [])] =>
        destruct (if c then a else (AddRecord env x, [])) as [io ev]
    end.
    destruct (merged_batch (MergeBatch g (tmp_batch_ db)));
      cbn [wal_db]; rewrite ?Hc; cbn; rewrite ?Hc; reflexivity.
Qed.

Lemma update_head_sequence (f : @Writer WriteBatch -> @Writer WriteBatch) l :
  (forall x, sequence (f x) = sequence x) ->
  map sequence (update_nth 0 f l) = map sequence l.
Proof. intros H. destruct l as [|x r]; simpl; [|rewrite H]; reflexivity. Qed.

(** The sequences of a group in the pipelined mode.  The first sequence
    of the group is the one after what UpdateLastSequence returns for the
    last sequence; a writer gets a sequence only when its pre-commit
    callback passes and it writes to a memtable, and it is the first
    sequence plus the counts of the batches of such writers before it;
    every other writer keeps the sequence it had.  The writer queue is
    told the last sequence of the group, and the leader of the log leaves
    the last sequence of the version set as it was: it is for the writers
    of the memtables to publish it.  All of it holds whether or not the
    write to the log succeeds. *)
Theorem pipelined_sequences_in_group_order write_options db
    (w : @Writer WriteBatch) others st :
  let pp := PreprocessWrite opts env write_options
              (negb (disableWAL write_options) && sync write_options) db in
  pp_outcome pp = Done st -> ok st = true ->
  let r := PipelinedWriteImpl_leader opts env UpdateLastSequence
             write_options db w others in
  let g := set_status st w :: others in
  pw_current_sequence r
  = wrap64 (UpdateLastSequence (LastSequence (versions_ (pp_db pp))) + 1) /\
  pw_total_count r = wrap64 (pipelined_total g) /\
  length (pw_group r) = length g /\
  (forall i x x',
      nth_error g i = Some x -> nth_error (pw_group r) i = Some x' ->
      sequence x'
      = if pipelined_takes x
        then wrap64 (pw_current_sequence r + pipelined_total (firstn i g))
        else sequence x) /\
  In (PwUpdateLastSequence
        (wrap64 (pw_current_sequence r + pw_total_count r - 1)))
     (pw_events r) /\
  versions_ (pw_db r) = versions_ (pp_db pp).
Proof.
  cbv zeta. intros Hpp Hok. unfold PipelinedWriteImpl_leader. cbv zeta.
  rewrite Hpp.
  generalize (PreprocessWrite opts env write_options
                (negb (disableWAL write_options) && sync write_options) db).
  intros pp.
  set (cur := wrap64 (UpdateLastSequence
                        (LastSequence
                           (versions_
                              (set_last_batch_group_size_
                                 (EnterAsBatchGroupLeader env) (pp_db pp))))
                      + 1)).
  assert (Hcur : wrap64 cur = cur) by apply wrap64_idem.
  cbn [status set_status]. rewrite Hok.
  pose proof (pipelined_sequences_spec (set_status st w :: others) cur 0
                Hcur eq_refl) as Hspec.
  cbv zeta in Hspec.
  destruct (pipelined_sequences (set_status st w :: others) cur 0)
    as [[g n] total].
  cbn [fst snd] in Hspec. destruct Hspec as [Ht [_ [Hlen Hseq]]].
  rewrite Z.add_0_l in Ht.
  set (db1 := if disable_wal (hd (set_status st w) g)
              then set_has_unpersisted_data_ true
                     (set_last_batch_group_size_
                        (EnterAsBatchGroupLeader env) (pp_db pp))
              else set_last_batch_group_size_ (EnterAsBatchGroupLeader env)
                     (pp_db pp)).
  assert (Hdb1 : versions_ db1 = versions_ (pp_db pp))
    by (unfold db1; destruct (disable_wal _); reflexivity).
  destruct (WriteToWAL_group db1 g (pp_need_log_sync pp)
              (negb (disableWAL write_options) && sync write_options
               && negb (log_dir_synced_ db)) cur) as [Wseq [Wlen Wver]].
  match goal with
  | |- context [if ?c then (wal_io_s ?r, ?a, ?b, ?d, ?e) else ?x] =>
      assert (Hwal :
        map sequence (snd (fst (fst (fst
          (if c then (wal_io_s r, a, b, d, e) else x))))) = map sequence g
        /\ versions_ (snd (fst
          (if c then (wal_io_s r, a, b, d, e) else x)))
           = versions_ (pp_db pp));
      [destruct c; cbn [fst snd];
       [rewrite update_head_sequence by reflexivity; rewrite Wver; auto
       |auto]
      |destruct (if c then (wal_io_s r, a, b, d, e) else x)
         as [[[[io_s g2] lu] db2] ev_wal]]
  end.
  cbn [fst snd] in Hwal. destruct Hwal as [Hg2 Hdb2].
  match goal with
  | |- context [if pp_need_log_sync pp then ?a else ?b] =>
      assert (Hsync :
        map sequence (fst (if pp_need_log_sync pp then a else b))
        = map sequence g);
      [destruct (pp_need_log_sync pp); [|exact Hg2];
       destruct (ok (status (hd (hd (set_status st w) g) g2)));
       cbn [fst]; [rewrite update_head_sequence by reflexivity|];
       exact Hg2
      |destruct (if pp_need_log_sync pp then a else b) as [g3 ev_sync]]
  end.
  cbn [fst] in Hsync.
  cbn [pw_current_sequence pw_total_count pw_group pw_events pw_db].
  split; [reflexivity|]. split; [exact Ht|].
  split.
  { apply (f_equal (@length Z)) in Hsync. rewrite !length_map in Hsync.
    rewrite Hsync. exact Hlen. }
  split.
  { intros i x x' Hi Hi'.
    assert (Hy : exists y, nth_error g i = Some y /\ sequence y = sequence x').
    { apply (f_equal (fun l => nth_error l i)) in Hsync.
      rewrite !nth_error_map, Hi' in Hsync. cbn in Hsync.
      destruct (nth_error g i) as [y|]; [|discriminate].
      injection Hsync as Hs. eauto. }
    destruct Hy as [y [Hy Hs]]. rewrite <- Hs. apply (Hseq i x y Hi Hy). }
  split; [|exact Hdb2].
  apply in_or_app. right. apply in_or_app. right. cbn [app].
  left. reflexivity.
Qed.

(** A write whose preprocessing fails in the pipelined mode.  No
    pre-commit callback is run, no sequence is given, nothing is appended
    to the log and no log is marked: the leader enters the group, tells
    the writer queue the last sequence, checks the status, and leaves the
    group with the failure, which every writer of the group is handed. *)
Theorem pipelined_failed_preprocess_writes_nothing write_options db
    (w : @Writer WriteBatch) others st :
  let pp := PreprocessWrite opts env write_options
              (negb (disableWAL write_options) && sync write_options) db in
  pp_outcome pp = Done st -> ok st = false ->
  let r := PipelinedWriteImpl_leader opts env UpdateLastSequence
             write_options db w others in
  pw_outcome r = Done st /\
  pw_group r = set_status st w :: others /\
  pw_log_used r = None /\
  pw_total_count r = 0 /\
  pw_db r
  = set_last_batch_group_size_ (EnterAsBatchGroupLeader env) (pp_db pp) /\
  pw_events r
  = (match callback w with
     | Some cb => if negb (AllowWriteBatching cb)
                  then [PwWaitForMemTableWriters] else []
     | None => []
     end
     ++ [PwEvent EvMutexLock] ++ map PwEvent (pp_events pp))
    ++ [PwEvent EvMutexUnlock;
        PwEvent (EvEnterAsBatchGroupLeader write_thread_);
        PwUpdateLastSequence (LastSequence (versions_ (pp_db pp)))]
    ++ map PwEvent (if negb (CallbackFailed w)
                    then WriteStatusCheck opts st else [])
    ++ [PwEvent (EvExitAsBatchGroupLeader write_thread_ st)].
Proof.
  cbv zeta. intros Hpp Hbad.
  pose proof (PreprocessWrite_failure_clears_sync opts env write_options
                (negb (disableWAL write_options) && sync write_options)
                db st Hpp Hbad) as Hclr.
  unfold PipelinedWriteImpl_leader. cbv zeta. rewrite Hpp, Hclr.
  cbn [status set_status]. rewrite Hbad. cbv iota beta.
  cbn [hd status set_status]. rewrite Hbad. cbn [andb]. cbv iota beta.
  cbn [hd status set_status negb ok OK code].
  assert (Hcf : CallbackFailed (set_status st w) = CallbackFailed w)
    by reflexivity.
  rewrite Hcf. cbn [app]. rewrite app_nil_r.
  repeat split.
Qed.

Lemma pipelined_sequences_head (x : @Writer WriteBatch) rest n t :
  exists x' rest',
    fst (fst (pipelined_sequences (x :: rest) n t)) = x' :: rest' /\
    status x' = status x.
Proof.
  cbn [pipelined_sequences].
  assert (Hs : status (fst (CheckCallback x)) = status x)
    by (unfold CheckCallback; destruct (callback x); reflexivity).
  destruct (CheckCallback x) as [w1 passed]. cbn [fst] in Hs.
  destruct (passed && ShouldWriteToMemtable w1);
    match goal with |- context [pipelined_sequences rest ?a ?b] =>
      destruct (pipelined_sequences rest a b) as [[rest' n'] t'] end;
    cbn [fst]; eexists; eexists; (split; [reflexivity|exact Hs]).
Qed.

(** A failed write to the log in the pipelined mode.  The status of the
    write is the one the group is left with; the logs are never marked as
    synced, and they are marked as not synced when a sync was asked for;
    and unless the pre-commit callback of the leader failed, the failure
    goes through IOStatusCheck, which records it as a background error
    when it is fenced or paranoid checks ask for it. *)
Theorem pipelined_wal_error_returned write_options db
    (w : @Writer WriteBatch) others st :
  let pp := PreprocessWrite opts env write_options
              (negb (disableWAL write_options) && sync write_options) db in
  pp_outcome pp = Done st -> ok st = true ->
  let r := PipelinedWriteImpl_leader opts env UpdateLastSequence
             write_options db w others in
  ok (pw_io_s r) = false ->
  disableWAL write_options = false /\
  pw_outcome r = Done (pw_io_s r) /\
  ~ In (PwEvent EvMarkLogsSynced) (pw_events r) /\
  (pp_need_log_sync pp = true ->
   In (PwEvent EvMarkLogsNotSynced) (pw_events r)) /\
  (forall x, hd_error (pw_group r) = Some x -> CallbackFailed x = false ->
     forall e, In e (IOStatusCheck opts (pw_io_s r)) ->
               In (PwEvent e) (pw_events r)).
Proof.
  cbv zeta. intros Hpp Hok. unfold PipelinedWriteImpl_leader. cbv zeta.
  rewrite Hpp.
  destruct (PreprocessWrite_events opts env write_options
              (negb (disableWAL write_options) && sync write_options) db)
    as [tail [Hpe Htail]].
  revert Hpe.
  generalize (PreprocessWrite opts env write_options
                (negb (disableWAL write_options) && sync write_options) db).
  intros pp Hpe.
  assert (Hppev : ~ In EvMarkLogsSynced (pp_events pp)).
  { rewrite Hpe. intros Hin. apply in_app_or in Hin.
    destruct Hin as [Hin|Hin].
    - destruct (switch_test opts env db); [|destruct Hin].
      destruct Hin as [E|[E|[]]]; discriminate.
    - rewrite Forall_forall in Htail. specialize (Htail _ Hin).
      discriminate. }
  cbn [status set_status]. rewrite Hok.
  match goal with
  | |- context [pipelined_sequences (set_status st w :: others) ?a 0] =>
      destruct (pipelined_sequences_head (set_status st w) others a 0)
        as [x1 [rest1 [Hg Hx1]]];
      destruct (pipelined_sequences (set_status st w :: others) a 0)
        as [[g n] total]
  end.
  cbn [fst] in Hg. subst g.
  assert (Hhd : status (hd (set_status st w) (x1 :: rest1)) = st)
    by exact Hx1.
  rewrite Hhd, Hok. cbn [andb].
  destruct (disableWAL write_options) eqn:Hdw; cbn [negb].
  { match goal with
    | |- context [if pp_need_log_sync pp then ?a else ?b] =>
        destruct (if pp_need_log_sync pp then a else b) as [g3 ev_sync]
    end.
    cbn [pw_io_s]. intros H. discriminate. }
  match goal with
  | |- context [WriteToWAL env ?d (x1 :: rest1) ?a ?b ?c] =>
      destruct (WriteToWAL_events env d (x1 :: rest1) a b c)
        as [rest [Hwe Hrest]];
      destruct (WriteToWAL_group d (x1 :: rest1) a b c) as [_ [Wlen _]];
      revert Hwe Wlen; generalize (WriteToWAL env d (x1 :: rest1) a b c)
  end.
  intros r Hwe Wlen.
  assert (Hwal : ~ In EvMarkLogsSynced (wal_events r)).
  { rewrite Hwe. intros [E|Hin]; [discriminate|].
    rewrite Forall_forall in Hrest. specialize (Hrest _ Hin).
    discriminate. }
  destruct (wal_group r) as [|x0 rest0] eqn:Egr; [discriminate Wlen|].
  cbn [update_nth hd status set_status pw_io_s].
  destruct (ok (wal_io_s r)) eqn:Hio.
  { destruct (pp_need_log_sync pp); cbn [pw_io_s]; intros H; congruence. }
  cbn [negb]. intros _.
  split; [reflexivity|].
  assert (Hcheck : forall e, In e (IOStatusCheck opts (wal_io_s r)) ->
                             e <> EvMarkLogsSynced).
  { intros e. unfold IOStatusCheck.
    destruct (_ || _); [|intros []].
    intros [<-|[]]. discriminate. }
  destruct (pp_need_log_sync pp); cbn [hd status set_status pw_outcome
                                       pw_events pw_group hd_error].
  - split; [reflexivity|]. split; [|split].
    + intros Hin.
      repeat (apply in_app_or in Hin; destruct Hin as [Hin|Hin]).
      * destruct (callback w) as [cb|]; [|destruct Hin].
        destruct (negb (AllowWriteBatching cb)); [|destruct Hin].
        destruct Hin as [E|[]]; discriminate.
      * destruct Hin as [E|[]]; discriminate.
      * apply in_map_iff in Hin. destruct Hin as [e [E Hin]].
        injection E as ->. contradiction.
      * destruct Hin as [E|[E|[E|[]]]]; discriminate.
      * destruct Hin as [E|[]]; discriminate.
      * apply in_map_iff in Hin. destruct Hin as [e [E Hin]].
        injection E as ->.
        apply in_app_or in Hin. destruct Hin as [Hin|Hin]; [contradiction|].
        apply in_app_or in Hin. destruct Hin as [Hin|Hin].
        -- destruct (negb (CallbackFailed _)); [|destruct Hin].
           exact (Hcheck _ Hin eq_refl).
        -- destruct Hin as [E|[E|[E|[]]]]; discriminate.
      * destruct Hin as [E|[]]; discriminate.
    + intros _. do 3 (apply in_or_app; right). apply in_or_app. left.
      apply in_map. do 2 (apply in_or_app; right).
      right. left. reflexivity.
    + intros x Hx Hcf e He. injection Hx as <-.
      do 3 (apply in_or_app; right). apply in_or_app. left.
      apply in_map. apply in_or_app. right. apply in_or_app. left.
      rewrite Hcf. exact He.
  - split; [reflexivity|]. split; [|split].
    + intros Hin.
      repeat (apply in_app_or in Hin; destruct Hin as [Hin|Hin]).
      * destruct (callback w) as [cb|]; [|destruct Hin].
        destruct (negb (AllowWriteBatching cb)); [|destruct Hin].
        destruct Hin as [E|[]]; discriminate.
      * destruct Hin as [E|[]]; discriminate.
      * apply in_map_iff in Hin. destruct Hin as [e [E Hin]].
        injection E as ->. contradiction.
      * destruct Hin as [E|[E|[E|[]]]]; discriminate.
      * destruct Hin as [E|[]]; discriminate.
      * apply in_map_iff in Hin. destruct Hin as [e [E Hin]].
        injection E as ->.
        apply in_app_or in Hin. destruct Hin as [Hin|Hin]; [contradiction|].
        apply in_app_or in Hin. destruct Hin as [Hin|Hin]; [|destruct Hin].
        destruct (negb (CallbackFailed _)); [|destruct Hin].
        exact (Hcheck _ Hin eq_refl).
      * destruct Hin as [E|[]]; discriminate.
    + discriminate.
    + intros x Hx Hcf e He. injection Hx as <-.
      do 3 (apply in_or_app; right). apply in_or_app. left.
      apply in_map. apply in_or_app. right. apply in_or_app. left.
      rewrite Hcf. exact He.
Qed.

End PipelinedFacts.

Lemma pipelined_sequences_in_group_order_witness :
  let pp := PreprocessWrite default_options calm default_write_options
              (negb (disableWAL default_write_options) && sync default_write_options) fresh_db in
  let r := PipelinedWriteImpl_leader default_options calm (fun s : Z => s)
             default_write_options fresh_db solo_put [conflicting_put; solo_put] in
  let g := set_status OK solo_put :: [conflicting_put; solo_put] in
  pw_current_sequence r
  = wrap64 ((fun s : Z => s) (LastSequence (versions_ (pp_db pp))) + 1) /\
  pw_total_count r = wrap64 (pipelined_total g) /\
  length (pw_group r) = length g /\
  (forall i x x',
      nth_error g i = Some x -> nth_error (pw_group r) i = Some x' ->
      sequence x'
      = if pipelined_takes x
        then wrap64 (pw_current_sequence r + pipelined_total (firstn i g))
        else sequence x) /\
  In (PwUpdateLastSequence
        (wrap64 (pw_current_sequence r + pw_total_count r - 1)))
     (pw_events r) /\
  versions_ (pw_db r) = versions_ (pp_db pp).
Proof.
  apply (pipelined_sequences_in_group_order default_options calm
           (fun s : Z => s) default_write_options fresh_db solo_put
           [conflicting_put; solo_put] OK); reflexivity.
Defined.

Lemma pipelined_failed_preprocess_writes_nothing_witness :
  let pp := PreprocessWrite default_options halted default_write_options
              (negb (disableWAL default_write_options) && sync default_write_options) fresh_db in
  let r := PipelinedWriteImpl_leader default_options halted (fun s : Z => s)
             default_write_options fresh_db solo_put [conflicting_put; solo_put] in
  pw_outcome r = Done (IOError "disk full") /\
  pw_group r = set_status (IOError "disk full") solo_put :: [conflicting_put; solo_put] /\
  pw_log_used r = None /\
  pw_total_count r = 0 /\
  pw_db r
  = set_last_batch_group_size_ (EnterAsBatchGroupLeader halted) (pp_db pp) /\
  pw_events r
  = (match callback solo_put with
     | Some cb => if negb (AllowWriteBatching cb)
                  then [PwWaitForMemTableWriters] else []
     | None => []
     end
     ++ [PwEvent EvMutexLock] ++ map PwEvent (pp_events pp))
    ++ [PwEvent EvMutexUnlock;
        PwEvent (EvEnterAsBatchGroupLeader write_thread_);
        PwUpdateLastSequence (LastSequence (versions_ (pp_db pp)))]
    ++ map PwEvent (if negb (CallbackFailed solo_put)
                    then WriteStatusCheck default_options (IOError "disk full") else [])
    ++ [PwEvent (EvExitAsBatchGroupLeader write_thread_ (IOError "disk full"))].
Proof.
  apply (pipelined_failed_preprocess_writes_nothing default_options halted
           (fun s : Z => s) default_write_options fresh_db solo_put
           [conflicting_put; solo_put] (IOError "disk full")); reflexivity.
Defined.

Lemma pipelined_wal_error_returned_witness :
  let pp := PreprocessWrite default_options fenced default_write_options
              (negb (disableWAL default_write_options) && sync default_write_options) fresh_db in
  let r := PipelinedWriteImpl_leader default_options fenced (fun s : Z => s)
             default_write_options fresh_db solo_put [conflicting_put; solo_put] in
  disableWAL default_write_options = false /\
  pw_outcome r = Done (pw_io_s r) /\
  ~ In (PwEvent EvMarkLogsSynced) (pw_events r) /\
  (pp_need_log_sync pp = true ->
   In (PwEvent EvMarkLogsNotSynced) (pw_events r)) /\
  (forall x, hd_error (pw_group r) = Some x -> CallbackFailed x = false ->
     forall e, In e (IOStatusCheck default_options (pw_io_s r)) ->
               In (PwEvent e) (pw_events r)).
Proof.
  apply (pipelined_wal_error_returned default_options fenced
           (fun s : Z => s) default_write_options fresh_db solo_put
           [conflicting_put; solo_put] OK); reflexivity.
Defined.

(** ** The stall barrier and the mutex in DelayWrite *)

Section DelayDiscipline.
Variable env : Env.

Lemma stall_state_app ev1 : forall in_stall held ev2,
  stall_state in_stall held (ev1 ++ ev2)
  = match stall_state in_stall held ev1 with
    | Some (i, h) => stall_state i h ev2
    | None => None
    end.
Proof.
  induction ev1 as [|e r IH]; intros in_stall held ev2; [reflexivity|].
  destruct e; cbn [app stall_state]; try apply IH;
    match goal with |- context [if ?c then _ else _] => destruct c end;
    try reflexivity; apply IH.
Qed.

Lemma sleep_loop_stall stall_end obs :
  stall_state true false (snd (sleep_loop stall_end obs)) = Some (true, false).
Proof.
  induction obs as [|[needs now] rest IH]; simpl; [reflexivity|].
  destruct needs; [|reflexivity].
  destruct (stall_end <=? now); [reflexivity|].
  destruct (sleep_loop stall_end rest) as [[over slept] ev].
  simpl in *. exact IH.
Qed.

Lemma bg_wait_loop_stall no_slow later : forall cur,
  let r := bg_wait_loop no_slow cur later in
  match fst (fst r) with
  | WaitBlocked => stall_state false true (snd r) = Some (true, true)
  | _ => stall_state false true (snd r) = Some (false, true)
  end /\
  (no_slow = true -> snd (fst r) = false).
Proof.
  induction later as [|nxt rest IH]; intros cur; cbv zeta; simpl.
  - destruct (ok (GetBGError cur) && IsStopped cur);
      [|split; [reflexivity|auto]].
    destruct no_slow; (split; [reflexivity|]); [auto|discriminate].
  - destruct (ok (GetBGError cur) && IsStopped cur);
      [|split; [reflexivity|auto]].
    destruct no_slow; [split; [reflexivity|auto]|].
    specialize (IH nxt). cbv zeta in IH.
    destruct (bg_wait_loop false nxt rest) as [[x d] ev].
    simpl in *. split; [apply IH|discriminate].
Qed.

(** DelayWrite keeps to the stall barrier and to the mutex.  It is
    entered with the mutex held and no barrier set; whenever it returns,
    the mutex is held again and every barrier it set is lifted; it sleeps
    only inside a barrier with the mutex released, and waits on the
    condition variable only inside a barrier with the mutex held; when
    it never returns it is inside a barrier.  A write with no_slowdown is
    never delayed, as the assertion before the return says. *)
Theorem DelayWrite_restores_mutex_and_barrier num_bytes write_options :
  let r := DelayWrite env num_bytes write_options in
  match dw_outcome r with
  | Done _ => stall_state false true (dw_events r) = Some (false, true)
  | Blocked => exists held,
                 stall_state false true (dw_events r) = Some (true, held)
  end /\
  delayed r && no_slowdown write_options = false.
Proof.
  cbv zeta.
  assert (Htail : forall cur was before,
    stall_state false true before = Some (false, true) ->
    was && no_slowdown write_options = false ->
    let r := delay_tail env write_options cur was before in
    match dw_outcome r with
    | Done _ => stall_state false true (dw_events r) = Some (false, true)
    | Blocked => exists held,
                   stall_state false true (dw_events r) = Some (true, held)
    end /\
    delayed r && no_slowdown write_options = false).
  { intros cur was before Hb Hw. cbv zeta. unfold delay_tail.
    pose proof (bg_wait_loop_stall (no_slowdown write_options)
                  (wakeups env) cur) as H.
    cbv zeta in H.
    destruct (bg_wait_loop (no_slowdown write_options) cur (wakeups env))
      as [[x d] ev].
    cbn [fst snd] in H. destruct H as [H1 H2].
    assert (Hd : (was || d) && no_slowdown write_options = false).
    { destruct (no_slowdown write_options).
      - rewrite (H2 eq_refl). rewrite orb_false_r. exact Hw.
      - apply andb_false_r. }
    destruct x; cbn [dw_outcome dw_events delayed];
      rewrite stall_state_app, Hb; (split; [|exact Hd]); eauto. }
  unfold DelayWrite. cbv zeta.
  destruct (0 <? GetDelay env num_bytes).
  - destruct (no_slowdown write_options) eqn:Hns.
    + cbn. split; reflexivity.
    + pose proof (sleep_loop_stall
                    (wrap64 (start_time env + GetDelay env num_bytes))
                    (ticks env)) as Hs.
      destruct (sleep_loop _ (ticks env)) as [[over slept] ev].
      cbn [snd] in Hs. destruct over.
      * apply Htail.
        -- cbn [stall_state negb andb]. rewrite stall_state_app, Hs.
           reflexivity.
        -- apply andb_false_r.
      * cbn [dw_outcome dw_events delayed]. split; [|apply andb_false_r].
        exists false. cbn [stall_state negb andb]. exact Hs.
  - apply Htail; reflexivity.
Qed.

End DelayDiscipline.

(** ** The recoverable state a write leaves in the cache *)

Section PersistentStateFacts.
Context {WriteBatch : Type} {WBI : WriteBatchInternal WriteBatch}.
Variable env : Env.

Lemma merge_loop_cached : forall (ws : list (@Writer WriteBatch)) pos merged
    n cached,
  ((forall x, In x ws -> persists x = false) ->
   to_be_cached_state (merge_loop ws pos merged n cached) = cached) /\
  (forall i, last_persisting ws i ->
             to_be_cached_state (merge_loop ws pos merged n cached)
             = Some (pos + i)%nat).
Proof.
  induction ws as [|w rest IH]; intros pos merged n cached.
  - split; [reflexivity|]. intros i [[x [Hx _]] _]. destruct i; discriminate.
  - cbn [merge_loop].
    assert (Hrest : forall i, last_persisting (w :: rest) (S i) ->
                              last_persisting rest i).
    { intros i [[x [Hx Hp]] Hl]. split; [exists x; split; assumption|].
      intros j y Hj Hy. apply (Hl (S j) y); [lia|exact Hy]. }
    assert (Hhead : last_persisting (w :: rest) 0 ->
                    persists w = true /\
                    forall x, In x rest -> persists x = false).
    { intros [[x [Hx Hp]] Hl]. injection Hx as <-. split; [exact Hp|].
      intros x Hin. apply In_nth_error in Hin. destruct Hin as [j Hj].
      apply (Hl (S j) x); [lia|exact Hj]. }
    unfold persists in *.
    destruct (CallbackFailed w) eqn:Hcf; cbn [negb andb] in *.
    + destruct (IH (S pos) merged n cached) as [IH1 IH2]. split.
      * intros Hall. apply IH1. intros x Hin. apply Hall. right. exact Hin.
      * intros i Hi. destruct i as [|i].
        -- destruct (Hhead Hi) as [Hc _]. discriminate.
        -- rewrite (IH2 i (Hrest i Hi)). f_equal. lia.
    + destruct (IsLatestPersistentState (batch w)) eqn:Hl.
      * destruct (IH (S pos) (Append merged (batch w) true) (wrap64 (n + 1))
                    (Some pos)) as [IH1 IH2]. split.
        -- intros Hall. specialize (Hall w (or_introl eq_refl)).
           rewrite Hcf, Hl in Hall. discriminate.
        -- intros i Hi. destruct i as [|i].
           ++ destruct (Hhead Hi) as [_ Hno]. rewrite (IH1 Hno).
              f_equal. lia.
           ++ rewrite (IH2 i (Hrest i Hi)). f_equal. lia.
      * destruct (IH (S pos) (Append merged (batch w) true) (wrap64 (n + 1))
                    cached) as [IH1 IH2]. split.
        -- intros Hall. apply IH1. intros x Hin. apply Hall. right. exact Hin.
        -- intros i Hi. destruct i as [|i].
           ++ destruct (Hhead Hi) as [Hc _]. cbn in Hc. congruence.
           ++ rewrite (IH2 i (Hrest i Hi)). f_equal. lia.
Qed.

Lemma MergeBatch_cached (g : list (@Writer WriteBatch)) tmp :
  ((forall x, In x g -> persists x = false) ->
   to_be_cached_state (MergeBatch g tmp) = None) /\
  (forall i, last_persisting g i ->
             to_be_cached_state (MergeBatch g tmp) = Some i).
Proof.
  pose proof (merge_loop_cached g 0 tmp 0 None) as Hloop.
  unfold MergeBatch.
  destruct g as [|leader [|second rest]]; try exact Hloop.
  destruct (negb (CallbackFailed leader)
            && WalTerminationPoint_is_cleared (batch leader)) eqn:Hc;
    [|exact Hloop].
  apply andb_prop in Hc. destruct Hc as [Hcf _].
  cbn [to_be_cached_state]. split.
  - intros Hall. specialize (Hall leader (or_introl eq_refl)).
    unfold persists in Hall. rewrite Hcf in Hall. cbn in Hall.
    rewrite Hall. reflexivity.
  - intros i [[x [Hx Hp]] _]. destruct i as [|[|i]]; try discriminate.
    injection Hx as <-. unfold persists in Hp. rewrite Hcf in Hp.
    cbn in Hp. rewrite Hp. reflexivity.
Qed.

Lemma cache_state_spec m (g' : list (@Writer WriteBatch))
    (d : @DBImpl WriteBatch) :
  match to_be_cached_state m with
  | Some k =>
      forall x, nth_error g' k = Some x ->
                cached_recoverable_state_ (cache_state m g' d) = batch x /\
                cached_recoverable_state_empty_ (cache_state m g' d) = false
  | None =>
      cached_recoverable_state_ (cache_state m g' d)
      = cached_recoverable_state_ d /\
      cached_recoverable_state_empty_ (cache_state m g' d)
      = cached_recoverable_state_empty_ d
  end.
Proof.
  unfold cache_state. destruct (to_be_cached_state m) as [k|]; [|auto].
  intros x Hx. rewrite Hx. split; reflexivity.
Qed.

Lemma stamped_group_batch (g : list (@Writer WriteBatch)) tmp lf seq i x :
  nth_error g i = Some x ->
  exists x',
    nth_error (snd (stamp (MergeBatch g tmp)
                      (assign_log_used (MergeBatch g tmp) g lf) seq)) i
    = Some x' /\
    batch x' = if written_in_place g then SetSequence (batch x) seq
               else batch x.
Proof.
  intros Hx. unfold stamp, assign_log_used.
  assert (Hloop : forall ws : list (@Writer WriteBatch),
             nth_error ws i = Some x ->
             exists x',
               nth_error
                 (snd (match merged_batch (merge_loop ws 0 tmp 0 None) with
                       | LeaderBatch b =>
                           (SetSequence b seq,
                            update_nth 0 (set_batch (SetSequence b seq))
                              match merged_batch (merge_loop ws 0 tmp 0 None)
                              with
                              | LeaderBatch _ =>
                                  update_nth 0 (set_log_used lf) ws
                              | TmpBatch _ =>
                                  if 1 <? write_with_wal
                                            (merge_loop ws 0 tmp 0 None)
                                  then map (set_log_used lf) ws else ws
                              end)
                       | TmpBatch b =>
                           (SetSequence b seq,
                            match merged_batch (merge_loop ws 0 tmp 0 None)
                            with
                            | LeaderBatch _ =>
                                update_nth 0 (set_log_used lf) ws
                            | TmpBatch _ =>
                                if 1 <? write_with_wal
                                          (merge_loop ws 0 tmp 0 None)
                                then map (set_log_used lf) ws else ws
                            end)
                       end)) i = Some x' /\ batch x' = batch x).
  { intros ws Hws. rewrite merge_loop_scratch. cbn [snd].
    destruct (1 <? write_with_wal _).
    - rewrite nth_error_map, Hws. eexists. split; reflexivity.
    - exists x. split; [exact Hws|reflexivity]. }
  unfold MergeBatch, written_in_place.
  destruct g as [|leader [|second rest]]; try (apply Hloop; exact Hx).
  destruct (negb (CallbackFailed leader)
            && WalTerminationPoint_is_cleared (batch leader));
    [|apply Hloop; exact Hx].
  destruct i as [|i]; [|destruct i; discriminate].
  injection Hx as <-. cbn. eexists. split; reflexivity.
Qed.

(** What a write to the log leaves in the cache of the recoverable
    state.  When no writer of the group whose pre-commit callback did
    not fail has a batch marked as the latest persistent state, the
    cache is left as it was; otherwise the cache is no longer empty and
    holds the batch of the last such writer of the group: stamped with
    the sequence of the write when the group was written in place, from
    the batch of its only writer, and as the writer brought it when the
    group was copied into the scratch batch.  This holds whether or not
    the write to the log succeeded, and for both write queues. *)
Theorem latest_persistent_state_cached (db : @DBImpl WriteBatch)
    (g : list (@Writer WriteBatch)) :
  (forall nls nlds seq,
      let r := WriteToWAL env db g nls nlds seq in
      ((forall x, In x g -> persists x = false) ->
       cached_recoverable_state_ (wal_db r) = cached_recoverable_state_ db /\
       cached_recoverable_state_empty_ (wal_db r)
       = cached_recoverable_state_empty_ db) /\
      (forall i x, nth_error g i = Some x -> last_persisting g i ->
         cached_recoverable_state_empty_ (wal_db r) = false /\
         cached_recoverable_state_ (wal_db r)
         = if written_in_place g then SetSequence (batch x) seq
           else batch x)) /\
  (forall seq_inc,
      let r := ConcurrentWriteToWAL env db g seq_inc in
      ((forall x, In x g -> persists x = false) ->
       cached_recoverable_state_ (wal_db r) = cached_recoverable_state_ db /\
       cached_recoverable_state_empty_ (wal_db r)
       = cached_recoverable_state_empty_ db) /\
      (forall i x, nth_error g i = Some x -> last_persisting g i ->
         cached_recoverable_state_empty_ (wal_db r) = false /\
         cached_recoverable_state_ (wal_db r)
         = if written_in_place g
           then SetSequence (batch x)
                  (wrap64 (last_allocated_sequence_ (versions_ db) + 1))
           else batch x)).
Proof.
  split.
  - intros nls nlds seq. cbv zeta.
    destruct (MergeBatch_cached g (tmp_batch_ db)) as [Hnone Hsome].
    unfold WriteToWAL.
    pose proof (fun i x => stamped_group_batch g (tmp_batch_ db)
                             (logfile_number_ db) seq i x) as Hst.
    destruct (stamp _ _ seq) as [merged g2]. cbn [snd] in Hst.
    unfold WriteToWAL_batch. cbv zeta.
    match goal with
    | |- context [if ?c then ?a else (AddRecord env ?x, [])] =>
        destruct (if c then a else (AddRecord env x, [])) as [io ev]
    end.
    cbn [wal_db].
    match goal with
    | |- context [cache_state ?m ?g' ?d] =>
        pose proof (cache_state_spec m g' d) as Hc;
        assert (Hd : cached_recoverable_state_ d = cached_recoverable_state_ db
                     /\ cached_recoverable_state_empty_ d
                         = cached_recoverable_state_empty_ db)
          by (destruct (merged_batch m); split; reflexivity);
        generalize dependent (cache_state m g' d)
    end.
    intros d3 Hc.
    assert (Hfin : forall d' : @DBImpl WriteBatch,
      cached_recoverable_state_
        (match merged_batch (MergeBatch g (tmp_batch_ db)) with
         | TmpBatch _ => set_tmp_batch_ (Clear (tmp_batch_ d')) d'
         | LeaderBatch _ => d'
         end) = cached_recoverable_state_ d' /\
      cached_recoverable_state_empty_
        (match merged_batch (MergeBatch g (tmp_batch_ db)) with
         | TmpBatch _ => set_tmp_batch_ (Clear (tmp_batch_ d')) d'
         | LeaderBatch _ => d'
         end) = cached_recoverable_state_empty_ d')
      by (intros d'; destruct (merged_batch _); split; reflexivity).
    destruct (Hfin d3) as [-> ->]. split.
    + intros Hall. rewrite (Hnone Hall) in Hc. destruct Hc as [-> ->].
      exact Hd.
    + intros i x Hx Hlast. rewrite (Hsome i Hlast) in Hc.
      destruct (Hst i x Hx) as [x' [Hx' Hb]].
      destruct (Hc x' Hx') as [-> ->]. split; [reflexivity|exact Hb].
  - intros seq_inc. cbv zeta.
    destruct (MergeBatch_cached g new_batch) as [Hnone Hsome].
    unfold ConcurrentWriteToWAL.
    pose proof (fun i x => stamped_group_batch g new_batch
                             (logfile_number_ db)
                             (wrap64 (last_allocated_sequence_ (versions_ db)
                                      + 1)) i x) as Hst.
    cbn [FetchAddLastAllocatedSequence].
    destruct (stamp _ _ _) as [merged g2]. cbn [snd] in Hst.
    unfold WriteToWAL_batch. cbv zeta. cbn [wal_db].
    match goal with
    | |- context [cache_state ?m ?g' ?d] =>
        pose proof (cache_state_spec m g' d) as Hc;
        assert (Hd : cached_recoverable_state_ d = cached_recoverable_state_ db
                     /\ cached_recoverable_state_empty_ d
                         = cached_recoverable_state_empty_ db)
          by (split; reflexivity);
        generalize dependent (cache_state m g' d)
    end.
    intros d3 Hc. split.
    + intros Hall. rewrite (Hnone Hall) in Hc. destruct Hc as [-> ->].
      exact Hd.
    + intros i x Hx Hlast. rewrite (Hsome i Hlast) in Hc.
      destruct (Hst i x Hx) as [x' [Hx' Hb]].
      destruct (Hc x' Hx') as [-> ->]. split; [reflexivity|exact Hb].
Qed.

End PersistentStateFacts.

(** ** Groups written with the WAL disabled *)

Section UnloggedGroups.
Context {WriteBatch : Type} {WBI : WriteBatchInternal WriteBatch}.
Variable opts : DBOptions.
Variable env : Env.

(** The sequence increment the leader computes in its first loop is the
    total of what the writers of the group use up. *)
Lemma commit_group_increment write_options dm last nls nlds db
    (g : list (@Writer WriteBatch)) :
  Forall (fun x => ok (callback_status x) = true) g ->
  cm_seq_inc (commit_group opts env write_options dm last nls nlds db g)
  = wrap64 (total_consumed opts g).
Proof.
  intros Hfresh. unfold commit_group.
  destruct (check_group_totals opts g Hfresh
              (mkTotals 0 0 0 (allow_concurrent_memtable_write opts
                               && (1 <? Z.of_nat (length g))))
              0 0 eq_refl eq_refl) as [Hvb Htc].
  destruct (check_group g _) as [g1 t]. cbn [fst snd] in Hvb, Htc.
  cbv zeta.
  destruct (if ok (wal_io_s _) then _ else _) as [[g3 st] ev_cb].
  destruct (if ok st then _ else _) as [[[g4 ip] su] em].
  cbn [cm_seq_inc].
  destruct (seq_per_batch_ opts);
    [rewrite Hvb by reflexivity | rewrite Htc by reflexivity]; reflexivity.
Qed.

Lemma total_batches_used_checked (ws : list (@Writer WriteBatch)) :
  fold_right Z.add 0
    (map (fun x => if CallbackFailed x then 0 else batch_cnt x)
         (map (fun x => fst (CheckCallback x)) ws))
  = total_batches_used ws.
Proof.
  unfold total_batches_used. rewrite map_map. f_equal.
  apply map_ext. intros x. unfold batches_used, precommit_failed.
  destruct (CallbackFailed (fst (CheckCallback x))); [reflexivity|].
  unfold CheckCallback. destruct (callback x); reflexivity.
Qed.

(** C10. A group advances the last-allocated sequence by its sequence
    increment whether or not it is written to the log, and a group written
    with the WAL disabled appends nothing to the log.  On the default path
    with two write queues the increment is the total of what the writers
    use up (the records of the writers that write to a memtable, or the
    batch counts with seq_per_batch_, of the writers whose pre-commit
    callback did not fail); on the WAL-only path it is the total of the
    batch counts of the writers whose callback did not fail when an order
    is assigned, and zero otherwise.  (The writers are as they are
    created, with an OK callback status.) *)
Theorem disable_wal_still_allocates :
  (forall write_options dm st nls nlds last db (w : @Writer WriteBatch)
          others,
      Forall (fun x => ok (callback_status x) = true) (w :: others) ->
      two_write_queues_ opts = true -> ok st = true ->
      let r := WriteImpl_after_preprocess opts env write_options dm st nls
                 nlds last db w others in
      last_allocated_sequence_ (versions_ (wr_db r))
      = wrap64 (last_allocated_sequence_ (versions_ db)
                + total_consumed opts (w :: others))
      /\ (disableWAL write_options = true ->
          Forall (fun e => is_wal_append e = false) (wr_events r))) /\
  (forall q write_options ao pls dm st db (w : @Writer WriteBatch) others,
      ok st = true ->
      let r := WriteImplWALOnly_after_preprocess opts env q write_options ao
                 pls dm st db w others in
      last_allocated_sequence_ (versions_ (wr_db r))
      = wrap64 (last_allocated_sequence_ (versions_ db)
                + match ao with
                  | kDoAssignOrder => total_batches_used (w :: others)
                  | kDontAssignOrder => 0
                  end)
      /\ (disableWAL write_options = true ->
          Forall (fun e => is_wal_append e = false) (wr_events r))).
Proof.
  split.
  - intros write_options dm st nls nlds last db w others Hfresh Htwo Hst.
    unfold WriteImpl_after_preprocess. cbv zeta. rewrite Hst.
    set (db1 := set_last_batch_group_size_ (EnterAsBatchGroupLeader env) db).
    destruct (commit_group_phases opts env write_options dm last nls nlds db1
                (w :: others)) as (Hwal & Hcb & Hmem & Hnone & Hv2 & _).
    destruct (Hv2 Htwo) as [Hver _].
    rewrite leader_finish_last_allocated.
    destruct (leader_finish_events opts env nls w true
                (commit_group opts env write_options dm last nls nlds db1
                   (w :: others))) as (fin & Hev & Hfin).
    split.
    + rewrite Hver, (commit_group_increment write_options dm last nls nlds
                       db1 (w :: others) Hfresh).
      cbn [FetchAddLastAllocatedSequence snd last_allocated_sequence_].
      rewrite wrap64_add_r. reflexivity.
    + intros Hdis. rewrite Hev, (Hnone Hdis). simpl.
      constructor; [reflexivity|].
      repeat (apply Forall_app; split).
      * eapply Forall_weaken; [|exact Hcb]. intros e; destruct e; easy.
      * eapply Forall_weaken; [|exact Hmem]. intros e; destruct e; easy.
      * eapply Forall_weaken; [|exact Hfin]. intros e; destruct e; easy.
  - intros q write_options ao pls dm st db w others Hst. cbv zeta.
    destruct (WriteImplWALOnly_after_preprocess_result opts env q
                write_options ao pls dm st db w others Hst)
      as (g1 & xs & _ & Hinc & _ & _ & Hla & _).
    cbv zeta in Hinc, Hla.
    split.
    + rewrite Hla, Hinc. destruct ao; [reflexivity|].
      change 0 with (wrap64 0) at 1.
      rewrite total_batch_cnt_spec, total_batches_used_checked.
      rewrite wrap64_add_r. reflexivity.
    + intros Hdis.
      unfold WriteImplWALOnly_after_preprocess. rewrite Hst. cbn [negb].
      cbv zeta.
      set (checked := check_group_wal_only (w :: others) 0).
      set (seq_inc := match ao with
                      | kDontAssignOrder => 0
                      | kDoAssignOrder => total_batch_cnt (fst checked) 0
                      end).
      destruct (wal_only_phase_spec env write_options db (fst checked)
                  seq_inc) as (_ & _ & Hoff & _).
      destruct (Hoff Hdis) as (Hev & Hio & _).
      generalize dependent (wal_only_phase env write_options db
                              (fst checked) seq_inc).
      intros wal Hoff Hev Hio.
      cbn [wr_events].
      rewrite Hdis, Hev. cbn [negb].
      set (g2 := fst (assign_order_loop ao (wal_group wal) _ 0)).
      destruct (wal_only_sync_events opts env write_options st) as [Hsync _].
      set (synced := wal_only_sync opts env write_options st) in *.
      set (called := if ok (fst synced)
                     then pre_release_loop dm (snd checked) g2 0 0
                     else (fst synced, [])).
      assert (Hcalled : Forall (fun e => is_pre_release e = true)
                               (snd called)).
      { unfold called. destruct (ok (fst synced)); [|constructor].
        apply pre_release_loop_events. }
      simpl. constructor; [reflexivity|].
      repeat (apply Forall_app; split).
      * eapply Forall_weaken; [|exact Hsync]. intros e; destruct e; easy.
      * unfold IOStatusCheck, WriteStatusCheck.
        repeat match goal with
               | |- context [if ?c then _ else _] => destruct c
               end; repeat constructor.
      * eapply Forall_weaken; [|exact Hcalled]. intros e; destruct e; easy.
      * repeat constructor.
Qed.

End UnloggedGroups.

(** A group of three writers written with the WAL disabled and two write
    queues: the second writer's pre-commit callback fails, the two others
    use up one sequence each. *)
Lemma disable_wal_still_allocates_witness :
  last_allocated_sequence_
    (versions_ (wr_db (WriteImpl_after_preprocess two_queue_options calm
                         no_wal_write_options false OK false false
                         kMaxSequenceNumber fresh_db unlogged_put
                         [conflicting_put; unlogged_put])))
  = 2
  /\ Forall (fun e => is_wal_append e = false)
            (wr_events (WriteImpl_after_preprocess two_queue_options calm
                          no_wal_write_options false OK false false
                          kMaxSequenceNumber fresh_db unlogged_put
                          [conflicting_put; unlogged_put])).
Proof.
  assert (Hfresh : Forall (fun x : @Writer Batch =>
                             ok (callback_status x) = true)
                          [unlogged_put; conflicting_put; unlogged_put])
    by (repeat constructor).
  destruct (proj1 (disable_wal_still_allocates two_queue_options calm)
              no_wal_write_options false OK false false kMaxSequenceNumber
              fresh_db unlogged_put [conflicting_put; unlogged_put]
              Hfresh eq_refl eq_refl) as [Hla Hev].
  split.
  - rewrite Hla. reflexivity.
  - apply Hev. reflexivity.
Defined.

(** ** The pre-release callbacks of a group of two writers *)



(** ** A call of GetToken among other threads *)

Section CallFacts.
Import TaskLimiter.

Lemma run_app sched1 sched2 : forall s,
  run s (sched1 ++ sched2)
  = match run s sched1 with
    | Some s' => run s' sched2
    | None => None
    end.
Proof.
  induction sched1 as [|[t a] rest IH]; intros s; simpl; [reflexivity|].
  destruct (sys_step s t a); [apply IH|reflexivity].
Qed.

Lemma update_nth_other {A} (f : A -> A) (l : list A) : forall t tid,
  t <> tid -> nth_error (update_nth t f l) tid = nth_error l tid.
Proof.
  induction l as [|x r IH]; intros [|t] [|tid] H; simpl; try reflexivity.
  - now elim H.
  - apply IH. congruence.
Qed.

Lemma update_nth_same {A} (f : A -> A) (l : list A) : forall tid x,
  nth_error l tid = Some x ->
  nth_error (update_nth tid f l) tid = Some (f x).
Proof.
  induction l as [|y r IH]; intros [|tid] x H; simpl in *; try discriminate.
  - injection H as <-. reflexivity.
  - apply IH. exact H.
Qed.

(** The actions of the other threads leave the call of a thread where it
    is, and its tokens with it. *)
Lemma sys_step_other s t a s' tid :
  t <> tid -> sys_step s t a = Some s' ->
  nth_error (threads s') tid = nth_error (threads s) tid.
Proof.
  intros Ht. destruct a as [force|sp|k|limit|]; simpl.
  - destruct (nth_error (threads s) t) as [[[f|] h]|];
      intros H; injection H as <-; try reflexivity.
    apply update_nth_other. exact Ht.
  - destruct (nth_error (threads s) t) as [[[f|] h]|];
      try (intros H; injection H as <-; reflexivity).
    destruct (GetToken_step sp (lim s) f) as [l' p].
    intros H; injection H as <-. apply update_nth_other. exact Ht.
  - destruct (nth_error (threads s) t) as [[c h]|];
      [|intros H; injection H as <-; reflexivity].
    destruct (nth_error h k);
      [|intros H; injection H as <-; reflexivity].
    match goal with
    | |- context [if ?c then _ else _] => destruct c
    end; [|discriminate].
    intros H; injection H as <-. apply update_nth_other. exact Ht.
  - intros H; injection H as <-. reflexivity.
  - intros H; injection H as <-. reflexivity.
Qed.

Lemma run_others tid sched : forall s s',
  Forall (fun x => fst x <> tid) sched ->
  run s sched = Some s' ->
  nth_error (threads s') tid = nth_error (threads s) tid.
Proof.
  induction sched as [|[t a] rest IH]; intros s s' Hf; simpl.
  - intros H; injection H as <-. reflexivity.
  - inversion Hf as [|x l Hx Hl]; subst. simpl in Hx.
    destruct (sys_step s t a) as [s1|] eqn:E; [|discriminate].
    intros H. rewrite (IH s1 s' Hl H). eapply sys_step_other; eassumption.
Qed.

(** An access of a thread inside a call is a step of GetToken on the
    limiter as it is. *)
Lemma sys_step_own s tid f h sp s' :
  nth_error (threads s) tid = Some (mkThread (Some f) h) ->
  sys_step s tid (Step sp) = Some s' ->
  lim s' = fst (GetToken_step sp (lim s) f) /\
  nth_error (threads s') tid
  = Some (match snd (GetToken_step sp (lim s) f) with
          | Returned (Some tok) => mkThread None (tok :: h)
          | Returned None => mkThread None h
          | Continue f' => mkThread (Some f') h
          end).
Proof.
  intros Ht. simpl. rewrite Ht.
  destruct (GetToken_step sp (lim s) f) as [l' p].
  intros H; injection H as <-. simpl. split; [reflexivity|].
  erewrite update_nth_same by exact Ht. reflexivity.
Qed.

(** A step of GetToken that does not end the call leaves the limiter as
    it is. *)
Lemma GetToken_step_continue sp l f l' f' :
  GetToken_step sp l f = (l', Continue f') -> l' = l /\ f' = next_frame f l.
Proof.
  destruct f as [force|force limit|force limit tasks]; simpl.
  - intros H; injection H as <- <-. auto.
  - intros H; injection H as <- <-. auto.
  - destruct (loop_test force limit tasks); [|discriminate].
    destruct ((outstanding_tasks_ l =? tasks) && negb sp); [discriminate|].
    intros H; injection H as <- <-. auto.
Qed.

Lemma call_run_idle tid accesses : forall s h s' found,
  nth_error (threads s) tid = Some (mkThread None h) ->
  Forall (fun a => Forall (fun x => fst x <> tid) (interference a)) accesses ->
  call_run s tid accesses = Some (s', found) ->
  nth_error (threads s') tid = Some (mkThread None h).
Proof.
  induction accesses as [|a rest IH]; intros s h s' found Ht Hf;
    cbn [call_run].
  - intros H; injection H as <- _. exact Ht.
  - inversion Hf as [|x l Ha Hrest]; subst.
    destruct (run s (interference a)) as [s1|] eqn:E1; [|discriminate].
    pose proof (run_others tid _ _ _ Ha E1) as H1. rewrite Ht in H1.
    destruct (sys_step s1 tid (Step (spurious_failure a))) as [s2|] eqn:E2;
      [|discriminate].
    assert (H2 : s2 = s1).
    { simpl in E2. rewrite H1 in E2. injection E2 as <-. reflexivity. }
    subst s2.
    destruct (call_run s1 tid rest) as [[s3 fd]|] eqn:E3; [|discriminate].
    intros H; injection H as <- _. eapply IH; eassumption.
Qed.

(** While the call is in progress, each of its accesses has left the
    limiter as it found it, and the control point follows the limiters
    found. *)
Lemma call_run_in_call tid accesses : forall s f h s' found,
  nth_error (threads s) tid = Some (mkThread (Some f) h) ->
  Forall (fun a => Forall (fun x => fst x <> tid) (interference a)) accesses ->
  call_run s tid accesses = Some (s', found) ->
  in_call s' tid = true ->
  nth_error (threads s') tid
  = Some (mkThread (Some (fold_left next_frame (map fst found) f)) h) /\
  Forall (fun p => snd p = fst p) found.
Proof.
  induction accesses as [|a rest IH]; intros s f h s' found Ht Hf;
    cbn [call_run].
  - intros H _; injection H as <- <-. simpl. split; [exact Ht|constructor].
  - inversion Hf as [|x l Ha Hrest]; subst.
    destruct (run s (interference a)) as [s1|] eqn:E1; [|discriminate].
    pose proof (run_others tid _ _ _ Ha E1) as H1. rewrite Ht in H1.
    destruct (sys_step s1 tid (Step (spurious_failure a))) as [s2|] eqn:E2;
      [|discriminate].
    destruct (sys_step_own s1 tid f h (spurious_failure a) s2 H1 E2)
      as [Hl Hth].
    destruct (call_run s2 tid rest) as [[s3 fd]|] eqn:E3; [|discriminate].
    intros H Hin; injection H as <- <-.
    destruct (GetToken_step (spurious_failure a) (lim s1) f) as [l' p]
      eqn:Es.
    simpl in Hl, Hth.
    destruct p as [f'|r].
    + destruct (GetToken_step_continue _ _ _ _ _ Es) as [-> ->].
      destruct (IH s2 _ h s3 fd Hth Hrest E3 Hin) as [Hfin Hall].
      simpl. split; [exact Hfin|].
      constructor; [simpl; exact Hl|exact Hall].
    + exfalso.
      assert (Hidle : exists h', nth_error (threads s2) tid
                                 = Some (mkThread None h'))
        by (destruct r; eauto).
      destruct Hidle as [h' Hidle].
      pose proof (call_run_idle tid rest s2 h' s3 fd Hidle Hrest E3) as H3.
      unfold in_call in Hin. rewrite H3 in Hin. discriminate.
Qed.

Lemma call_run_run tid accesses : forall s s' found,
  call_run s tid accesses = Some (s', found) ->
  run s (call_sched tid accesses) = Some s'.
Proof.
  induction accesses as [|a rest IH]; intros s s' found; cbn [call_run].
  - intros H; injection H as <- _. reflexivity.
  - unfold call_sched. cbn [map concat]. fold (call_sched tid rest).
    rewrite <- app_assoc, run_app.
    destruct (run s (interference a)) as [s1|]; [|discriminate].
    cbn [app run].
    destruct (sys_step s1 tid (Step (spurious_failure a))) as [s2|];
      [|discriminate].
    destruct (call_run s2 tid rest) as [[s3 fd]|] eqn:E3; [|discriminate].
    intros H; injection H as <- _. eapply IH; eassumption.
Qed.

Lemma fold_next_frame_keeps ls : forall f c,
  frame_limit f = Some c ->
  frame_limit (fold_left next_frame ls f) = Some c /\
  frame_force (fold_left next_frame ls f) = frame_force f.
Proof.
  induction ls as [|l r IH]; intros f c Hf; simpl; [auto|].
  destruct (IH (next_frame f l) c) as [H1 H2].
  - destruct f; simpl in *; congruence.
  - split; [exact H1|]. rewrite H2. destruct f; reflexivity.
Qed.

(** The control point of a call that has reached the loop: the cap is the
    one found at the first access, the count the one found at the last. *)
Lemma loop_frame force (ls : list ConcurrentTaskLimiterImpl) fo li ta :
  fold_left next_frame ls (AtEntry force) = AtLoop fo li ta ->
  exists l_cap middle l_read,
    ls = l_cap :: middle ++ [l_read] /\
    fo = force /\ li = max_outstanding_tasks_ l_cap /\
    ta = outstanding_tasks_ l_read.
Proof.
  induction ls as [|x m _] using rev_ind; [discriminate|].
  rewrite fold_left_app. simpl.
  destruct m as [|l_cap rest]; [discriminate|].
  simpl.
  destruct (fold_next_frame_keeps rest
              (LimitLoaded force (max_outstanding_tasks_ l_cap))
              (max_outstanding_tasks_ l_cap) eq_refl) as [Hlim Hforce].
  simpl in Hforce.
  destruct (fold_left next_frame rest _) as [f1|f1 l1|f1 l1 t1];
    simpl in *; try discriminate;
    intros H; injection H as <- <- <-; injection Hlim as ->;
    exists l_cap, rest, x; auto.
Qed.

(** The control point of a call that has loaded the cap and read the
    count. *)
Lemma frame_at_loop force l_cap middle l_read :
  fold_left next_frame (l_cap :: middle ++ [l_read]) (AtEntry force)
  = AtLoop force (max_outstanding_tasks_ l_cap) (outstanding_tasks_ l_read).
Proof.
  cbn [fold_left next_frame]. rewrite fold_left_app. cbn [fold_left].
  destruct (fold_next_frame_keeps middle
              (LimitLoaded force (max_outstanding_tasks_ l_cap))
              (max_outstanding_tasks_ l_cap) eq_refl) as [Hlim Hforce].
  simpl in Hforce.
  destruct (fold_left next_frame middle _) as [f1|f1 l1|f1 l1 t1];
    simpl in *; try discriminate;
    injection Hlim as ->; subst f1; reflexivity.
Qed.

(** C8. A call of GetToken(force) by a thread, while other threads call
    GetToken themselves, destroy tokens and change the cap between its
    atomic accesses, and whatever compare-exchange fails spuriously.  Once
    the call has loaded the cap and read the count, its next access ends
    it exactly when the loop test fails on the cap it loaded and the count
    it last read (at its load, or at its last failed compare-exchange), or
    the counter still holds that count and the compare-exchange does not
    fail spuriously.  When the call returns, it returns a token if and only
    if force is set, or the cap it loaded is negative, or the count it last
    read is below that cap.  When a token is returned, the counter still
    held the count last read and the access has added exactly one to it;
    when none is returned, the access has left the limiter as it was; and
    each access before the last has left the limiter as it found it.  (The
    count is an int32 below INT32_MAX, so that the increment does not
    overflow.) *)
Theorem GetToken_token_iff (s : system) (tid : nat) (force : bool)
    (h : list TaskLimiterToken) (pre : list access) (last : access)
    (s_in s_prev s_last s_end : system)
    (found : list (ConcurrentTaskLimiterImpl * ConcurrentTaskLimiterImpl)) :
  nth_error (threads s) tid = Some (mkThread None h) ->
  Forall (fun a => Forall (fun x => fst x <> tid) (interference a))
         (pre ++ [last]) ->
  sys_step s tid (Call force) = Some s_in ->
  call_run s_in tid pre = Some (s_prev, found) ->
  in_call s_prev tid = true ->
  run s_prev (interference last) = Some s_last ->
  sys_step s_last tid (Step (spurious_failure last)) = Some s_end ->
  INT32_MIN <= outstanding_tasks_ (lim s_last) < INT32_MAX ->
  run s ((tid, Call force) :: call_sched tid (pre ++ [last])) = Some s_end /\
  Forall (fun p => snd p = fst p) found /\
  (forall l_cap middle l_read,
      map fst found = l_cap :: middle ++ [l_read] ->
      (in_call s_end tid = false <->
       loop_test force (max_outstanding_tasks_ l_cap)
         (outstanding_tasks_ l_read) = false
       \/ (outstanding_tasks_ (lim s_last) = outstanding_tasks_ l_read
           /\ spurious_failure last = false))) /\
  (in_call s_end tid = true ->
   lim s_end = lim s_last /\ tokens_of s_end tid = h) /\
  (in_call s_end tid = false ->
   exists l_cap middle l_read returned,
     map fst found = l_cap :: middle ++ [l_read] /\
     tokens_of s_end tid
     = match returned with Some tok => tok :: h | None => h end /\
     (returned <> None <->
      force = true \/ max_outstanding_tasks_ l_cap < 0 \/
      outstanding_tasks_ l_read < max_outstanding_tasks_ l_cap) /\
     (returned <> None ->
      returned = Some (mkToken (name_ (lim s_last))) /\
      outstanding_tasks_ (lim s_last) = outstanding_tasks_ l_read /\
      outstanding_tasks_ (lim s_end) = outstanding_tasks_ (lim s_last) + 1 /\
      max_outstanding_tasks_ (lim s_end)
      = max_outstanding_tasks_ (lim s_last)) /\
     (returned = None -> lim s_end = lim s_last)).
Proof.
  intros Hidle Hothers Hcall Hpre Hin Hlast Hstep Hrange.
  apply Forall_app in Hothers. destruct Hothers as [Hopre Holast].
  inversion Holast as [|x l Hol _]; subst.
  assert (Hs_in : nth_error (threads s_in) tid
                  = Some (mkThread (Some (AtEntry force)) h)).
  { simpl in Hcall. rewrite Hidle in Hcall. injection Hcall as <-.
    simpl. erewrite update_nth_same by exact Hidle. reflexivity. }
  destruct (call_run_in_call tid pre s_in _ h s_prev found Hs_in Hopre Hpre
              Hin) as [Hprev Hkept].
  pose proof (run_others tid _ _ _ Hol Hlast) as Hth. rewrite Hprev in Hth.
  destruct (sys_step_own s_last tid _ h (spurious_failure last) s_end Hth
              Hstep) as [Hl Hend].
  split.
  { cbn [run]. rewrite Hcall. unfold call_sched.
    rewrite map_app, concat_app.
    fold (call_sched tid pre). rewrite run_app.
    rewrite (call_run_run tid pre s_in s_prev found Hpre).
    cbn [map concat]. rewrite app_nil_r, run_app, Hlast. cbn [run].
    rewrite Hstep. reflexivity. }
  split; [exact Hkept|].
  split.
  { intros l_cap middle l_read Hfound.
    rewrite Hfound, frame_at_loop in Hend.
    unfold in_call. rewrite Hend. cbn [GetToken_step snd].
    destruct (loop_test force (max_outstanding_tasks_ l_cap)
                (outstanding_tasks_ l_read)).
    - destruct (outstanding_tasks_ (lim s_last) =? outstanding_tasks_ l_read)
        eqn:Ec; cbn [andb].
      + apply Z.eqb_eq in Ec.
        destruct (spurious_failure last); cbn [negb snd].
        * split; [discriminate|]. intros [H|[_ H]]; discriminate.
        * split; [auto|reflexivity].
      + apply Z.eqb_neq in Ec. cbn [snd].
        split; [discriminate|]. intros [H|[H _]]; [discriminate|].
        now elim Ec.
    - cbn [snd]. split; [auto|reflexivity]. }
  destruct (GetToken_step (spurious_failure last) (lim s_last)
              (fold_left next_frame (map fst found) (AtEntry force)))
    as [l' p] eqn:Es.
  simpl in Hl, Hend.
  destruct p as [f'|r].
  { destruct (GetToken_step_continue _ _ _ _ _ Es) as [-> ->].
    split.
    - intros _. split; [exact Hl|]. unfold tokens_of. rewrite Hend.
      reflexivity.
    - unfold in_call. rewrite Hend. discriminate. }
  split.
  { unfold in_call. rewrite Hend. destruct r; discriminate. }
  intros _.
  destruct (fold_left next_frame (map fst found) (AtEntry force))
    as [fo|fo li|fo li ta] eqn:Ef; try discriminate.
  destruct (loop_frame force _ fo li ta Ef)
    as (l_cap & middle & l_read & Hfound & -> & -> & ->).
  exists l_cap, middle, l_read, r.
  split; [exact Hfound|].
  split; [unfold tokens_of; rewrite Hend; destruct r; reflexivity|].
  pose proof (loop_test_spec force (max_outstanding_tasks_ l_cap)
                (outstanding_tasks_ l_read)) as Ht.
  destruct r as [tok|].
  - destruct (GetToken_step_token _ _ _ _ _ _ _ Es) as (Htest & Hsame & Hinc).
    split; [split; [intros _; apply Ht; exact Htest|discriminate]|].
    split; [|discriminate].
    intros _. rewrite Hl.
    simpl in Es. rewrite Htest in Es.
    destruct ((outstanding_tasks_ (lim s_last) =? outstanding_tasks_ l_read)
              && negb (spurious_failure last)); [|discriminate].
    injection Es as <- <-. simpl.
    split; [reflexivity|]. split; [exact Hsame|]. split; [|reflexivity].
    rewrite <- Hsame. apply wrap32_small.
    unfold INT32_MIN, INT32_MAX in *. lia.
  - destruct (GetToken_step_no_token _ _ _ _ _ _ Es) as (Htest & ->).
    split.
    + split; [intros H; now elim H|].
      intros H. apply Ht in H. congruence.
    + split; [intros H; now elim H|]. intros _. exact Hl.
Qed.

End CallFacts.

(** Two threads and a cap of one.  The first thread loads the cap and
    the count, 0; the second thread then takes the only token; the
    compare-exchange of the first thread fails and reads the count 1, and
    its call returns no token, though the count was below the cap when the
    call began. *)
Lemma GetToken_token_iff_witness :
  exists s_end,
    TaskLimiter.run (TaskLimiter.init "compaction" 1 2)
      ((0%nat, TaskLimiter.Call false)
       :: call_sched 0
            [mkAccess [] false;
             mkAccess [] false;
             mkAccess [(1%nat, TaskLimiter.Call false);
                       (1%nat, TaskLimiter.Step false);
                       (1%nat, TaskLimiter.Step false);
                       (1%nat, TaskLimiter.Step false)] false;
             mkAccess [] false])
    = Some s_end /\
    tokens_of s_end 0 = [] /\
    tokens_of s_end 1 = [TaskLimiter.mkToken "compaction"] /\
    TaskLimiter.outstanding_tasks_ (TaskLimiter.lim s_end) = 1.
Proof.
  pose (idle := TaskLimiter.mkThread None []).
  pose (owner := TaskLimiter.mkThread None [TaskLimiter.mkToken "compaction"]).
  pose (full := TaskLimiter.mkLimiter "compaction" 1 1).
  pose (free := TaskLimiter.mkLimiter "compaction" 1 0).
  pose (s_in := TaskLimiter.mkSystem free
                  [TaskLimiter.mkThread (Some (TaskLimiter.AtEntry false)) [];
                   idle]).
  pose (s_prev := TaskLimiter.mkSystem full
                    [TaskLimiter.mkThread
                       (Some (TaskLimiter.AtLoop false 1 1)) [];
                     owner]).
  pose (s_end := TaskLimiter.mkSystem full [idle; owner]).
  destruct (GetToken_token_iff (TaskLimiter.init "compaction" 1 2) 0%nat
              false []
              [mkAccess [] false;
               mkAccess [] false;
               mkAccess [(1%nat, TaskLimiter.Call false);
                         (1%nat, TaskLimiter.Step false);
                         (1%nat, TaskLimiter.Step false);
                         (1%nat, TaskLimiter.Step false)] false]
              (mkAccess [] false) s_in s_prev s_prev s_end
              [(free, free); (free, free); (full, full)])
    as (Hrun & _ & _ & _ & Hret).
  - reflexivity.
  - repeat constructor; simpl; discriminate.
  - reflexivity.
  - vm_compute. reflexivity.
  - reflexivity.
  - reflexivity.
  - reflexivity.
  - vm_compute. split; [discriminate|reflexivity].
  - destruct (Hret eq_refl)
      as (l_cap & middle & l_read & returned & Hfound & Htok & Hiff & _
          & Hnone).
    exists s_end. split; [exact Hrun|].
    cbn [map fst] in Hfound. injection Hfound as <- Hrest.
    change [?a; ?b] with ([a] ++ [b]) in Hrest.
    apply app_inj_tail in Hrest. destruct Hrest as [_ <-].
    cbn in Hiff.
    destruct returned as [tok|].
    + exfalso.
      assert (Hsome : Some tok <> None) by discriminate.
      destruct (proj1 Hiff Hsome) as [H|[H|H]]; [discriminate|lia|lia].
    + split; [exact Htok|]. split; [reflexivity|reflexivity].
Defined.
